(** * The tiled image cache of OpenImageIO (src/libtexture/imagecache.cpp)

    A shallow embedding of the cache engine: the file record and its lazy
    open, the file table with its fingerprint index and open-file sweep,
    the tile record, the tile table with its memory sweep, the per-thread
    microcache and the public queries.  State is passed explicitly; the
    image readers, the texture helpers and the pixel converters are
    collaborators of the cache and enter through the record [External].

    Conventions.
    - A C++ [int] is a [Z]; [/] and [%] are [Z.quot] and [Z.rem].  Signed
      overflow is undefined in the source and is not modelled.
    - A [float] is a binary32 value of [spec_float], with the operations of
      [SpecFloat] at precision 24 and exponent bound 128.
    - Objects that are shared through pointers (file records, tiles) live in
      a store indexed by their address; tables and microcache slots hold
      addresses.
    - Both tables are hash maps in the source.  The model keeps them as
      association lists in iteration order (a new key goes to the end) and a
      sweep iterator is [None] for [end()] and [Some i] for the i-th entry.
    - Timers, the I/O byte statistics and the two camera matrices of a file
      record are left out. *)

From Stdlib Require Import ZArith Lia SpecFloat.
From stdpp Require Import gmap strings list.

Open Scope Z_scope.

(** ** Strings *)

Definition ustring := string.

(** The double-quote character, used in error messages. *)
Definition dquote : string := String (Ascii.ascii_of_nat 34) EmptyString.

Definition quoted (s : string) : string := dquote +:+ s +:+ dquote.

(** [std::string::rfind]: the position of the last occurrence of [pat]. *)
Fixpoint rfind_from (pat s : string) (pos : nat) : option nat :=
  match s with
  | EmptyString => if String.prefix pat s then Some pos else None
  | String _ rest =>
      match rfind_from pat rest (S pos) with
      | Some i => Some i
      | None => if String.prefix pat s then Some pos else None
      end
  end.

Definition rfind (pat s : string) : option nat := rfind_from pat s 0.

(** ** TypeDesc *)

(** Modelled from the spec: the pixel format of a specification and the
    type of an attribute, [TypeDesc] of [typedesc.h], which is not among the
    sources.  The model keeps the fields the cache reads: the base type,
    the aggregate and the array length. *)

Inductive BASETYPE :=
  | UNKNOWN | NONE | UINT8 | INT8 | UINT16 | INT16 | UINT | INT
  | HALF | FLOAT | DOUBLE | STRING | PTR.

Inductive AGGREGATE := SCALAR | VEC2 | VEC3 | VEC4 | MATRIX44.

Record TypeDesc := mkTypeDesc {
  basetype : BASETYPE;
  aggregate : AGGREGATE;
  arraylen : Z
}.

#[global] Instance BASETYPE_eq_dec : EqDecision BASETYPE.
Proof. solve_decision. Defined.
#[global] Instance AGGREGATE_eq_dec : EqDecision AGGREGATE.
Proof. solve_decision. Defined.
#[global] Instance TypeDesc_eq_dec : EqDecision TypeDesc.
Proof. solve_decision. Defined.

Definition TypeDesc_eqb (a b : TypeDesc) : bool := bool_decide (a = b).

Definition scalar (b : BASETYPE) : TypeDesc := mkTypeDesc b SCALAR 0.
Definition TypeString := scalar STRING.
Definition TypeInt := scalar INT.
Definition TypeFloat := scalar FLOAT.
Definition PT_MATRIX := mkTypeDesc FLOAT MATRIX44 0.

Definition basesize (b : BASETYPE) : Z :=
  match b with
  | UNKNOWN | NONE => 0
  | UINT8 | INT8 => 1
  | UINT16 | INT16 | HALF => 2
  | UINT | INT | FLOAT => 4
  | DOUBLE | STRING | PTR => 8
  end.

Definition aggregate_count (a : AGGREGATE) : Z :=
  match a with SCALAR => 1 | VEC2 => 2 | VEC3 => 3 | VEC4 => 4 | MATRIX44 => 16 end.

(** Modelled from the spec: the number of base values of a type and its
    size in bytes ([channel_bytes] for a pixel format). *)
Definition numelements (t : TypeDesc) : Z := Z.max 1 (arraylen t).
Definition TypeDesc_size (t : TypeDesc) : Z :=
  basesize (basetype t) * aggregate_count (aggregate t) * numelements t.

(** ** binary32 values *)

Definition float := spec_float.
Definition prec32 : Z := 24.
Definition emax32 : Z := 128.

Definition fmul (a b : float) : float := SFmul prec32 emax32 a b.

(** Conversion of an [int] to [float] (round to nearest even). *)
Definition int_to_float (i : Z) : float := binary_normalize prec32 emax32 i 0 false.

Definition float_1024 : float := int_to_float 1024.

(** The integer part of a finite value, rounded toward zero. *)
Definition float_trunc (f : float) : option Z :=
  match f with
  | S754_zero _ => Some 0
  | S754_finite sg m e =>
      let a := if 0 <=? e then Z.pos m * 2 ^ e else Z.pos m / 2 ^ (- e) in
      Some (if sg then - a else a)
  | _ => None
  end.

Definition INT_MIN : Z := - 2 ^ 31.
Definition INT_MAX : Z := 2 ^ 31 - 1.

(** The cast [(int) f].  It is defined only when the truncated value is an
    [int]; for any other operand (out of range, infinite, not a number) the
    language leaves the conversion undefined and the model answers [None]. *)
Definition float_to_int (f : float) : option Z :=
  match float_trunc f with
  | Some t => if (INT_MIN <=? t) && (t <=? INT_MAX) then Some t else None
  | None => None
  end.

(** The 32 bits of a binary32 value, read back as an [int]. *)
Definition float_bits (f : float) : Z :=
  let wrap u := if u <? 2 ^ 31 then u else u - 2 ^ 32 in
  let sign (sg : bool) := if sg then 2 ^ 31 else 0 in
  match f with
  | S754_zero sg => wrap (sign sg)
  | S754_infinity sg => wrap (sign sg + 255 * 2 ^ 23)
  | S754_nan => wrap (255 * 2 ^ 23 + 2 ^ 22)
  | S754_finite sg m e =>
      if Z.pos m <? 2 ^ 23 then wrap (sign sg + Z.pos m)
      else wrap (sign sg + (e + 150) * 2 ^ 23 + (Z.pos m - 2 ^ 23))
  end.

(** ** Attribute values and image specifications *)

(** Modelled from the spec: the per-subimage image specification (data and
    full-image window, tile extents, channels, pixel format, metadata
    attributes), [ImageSpec] and [ImageIOParameter] of [imageio.h], which
    is not among the sources.  An attribute value is a list of typed cells;
    a pixel buffer is a list of bytes. *)

Inductive cell :=
  | IntCell (i : Z)
  | FloatCell (f : float)
  | StrCell (s : string).

(** [((int * ) p)[i]]: a cell read through an [int] pointer. *)
Definition cell_as_int (c : cell) : Z :=
  match c with
  | IntCell i => i
  | FloatCell f => float_bits f
  | StrCell _ => 0
  end.

Record ImageIOParameter := mkParam {
  p_name : string;
  p_type : TypeDesc;
  p_data : list cell
}.

Record ImageSpec := mkImageSpec {
  spec_x : Z; spec_y : Z; spec_z : Z;
  width : Z; height : Z; depth : Z;
  full_width : Z; full_height : Z;
  tile_width : Z; tile_height : Z; tile_depth : Z;
  nchannels : Z;
  format : TypeDesc;
  extra_attribs : list ImageIOParameter
}.

(** Modelled from the spec: [ImageSpec::find_attribute (name, searchtype)]
    of the image I/O library, which is not among the sources; the cache
    uses it to look up a metadata attribute found in the spec by its name,
    optionally of a given type. *)
Definition find_attribute (name : string) (searchtype : option TypeDesc)
    (s : ImageSpec) : option ImageIOParameter :=
  List.find (fun p =>
      String.eqb (p_name p) name &&
      match searchtype with
      | None => true
      | Some t => TypeDesc_eqb (p_type p) t
      end) (extra_attribs s).

(** Modelled from the spec: [ImageSpec::get_string_attribute (name)] of the
    image I/O library: the string value of the attribute, the empty string
    when there is none. *)
Definition get_string_attribute (name : string) (s : ImageSpec) : string :=
  match find_attribute name (Some TypeString) s with
  | Some p => match p_data p with StrCell v :: _ => v | _ => "" end
  | None => ""
  end.

(** Modelled from the spec: [pow2roundup] of [fmath.h], which is not among
    the sources: the next power of two that is at least [v], as an [int];
    0 stays 0, the value that switches auto-tiling off.  The largest power
    of two an [int] holds is [2^30]: above it the result wraps to
    [INT_MIN]. *)
Definition pow2roundup (v : Z) : Z :=
  if v <=? 0 then 0
  else if 2 ^ 30 <? v then - 2 ^ 31
  else 2 ^ Z.log2_up v.

Definition set_width (v : Z) (s : ImageSpec) : ImageSpec :=
  {| spec_x := spec_x s; spec_y := spec_y s; spec_z := spec_z s; width := v;
     height := height s; depth := depth s; full_width := full_width s;
     full_height := full_height s; tile_width := tile_width s;
     tile_height := tile_height s; tile_depth := tile_depth s;
     nchannels := nchannels s; format := format s;
     extra_attribs := extra_attribs s |}.

Definition set_height (v : Z) (s : ImageSpec) : ImageSpec :=
  {| spec_x := spec_x s; spec_y := spec_y s; spec_z := spec_z s;
     width := width s; height := v; depth := depth s;
     full_width := full_width s; full_height := full_height s;
     tile_width := tile_width s; tile_height := tile_height s;
     tile_depth := tile_depth s; nchannels := nchannels s; format := format s;
     extra_attribs := extra_attribs s |}.

Definition set_full_width (v : Z) (s : ImageSpec) : ImageSpec :=
  {| spec_x := spec_x s; spec_y := spec_y s; spec_z := spec_z s;
     width := width s; height := height s; depth := depth s; full_width := v;
     full_height := full_height s; tile_width := tile_width s;
     tile_height := tile_height s; tile_depth := tile_depth s;
     nchannels := nchannels s; format := format s;
     extra_attribs := extra_attribs s |}.

Definition set_full_height (v : Z) (s : ImageSpec) : ImageSpec :=
  {| spec_x := spec_x s; spec_y := spec_y s; spec_z := spec_z s;
     width := width s; height := height s; depth := depth s;
     full_width := full_width s; full_height := v; tile_width := tile_width s;
     tile_height := tile_height s; tile_depth := tile_depth s;
     nchannels := nchannels s; format := format s;
     extra_attribs := extra_attribs s |}.

Definition set_tile_width (v : Z) (s : ImageSpec) : ImageSpec :=
  {| spec_x := spec_x s; spec_y := spec_y s; spec_z := spec_z s;
     width := width s; height := height s; depth := depth s;
     full_width := full_width s; full_height := full_height s; tile_width := v;
     tile_height := tile_height s; tile_depth := tile_depth s;
     nchannels := nchannels s; format := format s;
     extra_attribs := extra_attribs s |}.

Definition set_tile_height (v : Z) (s : ImageSpec) : ImageSpec :=
  {| spec_x := spec_x s; spec_y := spec_y s; spec_z := spec_z s;
     width := width s; height := height s; depth := depth s;
     full_width := full_width s; full_height := full_height s;
     tile_width := tile_width s; tile_height := v; tile_depth := tile_depth s;
     nchannels := nchannels s; format := format s;
     extra_attribs := extra_attribs s |}.

Definition set_tile_depth (v : Z) (s : ImageSpec) : ImageSpec :=
  {| spec_x := spec_x s; spec_y := spec_y s; spec_z := spec_z s;
     width := width s; height := height s; depth := depth s;
     full_width := full_width s; full_height := full_height s;
     tile_width := tile_width s; tile_height := tile_height s; tile_depth := v;
     nchannels := nchannels s; format := format s;
     extra_attribs := extra_attribs s |}.

(** ** Texture enumerations *)

(** Modelled from the spec: the texture-format tag, the wrap modes and the
    cube-face layout of a file record, enumerations of [texture.h] and
    [imagecache_pvt.h], which are not among the sources. *)

Inductive TexFormat :=
  | TexFormatUnknown | TexFormatTexture | TexFormatTexture3d | TexFormatShadow
  | TexFormatCubeFaceShadow | TexFormatVolumeShadow | TexFormatLatLongEnv
  | TexFormatCubeFaceEnv.

(** The values below [TexFormatLast], in order. *)
Definition all_texformats : list TexFormat :=
  [TexFormatUnknown; TexFormatTexture; TexFormatTexture3d; TexFormatShadow;
   TexFormatCubeFaceShadow; TexFormatVolumeShadow; TexFormatLatLongEnv;
   TexFormatCubeFaceEnv].

Inductive Wrap := WrapDefault | WrapBlack | WrapClamp | WrapPeriodic | WrapMirror.

Inductive CubeLayout := CubeUnknown | CubeThreeByTwo | CubeOneBySix | CubeLast.

#[global] Instance TexFormat_eq_dec : EqDecision TexFormat.
Proof. solve_decision. Defined.
#[global] Instance Wrap_eq_dec : EqDecision Wrap.
Proof. solve_decision. Defined.
#[global] Instance CubeLayout_eq_dec : EqDecision CubeLayout.
Proof. solve_decision. Defined.

(** ** The file record, [ImageCacheFile]

    [m_input] is the reader handle: [None] when no reader is open, [Some i]
    for an open reader positioned on subimage [i].  [m_duplicate] is the
    address of the canonical record this one duplicates. *)

Record ImageCacheFile := mkFile {
  m_filename : ustring;
  m_used : bool;
  m_broken : bool;
  m_untiled : bool;
  m_unmipped : bool;
  m_input : option Z;
  m_spec : list ImageSpec;
  m_texformat : TexFormat;
  m_swrap : Wrap;
  m_twrap : Wrap;
  m_cubelayout : CubeLayout;
  m_y_up : bool;
  m_fileformat : ustring;
  m_fingerprint : ustring;
  m_datatype : TypeDesc;
  m_channelsize : Z;
  m_pixelsize : Z;
  m_eightbit : bool;
  m_tilesread : Z;
  m_timesopened : Z;
  m_mipused : bool;
  m_duplicate : option nat
}.

Definition set_m_filename (v : ustring) (f : ImageCacheFile) : ImageCacheFile :=
  {| m_filename := v; m_used := m_used f; m_broken := m_broken f;
     m_untiled := m_untiled f; m_unmipped := m_unmipped f;
     m_input := m_input f; m_spec := m_spec f; m_texformat := m_texformat f;
     m_swrap := m_swrap f; m_twrap := m_twrap f;
     m_cubelayout := m_cubelayout f; m_y_up := m_y_up f;
     m_fileformat := m_fileformat f; m_fingerprint := m_fingerprint f;
     m_datatype := m_datatype f; m_channelsize := m_channelsize f;
     m_pixelsize := m_pixelsize f; m_eightbit := m_eightbit f;
     m_tilesread := m_tilesread f; m_timesopened := m_timesopened f;
     m_mipused := m_mipused f; m_duplicate := m_duplicate f |}.

Definition set_m_used (v : bool) (f : ImageCacheFile) : ImageCacheFile :=
  {| m_filename := m_filename f; m_used := v; m_broken := m_broken f;
     m_untiled := m_untiled f; m_unmipped := m_unmipped f;
     m_input := m_input f; m_spec := m_spec f; m_texformat := m_texformat f;
     m_swrap := m_swrap f; m_twrap := m_twrap f;
     m_cubelayout := m_cubelayout f; m_y_up := m_y_up f;
     m_fileformat := m_fileformat f; m_fingerprint := m_fingerprint f;
     m_datatype := m_datatype f; m_channelsize := m_channelsize f;
     m_pixelsize := m_pixelsize f; m_eightbit := m_eightbit f;
     m_tilesread := m_tilesread f; m_timesopened := m_timesopened f;
     m_mipused := m_mipused f; m_duplicate := m_duplicate f |}.

Definition set_m_broken (v : bool) (f : ImageCacheFile) : ImageCacheFile :=
  {| m_filename := m_filename f; m_used := m_used f; m_broken := v;
     m_untiled := m_untiled f; m_unmipped := m_unmipped f;
     m_input := m_input f; m_spec := m_spec f; m_texformat := m_texformat f;
     m_swrap := m_swrap f; m_twrap := m_twrap f;
     m_cubelayout := m_cubelayout f; m_y_up := m_y_up f;
     m_fileformat := m_fileformat f; m_fingerprint := m_fingerprint f;
     m_datatype := m_datatype f; m_channelsize := m_channelsize f;
     m_pixelsize := m_pixelsize f; m_eightbit := m_eightbit f;
     m_tilesread := m_tilesread f; m_timesopened := m_timesopened f;
     m_mipused := m_mipused f; m_duplicate := m_duplicate f |}.

Definition set_m_untiled (v : bool) (f : ImageCacheFile) : ImageCacheFile :=
  {| m_filename := m_filename f; m_used := m_used f; m_broken := m_broken f;
     m_untiled := v; m_unmipped := m_unmipped f; m_input := m_input f;
     m_spec := m_spec f; m_texformat := m_texformat f; m_swrap := m_swrap f;
     m_twrap := m_twrap f; m_cubelayout := m_cubelayout f; m_y_up := m_y_up f;
     m_fileformat := m_fileformat f; m_fingerprint := m_fingerprint f;
     m_datatype := m_datatype f; m_channelsize := m_channelsize f;
     m_pixelsize := m_pixelsize f; m_eightbit := m_eightbit f;
     m_tilesread := m_tilesread f; m_timesopened := m_timesopened f;
     m_mipused := m_mipused f; m_duplicate := m_duplicate f |}.

Definition set_m_unmipped (v : bool) (f : ImageCacheFile) : ImageCacheFile :=
  {| m_filename := m_filename f; m_used := m_used f; m_broken := m_broken f;
     m_untiled := m_untiled f; m_unmipped := v; m_input := m_input f;
     m_spec := m_spec f; m_texformat := m_texformat f; m_swrap := m_swrap f;
     m_twrap := m_twrap f; m_cubelayout := m_cubelayout f; m_y_up := m_y_up f;
     m_fileformat := m_fileformat f; m_fingerprint := m_fingerprint f;
     m_datatype := m_datatype f; m_channelsize := m_channelsize f;
     m_pixelsize := m_pixelsize f; m_eightbit := m_eightbit f;
     m_tilesread := m_tilesread f; m_timesopened := m_timesopened f;
     m_mipused := m_mipused f; m_duplicate := m_duplicate f |}.

Definition set_m_input (v : option Z) (f : ImageCacheFile) : ImageCacheFile :=
  {| m_filename := m_filename f; m_used := m_used f; m_broken := m_broken f;
     m_untiled := m_untiled f; m_unmipped := m_unmipped f; m_input := v;
     m_spec := m_spec f; m_texformat := m_texformat f; m_swrap := m_swrap f;
     m_twrap := m_twrap f; m_cubelayout := m_cubelayout f; m_y_up := m_y_up f;
     m_fileformat := m_fileformat f; m_fingerprint := m_fingerprint f;
     m_datatype := m_datatype f; m_channelsize := m_channelsize f;
     m_pixelsize := m_pixelsize f; m_eightbit := m_eightbit f;
     m_tilesread := m_tilesread f; m_timesopened := m_timesopened f;
     m_mipused := m_mipused f; m_duplicate := m_duplicate f |}.

Definition set_m_spec (v : list ImageSpec) (f : ImageCacheFile) : ImageCacheFile :=
  {| m_filename := m_filename f; m_used := m_used f; m_broken := m_broken f;
     m_untiled := m_untiled f; m_unmipped := m_unmipped f;
     m_input := m_input f; m_spec := v; m_texformat := m_texformat f;
     m_swrap := m_swrap f; m_twrap := m_twrap f;
     m_cubelayout := m_cubelayout f; m_y_up := m_y_up f;
     m_fileformat := m_fileformat f; m_fingerprint := m_fingerprint f;
     m_datatype := m_datatype f; m_channelsize := m_channelsize f;
     m_pixelsize := m_pixelsize f; m_eightbit := m_eightbit f;
     m_tilesread := m_tilesread f; m_timesopened := m_timesopened f;
     m_mipused := m_mipused f; m_duplicate := m_duplicate f |}.

Definition set_m_texformat (v : TexFormat) (f : ImageCacheFile) : ImageCacheFile :=
  {| m_filename := m_filename f; m_used := m_used f; m_broken := m_broken f;
     m_untiled := m_untiled f; m_unmipped := m_unmipped f;
     m_input := m_input f; m_spec := m_spec f; m_texformat := v;
     m_swrap := m_swrap f; m_twrap := m_twrap f;
     m_cubelayout := m_cubelayout f; m_y_up := m_y_up f;
     m_fileformat := m_fileformat f; m_fingerprint := m_fingerprint f;
     m_datatype := m_datatype f; m_channelsize := m_channelsize f;
     m_pixelsize := m_pixelsize f; m_eightbit := m_eightbit f;
     m_tilesread := m_tilesread f; m_timesopened := m_timesopened f;
     m_mipused := m_mipused f; m_duplicate := m_duplicate f |}.

Definition set_m_swrap (v : Wrap) (f : ImageCacheFile) : ImageCacheFile :=
  {| m_filename := m_filename f; m_used := m_used f; m_broken := m_broken f;
     m_untiled := m_untiled f; m_unmipped := m_unmipped f;
     m_input := m_input f; m_spec := m_spec f; m_texformat := m_texformat f;
     m_swrap := v; m_twrap := m_twrap f; m_cubelayout := m_cubelayout f;
     m_y_up := m_y_up f; m_fileformat := m_fileformat f;
     m_fingerprint := m_fingerprint f; m_datatype := m_datatype f;
     m_channelsize := m_channelsize f; m_pixelsize := m_pixelsize f;
     m_eightbit := m_eightbit f; m_tilesread := m_tilesread f;
     m_timesopened := m_timesopened f; m_mipused := m_mipused f;
     m_duplicate := m_duplicate f |}.

Definition set_m_twrap (v : Wrap) (f : ImageCacheFile) : ImageCacheFile :=
  {| m_filename := m_filename f; m_used := m_used f; m_broken := m_broken f;
     m_untiled := m_untiled f; m_unmipped := m_unmipped f;
     m_input := m_input f; m_spec := m_spec f; m_texformat := m_texformat f;
     m_swrap := m_swrap f; m_twrap := v; m_cubelayout := m_cubelayout f;
     m_y_up := m_y_up f; m_fileformat := m_fileformat f;
     m_fingerprint := m_fingerprint f; m_datatype := m_datatype f;
     m_channelsize := m_channelsize f; m_pixelsize := m_pixelsize f;
     m_eightbit := m_eightbit f; m_tilesread := m_tilesread f;
     m_timesopened := m_timesopened f; m_mipused := m_mipused f;
     m_duplicate := m_duplicate f |}.

Definition set_m_cubelayout (v : CubeLayout) (f : ImageCacheFile) : ImageCacheFile :=
  {| m_filename := m_filename f; m_used := m_used f; m_broken := m_broken f;
     m_untiled := m_untiled f; m_unmipped := m_unmipped f;
     m_input := m_input f; m_spec := m_spec f; m_texformat := m_texformat f;
     m_swrap := m_swrap f; m_twrap := m_twrap f; m_cubelayout := v;
     m_y_up := m_y_up f; m_fileformat := m_fileformat f;
     m_fingerprint := m_fingerprint f; m_datatype := m_datatype f;
     m_channelsize := m_channelsize f; m_pixelsize := m_pixelsize f;
     m_eightbit := m_eightbit f; m_tilesread := m_tilesread f;
     m_timesopened := m_timesopened f; m_mipused := m_mipused f;
     m_duplicate := m_duplicate f |}.

Definition set_m_y_up (v : bool) (f : ImageCacheFile) : ImageCacheFile :=
  {| m_filename := m_filename f; m_used := m_used f; m_broken := m_broken f;
     m_untiled := m_untiled f; m_unmipped := m_unmipped f;
     m_input := m_input f; m_spec := m_spec f; m_texformat := m_texformat f;
     m_swrap := m_swrap f; m_twrap := m_twrap f;
     m_cubelayout := m_cubelayout f; m_y_up := v;
     m_fileformat := m_fileformat f; m_fingerprint := m_fingerprint f;
     m_datatype := m_datatype f; m_channelsize := m_channelsize f;
     m_pixelsize := m_pixelsize f; m_eightbit := m_eightbit f;
     m_tilesread := m_tilesread f; m_timesopened := m_timesopened f;
     m_mipused := m_mipused f; m_duplicate := m_duplicate f |}.

Definition set_m_fileformat (v : ustring) (f : ImageCacheFile) : ImageCacheFile :=
  {| m_filename := m_filename f; m_used := m_used f; m_broken := m_broken f;
     m_untiled := m_untiled f; m_unmipped := m_unmipped f;
     m_input := m_input f; m_spec := m_spec f; m_texformat := m_texformat f;
     m_swrap := m_swrap f; m_twrap := m_twrap f;
     m_cubelayout := m_cubelayout f; m_y_up := m_y_up f; m_fileformat := v;
     m_fingerprint := m_fingerprint f; m_datatype := m_datatype f;
     m_channelsize := m_channelsize f; m_pixelsize := m_pixelsize f;
     m_eightbit := m_eightbit f; m_tilesread := m_tilesread f;
     m_timesopened := m_timesopened f; m_mipused := m_mipused f;
     m_duplicate := m_duplicate f |}.

Definition set_m_fingerprint (v : ustring) (f : ImageCacheFile) : ImageCacheFile :=
  {| m_filename := m_filename f; m_used := m_used f; m_broken := m_broken f;
     m_untiled := m_untiled f; m_unmipped := m_unmipped f;
     m_input := m_input f; m_spec := m_spec f; m_texformat := m_texformat f;
     m_swrap := m_swrap f; m_twrap := m_twrap f;
     m_cubelayout := m_cubelayout f; m_y_up := m_y_up f;
     m_fileformat := m_fileformat f; m_fingerprint := v;
     m_datatype := m_datatype f; m_channelsize := m_channelsize f;
     m_pixelsize := m_pixelsize f; m_eightbit := m_eightbit f;
     m_tilesread := m_tilesread f; m_timesopened := m_timesopened f;
     m_mipused := m_mipused f; m_duplicate := m_duplicate f |}.

Definition set_m_datatype (v : TypeDesc) (f : ImageCacheFile) : ImageCacheFile :=
  {| m_filename := m_filename f; m_used := m_used f; m_broken := m_broken f;
     m_untiled := m_untiled f; m_unmipped := m_unmipped f;
     m_input := m_input f; m_spec := m_spec f; m_texformat := m_texformat f;
     m_swrap := m_swrap f; m_twrap := m_twrap f;
     m_cubelayout := m_cubelayout f; m_y_up := m_y_up f;
     m_fileformat := m_fileformat f; m_fingerprint := m_fingerprint f;
     m_datatype := v; m_channelsize := m_channelsize f;
     m_pixelsize := m_pixelsize f; m_eightbit := m_eightbit f;
     m_tilesread := m_tilesread f; m_timesopened := m_timesopened f;
     m_mipused := m_mipused f; m_duplicate := m_duplicate f |}.

Definition set_m_channelsize (v : Z) (f : ImageCacheFile) : ImageCacheFile :=
  {| m_filename := m_filename f; m_used := m_used f; m_broken := m_broken f;
     m_untiled := m_untiled f; m_unmipped := m_unmipped f;
     m_input := m_input f; m_spec := m_spec f; m_texformat := m_texformat f;
     m_swrap := m_swrap f; m_twrap := m_twrap f;
     m_cubelayout := m_cubelayout f; m_y_up := m_y_up f;
     m_fileformat := m_fileformat f; m_fingerprint := m_fingerprint f;
     m_datatype := m_datatype f; m_channelsize := v;
     m_pixelsize := m_pixelsize f; m_eightbit := m_eightbit f;
     m_tilesread := m_tilesread f; m_timesopened := m_timesopened f;
     m_mipused := m_mipused f; m_duplicate := m_duplicate f |}.

Definition set_m_pixelsize (v : Z) (f : ImageCacheFile) : ImageCacheFile :=
  {| m_filename := m_filename f; m_used := m_used f; m_broken := m_broken f;
     m_untiled := m_untiled f; m_unmipped := m_unmipped f;
     m_input := m_input f; m_spec := m_spec f; m_texformat := m_texformat f;
     m_swrap := m_swrap f; m_twrap := m_twrap f;
     m_cubelayout := m_cubelayout f; m_y_up := m_y_up f;
     m_fileformat := m_fileformat f; m_fingerprint := m_fingerprint f;
     m_datatype := m_datatype f; m_channelsize := m_channelsize f;
     m_pixelsize := v; m_eightbit := m_eightbit f;
     m_tilesread := m_tilesread f; m_timesopened := m_timesopened f;
     m_mipused := m_mipused f; m_duplicate := m_duplicate f |}.

Definition set_m_eightbit (v : bool) (f : ImageCacheFile) : ImageCacheFile :=
  {| m_filename := m_filename f; m_used := m_used f; m_broken := m_broken f;
     m_untiled := m_untiled f; m_unmipped := m_unmipped f;
     m_input := m_input f; m_spec := m_spec f; m_texformat := m_texformat f;
     m_swrap := m_swrap f; m_twrap := m_twrap f;
     m_cubelayout := m_cubelayout f; m_y_up := m_y_up f;
     m_fileformat := m_fileformat f; m_fingerprint := m_fingerprint f;
     m_datatype := m_datatype f; m_channelsize := m_channelsize f;
     m_pixelsize := m_pixelsize f; m_eightbit := v;
     m_tilesread := m_tilesread f; m_timesopened := m_timesopened f;
     m_mipused := m_mipused f; m_duplicate := m_duplicate f |}.

Definition set_m_tilesread (v : Z) (f : ImageCacheFile) : ImageCacheFile :=
  {| m_filename := m_filename f; m_used := m_used f; m_broken := m_broken f;
     m_untiled := m_untiled f; m_unmipped := m_unmipped f;
     m_input := m_input f; m_spec := m_spec f; m_texformat := m_texformat f;
     m_swrap := m_swrap f; m_twrap := m_twrap f;
     m_cubelayout := m_cubelayout f; m_y_up := m_y_up f;
     m_fileformat := m_fileformat f; m_fingerprint := m_fingerprint f;
     m_datatype := m_datatype f; m_channelsize := m_channelsize f;
     m_pixelsize := m_pixelsize f; m_eightbit := m_eightbit f;
     m_tilesread := v; m_timesopened := m_timesopened f;
     m_mipused := m_mipused f; m_duplicate := m_duplicate f |}.

Definition set_m_timesopened (v : Z) (f : ImageCacheFile) : ImageCacheFile :=
  {| m_filename := m_filename f; m_used := m_used f; m_broken := m_broken f;
     m_untiled := m_untiled f; m_unmipped := m_unmipped f;
     m_input := m_input f; m_spec := m_spec f; m_texformat := m_texformat f;
     m_swrap := m_swrap f; m_twrap := m_twrap f;
     m_cubelayout := m_cubelayout f; m_y_up := m_y_up f;
     m_fileformat := m_fileformat f; m_fingerprint := m_fingerprint f;
     m_datatype := m_datatype f; m_channelsize := m_channelsize f;
     m_pixelsize := m_pixelsize f; m_eightbit := m_eightbit f;
     m_tilesread := m_tilesread f; m_timesopened := v;
     m_mipused := m_mipused f; m_duplicate := m_duplicate f |}.

Definition set_m_mipused (v : bool) (f : ImageCacheFile) : ImageCacheFile :=
  {| m_filename := m_filename f; m_used := m_used f; m_broken := m_broken f;
     m_untiled := m_untiled f; m_unmipped := m_unmipped f;
     m_input := m_input f; m_spec := m_spec f; m_texformat := m_texformat f;
     m_swrap := m_swrap f; m_twrap := m_twrap f;
     m_cubelayout := m_cubelayout f; m_y_up := m_y_up f;
     m_fileformat := m_fileformat f; m_fingerprint := m_fingerprint f;
     m_datatype := m_datatype f; m_channelsize := m_channelsize f;
     m_pixelsize := m_pixelsize f; m_eightbit := m_eightbit f;
     m_tilesread := m_tilesread f; m_timesopened := m_timesopened f;
     m_mipused := v; m_duplicate := m_duplicate f |}.

Definition set_m_duplicate (v : option nat) (f : ImageCacheFile) : ImageCacheFile :=
  {| m_filename := m_filename f; m_used := m_used f; m_broken := m_broken f;
     m_untiled := m_untiled f; m_unmipped := m_unmipped f;
     m_input := m_input f; m_spec := m_spec f; m_texformat := m_texformat f;
     m_swrap := m_swrap f; m_twrap := m_twrap f;
     m_cubelayout := m_cubelayout f; m_y_up := m_y_up f;
     m_fileformat := m_fileformat f; m_fingerprint := m_fingerprint f;
     m_datatype := m_datatype f; m_channelsize := m_channelsize f;
     m_pixelsize := m_pixelsize f; m_eightbit := m_eightbit f;
     m_tilesread := m_tilesread f; m_timesopened := m_timesopened f;
     m_mipused := m_mipused f; m_duplicate := v |}.

(** ** Tiles

    A [TileID] names the file record by its address.  A tile carries the
    count of the references that keep it alive ([RefCnt] in the source). *)

Record TileID := mkTileID {
  id_file : nat;
  id_subimage : Z;
  id_x : Z; id_y : Z; id_z : Z
}.

#[global] Instance TileID_eq_dec : EqDecision TileID.
Proof. solve_decision. Defined.

Definition TileID_eqb (a b : TileID) : bool := bool_decide (a = b).

Record ImageCacheTile := mkTile {
  t_id : TileID;
  t_pixels : list Z;
  t_valid : bool;
  t_used : bool;
  t_refcnt : nat
}.

Definition set_t_used (v : bool) (t : ImageCacheTile) : ImageCacheTile :=
  {| t_id := t_id t; t_pixels := t_pixels t; t_valid := t_valid t; t_used := v;
     t_refcnt := t_refcnt t |}.

Definition set_t_refcnt (v : nat) (t : ImageCacheTile) : ImageCacheTile :=
  {| t_id := t_id t; t_pixels := t_pixels t; t_valid := t_valid t;
     t_used := t_used t; t_refcnt := v |}.

(** ** Per-thread record: statistics and the two-slot microcache *)

Record ImageCacheStatistics := mkStats {
  find_tile_calls : Z;
  find_tile_microcache_misses : Z;
  find_tile_cache_misses : Z;
  unique_files : Z
}.

Definition set_find_tile_calls (v : Z) (st : ImageCacheStatistics) : ImageCacheStatistics :=
  {| find_tile_calls := v;
     find_tile_microcache_misses := find_tile_microcache_misses st;
     find_tile_cache_misses := find_tile_cache_misses st;
     unique_files := unique_files st |}.

Definition set_find_tile_microcache_misses (v : Z) (st : ImageCacheStatistics) : ImageCacheStatistics :=
  {| find_tile_calls := find_tile_calls st; find_tile_microcache_misses := v;
     find_tile_cache_misses := find_tile_cache_misses st;
     unique_files := unique_files st |}.

Definition set_find_tile_cache_misses (v : Z) (st : ImageCacheStatistics) : ImageCacheStatistics :=
  {| find_tile_calls := find_tile_calls st;
     find_tile_microcache_misses := find_tile_microcache_misses st;
     find_tile_cache_misses := v; unique_files := unique_files st |}.

Definition set_unique_files (v : Z) (st : ImageCacheStatistics) : ImageCacheStatistics :=
  {| find_tile_calls := find_tile_calls st;
     find_tile_microcache_misses := find_tile_microcache_misses st;
     find_tile_cache_misses := find_tile_cache_misses st; unique_files := v |}.

Record ImageCachePerThreadInfo := mkPerThread {
  pt_tile : option nat;
  pt_lasttile : option nat;
  pt_purge : bool;
  m_stats : ImageCacheStatistics
}.

Definition set_pt_tile (v : option nat) (p : ImageCachePerThreadInfo) : ImageCachePerThreadInfo :=
  {| pt_tile := v; pt_lasttile := pt_lasttile p; pt_purge := pt_purge p;
     m_stats := m_stats p |}.

Definition set_pt_lasttile (v : option nat) (p : ImageCachePerThreadInfo) : ImageCachePerThreadInfo :=
  {| pt_tile := pt_tile p; pt_lasttile := v; pt_purge := pt_purge p;
     m_stats := m_stats p |}.

Definition set_pt_purge (v : bool) (p : ImageCachePerThreadInfo) : ImageCachePerThreadInfo :=
  {| pt_tile := pt_tile p; pt_lasttile := pt_lasttile p; pt_purge := v;
     m_stats := m_stats p |}.

Definition set_m_stats (v : ImageCacheStatistics) (p : ImageCachePerThreadInfo) : ImageCachePerThreadInfo :=
  {| pt_tile := pt_tile p; pt_lasttile := pt_lasttile p;
     pt_purge := pt_purge p; m_stats := v |}.

(** The sweep iterator of the tile table, [m_tile_sweep]: on the entry at
    a place of the iteration order, or at [end()].  [invalidate] erases
    entries without looking at the iterator: once the entry it was on has
    been erased the iterator is invalid, and stays so. *)
Inductive TileSweep :=
  | sweep_at (c : option nat)
  | sweep_erased.

(** ** The cache, [ImageCacheImpl]

    [file_store] and [tile_store] hold the objects; [m_files] and
    [m_tilecache] are the two tables, [m_fingerprints] the fingerprint
    index.  [reader_creates] is not a field of the source: it counts the
    calls of [ImageInput::create], so that an open attempt is observable. *)

Record ImageCacheImpl := mkImpl {
  m_max_open_files : Z;
  m_max_memory_MB : float;
  m_max_memory_bytes : Z;
  m_searchpath : string;
  m_statslevel : Z;
  m_autotile : Z;
  m_automip : bool;
  m_forcefloat : bool;
  m_accept_untiled : bool;
  m_files : list (ustring * nat);
  m_file_sweep : option nat;
  m_fingerprints : gmap ustring nat;
  file_store : list ImageCacheFile;
  m_tilecache : list (TileID * nat);
  m_tile_sweep : TileSweep;
  tile_store : list ImageCacheTile;
  m_mem_used : Z;
  m_stat_tiles_current : Z;
  m_stat_open_files_current : Z;
  m_errormessage : string;
  m_perthread_info : ImageCachePerThreadInfo;
  reader_creates : nat
}.

Definition set_m_max_open_files (v : Z) (s : ImageCacheImpl) : ImageCacheImpl :=
  {| m_max_open_files := v; m_max_memory_MB := m_max_memory_MB s;
     m_max_memory_bytes := m_max_memory_bytes s;
     m_searchpath := m_searchpath s; m_statslevel := m_statslevel s;
     m_autotile := m_autotile s; m_automip := m_automip s;
     m_forcefloat := m_forcefloat s; m_accept_untiled := m_accept_untiled s;
     m_files := m_files s; m_file_sweep := m_file_sweep s;
     m_fingerprints := m_fingerprints s; file_store := file_store s;
     m_tilecache := m_tilecache s; m_tile_sweep := m_tile_sweep s;
     tile_store := tile_store s; m_mem_used := m_mem_used s;
     m_stat_tiles_current := m_stat_tiles_current s;
     m_stat_open_files_current := m_stat_open_files_current s;
     m_errormessage := m_errormessage s;
     m_perthread_info := m_perthread_info s;
     reader_creates := reader_creates s |}.

Definition set_m_max_memory_MB (v : float) (s : ImageCacheImpl) : ImageCacheImpl :=
  {| m_max_open_files := m_max_open_files s; m_max_memory_MB := v;
     m_max_memory_bytes := m_max_memory_bytes s;
     m_searchpath := m_searchpath s; m_statslevel := m_statslevel s;
     m_autotile := m_autotile s; m_automip := m_automip s;
     m_forcefloat := m_forcefloat s; m_accept_untiled := m_accept_untiled s;
     m_files := m_files s; m_file_sweep := m_file_sweep s;
     m_fingerprints := m_fingerprints s; file_store := file_store s;
     m_tilecache := m_tilecache s; m_tile_sweep := m_tile_sweep s;
     tile_store := tile_store s; m_mem_used := m_mem_used s;
     m_stat_tiles_current := m_stat_tiles_current s;
     m_stat_open_files_current := m_stat_open_files_current s;
     m_errormessage := m_errormessage s;
     m_perthread_info := m_perthread_info s;
     reader_creates := reader_creates s |}.

Definition set_m_max_memory_bytes (v : Z) (s : ImageCacheImpl) : ImageCacheImpl :=
  {| m_max_open_files := m_max_open_files s;
     m_max_memory_MB := m_max_memory_MB s; m_max_memory_bytes := v;
     m_searchpath := m_searchpath s; m_statslevel := m_statslevel s;
     m_autotile := m_autotile s; m_automip := m_automip s;
     m_forcefloat := m_forcefloat s; m_accept_untiled := m_accept_untiled s;
     m_files := m_files s; m_file_sweep := m_file_sweep s;
     m_fingerprints := m_fingerprints s; file_store := file_store s;
     m_tilecache := m_tilecache s; m_tile_sweep := m_tile_sweep s;
     tile_store := tile_store s; m_mem_used := m_mem_used s;
     m_stat_tiles_current := m_stat_tiles_current s;
     m_stat_open_files_current := m_stat_open_files_current s;
     m_errormessage := m_errormessage s;
     m_perthread_info := m_perthread_info s;
     reader_creates := reader_creates s |}.

Definition set_m_searchpath (v : string) (s : ImageCacheImpl) : ImageCacheImpl :=
  {| m_max_open_files := m_max_open_files s;
     m_max_memory_MB := m_max_memory_MB s;
     m_max_memory_bytes := m_max_memory_bytes s; m_searchpath := v;
     m_statslevel := m_statslevel s; m_autotile := m_autotile s;
     m_automip := m_automip s; m_forcefloat := m_forcefloat s;
     m_accept_untiled := m_accept_untiled s; m_files := m_files s;
     m_file_sweep := m_file_sweep s; m_fingerprints := m_fingerprints s;
     file_store := file_store s; m_tilecache := m_tilecache s;
     m_tile_sweep := m_tile_sweep s; tile_store := tile_store s;
     m_mem_used := m_mem_used s;
     m_stat_tiles_current := m_stat_tiles_current s;
     m_stat_open_files_current := m_stat_open_files_current s;
     m_errormessage := m_errormessage s;
     m_perthread_info := m_perthread_info s;
     reader_creates := reader_creates s |}.

Definition set_m_statslevel (v : Z) (s : ImageCacheImpl) : ImageCacheImpl :=
  {| m_max_open_files := m_max_open_files s;
     m_max_memory_MB := m_max_memory_MB s;
     m_max_memory_bytes := m_max_memory_bytes s;
     m_searchpath := m_searchpath s; m_statslevel := v;
     m_autotile := m_autotile s; m_automip := m_automip s;
     m_forcefloat := m_forcefloat s; m_accept_untiled := m_accept_untiled s;
     m_files := m_files s; m_file_sweep := m_file_sweep s;
     m_fingerprints := m_fingerprints s; file_store := file_store s;
     m_tilecache := m_tilecache s; m_tile_sweep := m_tile_sweep s;
     tile_store := tile_store s; m_mem_used := m_mem_used s;
     m_stat_tiles_current := m_stat_tiles_current s;
     m_stat_open_files_current := m_stat_open_files_current s;
     m_errormessage := m_errormessage s;
     m_perthread_info := m_perthread_info s;
     reader_creates := reader_creates s |}.

Definition set_m_autotile (v : Z) (s : ImageCacheImpl) : ImageCacheImpl :=
  {| m_max_open_files := m_max_open_files s;
     m_max_memory_MB := m_max_memory_MB s;
     m_max_memory_bytes := m_max_memory_bytes s;
     m_searchpath := m_searchpath s; m_statslevel := m_statslevel s;
     m_autotile := v; m_automip := m_automip s; m_forcefloat := m_forcefloat s;
     m_accept_untiled := m_accept_untiled s; m_files := m_files s;
     m_file_sweep := m_file_sweep s; m_fingerprints := m_fingerprints s;
     file_store := file_store s; m_tilecache := m_tilecache s;
     m_tile_sweep := m_tile_sweep s; tile_store := tile_store s;
     m_mem_used := m_mem_used s;
     m_stat_tiles_current := m_stat_tiles_current s;
     m_stat_open_files_current := m_stat_open_files_current s;
     m_errormessage := m_errormessage s;
     m_perthread_info := m_perthread_info s;
     reader_creates := reader_creates s |}.

Definition set_m_automip (v : bool) (s : ImageCacheImpl) : ImageCacheImpl :=
  {| m_max_open_files := m_max_open_files s;
     m_max_memory_MB := m_max_memory_MB s;
     m_max_memory_bytes := m_max_memory_bytes s;
     m_searchpath := m_searchpath s; m_statslevel := m_statslevel s;
     m_autotile := m_autotile s; m_automip := v;
     m_forcefloat := m_forcefloat s; m_accept_untiled := m_accept_untiled s;
     m_files := m_files s; m_file_sweep := m_file_sweep s;
     m_fingerprints := m_fingerprints s; file_store := file_store s;
     m_tilecache := m_tilecache s; m_tile_sweep := m_tile_sweep s;
     tile_store := tile_store s; m_mem_used := m_mem_used s;
     m_stat_tiles_current := m_stat_tiles_current s;
     m_stat_open_files_current := m_stat_open_files_current s;
     m_errormessage := m_errormessage s;
     m_perthread_info := m_perthread_info s;
     reader_creates := reader_creates s |}.

Definition set_m_forcefloat (v : bool) (s : ImageCacheImpl) : ImageCacheImpl :=
  {| m_max_open_files := m_max_open_files s;
     m_max_memory_MB := m_max_memory_MB s;
     m_max_memory_bytes := m_max_memory_bytes s;
     m_searchpath := m_searchpath s; m_statslevel := m_statslevel s;
     m_autotile := m_autotile s; m_automip := m_automip s; m_forcefloat := v;
     m_accept_untiled := m_accept_untiled s; m_files := m_files s;
     m_file_sweep := m_file_sweep s; m_fingerprints := m_fingerprints s;
     file_store := file_store s; m_tilecache := m_tilecache s;
     m_tile_sweep := m_tile_sweep s; tile_store := tile_store s;
     m_mem_used := m_mem_used s;
     m_stat_tiles_current := m_stat_tiles_current s;
     m_stat_open_files_current := m_stat_open_files_current s;
     m_errormessage := m_errormessage s;
     m_perthread_info := m_perthread_info s;
     reader_creates := reader_creates s |}.

Definition set_m_accept_untiled (v : bool) (s : ImageCacheImpl) : ImageCacheImpl :=
  {| m_max_open_files := m_max_open_files s;
     m_max_memory_MB := m_max_memory_MB s;
     m_max_memory_bytes := m_max_memory_bytes s;
     m_searchpath := m_searchpath s; m_statslevel := m_statslevel s;
     m_autotile := m_autotile s; m_automip := m_automip s;
     m_forcefloat := m_forcefloat s; m_accept_untiled := v;
     m_files := m_files s; m_file_sweep := m_file_sweep s;
     m_fingerprints := m_fingerprints s; file_store := file_store s;
     m_tilecache := m_tilecache s; m_tile_sweep := m_tile_sweep s;
     tile_store := tile_store s; m_mem_used := m_mem_used s;
     m_stat_tiles_current := m_stat_tiles_current s;
     m_stat_open_files_current := m_stat_open_files_current s;
     m_errormessage := m_errormessage s;
     m_perthread_info := m_perthread_info s;
     reader_creates := reader_creates s |}.

Definition set_m_files (v : list (ustring * nat)) (s : ImageCacheImpl) : ImageCacheImpl :=
  {| m_max_open_files := m_max_open_files s;
     m_max_memory_MB := m_max_memory_MB s;
     m_max_memory_bytes := m_max_memory_bytes s;
     m_searchpath := m_searchpath s; m_statslevel := m_statslevel s;
     m_autotile := m_autotile s; m_automip := m_automip s;
     m_forcefloat := m_forcefloat s; m_accept_untiled := m_accept_untiled s;
     m_files := v; m_file_sweep := m_file_sweep s;
     m_fingerprints := m_fingerprints s; file_store := file_store s;
     m_tilecache := m_tilecache s; m_tile_sweep := m_tile_sweep s;
     tile_store := tile_store s; m_mem_used := m_mem_used s;
     m_stat_tiles_current := m_stat_tiles_current s;
     m_stat_open_files_current := m_stat_open_files_current s;
     m_errormessage := m_errormessage s;
     m_perthread_info := m_perthread_info s;
     reader_creates := reader_creates s |}.

Definition set_m_file_sweep (v : option nat) (s : ImageCacheImpl) : ImageCacheImpl :=
  {| m_max_open_files := m_max_open_files s;
     m_max_memory_MB := m_max_memory_MB s;
     m_max_memory_bytes := m_max_memory_bytes s;
     m_searchpath := m_searchpath s; m_statslevel := m_statslevel s;
     m_autotile := m_autotile s; m_automip := m_automip s;
     m_forcefloat := m_forcefloat s; m_accept_untiled := m_accept_untiled s;
     m_files := m_files s; m_file_sweep := v;
     m_fingerprints := m_fingerprints s; file_store := file_store s;
     m_tilecache := m_tilecache s; m_tile_sweep := m_tile_sweep s;
     tile_store := tile_store s; m_mem_used := m_mem_used s;
     m_stat_tiles_current := m_stat_tiles_current s;
     m_stat_open_files_current := m_stat_open_files_current s;
     m_errormessage := m_errormessage s;
     m_perthread_info := m_perthread_info s;
     reader_creates := reader_creates s |}.

Definition set_m_fingerprints (v : gmap ustring nat) (s : ImageCacheImpl) : ImageCacheImpl :=
  {| m_max_open_files := m_max_open_files s;
     m_max_memory_MB := m_max_memory_MB s;
     m_max_memory_bytes := m_max_memory_bytes s;
     m_searchpath := m_searchpath s; m_statslevel := m_statslevel s;
     m_autotile := m_autotile s; m_automip := m_automip s;
     m_forcefloat := m_forcefloat s; m_accept_untiled := m_accept_untiled s;
     m_files := m_files s; m_file_sweep := m_file_sweep s; m_fingerprints := v;
     file_store := file_store s; m_tilecache := m_tilecache s;
     m_tile_sweep := m_tile_sweep s; tile_store := tile_store s;
     m_mem_used := m_mem_used s;
     m_stat_tiles_current := m_stat_tiles_current s;
     m_stat_open_files_current := m_stat_open_files_current s;
     m_errormessage := m_errormessage s;
     m_perthread_info := m_perthread_info s;
     reader_creates := reader_creates s |}.

Definition set_file_store (v : list ImageCacheFile) (s : ImageCacheImpl) : ImageCacheImpl :=
  {| m_max_open_files := m_max_open_files s;
     m_max_memory_MB := m_max_memory_MB s;
     m_max_memory_bytes := m_max_memory_bytes s;
     m_searchpath := m_searchpath s; m_statslevel := m_statslevel s;
     m_autotile := m_autotile s; m_automip := m_automip s;
     m_forcefloat := m_forcefloat s; m_accept_untiled := m_accept_untiled s;
     m_files := m_files s; m_file_sweep := m_file_sweep s;
     m_fingerprints := m_fingerprints s; file_store := v;
     m_tilecache := m_tilecache s; m_tile_sweep := m_tile_sweep s;
     tile_store := tile_store s; m_mem_used := m_mem_used s;
     m_stat_tiles_current := m_stat_tiles_current s;
     m_stat_open_files_current := m_stat_open_files_current s;
     m_errormessage := m_errormessage s;
     m_perthread_info := m_perthread_info s;
     reader_creates := reader_creates s |}.

Definition set_m_tilecache (v : list (TileID * nat)) (s : ImageCacheImpl) : ImageCacheImpl :=
  {| m_max_open_files := m_max_open_files s;
     m_max_memory_MB := m_max_memory_MB s;
     m_max_memory_bytes := m_max_memory_bytes s;
     m_searchpath := m_searchpath s; m_statslevel := m_statslevel s;
     m_autotile := m_autotile s; m_automip := m_automip s;
     m_forcefloat := m_forcefloat s; m_accept_untiled := m_accept_untiled s;
     m_files := m_files s; m_file_sweep := m_file_sweep s;
     m_fingerprints := m_fingerprints s; file_store := file_store s;
     m_tilecache := v; m_tile_sweep := m_tile_sweep s;
     tile_store := tile_store s; m_mem_used := m_mem_used s;
     m_stat_tiles_current := m_stat_tiles_current s;
     m_stat_open_files_current := m_stat_open_files_current s;
     m_errormessage := m_errormessage s;
     m_perthread_info := m_perthread_info s;
     reader_creates := reader_creates s |}.

Definition set_m_tile_sweep (v : TileSweep) (s : ImageCacheImpl) : ImageCacheImpl :=
  {| m_max_open_files := m_max_open_files s;
     m_max_memory_MB := m_max_memory_MB s;
     m_max_memory_bytes := m_max_memory_bytes s;
     m_searchpath := m_searchpath s; m_statslevel := m_statslevel s;
     m_autotile := m_autotile s; m_automip := m_automip s;
     m_forcefloat := m_forcefloat s; m_accept_untiled := m_accept_untiled s;
     m_files := m_files s; m_file_sweep := m_file_sweep s;
     m_fingerprints := m_fingerprints s; file_store := file_store s;
     m_tilecache := m_tilecache s; m_tile_sweep := v;
     tile_store := tile_store s; m_mem_used := m_mem_used s;
     m_stat_tiles_current := m_stat_tiles_current s;
     m_stat_open_files_current := m_stat_open_files_current s;
     m_errormessage := m_errormessage s;
     m_perthread_info := m_perthread_info s;
     reader_creates := reader_creates s |}.

Definition set_tile_store (v : list ImageCacheTile) (s : ImageCacheImpl) : ImageCacheImpl :=
  {| m_max_open_files := m_max_open_files s;
     m_max_memory_MB := m_max_memory_MB s;
     m_max_memory_bytes := m_max_memory_bytes s;
     m_searchpath := m_searchpath s; m_statslevel := m_statslevel s;
     m_autotile := m_autotile s; m_automip := m_automip s;
     m_forcefloat := m_forcefloat s; m_accept_untiled := m_accept_untiled s;
     m_files := m_files s; m_file_sweep := m_file_sweep s;
     m_fingerprints := m_fingerprints s; file_store := file_store s;
     m_tilecache := m_tilecache s; m_tile_sweep := m_tile_sweep s;
     tile_store := v; m_mem_used := m_mem_used s;
     m_stat_tiles_current := m_stat_tiles_current s;
     m_stat_open_files_current := m_stat_open_files_current s;
     m_errormessage := m_errormessage s;
     m_perthread_info := m_perthread_info s;
     reader_creates := reader_creates s |}.

Definition set_m_mem_used (v : Z) (s : ImageCacheImpl) : ImageCacheImpl :=
  {| m_max_open_files := m_max_open_files s;
     m_max_memory_MB := m_max_memory_MB s;
     m_max_memory_bytes := m_max_memory_bytes s;
     m_searchpath := m_searchpath s; m_statslevel := m_statslevel s;
     m_autotile := m_autotile s; m_automip := m_automip s;
     m_forcefloat := m_forcefloat s; m_accept_untiled := m_accept_untiled s;
     m_files := m_files s; m_file_sweep := m_file_sweep s;
     m_fingerprints := m_fingerprints s; file_store := file_store s;
     m_tilecache := m_tilecache s; m_tile_sweep := m_tile_sweep s;
     tile_store := tile_store s; m_mem_used := v;
     m_stat_tiles_current := m_stat_tiles_current s;
     m_stat_open_files_current := m_stat_open_files_current s;
     m_errormessage := m_errormessage s;
     m_perthread_info := m_perthread_info s;
     reader_creates := reader_creates s |}.

Definition set_m_stat_tiles_current (v : Z) (s : ImageCacheImpl) : ImageCacheImpl :=
  {| m_max_open_files := m_max_open_files s;
     m_max_memory_MB := m_max_memory_MB s;
     m_max_memory_bytes := m_max_memory_bytes s;
     m_searchpath := m_searchpath s; m_statslevel := m_statslevel s;
     m_autotile := m_autotile s; m_automip := m_automip s;
     m_forcefloat := m_forcefloat s; m_accept_untiled := m_accept_untiled s;
     m_files := m_files s; m_file_sweep := m_file_sweep s;
     m_fingerprints := m_fingerprints s; file_store := file_store s;
     m_tilecache := m_tilecache s; m_tile_sweep := m_tile_sweep s;
     tile_store := tile_store s; m_mem_used := m_mem_used s;
     m_stat_tiles_current := v;
     m_stat_open_files_current := m_stat_open_files_current s;
     m_errormessage := m_errormessage s;
     m_perthread_info := m_perthread_info s;
     reader_creates := reader_creates s |}.

Definition set_m_stat_open_files_current (v : Z) (s : ImageCacheImpl) : ImageCacheImpl :=
  {| m_max_open_files := m_max_open_files s;
     m_max_memory_MB := m_max_memory_MB s;
     m_max_memory_bytes := m_max_memory_bytes s;
     m_searchpath := m_searchpath s; m_statslevel := m_statslevel s;
     m_autotile := m_autotile s; m_automip := m_automip s;
     m_forcefloat := m_forcefloat s; m_accept_untiled := m_accept_untiled s;
     m_files := m_files s; m_file_sweep := m_file_sweep s;
     m_fingerprints := m_fingerprints s; file_store := file_store s;
     m_tilecache := m_tilecache s; m_tile_sweep := m_tile_sweep s;
     tile_store := tile_store s; m_mem_used := m_mem_used s;
     m_stat_tiles_current := m_stat_tiles_current s;
     m_stat_open_files_current := v; m_errormessage := m_errormessage s;
     m_perthread_info := m_perthread_info s;
     reader_creates := reader_creates s |}.

Definition set_m_errormessage (v : string) (s : ImageCacheImpl) : ImageCacheImpl :=
  {| m_max_open_files := m_max_open_files s;
     m_max_memory_MB := m_max_memory_MB s;
     m_max_memory_bytes := m_max_memory_bytes s;
     m_searchpath := m_searchpath s; m_statslevel := m_statslevel s;
     m_autotile := m_autotile s; m_automip := m_automip s;
     m_forcefloat := m_forcefloat s; m_accept_untiled := m_accept_untiled s;
     m_files := m_files s; m_file_sweep := m_file_sweep s;
     m_fingerprints := m_fingerprints s; file_store := file_store s;
     m_tilecache := m_tilecache s; m_tile_sweep := m_tile_sweep s;
     tile_store := tile_store s; m_mem_used := m_mem_used s;
     m_stat_tiles_current := m_stat_tiles_current s;
     m_stat_open_files_current := m_stat_open_files_current s;
     m_errormessage := v; m_perthread_info := m_perthread_info s;
     reader_creates := reader_creates s |}.

Definition set_m_perthread_info (v : ImageCachePerThreadInfo) (s : ImageCacheImpl) : ImageCacheImpl :=
  {| m_max_open_files := m_max_open_files s;
     m_max_memory_MB := m_max_memory_MB s;
     m_max_memory_bytes := m_max_memory_bytes s;
     m_searchpath := m_searchpath s; m_statslevel := m_statslevel s;
     m_autotile := m_autotile s; m_automip := m_automip s;
     m_forcefloat := m_forcefloat s; m_accept_untiled := m_accept_untiled s;
     m_files := m_files s; m_file_sweep := m_file_sweep s;
     m_fingerprints := m_fingerprints s; file_store := file_store s;
     m_tilecache := m_tilecache s; m_tile_sweep := m_tile_sweep s;
     tile_store := tile_store s; m_mem_used := m_mem_used s;
     m_stat_tiles_current := m_stat_tiles_current s;
     m_stat_open_files_current := m_stat_open_files_current s;
     m_errormessage := m_errormessage s; m_perthread_info := v;
     reader_creates := reader_creates s |}.

Definition set_reader_creates (v : nat) (s : ImageCacheImpl) : ImageCacheImpl :=
  {| m_max_open_files := m_max_open_files s;
     m_max_memory_MB := m_max_memory_MB s;
     m_max_memory_bytes := m_max_memory_bytes s;
     m_searchpath := m_searchpath s; m_statslevel := m_statslevel s;
     m_autotile := m_autotile s; m_automip := m_automip s;
     m_forcefloat := m_forcefloat s; m_accept_untiled := m_accept_untiled s;
     m_files := m_files s; m_file_sweep := m_file_sweep s;
     m_fingerprints := m_fingerprints s; file_store := file_store s;
     m_tilecache := m_tilecache s; m_tile_sweep := m_tile_sweep s;
     tile_store := tile_store s; m_mem_used := m_mem_used s;
     m_stat_tiles_current := m_stat_tiles_current s;
     m_stat_open_files_current := m_stat_open_files_current s;
     m_errormessage := m_errormessage s;
     m_perthread_info := m_perthread_info s; reader_creates := v |}.

(** ** The collaborators of the cache

    What the cache needs from the reader plugins and from the helper
    libraries.  A file on disk either has no reader, or fails to open, or
    opens with a format name and finitely many subimages: [seek_subimage i]
    succeeds exactly for the subimages it has. *)

Inductive DiskFile :=
  | NoReader (err : string)
  | OpenFails (err : string)
  | Readable (format_name : string) (first : ImageSpec) (rest : list ImageSpec).

(** [read_unmipped] and [read_untiled] are the two special-case helpers of
    [ImageCacheFile::read_tile] (bilinear filtering of the next finer level,
    and the scanline tile-row read with its prefetch).  Their pixel
    arithmetic is outside this development; they are taken as they are
    called: from the cache state, the file address and the tile, to the
    result, the bytes left in the buffer and the new cache state. *)
Record External := mkExternal {
  disk : ustring -> DiskFile;
  searchpath_find : string -> string -> string;
  reader_read_tile : ustring -> Z -> Z -> Z -> Z -> TypeDesc -> bool * list Z;
  reader_error_message : ustring -> string;
  texture_format_name : TexFormat -> string;
  texture_type_name : TexFormat -> string;
  parse_wrapmodes : list cell -> Wrap * Wrap -> Wrap * Wrap;
  convert_types : TypeDesc -> list Z -> TypeDesc -> Z -> list Z;
  read_unmipped : ImageCacheImpl -> nat -> Z -> Z -> Z -> Z -> TypeDesc ->
                  bool * list Z * ImageCacheImpl;
  read_untiled : ImageCacheImpl -> nat -> Z -> Z -> Z -> Z -> TypeDesc ->
                 bool * list Z * ImageCacheImpl
}.

(** ** Association lists in iteration order *)

Section Assoc.
Context {K V : Type} `{EqDecision K}.

Definition assoc_find (k : K) (l : list (K * V)) : option V :=
  snd <$> List.find (fun e => bool_decide (fst e = k)) l.

(** [m[k] = v]: replace in place, or append a new entry. *)
Fixpoint assoc_set (k : K) (v : V) (l : list (K * V)) : list (K * V) :=
  match l with
  | [] => [(k, v)]
  | e :: r => if decide (fst e = k) then (k, v) :: r else e :: assoc_set k v r
  end.
End Assoc.

(** An iterator that is not on an entry of a table of [n] entries reads as
    [end()]; [sweep_begin] is the wrap to [begin()] of the two sweeps. *)
Definition sweep_begin (n : nat) (c : option nat) : option nat :=
  match c with
  | Some i => if (i <? n)%nat then Some i else if (0 <? n)%nat then Some 0%nat else None
  | None => if (0 <? n)%nat then Some 0%nat else None
  end.

(** [++it] in a table of [n] entries. *)
Definition sweep_next (n : nat) (i : nat) : option nat :=
  if (S i <? n)%nat then Some (S i) else None.

Definition newline : string := String (Ascii.ascii_of_nat 10) EmptyString.

(** ** Errors and counters *)

(** [ImageCacheImpl::error]: append to the error string, after a newline
    when it is not empty. *)
Definition error (msg : string) (s : ImageCacheImpl) : ImageCacheImpl :=
  set_m_errormessage
    ((if String.eqb (m_errormessage s) "" then "" else m_errormessage s +:+ newline)
       +:+ msg) s.

(** Modelled from the spec: [incr_open_files] and [decr_open_files] of
    [imagecache_pvt.h], which is not among the sources: they keep the
    counter of currently open reader handles. *)
Definition incr_open_files (s : ImageCacheImpl) : ImageCacheImpl :=
  set_m_stat_open_files_current (m_stat_open_files_current s + 1) s.

Definition decr_open_files (s : ImageCacheImpl) : ImageCacheImpl :=
  set_m_stat_open_files_current (m_stat_open_files_current s - 1) s.

(** Modelled from the spec: [incr_tiles] and [decr_tiles] of
    [imagecache_pvt.h]: they keep the counter of resident tile bytes,
    [m_mem_used], and the number of live tiles. *)
Definition incr_tiles (size : Z) (s : ImageCacheImpl) : ImageCacheImpl :=
  set_m_mem_used (m_mem_used s + size)
    (set_m_stat_tiles_current (m_stat_tiles_current s + 1) s).

Definition decr_tiles (size : Z) (s : ImageCacheImpl) : ImageCacheImpl :=
  set_m_mem_used (m_mem_used s - size)
    (set_m_stat_tiles_current (m_stat_tiles_current s - 1) s).

(** ** The two stores *)

Definition put_file (p : nat) (f : ImageCacheFile) (s : ImageCacheImpl) : ImageCacheImpl :=
  set_file_store (<[p := f]> (file_store s)) s.

Definition put_tile (p : nat) (t : ImageCacheTile) (s : ImageCacheImpl) : ImageCacheImpl :=
  set_tile_store (<[p := t]> (tile_store s)) s.

(** A method of the file record at address [p], run in the cache state. *)
Definition on_file {A : Type} (p : nat)
    (m : ImageCacheFile -> ImageCacheImpl -> A * ImageCacheFile * ImageCacheImpl)
    (dflt : A) (s : ImageCacheImpl) : A * ImageCacheImpl :=
  match file_store s !! p with
  | Some f => let '(a, f', s') := m f s in (a, put_file p f' s')
  | None => (dflt, s)
  end.

(** Modelled from the spec: [ImageSpec()], the empty specification. *)
Definition empty_spec : ImageSpec :=
  mkImageSpec 0 0 0 0 0 0 0 0 0 0 0 0 (scalar UNKNOWN) [].

(** Modelled from the spec: the inline accessors of a file record in
    [imagecache_pvt.h]: [spec (subimage)], [subimages ()], [opened ()] (a
    reader handle is present) and [use ()] (sets the used flag). *)
Definition spec_at (f : ImageCacheFile) (subimage : Z) : ImageSpec :=
  if subimage <? 0 then empty_spec
  else default empty_spec (m_spec f !! Z.to_nat subimage).

Definition subimages (f : ImageCacheFile) : Z := Z.of_nat (length (m_spec f)).

Definition opened (f : ImageCacheFile) : bool := bool_decide (is_Some (m_input f)).

Definition use (f : ImageCacheFile) : ImageCacheFile := set_m_used true f.

(** The enumeration value of a base type. *)
Definition basetype_code (b : BASETYPE) : nat :=
  match b with
  | UNKNOWN => 0 | NONE => 1 | UINT8 => 2 | INT8 => 3 | UINT16 => 4 | INT16 => 5
  | UINT => 6 | INT => 7 | HALF => 8 | FLOAT => 9 | DOUBLE => 10 | STRING => 11
  | PTR => 12
  end%nat.

(** [TypeDesc == BASETYPE]: a scalar of that base type, not an array. *)
Definition is_basetype (t : TypeDesc) (b : BASETYPE) : bool :=
  bool_decide (basetype t = b) && bool_decide (aggregate t = SCALAR) && (arraylen t =? 0).

Section Cache.

Variable io : External.

(** ** [ImageCacheFile]: close, open, release, invalidate *)

(** [ImageCacheFile::close] *)
Definition ImageCacheFile_close (f : ImageCacheFile) (s : ImageCacheImpl)
    : unit * ImageCacheFile * ImageCacheImpl :=
  if opened f then (tt, set_m_input None f, decr_open_files s)
  else (tt, f, s).

(** The body of the [do ... while (seek_subimage)] loop of [open], over the
    specifications the reader yields: a subimage after the second whose
    channel count differs from the first stops the loop with a failure; a
    scanline subimage is given tile extents. *)
Fixpoint read_subimages (autotile : Z) (pending : list ImageSpec)
    (nsubimages : Z) (specs : list ImageSpec) (untiled : bool)
    : bool * Z * list ImageSpec * bool :=
  match pending with
  | [] => (true, nsubimages, specs, untiled)
  | tempspec :: rest =>
      if (1 <? nsubimages) &&
         negb (nchannels tempspec =? nchannels (default empty_spec (specs !! 0%nat)))
      then (false, nsubimages, specs, untiled)
      else
        let '(tempspec, untiled) :=
          if (tile_width tempspec =? 0) || (tile_height tempspec =? 0) then
            (if negb (autotile =? 0) then
               set_tile_depth 1 (set_tile_height autotile (set_tile_width autotile tempspec))
             else
               set_tile_depth 1
                 (set_tile_height (pow2roundup (height tempspec))
                    (set_tile_width (pow2roundup (width tempspec)) tempspec)),
             true)
          else (tempspec, untiled) in
        read_subimages autotile rest (nsubimages + 1) (specs ++ [tempspec]) untiled
  end.

(** The [while (w > 1 || h > 1)] loop of [open] that synthesizes the
    pyramid levels from the first specification [s0]. *)
Fixpoint automip_loop (fuel : nat) (autotile : Z) (s0 : ImageSpec) (w h : Z)
    : list ImageSpec :=
  match fuel with
  | O => []
  | S fuel' =>
      if (1 <? w) || (1 <? h) then
        let w := Z.max 1 (w ÷ 2) in
        let h := Z.max 1 (h ÷ 2) in
        let s := set_full_height h (set_full_width w (set_height h (set_width w s0))) in
        let s :=
          if negb (autotile =? 0) then
            set_tile_height (Z.min autotile h) (set_tile_width (Z.min autotile w) s)
          else set_tile_height h (set_tile_width w s) in
        let s := set_tile_height (pow2roundup (tile_height s))
                   (set_tile_width (pow2roundup (tile_width s)) s) in
        s :: automip_loop fuel' autotile s0 w h
      else []
  end.

(** Each turn at least halves the larger extent, so the larger extent bounds
    the number of turns ([automip_loop_complete] below). *)
Definition automip_specs (autotile : Z) (s0 : ImageSpec) : list ImageSpec :=
  automip_loop (Z.to_nat (Z.max (full_width s0) (full_height s0))) autotile s0
    (full_width s0) (full_height s0).

(** A texture's full size is clamped to its data window. *)
Definition clamp_full_size (sp : ImageSpec) : ImageSpec :=
  let sp := if width sp <? full_width sp then set_full_width (width sp) sp else sp in
  if height sp <? full_height sp then set_full_height (height sp) sp else sp.

(** The tail of [open], after the specifications are in place: texture
    format, wrap modes, cube layout, fingerprint and cached data type. *)
Definition open_finish (f : ImageCacheFile) (s : ImageCacheImpl) : ImageCacheFile :=
  let f := set_m_texformat TexFormatTexture f in
  let f :=
    match find_attribute "textureformat" (Some TypeString) (spec_at f 0) with
    | Some p =>
        let textureformat := match p_data p with StrCell v :: _ => v | _ => "" end in
        let f :=
          match List.find (fun t => String.eqb textureformat (texture_format_name io t))
                  all_texformats with
          | Some t => set_m_texformat t f
          | None => f
          end in
        if bool_decide (m_texformat f = TexFormatTexture)
        then set_m_spec (map clamp_full_size (m_spec f)) f
        else f
    | None => f
    end in
  let spec := spec_at f 0 in
  let f :=
    match find_attribute "wrapmodes" (Some TypeString) spec with
    | Some p =>
        let '(sw, tw) := parse_wrapmodes io (p_data p) (m_swrap f, m_twrap f) in
        set_m_twrap tw (set_m_swrap sw f)
    | None => f
    end in
  let f := set_m_y_up false f in
  let f :=
    if bool_decide (m_texformat f = TexFormatCubeFaceEnv) then
      let f := if String.eqb (m_fileformat f) "openexr" then set_m_y_up true f else f in
      let w := Z.max (full_width spec) (tile_width spec) in
      let h := Z.max (full_height spec) (tile_height spec) in
      if (width spec =? 3 * w) && (height spec =? 2 * h) then set_m_cubelayout CubeThreeByTwo f
      else if (width spec =? w) && (height spec =? 6 * h) then set_m_cubelayout CubeOneBySix f
      else set_m_cubelayout CubeLast f
    else f in
  let desc := get_string_attribute "ImageDescription" spec in
  let f :=
    match rfind "SHA-1=" desc with
    | Some found => set_m_fingerprint (String.substring (found + 6) 40 desc) f
    | None => f
    end in
  let f := set_m_datatype TypeFloat f in
  let f :=
    if negb (m_forcefloat s) && is_basetype (format spec) UINT8
    then set_m_datatype (format spec) f else f in
  let f := set_m_channelsize (TypeDesc_size (m_datatype f)) f in
  let f := set_m_pixelsize (m_channelsize f * nchannels spec) f in
  set_m_eightbit (is_basetype (m_datatype f) UINT8) f.

(** [open], from the point where the reader has opened the file for the
    very first time with [first] as its first specification. *)
Definition open_first_time (f : ImageCacheFile) (s : ImageCacheImpl)
    (first : ImageSpec) (rest : list ImageSpec)
    : bool * ImageCacheFile * ImageCacheImpl :=
  let '(ok, nsubimages, specs, untiled) :=
    read_subimages (m_autotile s) (first :: rest) 0 (m_spec f) (m_untiled f) in
  let f := set_m_untiled untiled (set_m_spec specs f) in
  if negb ok then
    let '(_, f, s) := ImageCacheFile_close f s in
    (false, set_m_broken true f, s)
  else
    let f := set_m_input (Some (nsubimages - 1)) f in
    let f := if nsubimages =? 1 then set_m_unmipped true f else f in
    let f :=
      if m_untiled f && m_unmipped f && m_automip s &&
         negb (bool_decide (is_Some
                 (find_attribute "textureformat" (Some TypeString) (spec_at f 0))))
      then set_m_spec (m_spec f ++ automip_specs (m_autotile s) (spec_at f 0)) f
      else f in
    if m_untiled f && negb (m_accept_untiled s) then
      (false, set_m_input None (set_m_broken true f),
       error (m_filename f +:+ " was untiled, rejecting") s)
    else
      let f := open_finish f s in
      (negb (m_broken f), f, s).

(** [ImageCacheFile::open] *)
Definition ImageCacheFile_open (f : ImageCacheFile) (s : ImageCacheImpl)
    : bool * ImageCacheFile * ImageCacheImpl :=
  if opened f then (negb (m_broken f), f, s)
  else if m_broken f then (false, f, s)
  else
    let s := set_reader_creates (S (reader_creates s)) s in
    match disk io (m_filename f) with
    | NoReader err => (false, set_m_broken true f, error err s)
    | OpenFails err => (false, set_m_broken true f, error err s)
    | Readable fmt first rest =>
        let f := set_m_fileformat fmt f in
        let f := set_m_timesopened (m_timesopened f + 1) f in
        let s := incr_open_files s in
        let f := use (set_m_input (Some 0) f) in
        if negb (bool_decide (m_spec f = [])) then (true, f, s)
        else open_first_time f s first rest
    end.

(** [ImageCacheFile::release] *)
Definition ImageCacheFile_release (f : ImageCacheFile) (s : ImageCacheImpl)
    : unit * ImageCacheFile * ImageCacheImpl :=
  if m_used f then (tt, set_m_used false f, s)
  else ImageCacheFile_close f s.

(** [ImageCacheImpl::resolve_filename] *)
Definition resolve_filename (filename : string) (s : ImageCacheImpl) : string :=
  let r := searchpath_find io filename (m_searchpath s) in
  if String.eqb r "" then filename else r.

(** A record as the initializer list of the constructor leaves it. *)
Definition blank_file (filename : ustring) : ImageCacheFile :=
  {| m_filename := filename; m_used := true; m_broken := false;
     m_untiled := false; m_unmipped := false; m_input := None; m_spec := [];
     m_texformat := TexFormatTexture; m_swrap := WrapBlack; m_twrap := WrapBlack;
     m_cubelayout := CubeUnknown; m_y_up := false; m_fileformat := "";
     m_fingerprint := ""; m_datatype := scalar UNKNOWN; m_channelsize := 0;
     m_pixelsize := 0; m_eightbit := false; m_tilesread := 0; m_timesopened := 0;
     m_mipused := false; m_duplicate := None |}.

(** The constructor of [ImageCacheFile]. *)
Definition new_ImageCacheFile (filename : ustring) (s : ImageCacheImpl)
    : ImageCacheFile * ImageCacheImpl :=
  let '(_, f, s) := ImageCacheFile_open (blank_file (resolve_filename filename s)) s in
  (f, s).

(** ** Tile references *)

(** Modelled from the spec: the reference count of a tile ([RefCnt] and
    [intrusive_ptr] in [imagecache_pvt.h]).  A tile is destroyed when its
    last reference goes away; its destructor, which is in the source, gives
    its bytes back to [m_mem_used].  The buffer keeps the size it was given
    at construction, which is what [memsize ()] reports. *)

Definition memsize (t : ImageCacheTile) : Z := Z.of_nat (length (t_pixels t)).

Definition tile_incref (p : nat) (s : ImageCacheImpl) : ImageCacheImpl :=
  match tile_store s !! p with
  | Some t => put_tile p (set_t_refcnt (S (t_refcnt t)) t) s
  | None => s
  end.

Definition tile_decref (p : nat) (s : ImageCacheImpl) : ImageCacheImpl :=
  match tile_store s !! p with
  | Some t =>
      if (t_refcnt t <=? 1)%nat
      then decr_tiles (memsize t) (put_tile p (set_t_refcnt 0 t) s)
      else put_tile p (set_t_refcnt (t_refcnt t - 1) t) s
  | None => s
  end.

(** A reference that goes out of scope or is overwritten. *)
Definition ref_drop (r : option nat) (s : ImageCacheImpl) : ImageCacheImpl :=
  match r with
  | Some p => tile_decref p s
  | None => s
  end.

Definition ref_take (r : option nat) (s : ImageCacheImpl) : ImageCacheImpl :=
  match r with
  | Some p => tile_incref p s
  | None => s
  end.

(** [ImageCacheImpl::get_perthread_info]: a requested purge empties the
    microcache. *)
Definition get_perthread_info (s : ImageCacheImpl) : ImageCacheImpl :=
  if pt_purge (m_perthread_info s) then
    let s := ref_drop (pt_tile (m_perthread_info s)) s in
    let s := ref_drop (pt_lasttile (m_perthread_info s)) s in
    set_m_perthread_info
      (set_pt_purge false (set_pt_lasttile None (set_pt_tile None (m_perthread_info s)))) s
  else s.

(** [ImageCacheFile::invalidate] *)
Definition ImageCacheFile_invalidate (f : ImageCacheFile) (s : ImageCacheImpl)
    : unit * ImageCacheFile * ImageCacheImpl :=
  let '(_, f, s) := ImageCacheFile_close f s in
  let f := set_m_spec [] f in
  let f := set_m_broken false f in
  let f := set_m_fingerprint "" f in
  let f := set_m_duplicate None f in
  let s := get_perthread_info s in
  let '(_, f, s) := ImageCacheFile_open f s in
  (tt, f, s).

(** ** The file table *)

(** The outcome of one turn of a sweep loop: the loop is left, or it goes
    round again. *)
Inductive turn :=
  | Done (s : ImageCacheImpl)
  | Again (s : ImageCacheImpl).

(** One turn of the [while] loop of [ImageCacheImpl::check_max_files]. *)
Definition check_max_files_turn (s : ImageCacheImpl) : turn :=
  if m_max_open_files s <=? m_stat_open_files_current s then
    match sweep_begin (length (m_files s)) (m_file_sweep s) with
    | None => Done (set_m_file_sweep None s)
    | Some i =>
        match m_files s !! i with
        | Some (_, p) =>
            let '(_, s) := on_file p ImageCacheFile_release tt s in
            Again (set_m_file_sweep (sweep_next (length (m_files s)) i) s)
        | None => Done s
        end
    end
  else Done s.

(** [ImageCacheImpl::check_max_files].  The fuel bounds the number of turns
    that go round again; [None] means that it ran out with the loop still
    going. *)
Fixpoint check_max_files (fuel : nat) (s : ImageCacheImpl) : option ImageCacheImpl :=
  match check_max_files_turn s with
  | Done s' => Some s'
  | Again s' =>
      match fuel with
      | O => None
      | S fuel' => check_max_files fuel' s'
      end
  end.

(** The canonical record behind a table entry. *)
Definition follow_duplicate (p : nat) (s : ImageCacheImpl) : nat :=
  match file_store s !! p with
  | Some f => default p (m_duplicate f)
  | None => p
  end.

Definition file_use (p : nat) (s : ImageCacheImpl) : ImageCacheImpl :=
  match file_store s !! p with
  | Some f => put_file p (use f) s
  | None => s
  end.

(** The fingerprint block of [find_file]: [tf] is the address of the record
    that was just created. *)
Definition fingerprint_dedup (tf : nat) (s : ImageCacheImpl) : ImageCacheImpl :=
  match file_store s !! tf with
  | Some f =>
      if negb (String.eqb (m_fingerprint f) "") then
        match m_fingerprints s !! m_fingerprint f with
        | None => set_m_fingerprints (<[m_fingerprint f := tf]> (m_fingerprints s)) s
        | Some d =>
            match file_store s !! d with
            | Some dup =>
                if bool_decide (m_swrap f = m_swrap dup) &&
                   bool_decide (m_twrap f = m_twrap dup) &&
                   bool_decide (m_datatype f = m_datatype dup) &&
                   bool_decide (m_cubelayout f = m_cubelayout dup) &&
                   bool_decide (m_y_up f = m_y_up dup)
                then
                  let '(_, f, s) := ImageCacheFile_close (set_m_duplicate (Some d) f) s in
                  put_file tf f s
                else s
            | None => s
            end
        end
      else s
  | None => s
  end.

Definition incr_unique_files (s : ImageCacheImpl) : ImageCacheImpl :=
  let pt := m_perthread_info s in
  set_m_perthread_info
    (set_m_stats (set_unique_files (unique_files (m_stats pt) + 1) (m_stats pt)) pt) s.

(** [ImageCacheImpl::find_file].  The result is the returned pointer, [None]
    for a null pointer, and the new state; the outer [None] is the fuel of
    [check_max_files] running out. *)
Definition find_file (fuel : nat) (filename : ustring) (s : ImageCacheImpl)
    : option (option nat * ImageCacheImpl) :=
  match assoc_find filename (m_files s) with
  | Some p =>
      let tf := follow_duplicate p s in
      Some (Some tf, file_use tf s)
  | None =>
      let '(f, s) := new_ImageCacheFile filename s in
      let tf := length (file_store s) in
      let s := set_file_store (file_store s ++ [f]) s in
      match assoc_find filename (m_files s) with
      | Some p =>
          let '(_, s) := on_file tf ImageCacheFile_close tt s in
          let q := follow_duplicate p s in
          Some (Some q, file_use q s)
      | None =>
          let s := fingerprint_dedup tf s in
          match check_max_files fuel s with
          | None => None
          | Some s =>
              let s := set_m_files (assoc_set filename tf (m_files s)) s in
              let is_dup :=
                match file_store s !! tf with
                | Some f => m_duplicate f
                | None => None
                end in
              match is_dup with
              | Some d => Some (Some d, file_use d s)
              | None => Some (Some tf, file_use tf (incr_unique_files s))
              end
          end
      end
  end.

(** The record a returned pointer designates, if any. *)
Definition deref_file (file : option nat) (s : ImageCacheImpl) : option ImageCacheFile :=
  match file with
  | Some p => file_store s !! p
  | None => None
  end.

Definition err_not_found (filename : ustring) : string :=
  "Image file " +:+ quoted filename +:+ " not found".

Definition err_invalid (filename : ustring) : string :=
  "Invalid image file " +:+ quoted filename.

(** ** Queries on a file *)

(** [ImageCacheImpl::get_imagespec]: the specification on success. *)
Definition get_imagespec (fuel : nat) (filename : ustring) (subimage : Z)
    (s : ImageCacheImpl) : option (option ImageSpec * ImageCacheImpl) :=
  let s := get_perthread_info s in
  match find_file fuel filename s with
  | None => None
  | Some (file, s) =>
      match deref_file file s with
      | None => Some (None, error (err_not_found filename) s)
      | Some f =>
          if m_broken f then Some (None, error (err_invalid filename) s)
          else if (subimage <? 0) || (subimages f <=? subimage) then
            Some (None, error "Unknown subimage" s)  (* the numbers of the message are left out *)
          else Some (Some (spec_at f subimage), s)
      end
  end.

(** A store through the output pointer: the first cells are overwritten. *)
Definition write_cells (new data : list cell) : list cell :=
  new ++ drop (length new) data.

(** [ImageCacheImpl::get_image_info]: the result and the output buffer. *)
Definition get_image_info (fuel : nat) (filename dataname : ustring)
    (datatype : TypeDesc) (data : list cell) (s : ImageCacheImpl)
    : option (bool * list cell * ImageCacheImpl) :=
  let s := get_perthread_info s in
  match find_file fuel filename s with
  | None => None
  | Some (file, s) =>
      match deref_file file s with
      | None => Some (false, data, error (err_not_found filename) s)
      | Some f =>
          if m_broken f then Some (false, data, error (err_invalid filename) s)
          else
            let spec := spec_at f 0 in
            if String.eqb dataname "resolution" &&
               TypeDesc_eqb datatype (mkTypeDesc INT SCALAR 2) then
              Some (true, write_cells [IntCell (width spec); IntCell (height spec)] data, s)
            else if String.eqb dataname "texturetype" && TypeDesc_eqb datatype TypeString then
              Some (true, write_cells [StrCell (texture_type_name io (m_texformat f))] data, s)
            else if String.eqb dataname "textureformat" && TypeDesc_eqb datatype TypeString then
              Some (true, write_cells [StrCell (texture_format_name io (m_texformat f))] data, s)
            else if String.eqb dataname "fileformat" && TypeDesc_eqb datatype TypeString then
              Some (true, write_cells [StrCell (m_fileformat f)] data, s)
            else if String.eqb dataname "channels" && TypeDesc_eqb datatype TypeInt then
              Some (true, write_cells [IntCell (nchannels spec)] data, s)
            else if String.eqb dataname "channels" && TypeDesc_eqb datatype TypeFloat then
              Some (true, write_cells [FloatCell (int_to_float (nchannels spec))] data, s)
            else if String.eqb dataname "format" && TypeDesc_eqb datatype TypeInt then
              Some (true, write_cells [IntCell (Z.of_nat (basetype_code (basetype (format spec))))] data, s)
            else if (String.eqb dataname "cachedformat" || String.eqb dataname "cachedpixeltype")
                    && TypeDesc_eqb datatype TypeInt then
              Some (true, write_cells [IntCell (Z.of_nat (basetype_code (basetype (m_datatype f))))] data, s)
            else
              match find_attribute dataname None spec with
              | Some p =>
                  if arraylen (p_type p) =? arraylen datatype then
                    if TypeDesc_eqb (p_type p) datatype then
                      Some (true,
                            write_cells
                              (take (Z.to_nat (aggregate_count (aggregate datatype)
                                               * numelements datatype)) (p_data p)) data,
                            s)
                    else if bool_decide (basetype (p_type p) = FLOAT) &&
                            bool_decide (basetype datatype = INT) then
                      Some (true,
                            write_cells
                              (map (fun c => FloatCell (int_to_float (cell_as_int c)))
                                   (take (Z.to_nat (arraylen (p_type p))) (p_data p))) data,
                            s)
                    else Some (false, data, s)
                  else Some (false, data, s)
              | None => Some (false, data, s)
              end
      end
  end.

(** ** Tiles: construction and the tile table *)

(** Modelled from the spec: [ImageCacheTile::memsize] of [imagecache_pvt.h],
    which is not among the sources: the buffer holds
    tile_width * tile_height * tile_depth * channels * channel_bytes bytes. *)
Definition ImageCacheTile_memsize (f : ImageCacheFile) (subimage : Z) : Z :=
  let sp := spec_at f subimage in
  tile_width sp * tile_height sp * tile_depth sp * nchannels sp
  * TypeDesc_size (m_datatype f).

(** [m_pixels.resize (size)] followed by the reader writing [bytes]. *)
Definition resize_buffer (size : Z) (bytes : list Z) : list Z :=
  take (Z.to_nat size) (bytes ++ replicate (Z.to_nat size) 0).

(** [seek_subimage] of the reader of [f]. *)
Definition reader_seek_subimage (f : ImageCacheFile) (subimage : Z) : bool :=
  match disk io (m_filename f) with
  | Readable _ _ rest => (0 <=? subimage) && (subimage <=? Z.of_nat (length rest))
  | _ => false
  end.

(** [ImageCacheFile::read_tile] of the record at address [p]: the result
    and the bytes the read leaves in the buffer. *)
Definition ImageCacheFile_read_tile (p : nat) (subimage x y z : Z)
    (format : TypeDesc) (s : ImageCacheImpl) : bool * list Z * ImageCacheImpl :=
  let '(ok, s) := on_file p ImageCacheFile_open false s in
  if negb ok then (false, [], s)
  else
    match file_store s !! p with
    | None => (false, [], s)
    | Some f =>
        let f := if 0 <? subimage then set_m_mipused true f else f in
        let s := put_file p f s in
        if m_unmipped f && negb (subimage =? 0) then
          read_unmipped io s p subimage x y z format
        else if m_untiled f then
          read_untiled io s p subimage x y z format
        else
          let '(ok, f) :=
            if negb (bool_decide (m_input f = Some subimage)) then
              if reader_seek_subimage f subimage
              then (true, set_m_input (Some subimage) f)
              else (false, f)
            else (true, f) in
          if ok then
            let '(ok, bytes) :=
              reader_read_tile io (m_filename f) subimage x y z format in
            if ok then
              (true, bytes, put_file p (set_m_tilesread (m_tilesread f + 1) f) s)
            else
              (false, bytes, error (reader_error_message io (m_filename f)) (put_file p f s))
          else (false, [], put_file p f s)
    end.

(** The reading constructor of [ImageCacheTile].  The tile is returned
    before any reference to it exists. *)
Definition new_ImageCacheTile (id : TileID) (s : ImageCacheImpl)
    : ImageCacheTile * ImageCacheImpl :=
  let '(size, datatype) :=
    match file_store s !! id_file id with
    | Some f => (ImageCacheTile_memsize f (id_subimage id), m_datatype f)
    | None => (0, scalar UNKNOWN)
    end in
  let '(valid, bytes, s) :=
    ImageCacheFile_read_tile (id_file id) (id_subimage id) (id_x id) (id_y id) (id_z id)
      datatype s in
  ({| t_id := id; t_pixels := resize_buffer size bytes; t_valid := valid;
      t_used := if valid then true else false; t_refcnt := 0 |}, s).

(** Modelled from the spec: [ImageCacheTile::use] and
    [ImageCacheTile::release] of [imagecache_pvt.h]: [use] sets the used
    flag; [release] clears it and tells whether it was set. *)
Definition tile_use (p : nat) (s : ImageCacheImpl) : ImageCacheImpl :=
  match tile_store s !! p with
  | Some t => put_tile p (set_t_used true t) s
  | None => s
  end.

Definition tile_release (p : nat) (s : ImageCacheImpl) : bool * ImageCacheImpl :=
  match tile_store s !! p with
  | Some t => (t_used t, put_tile p (set_t_used false t) s)
  | None => (false, s)
  end.

Definition ref_use (r : option nat) (s : ImageCacheImpl) : ImageCacheImpl :=
  match r with
  | Some p => tile_use p s
  | None => s
  end.

(** One turn of the [while] loop of [ImageCacheImpl::check_max_mem].  With
    an iterator whose entry has been erased, the comparison with [end()] and
    the dereference are undefined in the source: the model leaves the loop
    there, with the state as it is and the iterator still invalid, and no
    property of the sweep is claimed from such a state. *)
Definition check_max_mem_turn (s : ImageCacheImpl) : turn :=
  if m_max_memory_bytes s <=? m_mem_used s then
    match m_tile_sweep s with
    | sweep_erased => Done s
    | sweep_at c =>
        match sweep_begin (length (m_tilecache s)) c with
        | None => Done (set_m_tile_sweep (sweep_at None) s)
        | Some i =>
            match m_tilecache s !! i with
            | Some (_, p) =>
                let '(was_used, s) := tile_release p s in
                if negb was_used then
                  let s := set_m_tilecache (delete i (m_tilecache s)) s in
                  let s := set_m_tile_sweep
                             (sweep_at (if (i <? length (m_tilecache s))%nat
                                        then Some i else None)) s in
                  Again (tile_decref p s)
                else
                  Again (set_m_tile_sweep
                           (sweep_at (sweep_next (length (m_tilecache s)) i)) s)
            | None => Done s
            end
        end
    end
  else Done s.

Fixpoint check_max_mem_loop (fuel : nat) (s : ImageCacheImpl) : option ImageCacheImpl :=
  match check_max_mem_turn s with
  | Done s' => Some s'
  | Again s' =>
      match fuel with
      | O => None
      | S fuel' => check_max_mem_loop fuel' s'
      end
  end.

(** [ImageCacheImpl::check_max_mem].  Every entry is visited at most twice
    before it is erased, so twice the size of the table is fuel enough
    ([check_max_mem_loop_terminates] below). *)
Definition check_max_mem (s : ImageCacheImpl) : ImageCacheImpl :=
  if bool_decide (m_tilecache s = []) then s
  else default s (check_max_mem_loop (2 * length (m_tilecache s)) s).

(** [ImageCacheImpl::add_tile_to_cache]: the tile at address [tile] goes
    into the table under its own id. *)
Definition add_tile_to_cache (tile : nat) (s : ImageCacheImpl) : ImageCacheImpl :=
  let s := check_max_mem s in
  match tile_store s !! tile with
  | Some t =>
      let old := assoc_find (t_id t) (m_tilecache s) in
      let s := set_m_tilecache (assoc_set (t_id t) tile (m_tilecache s)) s in
      ref_drop old (tile_incref tile s)
  | None => s
  end.

Definition on_stats (g : ImageCacheStatistics -> ImageCacheStatistics)
    (s : ImageCacheImpl) : ImageCacheImpl :=
  set_m_perthread_info
    (set_m_stats (g (m_stats (m_perthread_info s))) (m_perthread_info s)) s.

(** [ImageCacheImpl::find_tile_main_cache].  [tile] is the value of the
    reference the caller passes; the result is the return value, the new
    value of that reference and the new state. *)
Definition find_tile_main_cache (id : TileID) (tile : option nat) (s : ImageCacheImpl)
    : bool * option nat * ImageCacheImpl :=
  let s := on_stats (fun st =>
             set_find_tile_microcache_misses (find_tile_microcache_misses st + 1) st) s in
  match assoc_find id (m_tilecache s) with
  | Some p =>
      let s := ref_drop tile (tile_incref p s) in
      (true, Some p, tile_use p s)
  | None =>
      let s := on_stats (fun st =>
                 set_find_tile_cache_misses (find_tile_cache_misses st + 1) st) s in
      let '(t, s) := new_ImageCacheTile id s in
      let p := length (tile_store s) in
      let s := set_tile_store (tile_store s ++ [set_t_refcnt 1 t]) s in
      let s := ref_drop tile s in
      let s := incr_tiles (memsize t) s in
      let s := add_tile_to_cache p s in
      (t_valid t, Some p, s)
  end.

Definition tile_has_id (r : option nat) (id : TileID) (s : ImageCacheImpl) : bool :=
  match r with
  | Some p =>
      match tile_store s !! p with
      | Some t => TileID_eqb (t_id t) id
      | None => false
      end
  | None => false
  end.

(** Modelled from the spec: [ImageCacheImpl::find_tile] of
    [imagecache_pvt.h], the microcache fast path: the current tile if it
    matches; else the previous one, swapped to the front; else the tile
    table, whose result becomes the current tile while the old current tile
    becomes the previous one. *)
Definition find_tile (id : TileID) (s : ImageCacheImpl) : bool * ImageCacheImpl :=
  let s := on_stats (fun st => set_find_tile_calls (find_tile_calls st + 1) st) s in
  let pt := m_perthread_info s in
  if tile_has_id (pt_tile pt) id s then (true, s)
  else
    let s := set_m_perthread_info
               (set_pt_lasttile (pt_tile pt) (set_pt_tile (pt_lasttile pt) pt)) s in
    if tile_has_id (pt_tile (m_perthread_info s)) id s then (true, s)
    else
      let '(ok, r, s) := find_tile_main_cache id (pt_tile (m_perthread_info s)) s in
      (ok, set_m_perthread_info (set_pt_tile r (m_perthread_info s)) s).

(** [ImageCacheTile::data (x, y, z)]: the offset of the pixel in the
    buffer, [None] for the null pointer. *)
Definition ImageCacheTile_data (t : ImageCacheTile) (x y z : Z) (s : ImageCacheImpl)
    : option Z :=
  match file_store s !! id_file (t_id t) with
  | Some f =>
      let spec := spec_at f (id_subimage (t_id t)) in
      let w := tile_width spec in
      let h := tile_height spec in
      let d := Z.max 1 (tile_depth spec) in
      let x := x - id_x (t_id t) in
      let y := y - id_y (t_id t) in
      let z := z - id_z (t_id t) in
      if (x <? 0) || (w <=? x) || (y <? 0) || (h <=? y) || (z <? 0) || (d <=? z)
      then None
      else
        let pixelsize := nchannels spec * TypeDesc_size (m_datatype f) in
        Some (((z * h + y) * w + x) * pixelsize)
  | None => None
  end.

(** The integers [b], [b+1], ..., [e-1] of a [for] loop. *)
Definition Zrange (b e : Z) : list Z :=
  map (fun i => b + Z.of_nat i) (seq 0 (Z.to_nat (e - b))).

(** The body of the innermost loop of [get_pixels] at the sample [(x,y,z)];
    the accumulator is [ok], the bytes written so far and the state. *)
Definition get_pixels_step (file : nat) (subimage : Z) (format : TypeDesc) (nc : Z)
    (xyz : Z * Z * Z) (acc : bool * list Z * ImageCacheImpl)
    : bool * list Z * ImageCacheImpl :=
  let '(x, y, z) := xyz in
  let '(ok, result, s) := acc in
  let spec := match file_store s !! file with
              | Some f => spec_at f 0
              | None => empty_spec
              end in
  let tz := z - Z.rem z (Z.max 1 (tile_depth spec)) in
  let ty := y - Z.rem y (tile_height spec) in
  let tx := x - Z.rem x (tile_width spec) in
  let '(found, s) := find_tile (mkTileID file subimage tx ty tz) s in
  let ok := ok && found in
  let formatpixelsize := nc * TypeDesc_size format in
  let zeros := replicate (Z.to_nat formatpixelsize) 0 in
  let pixel :=
    match pt_tile (m_perthread_info s) with
    | Some p =>
        match tile_store s !! p, file_store s !! file with
        | Some t, Some f =>
            match ImageCacheTile_data t x y z s with
            | Some off =>
                convert_types io (m_datatype f) (drop (Z.to_nat off) (t_pixels t)) format nc
            | None => zeros
            end
        | _, _ => zeros
        end
    | None => zeros
    end in
  (ok, result ++ pixel, s).

(** The samples of a region in the order of the three nested loops. *)
Definition region (xbegin xend ybegin yend zbegin zend : Z) : list (Z * Z * Z) :=
  z ← Zrange zbegin zend; y ← Zrange ybegin yend; x ← Zrange xbegin xend;
  [(x, y, z)].

(** The loops of [get_pixels] take the remainder of [y] by the tile height
    once per row and of [x] by the tile width once per sample: with rows
    to visit and a tile height of zero, or samples to visit and a tile
    width of zero, the remainder traps. *)
Definition region_traps (spec : ImageSpec) (xbegin xend ybegin yend zbegin zend : Z)
    : bool :=
  (zbegin <? zend) && (ybegin <? yend) &&
  ((tile_height spec =? 0) || ((xbegin <? xend) && (tile_width spec =? 0))).

(** [ImageCacheImpl::get_pixels] on an open file record, for a region
    whose loops do not trap. *)
Definition get_pixels_file (file : nat) (subimage : Z)
    (xbegin xend ybegin yend zbegin zend : Z) (format : TypeDesc)
    (s : ImageCacheImpl) : bool * list Z * ImageCacheImpl :=
  let nc := match file_store s !! file with
            | Some f => nchannels (spec_at f 0)
            | None => 0
            end in
  fold_left (fun acc xyz => get_pixels_step file subimage format nc xyz acc)
    (region xbegin xend ybegin yend zbegin zend) (true, [], s).

(** [ImageCacheImpl::get_pixels] by file name.  The call does not return
    when the file sweep does not end, nor when the loops over the region
    trap. *)
Definition get_pixels (fuel : nat) (filename : ustring) (subimage : Z)
    (xbegin xend ybegin yend zbegin zend : Z) (format : TypeDesc)
    (s : ImageCacheImpl) : option (bool * list Z * ImageCacheImpl) :=
  let s := get_perthread_info s in
  match find_file fuel filename s with
  | None => None
  | Some (file, s) =>
      match file, deref_file file s with
      | Some p, Some f =>
          if m_broken f then Some (false, [], error (err_invalid filename) s)
          else if (subimage <? 0) || (subimages f <=? subimage) then
            Some (false, [],
                  error ("get_pixels asked for nonexistant subimage of " +:+ quoted filename) s)
          else if region_traps (spec_at f 0) xbegin xend ybegin yend zbegin zend then None
          else Some (get_pixels_file p subimage xbegin xend ybegin yend zbegin zend format s)
      | _, _ => Some (false, [], error (err_not_found filename) s)
      end
  end.

(** [ImageCacheImpl::get_tile]: the returned handle, [None] for null.  The
    call does not return when the file sweep does not end, nor when a tile
    extent of the file is zero: the integer division traps. *)
Definition get_tile (fuel : nat) (filename : ustring) (subimage x y z : Z)
    (s : ImageCacheImpl) : option (option nat * ImageCacheImpl) :=
  let s := get_perthread_info s in
  match find_file fuel filename s with
  | None => None
  | Some (file, s) =>
      match file, deref_file file s with
      | Some p, Some f =>
          if m_broken f then Some (None, s)
          else
            let spec := spec_at f 0 in
            if (tile_width spec =? 0) || (tile_height spec =? 0) || (tile_depth spec =? 0)
            then None
            else
              let xtile := (x - spec_x spec) ÷ tile_width spec in
              let ytile := (y - spec_y spec) ÷ tile_height spec in
              let ztile := (z - spec_z spec) ÷ tile_depth spec in
              let x := spec_x spec + xtile * tile_width spec in
              let y := spec_y spec + ytile * tile_height spec in
              let z := spec_z spec + ztile * tile_depth spec in
              let '(ok, tile, s) :=
                find_tile_main_cache (mkTileID p subimage x y z) None s in
              if ok then Some (tile, ref_drop tile (ref_use tile (ref_take tile s)))
              else Some (None, ref_drop tile s)
      | _, _ => Some (None, s)
      end
  end.

(** [ImageCacheImpl::release_tile] *)
Definition release_tile (tile : option nat) (s : ImageCacheImpl) : ImageCacheImpl :=
  match tile with
  | None => s
  | Some p => tile_decref p (tile_decref p (tile_use p (tile_incref p s)))
  end.

(** ** Invalidation *)

(** The erase loop of [ImageCacheImpl::invalidate] over the tile table. *)
Fixpoint erase_tiles_of (file : nat) (l : list (TileID * nat)) (s : ImageCacheImpl)
    : list (TileID * nat) * ImageCacheImpl :=
  match l with
  | [] => ([], s)
  | (id, p) :: rest =>
      if bool_decide (id_file id = file) then erase_tiles_of file rest (tile_decref p s)
      else let '(rest', s) := erase_tiles_of file rest s in ((id, p) :: rest', s)
  end.

(** Where the erase loop leaves the sweep iterator, which it does not
    look at: an iterator on an entry that stays is still on that entry,
    after the entries that stay of those before it; an iterator on an
    entry of [file] has lost its entry. *)
Definition sweep_after_erase (file : nat) (l : list (TileID * nat)) (c : TileSweep)
    : TileSweep :=
  match c with
  | sweep_at (Some i) =>
      match l !! i with
      | Some (id, _) =>
          if bool_decide (id_file id = file) then sweep_erased
          else sweep_at (Some (length (filter (fun e : TileID * nat =>
                                                 id_file (fst e) <> file) (take i l))))
      | None => c
      end
  | _ => c
  end.

(** [ImageCacheImpl::invalidate] *)
Definition invalidate (filename : ustring) (s : ImageCacheImpl) : ImageCacheImpl :=
  match assoc_find filename (m_files s) with
  | None => s
  | Some file =>
      let sweep := sweep_after_erase file (m_tilecache s) (m_tile_sweep s) in
      let '(tiles, s) := erase_tiles_of file (m_tilecache s) s in
      let s := set_m_tile_sweep sweep (set_m_tilecache tiles s) in
      let '(_, s) := on_file file ImageCacheFile_invalidate tt s in
      set_m_perthread_info (set_pt_purge true (m_perthread_info s)) s
  end.

End Cache.

(** ** Configuration *)

(** [(int) (size * 1024 * 1024)], [None] where the cast is undefined. *)
Definition megabytes_to_bytes (size : float) : option Z :=
  float_to_int (fmul (fmul size float_1024) float_1024).

(** [ImageCacheImpl::init], with empty tables. *)
Definition ImageCacheImpl_init : ImageCacheImpl :=
  {| m_max_open_files := 100;
     m_max_memory_MB := int_to_float 50;
     m_max_memory_bytes := default 0 (megabytes_to_bytes (int_to_float 50));
     m_searchpath := ""; m_statslevel := 0; m_autotile := 0; m_automip := false;
     m_forcefloat := false; m_accept_untiled := true;
     m_files := []; m_file_sweep := None; m_fingerprints := ∅; file_store := [];
     m_tilecache := []; m_tile_sweep := sweep_at None; tile_store := [];
     m_mem_used := 0; m_stat_tiles_current := 0; m_stat_open_files_current := 0;
     m_errormessage := "";
     m_perthread_info :=
       {| pt_tile := None; pt_lasttile := None; pt_purge := false;
          m_stats := {| find_tile_calls := 0; find_tile_microcache_misses := 0;
                        find_tile_cache_misses := 0; unique_files := 0 |} |};
     reader_creates := 0 |}.

(** The value an attribute call passes, read through the pointer type that
    the type tag selects. *)
Definition cell_as_float (c : cell) : float :=
  match c with
  | FloatCell f => f
  | _ => S754_zero false
  end.

Definition cell_as_string (c : cell) : string :=
  match c with
  | StrCell v => v
  | _ => ""
  end.

Definition set_max_memory (size : float) (s : ImageCacheImpl) : option (bool * ImageCacheImpl) :=
  match megabytes_to_bytes size with
  | Some bytes => Some (true, set_m_max_memory_bytes bytes (set_m_max_memory_MB size s))
  | None => None
  end.

(** [ImageCacheImpl::attribute].  [None] is a call whose behaviour the
    language does not define (the cast of the byte ceiling). *)
Definition attribute (name : string) (type : TypeDesc) (val : cell) (s : ImageCacheImpl)
    : option (bool * ImageCacheImpl) :=
  if String.eqb name "max_open_files" && is_basetype type INT then
    Some (true, set_m_max_open_files (cell_as_int val) s)
  else if String.eqb name "max_memory_MB" && is_basetype type FLOAT then
    set_max_memory (cell_as_float val) s
  else if String.eqb name "max_memory_MB" && is_basetype type INT then
    set_max_memory (int_to_float (cell_as_int val)) s
  else if String.eqb name "searchpath" && is_basetype type STRING then
    Some (true, set_m_searchpath (cell_as_string val) s)
  else if String.eqb name "statistics:level" && is_basetype type INT then
    Some (true, set_m_statslevel (cell_as_int val) s)
  else if String.eqb name "autotile" && is_basetype type INT then
    let a := pow2roundup (cell_as_int val) in
    Some (true, set_m_autotile (if (0 <? a) && (a <? 8) then 8 else a) s)
  else if String.eqb name "automip" && is_basetype type INT then
    Some (true, set_m_automip (negb (cell_as_int val =? 0)) s)
  else if String.eqb name "forcefloat" && is_basetype type INT then
    Some (true, set_m_forcefloat (negb (cell_as_int val =? 0)) s)
  else if String.eqb name "accept_untiled" && is_basetype type INT then
    Some (true, set_m_accept_untiled (negb (cell_as_int val =? 0)) s)
  else Some (false, s).


(** ** A reader environment for the concrete runs

    Eight files: a scanline image of 100x100 pixels, tiled images, two
    images that carry the same fingerprint, one with the same fingerprint
    and a different data type, an image whose tiles cannot be read, and a
    tiled image with an integer and a float attribute.  Any other name has no
    reader. *)

Definition demo_spec (w h tw th nc : Z) (fmt : BASETYPE)
    (attrs : list ImageIOParameter) : ImageSpec :=
  mkImageSpec 0 0 0 w h 1 w h tw th 1 nc (scalar fmt) attrs.

Definition demo_sha : ImageIOParameter :=
  mkParam "ImageDescription" TypeString
    [StrCell "SHA-1=0123456789abcdef0123456789abcdef01234567"].

Definition demo_disk (name : ustring) : DiskFile :=
  if String.eqb name "m.tif" then Readable "tiff" (demo_spec 100 100 0 0 3 FLOAT []) []
  else if String.eqb name "a.tif" then Readable "tiff" (demo_spec 256 256 64 64 3 UINT8 []) []
  else if String.eqb name "b.tif" then Readable "tiff" (demo_spec 256 256 64 64 3 UINT8 []) []
  else if String.eqb name "x.exr" then
    Readable "openexr" (demo_spec 256 256 64 64 3 FLOAT [demo_sha]) []
  else if String.eqb name "y.exr" then
    Readable "openexr" (demo_spec 256 256 64 64 3 FLOAT [demo_sha]) []
  else if String.eqb name "z.tif" then
    Readable "tiff" (demo_spec 256 256 64 64 3 UINT8 [demo_sha]) []
  else if String.eqb name "bad.tif" then Readable "tiff" (demo_spec 4 4 2 2 1 UINT8 []) []
  else if String.eqb name "n.tif" then
    Readable "tiff"
      (demo_spec 8 8 8 8 1 UINT8
         [mkParam "frames" TypeInt [IntCell 3];
          mkParam "gamma" TypeFloat [FloatCell (int_to_float 2)]]) []
  else NoReader "no reader".

(** Reading a tile of ["bad.tif"] fails after the reader has written into
    the buffer; every other tile reads as bytes of value 1. *)
Definition demo_io : External :=
  {| disk := demo_disk;
     searchpath_find := fun _ _ => "";
     reader_read_tile := fun name _ _ _ _ _ =>
       if String.eqb name "bad.tif" then (false, [7; 7; 7; 7]) else (true, [1; 1; 1; 1]);
     reader_error_message := fun _ => "read error";
     texture_format_name := fun _ => "Plain Texture";
     texture_type_name := fun _ => "Plain Texture";
     parse_wrapmodes := fun _ w => w;
     convert_types := fun _ src _ nc => take (Z.to_nat nc) src;
     read_unmipped := fun s _ _ _ _ _ _ => (false, [], s);
     read_untiled := fun s _ _ _ _ _ _ => (false, [], s) |}.

(** * Further functions of the cache *)

(** ** Reading the configuration and the error string *)

(** The two camera matrices of the cache, [m_Mw2c] and [m_Mc2w], sixteen
    floats each.  No function of the cache writes them after [init]; they
    are kept beside the cache record. *)
Record CameraMatrices := mkCamera {
  m_Mw2c : list float;
  m_Mc2w : list float
}.

(** [TypeDesc (TypeDesc::FLOAT, 16)], an array of sixteen floats. *)
Definition TypeFloat16 : TypeDesc := mkTypeDesc FLOAT SCALAR 16.

Definition is_matrix_type (type : TypeDesc) : bool :=
  TypeDesc_eqb type PT_MATRIX || TypeDesc_eqb type TypeFloat16.

(** [ImageCacheImpl::getattribute]: the result and the output buffer. *)
Definition getattribute (name : string) (type : TypeDesc) (cam : CameraMatrices)
    (val : list cell) (s : ImageCacheImpl) : bool * list cell :=
  if String.eqb name "max_open_files" && is_basetype type INT then
    (true, write_cells [IntCell (m_max_open_files s)] val)
  else if String.eqb name "max_memory_MB" && is_basetype type FLOAT then
    (true, write_cells [FloatCell (m_max_memory_MB s)] val)
  else if String.eqb name "searchpath" && is_basetype type STRING then
    (true, write_cells [StrCell (m_searchpath s)] val)
  else if String.eqb name "statistics:level" && is_basetype type INT then
    (true, write_cells [IntCell (m_statslevel s)] val)
  else if String.eqb name "autotile" && is_basetype type INT then
    (true, write_cells [IntCell (m_autotile s)] val)
  else if String.eqb name "automip" && is_basetype type INT then
    (true, write_cells [IntCell (if m_automip s then 1 else 0)] val)
  else if String.eqb name "forcefloat" && is_basetype type INT then
    (true, write_cells [IntCell (if m_forcefloat s then 1 else 0)] val)
  else if String.eqb name "accept_untiled" && is_basetype type INT then
    (true, write_cells [IntCell (if m_accept_untiled s then 1 else 0)] val)
  else if String.eqb name "worldtocommon" && is_matrix_type type then
    (true, write_cells (FloatCell <$> m_Mw2c cam) val)
  else if String.eqb name "commontoworld" && is_matrix_type type then
    (true, write_cells (FloatCell <$> m_Mc2w cam) val)
  else (false, val).

(** [ImageCacheImpl::geterror]: the error string, which is cleared. *)
Definition geterror (s : ImageCacheImpl) : string * ImageCacheImpl :=
  (m_errormessage s, set_m_errormessage "" s).

(** ** Creating and destroying caches *)

(** The caches of the process by address ([None] once deleted), and the
    static [shared_image_cache]. *)
Record Process := mkProcess {
  caches : list (option ImageCacheImpl);
  shared_image_cache : option nat
}.

(** [new ImageCacheImpl]: the constructor runs [init]. *)
Definition new_ImageCacheImpl (pr : Process) : nat * Process :=
  (length (caches pr),
   mkProcess (caches pr ++ [Some ImageCacheImpl_init]) (shared_image_cache pr)).

(** [ImageCache::create] *)
Definition ImageCache_create (shared : bool) (pr : Process) : nat * Process :=
  if shared then
    match shared_image_cache pr with
    | Some ic => (ic, pr)
    | None =>
        let '(ic, pr) := new_ImageCacheImpl pr in
        (ic, mkProcess (caches pr) (Some ic))
    end
  else new_ImageCacheImpl pr.

(** [ImageCache::destroy]; [x] is [None] for a null pointer, whose
    [delete] does nothing. *)
Definition ImageCache_destroy (x : option nat) (pr : Process) : Process :=
  if bool_decide (x <> shared_image_cache pr) then
    match x with
    | Some ic => mkProcess (<[ic := None]> (caches pr)) (shared_image_cache pr)
    | None => pr
    end
  else pr.

(** * Specification-level definitions

    The predicates the theorems are stated with, and the cache states they are
    instantiated at. *)

(** [b] is the level synthesized from [a]: each extent is halved, rounding
    down, and never falls below 1. *)
Definition halved (a b : ImageSpec) : Prop :=
  width b = Z.max 1 (full_width a ÷ 2) /\
  height b = Z.max 1 (full_height a ÷ 2) /\
  full_width b = width b /\
  full_height b = height b.

(** Every entry of [l] is synthesized from the one before it, starting from
    [prev]. *)
Fixpoint halving_chain (prev : ImageSpec) (l : list ImageSpec) : Prop :=
  match l with
  | [] => True
  | b :: r => halved prev b /\ halving_chain b r
  end.

(** The tile extents that [open] gives a scanline subimage. *)
Definition scanline_tiles (autotile : Z) (sp : ImageSpec) : ImageSpec :=
  if negb (autotile =? 0) then
    set_tile_depth 1 (set_tile_height autotile (set_tile_width autotile sp))
  else
    set_tile_depth 1
      (set_tile_height (pow2roundup (height sp))
         (set_tile_width (pow2roundup (width sp)) sp)).

(** The weight of the tile table: every entry counts once, and once more
    while its tile is marked as used. *)
Definition used_weight (st : list ImageCacheTile) (p : nat) : nat :=
  match st !! p with
  | Some t => if t_used t then 1 else 0
  | None => 0
  end.

(** The weight of the entries [l] over the tile store [st]. *)
Fixpoint table_weight (st : list ImageCacheTile) (l : list (TileID * nat)) : nat :=
  match l with
  | [] => 0
  | e :: r => S (used_weight st (snd e)) + table_weight st r
  end.

(** The weight of the tile table of a cache. *)
Definition sweep_weight (s : ImageCacheImpl) : nat :=
  table_weight (tile_store s) (m_tilecache s).

(** What a sweep leaves behind when it stops. *)
Definition mem_swept (s : ImageCacheImpl) : Prop :=
  m_mem_used s < m_max_memory_bytes s \/ m_tilecache s = [].


(** The sweep iterator of the tile table has not lost its entry. *)
Definition sweep_valid (s : ImageCacheImpl) : Prop := m_tile_sweep s <> sweep_erased.

(** What a tile is to its readers: its id, its pixels and its validity. *)
Definition tile_core (t : ImageCacheTile) : TileID * list Z * bool :=
  (t_id t, t_pixels t, t_valid t).

(** The same for every tile of the store, by address. *)
Definition tile_cores (s : ImageCacheImpl) : list (TileID * list Z * bool) :=
  map tile_core (tile_store s).

(** Opening touches three fields of the cache: the error string, the
    counter of open files and the count of reader creations. *)
Definition open_effect (s s' : ImageCacheImpl) : Prop :=
  exists e c n,
    s' = set_m_errormessage e (set_m_stat_open_files_current c (set_reader_creates n s)).

(** Dropping tile references touches the tile store, its two counters and
    the per-thread record. *)
Definition tile_effect (s s' : ImageCacheImpl) : Prop :=
  exists ts mu tc pt,
    s' = set_m_perthread_info pt
           (set_m_stat_tiles_current tc (set_m_mem_used mu (set_tile_store ts s))).

(** The state in which [find_file] reaches [check_max_files] for a name
    that is not in the table: the new record sits in the store and the
    fingerprint block has run. *)
Definition find_file_enter (io : External) (filename : ustring) (s : ImageCacheImpl)
    : ImageCacheImpl :=
  let fs := new_ImageCacheFile io filename s in
  fingerprint_dedup (length (file_store s))
    (set_file_store (file_store (snd fs) ++ [fst fs]) (snd fs)).

(** What [find_file] does after [check_max_files] has returned [s]. *)
Definition find_file_leave (filename : ustring) (tf : nat) (s : ImageCacheImpl)
    : option nat * ImageCacheImpl :=
  let s := set_m_files (assoc_set filename tf (m_files s)) s in
  match
    match file_store s !! tf with
    | Some f => m_duplicate f
    | None => None
    end
  with
  | Some d => (Some d, file_use d s)
  | None => (Some tf, file_use tf (incr_unique_files s))
  end.

(** The state in which a cache limited to one open file is left by
    [find_file "a.tif"]. *)
Definition one_open_file : ImageCacheImpl :=
  match attribute "max_open_files" TypeInt (IntCell 1) ImageCacheImpl_init with
  | Some (_, s) =>
      match find_file demo_io 0 "a.tif" s with
      | Some (_, s') => s'
      | None => s
      end
  | None => ImageCacheImpl_init
  end.

(** The state in which [find_file "b.tif"] then enters [check_max_files]:
    the new record holds the second open reader. *)
Definition sweep_entry : ImageCacheImpl := find_file_enter demo_io "b.tif" one_open_file.

(** The state a turn ends in. *)
Definition turn_state (t : turn) : ImageCacheImpl :=
  match t with Done s | Again s => s end.

(** The states after one and after two turns; in the second the only record
    of the table is closed and unused. *)
Definition sweep_second : ImageCacheImpl := turn_state (check_max_files_turn sweep_entry).
Definition sweep_stuck : ImageCacheImpl := turn_state (check_max_files_turn sweep_second).

(** The state in which a query on a name of the table finds the record
    [q] behind that name. *)
Definition found_state (q : nat) (s : ImageCacheImpl) : ImageCacheImpl :=
  file_use q (get_perthread_info s).

(** No reader can be created for the file, or its reader fails to open
    it. *)
Definition unreadable (io : External) (name : ustring) (err : string) : Prop :=
  disk io name = NoReader err \/ disk io name = OpenFails err.

(** The record of a file that could not be opened. *)
Definition broken_file (name : ustring) : ImageCacheFile :=
  set_m_broken true (blank_file name).

(** The state in which [find_file] leaves the cache after it has created
    the record of an unreadable file. *)
Definition unreadable_state (io : External) (filename : ustring) (err : string)
    (s : ImageCacheImpl)
    : ImageCacheImpl :=
  let tf := length (file_store s) in
  let s1 := error err (set_reader_creates (S (reader_creates s)) s) in
  let s2 := set_file_store
              (file_store s1 ++ [broken_file (resolve_filename io filename s)]) s1 in
  file_use tf (incr_unique_files (set_m_files (assoc_set filename tf (m_files s2)) s2)).

(** The reader, the duplicate pointer and the broken flag of a record are
    those of [f]. *)
Definition same_reader (f f' : ImageCacheFile) : Prop :=
  m_input f' = m_input f /\ m_duplicate f' = m_duplicate f /\ m_broken f' = m_broken f.

(** The fields that the fingerprint block of [find_file] compares. *)
Definition same_modes (f dup : ImageCacheFile) : bool :=
  bool_decide (m_swrap f = m_swrap dup) &&
  bool_decide (m_twrap f = m_twrap dup) &&
  bool_decide (m_datatype f = m_datatype dup) &&
  bool_decide (m_cubelayout f = m_cubelayout dup) &&
  bool_decide (m_y_up f = m_y_up dup).

(** The state in which a lookup that misses the table constructs the tile:
    only the two miss counters have moved. *)
Definition miss_state (s : ImageCacheImpl) : ImageCacheImpl :=
  on_stats (fun st => set_find_tile_cache_misses (find_tile_cache_misses st + 1) st)
    (on_stats (fun st =>
       set_find_tile_microcache_misses (find_tile_microcache_misses st + 1) st) s).


(** [m] followed by [k] zero bits. *)
Definition pow2mul (m : positive) (k : nat) : positive := Nat.iter k xO m.

(** The magnitude of [m * 2^e], rounded toward zero. *)
Definition trunc_mag (m : positive) (e : Z) : Z :=
  if 0 <=? e then Z.pos m * 2 ^ e else Z.pos m / 2 ^ (- e).

(** The size scaled by [2^20], exactly. *)
Definition times_2_20 (size : float) : float :=
  match size with
  | S754_finite sg m e => S754_finite sg m (e + 20)
  | _ => size
  end.

(** All [int] sizes between -2048 and 2047. *)
Definition small_sizes : list Z := map (fun i => Z.of_nat i - 2048) (seq 0 4096).

(** The [m_duplicate] pointers of the records, by address. *)
Definition duplicates (s : ImageCacheImpl) : list (option nat) :=
  m_duplicate <$> file_store s.

(** Every pointer to a file record that the cache holds, in the file table,
    in the fingerprint map and in the records, designates a record. *)
Definition files_ok (s : ImageCacheImpl) : Prop :=
  Forall (fun e : ustring * nat => (snd e < length (duplicates s))%nat) (m_files s) /\
  map_Forall (fun (_ : ustring) (d : nat) => (d < length (duplicates s))%nat)
    (m_fingerprints s) /\
  Forall (fun o : option nat => forall d, o = Some d -> (d < length (duplicates s))%nat)
    (duplicates s).

(** The two tables and the duplicate pointers are the same. *)
Definition same_files (s s' : ImageCacheImpl) : Prop :=
  m_files s' = m_files s /\ m_fingerprints s' = m_fingerprints s /\
  duplicates s' = duplicates s.

(** A cache with automip switched on. *)
Definition automip_cache : ImageCacheImpl :=
  match attribute "automip" TypeInt (IntCell 1) ImageCacheImpl_init with
  | Some (_, s) => s
  | None => ImageCacheImpl_init
  end.

(** What a query returned, without the state. *)
Definition returned {A : Type} (r : option (A * ImageCacheImpl)) : option A :=
  option_map fst r.

(** The width and height of a returned specification. *)
Definition returned_size (r : option (option ImageSpec * ImageCacheImpl))
    : option (option (Z * Z)) :=
  option_map (fun x => option_map (fun sp => (width sp, height sp)) (fst x)) r.

(** The names that [get_image_info] answers itself, before it turns to the
    attributes of the specification. *)
Definition well_known (dataname : string) : bool :=
  existsb (String.eqb dataname)
    ["resolution"; "texturetype"; "textureformat"; "fileformat"; "channels";
     "format"; "cachedformat"; "cachedpixeltype"].

(** The state in which a query on ["n.tif"] finds its record, at address 0. *)
Definition n_found : ImageCacheImpl :=
  match find_file demo_io 0 "n.tif" (get_perthread_info ImageCacheImpl_init) with
  | Some (_, s) => s
  | None => ImageCacheImpl_init
  end.

(** The record of ["n.tif"] in [n_found]. *)
Definition n_record : ImageCacheFile :=
  default (blank_file "n.tif") (file_store n_found !! 0%nat).

(** The reference count of the tile at address [p]; no tile, no
    reference. *)
Definition refcount (s : ImageCacheImpl) (p : nat) : nat :=
  match tile_store s !! p with
  | Some t => t_refcnt t
  | None => 0%nat
  end.

(** The bytes that the tile at address [p] gives back when its last
    reference goes. *)
Definition bytes_at (s : ImageCacheImpl) (p : nat) : Z :=
  match tile_store s !! p with
  | Some t => memsize t
  | None => 0
  end.

(** The id of the first tile of the file at address 0. *)
Definition first_tile_id : TileID := mkTileID 0 0 0 0 0.

(** The cache after [get_tile] has brought the first tile of ["a.tif"] into
    the table, at address 0. *)
Definition one_tile_cache : ImageCacheImpl :=
  match get_tile demo_io 0 "a.tif" 0 0 0 0 ImageCacheImpl_init with
  | Some (_, s) => s
  | None => ImageCacheImpl_init
  end.

(** The state of a lookup that missed the table, has read its own copy of
    the tile (address 1) and reaches [add_tile_to_cache] after another
    lookup has inserted the same id. *)
Definition raced_cache : ImageCacheImpl :=
  let ts := new_ImageCacheTile demo_io first_tile_id one_tile_cache in
  incr_tiles (memsize (fst ts))
    (set_tile_store (tile_store (snd ts) ++ [set_t_refcnt 1 (fst ts)]) (snd ts)).

(** The cache after [find_file "x.exr"]; the record of ["x.exr"] is at
    address 0 and its fingerprint is registered. *)
Definition x_cache : ImageCacheImpl :=
  match find_file demo_io 0 "x.exr" ImageCacheImpl_init with
  | Some (_, s) => s
  | None => ImageCacheImpl_init
  end.

(** That cache after [find_file "z.tif"]; the record of ["z.tif"] is at
    address 1. *)
Definition after_z : ImageCacheImpl :=
  match find_file demo_io 0 "z.tif" x_cache with
  | Some (_, s) => s
  | None => x_cache
  end.

(** The record of ["x.exr"] in [x_cache]. *)
Definition x_record : ImageCacheFile :=
  default (blank_file "x.exr") (file_store x_cache !! 0%nat).

(** The cache after a first query on a file that has no reader. *)
Definition missing_cache : ImageCacheImpl :=
  match get_imagespec demo_io 0 "nope.tif" 0 ImageCacheImpl_init with
  | Some (_, s) => s
  | None => ImageCacheImpl_init
  end.





(** The state in which the first query finds the record it has created. *)
Definition missing_found (io : External) (filename : ustring) (err : string)
    (s : ImageCacheImpl) : ImageCacheImpl :=
  unreadable_state io filename err (get_perthread_info s).

(** The value the specification gives the byte ceiling for a size of [n]
    megabytes: [n * 2^20] wrapped modulo [2^32] into the range of [int]. *)
Definition wrapped_bytes (n : Z) : Z := (n * 2 ^ 20 + 2 ^ 31) mod 2 ^ 32 - 2 ^ 31.

(** The size 1.5. *)
Definition one_and_a_half : float := S754_finite false 12582912 (-23).

(** The names that [attribute] sets. *)
Definition settable : list string :=
  ["max_open_files"; "max_memory_MB"; "searchpath"; "statistics:level"; "autotile";
   "automip"; "forcefloat"; "accept_untiled"].

(** The three attributes that are stored as [bool]. *)
Definition switches : list string := ["automip"; "forcefloat"; "accept_untiled"].

(** Everything of the cache but its configuration: tables, stores, sweep
    cursors, counters, the error string and the per-thread record. *)
Definition contents (s : ImageCacheImpl) :=
  (m_files s, m_file_sweep s, m_fingerprints s, file_store s,
   (m_tilecache s, m_tile_sweep s, tile_store s, m_mem_used s),
   (m_stat_tiles_current s, m_stat_open_files_current s, m_errormessage s,
    m_perthread_info s, reader_creates s)).

(** The messages of a sequence of [error] calls, in order. *)
Definition report (msgs : list string) (s : ImageCacheImpl) : ImageCacheImpl :=
  fold_left (fun s msg => error msg s) msgs s.

(** The configuration of the cache. *)
Definition settings (s : ImageCacheImpl) :=
  (m_max_open_files s, m_max_memory_MB s, m_max_memory_bytes s, m_searchpath s,
   (m_statslevel s, m_autotile s, m_automip s, m_forcefloat s, m_accept_untiled s)).

(** The tile table, its sweep cursor, the tiles and their two counters. *)
Definition tile_side (s : ImageCacheImpl) :=
  (m_tilecache s, m_tile_sweep s, tile_store s, m_mem_used s, m_stat_tiles_current s).

(** The two slots and the purge flag of the per-thread record. *)
Definition microcache (s : ImageCacheImpl) :=
  (pt_tile (m_perthread_info s), pt_lasttile (m_perthread_info s),
   pt_purge (m_perthread_info s)).

(** What the file side of the cache has no business with. *)
Definition beside_files (s : ImageCacheImpl) := (settings s, tile_side s, microcache s).

(** The cache after [get_imagespec] on ["a.tif"]. *)
Definition a_known : ImageCacheImpl :=
  match get_imagespec demo_io 0 "a.tif" 0 ImageCacheImpl_init with
  | Some (_, s) => s
  | None => ImageCacheImpl_init
  end.

(** The record at address [p] exists and is no duplicate. *)
Definition canonical (s : ImageCacheImpl) (p : nat) : Prop :=
  duplicates s !! p = Some None.

(** Every entry of the file table designates a record; every entry of the
    fingerprint map, and every duplicate pointer, designates a record that
    is not itself a duplicate. *)
Definition one_hop (s : ImageCacheImpl) : Prop :=
  Forall (fun e : ustring * nat => is_Some (duplicates s !! snd e)) (m_files s) /\
  map_Forall (fun (_ : ustring) (d : nat) => canonical s d) (m_fingerprints s) /\
  (forall p d, duplicates s !! p = Some (Some d) -> canonical s d).

(** The cache after ["x.exr"] has been looked up in a fresh cache. *)
Definition exr_known : ImageCacheImpl :=
  match find_file demo_io 0 "x.exr" ImageCacheImpl_init with
  | Some (_, s) => s
  | None => ImageCacheImpl_init
  end.

(** The same cache after ["y.exr"], which has the fingerprint of ["x.exr"],
    has been looked up as well. *)
Definition exr_twice : ImageCacheImpl :=
  match find_file demo_io 0 "y.exr" exr_known with
  | Some (_, s) => s
  | None => exr_known
  end.

(** The cache after a tile of ["a.tif"] has been fetched in a fresh cache. *)
Definition a_tiled : ImageCacheImpl :=
  match get_tile demo_io 0 "a.tif" 0 0 0 0 ImageCacheImpl_init with
  | Some (_, s) => s
  | None => ImageCacheImpl_init
  end.

(** One for a record that holds a reader. *)
Definition holds_reader (f : ImageCacheFile) : Z := if opened f then 1 else 0.

(** The number of records of the store that hold a reader. *)
Definition open_readers (l : list ImageCacheFile) : Z :=
  foldr (fun f n => holds_reader f + n) 0 l.

(** By how much the counter of open files exceeds the number of readers
    that are open. *)
Definition surplus (s : ImageCacheImpl) : Z :=
  m_stat_open_files_current s - open_readers (file_store s).

(** A record that is broken and holds no reader. *)
Definition dead (f : ImageCacheFile) : Prop := m_broken f = true /\ m_input f = None.

(** A fresh cache that refuses untiled files. *)
Definition strict_cache : ImageCacheImpl := set_m_accept_untiled false ImageCacheImpl_init.

(** The strict cache after the scanline file ["m.tif"] has been looked up. *)
Definition strict_after : ImageCacheImpl :=
  match find_file demo_io 0 "m.tif" strict_cache with
  | Some (_, s) => s
  | None => strict_cache
  end.

(** The id of the tile that [get_pixels] asks for at the sample [(x,y,z)]:
    the corner is found with the tile extents of [spec], which is the
    specification of subimage 0 of the file. *)
Definition get_pixels_tile (file : nat) (subimage : Z) (spec : ImageSpec) (x y z : Z)
    : TileID :=
  mkTileID file subimage
    (x - Z.rem x (tile_width spec))
    (y - Z.rem y (tile_height spec))
    (z - Z.rem z (Z.max 1 (tile_depth spec))).

(** The tile and the file record of [a_tiled]. *)
Definition a_tile : ImageCacheTile :=
  default (mkTile (mkTileID 0 0 0 0 0) [] false false 0) (tile_store a_tiled !! 0%nat).

Definition a_record : ImageCacheFile :=
  default (blank_file "") (file_store a_tiled !! 0%nat).

(** What decides how [read_tile] reads a tile of a record: its
    specifications and its two marks. *)
Definition shape (f : ImageCacheFile) : list ImageSpec * bool * bool :=
  (m_spec f, m_untiled f, m_unmipped f).

Definition shapes (s : ImageCacheImpl) : list (list ImageSpec * bool * bool) :=
  shape <$> file_store s.

(** A tile of [subimage] of the record is read from the file itself: the
    record has its specifications, is tiled, and is MIP-mapped or asked for
    its first subimage, so that [read_tile] calls neither [read_unmipped]
    nor [read_untiled]. *)
Definition read_directly (f : ImageCacheFile) (subimage : Z) : Prop :=
  m_spec f <> [] /\ m_untiled f = false /\ (m_unmipped f = false \/ subimage = 0).

(** The tiles of [subimage] of the file at address [p], if there is such a
    record, are read from the file itself. *)
Definition reads_directly (s : ImageCacheImpl) (p : nat) (subimage : Z) : Prop :=
  forall f, file_store s !! p = Some f -> read_directly f subimage.


(** The rest of the cache: the configuration and the file side. *)
Definition beside_tiles (s : ImageCacheImpl) :=
  (settings s, (m_files s, m_file_sweep s, m_fingerprints s, file_store s),
   (m_stat_open_files_current s, m_errormessage s, reader_creates s)).




(** The records, by address, that the file table leads to. *)
Definition in_table (s : ImageCacheImpl) (p : nat) : bool :=
  bool_decide (elem_of p (snd <$> m_files s)).

(** The number of records from address [k] on that hold a reader and
    satisfy [P]. *)
Fixpoint readers_from (P : nat -> bool) (k : nat) (l : list ImageCacheFile) : Z :=
  match l with
  | [] => 0
  | f :: r => (if opened f && P k then 1 else 0) + readers_from P (S k) r
  end.

(** The number of open readers that the sweep can reach: those of the
    records of the file table. *)
Definition reachable_readers (s : ImageCacheImpl) : Z :=
  readers_from (in_table s) 0 (file_store s).

(** How many visits of the sweep the record needs to lose its reader: two
    when it is used, one when it is not, none when it has no reader. *)
Definition rank (f : ImageCacheFile) : nat :=
  if opened f then (if m_used f then 2 else 1)%nat else 0%nat.

Definition rank_at (s : ImageCacheImpl) (p : nat) : nat :=
  match file_store s !! p with
  | Some f => rank f
  | None => 0%nat
  end.

(** The entry the next turn of the sweep visits. *)
Definition cursor (s : ImageCacheImpl) : nat :=
  default 0%nat (sweep_begin (length (m_files s)) (m_file_sweep s)).

(** The turns until the sweep, now at [cur], is at entry [j]. *)
Definition dist (len cur j : nat) : nat :=
  if (cur <=? j)%nat then (j - cur)%nat else (j + len - cur)%nat.

(** The turns after which the record [p] of entry [j] has lost its
    reader. *)
Definition cost (s : ImageCacheImpl) (j p : nat) : nat :=
  match rank_at s p with
  | O => 0%nat
  | S r => (r * length (m_files s) + dist (length (m_files s)) (cursor s) j + 1)%nat
  end.

(** A turn that goes round again: the record of the entry under the cursor
    is released and the cursor moves on. *)
Definition visit (i p : nat) (s : ImageCacheImpl) : ImageCacheImpl :=
  set_m_file_sweep (sweep_next (length (m_files s)) i)
    (snd (on_file p ImageCacheFile_release tt s)).

(** The id of the tile that [get_tile] asks for: the corner is counted in
    whole tiles from the origin of [spec], the specification of subimage 0
    of the file. *)
Definition get_tile_id (file : nat) (subimage : Z) (spec : ImageSpec) (x y z : Z)
    : TileID :=
  mkTileID file subimage
    (spec_x spec + (x - spec_x spec) ÷ tile_width spec * tile_width spec)
    (spec_y spec + (y - spec_y spec) ÷ tile_height spec * tile_height spec)
    (spec_z spec + (z - spec_z spec) ÷ tile_depth spec * tile_depth spec).

(** A converter that writes exactly one pixel of the requested format, and
    the record of ["a.tif"] in [a_known]. *)
Definition exact_io : External :=
  {| disk := disk demo_io;
     searchpath_find := searchpath_find demo_io;
     reader_read_tile := reader_read_tile demo_io;
     reader_error_message := reader_error_message demo_io;
     texture_format_name := texture_format_name demo_io;
     texture_type_name := texture_type_name demo_io;
     parse_wrapmodes := parse_wrapmodes demo_io;
     convert_types := fun _ src format nc =>
       take (Z.to_nat (nc * TypeDesc_size format))
         (src ++ replicate (Z.to_nat (nc * TypeDesc_size format)) 0);
     read_unmipped := read_unmipped demo_io;
     read_untiled := read_untiled demo_io |}.

Definition a_known_record : ImageCacheFile :=
  default (blank_file "") (file_store a_known !! 0%nat).

(** The disk of [demo_io] after a tiled file has appeared under the name
    ["none.tif"], and the cache in which that name was queried before. *)
Definition later_io : External :=
  {| disk := fun name =>
       if String.eqb name "none.tif"
       then Readable "tiff" (demo_spec 256 256 64 64 3 UINT8 []) []
       else disk demo_io name;
     searchpath_find := searchpath_find demo_io;
     reader_read_tile := reader_read_tile demo_io;
     reader_error_message := reader_error_message demo_io;
     texture_format_name := texture_format_name demo_io;
     texture_type_name := texture_type_name demo_io;
     parse_wrapmodes := parse_wrapmodes demo_io;
     convert_types := convert_types demo_io;
     read_unmipped := read_unmipped demo_io;
     read_untiled := read_untiled demo_io |}.

Definition none_queried : ImageCacheImpl :=
  match get_imagespec demo_io 0 "none.tif" 0 ImageCacheImpl_init with
  | Some (_, s) => s
  | None => ImageCacheImpl_init
  end.

Definition none_record : ImageCacheFile :=
  default (blank_file "") (file_store none_queried !! 0%nat).

(** A cache that refuses untiled files, after the scanline file ["m.tif"]
    has been queried; then a tiled file appears under that name. *)
Definition m_rejected : ImageCacheImpl :=
  match get_imagespec demo_io 0 "m.tif" 0 (set_m_accept_untiled false ImageCacheImpl_init) with
  | Some (_, s) => s
  | None => ImageCacheImpl_init
  end.

Definition m_record : ImageCacheFile :=
  default (blank_file "") (file_store m_rejected !! 0%nat).

Definition tiled_io : External :=
  {| disk := fun name =>
       if String.eqb name "m.tif"
       then Readable "tiff" (demo_spec 256 256 64 64 3 UINT8 []) []
       else disk demo_io name;
     searchpath_find := searchpath_find demo_io;
     reader_read_tile := reader_read_tile demo_io;
     reader_error_message := reader_error_message demo_io;
     texture_format_name := texture_format_name demo_io;
     texture_type_name := texture_type_name demo_io;
     parse_wrapmodes := parse_wrapmodes demo_io;
     convert_types := convert_types demo_io;
     read_unmipped := read_unmipped demo_io;
     read_untiled := read_untiled demo_io |}.

(** The file table leads to every record of the store, and to nothing
    else. *)
Definition registered (s : ImageCacheImpl) : Prop :=
  forall p, in_table s p = true <-> (p < length (file_store s))%nat.

(** The file side at rest: every record is registered, the counter of open
    files is the number of open readers, and it is below the ceiling. *)
Definition files_at_rest (s : ImageCacheImpl) : Prop :=
  registered s /\ surplus s = 0 /\
  m_stat_open_files_current s < m_max_open_files s.





(** A call of the cache by its client. *)
Inductive api_call :=
  | Get_imagespec (filename : ustring) (subimage : Z)
  | Get_tile (filename : ustring) (subimage x y z : Z)
  | Get_pixels (filename : ustring) (subimage xbegin xend ybegin yend zbegin zend : Z)
      (format : TypeDesc)
  | Release_tile (tile : option nat).


(** The tiles that the call asks for are read from the file itself: the
    record that the lookup of its file name finds is tiled, and is
    MIP-mapped or asked for its first subimage. *)
Definition call_reads_directly (io : External) (fuel : nat) (c : api_call)
    (s : ImageCacheImpl) : Prop :=
  match c with
  | Get_tile filename subimage _ _ _
  | Get_pixels filename subimage _ _ _ _ _ _ _ =>
      forall p s1,
        find_file io fuel filename (get_perthread_info s) = Some (Some p, s1) ->
        reads_directly s1 p subimage
  | _ => True
  end.



(** [read_directly] and [call_reads_directly] as tests, and the test of a
    sequence of calls at the states it goes through. *)
Definition read_directly_b (f : ImageCacheFile) (subimage : Z) : bool :=
  match m_spec f with [] => false | _ :: _ => true end
  && negb (m_untiled f) && (negb (m_unmipped f) || (subimage =? 0)).

Definition lookup_reads_directly_b (io : External) (fuel : nat) (filename : ustring)
    (subimage : Z) (s : ImageCacheImpl) : bool :=
  match find_file io fuel filename (get_perthread_info s) with
  | Some (Some p, s1) =>
      match file_store s1 !! p with
      | Some f => read_directly_b f subimage
      | None => true
      end
  | _ => true
  end.

Definition call_reads_directly_b (io : External) (fuel : nat) (c : api_call)
    (s : ImageCacheImpl) : bool :=
  match c with
  | Get_tile filename subimage _ _ _
  | Get_pixels filename subimage _ _ _ _ _ _ _ =>
      lookup_reads_directly_b io fuel filename subimage s
  | _ => true
  end.


(** A cache whose memory ceiling is set to 1/1024 MB, that is 1024 bytes. *)
Definition one_kilobyte_cache : ImageCacheImpl :=
  match attribute "max_memory_MB" TypeFloat (FloatCell (S754_finite false 8388608 (-33)))
          ImageCacheImpl_init with
  | Some (_, s) => s
  | None => ImageCacheImpl_init
  end.

(** That cache after the first [get_tile] on ["a.tif"]. *)
Definition after_first_tile : ImageCacheImpl :=
  match get_tile demo_io 0 "a.tif" 0 0 0 0 one_kilobyte_cache with
  | Some (_, s) => s
  | None => one_kilobyte_cache
  end.







(** The tiles the tile table refers to, entry by entry. *)
Definition table_refs (s : ImageCacheImpl) : list nat := map snd (m_tilecache s).

(** The tiles the two slots of the microcache refer to. *)
Definition micro_refs (s : ImageCacheImpl) : list nat :=
  option_list (pt_tile (m_perthread_info s)) ++
  option_list (pt_lasttile (m_perthread_info s)).

(** How often [p] occurs among references. *)
Definition occurrences (p : nat) (refs : list nat) : nat := count_occ Nat.eq_dec refs p.

(** The reference count of every tile is the number of the references to
    it: those of the table and those of [refs]. *)
Definition counted (refs : list nat) (s : ImageCacheImpl) : Prop :=
  forall p, refcount s p = (occurrences p (table_refs s) + occurrences p refs)%nat.

(** The table files a tile under the id the tile carries. *)
Definition ids_ok (s : ImageCacheImpl) : Prop :=
  forall id p, In (id, p) (m_tilecache s) ->
    exists t, tile_store s !! p = Some t /\ t_id t = id.

(** The bytes, and the number, of the tiles that are alive. *)
Definition live_bytes (l : list ImageCacheTile) : Z :=
  foldr (fun t n => (if (t_refcnt t =? 0)%nat then 0 else memsize t) + n) 0 l.

Definition live_tiles (l : list ImageCacheTile) : Z :=
  foldr (fun t n => (if (t_refcnt t =? 0)%nat then 0 else 1) + n) 0 l.

(** The two counters of the cache agree with the tiles that are alive,
    once [bytes] and [tiles] that are still to be added are added. *)
Definition accounted (bytes tiles : Z) (s : ImageCacheImpl) : Prop :=
  m_mem_used s + bytes = live_bytes (tile_store s) /\
  m_stat_tiles_current s + tiles = live_tiles (tile_store s).

Definition tiles_pending (bytes tiles : Z) (refs : list nat) (s : ImageCacheImpl) : Prop :=
  counted refs s /\ ids_ok s /\ accounted bytes tiles s.

(** The invariant of the tile side, for a cache whose tiles are referred
    to by the table and by [refs]. *)
Definition tiles_ok (refs : list nat) (s : ImageCacheImpl) : Prop :=
  tiles_pending 0 0 refs s.

(** The invariant between two calls: the references from outside the table
    are those of the microcache and the handles given out by [get_tile]. *)
Definition cache_ok (handles : list nat) (s : ImageCacheImpl) : Prop :=
  tiles_ok (micro_refs s ++ handles) s.

(** What the invariant reads of a tile, and of the cache. *)
Definition tile_view (t : ImageCacheTile) : TileID * Z * nat :=
  (t_id t, memsize t, t_refcnt t).

Definition ledger (s : ImageCacheImpl) :=
  (m_tilecache s, map tile_view (tile_store s), m_mem_used s, m_stat_tiles_current s).

(** The state in which the lookup of the second tile of ["a.tif"] returns,
    in the cache of 1024 bytes, when the handle to the first tile is passed
    to it. *)
Definition after_second_lookup : ImageCacheImpl :=
  snd (find_tile_main_cache demo_io (mkTileID 0 0 64 0 0) (Some 0%nat) after_first_tile).

(** A call of the two functions that create and destroy caches. *)
Inductive cache_call :=
  | Create (shared : bool)
  | Destroy (x : option nat).

Definition run_call (c : cache_call) (pr : Process) : Process :=
  match c with
  | Create shared => snd (ImageCache_create shared pr)
  | Destroy x => ImageCache_destroy x pr
  end.

Definition run_calls (cs : list cache_call) (pr : Process) : Process :=
  fold_left (fun pr c => run_call c pr) cs pr.

(** The shared cache is [ic], alive and in the state [s]. *)
Definition shared_is (ic : nat) (s : ImageCacheImpl) (pr : Process) : Prop :=
  shared_image_cache pr = Some ic /\ caches pr !! ic = Some (Some s).

(** A process without caches, and three calls. *)
Definition no_caches : Process := mkProcess [] None.

Definition some_calls : list cache_call :=
  [Create false; Destroy (Some 0%nat); Create true].

(** * Theorems *)

Example init_max_memory_bytes : m_max_memory_bytes ImageCacheImpl_init = 52428800.
Proof. vm_compute. reflexivity. Qed.

(** ** The synthesized pyramid *)

Lemma quot2_bound (w m : Z) : 2 <= m -> w <= m -> Z.max 1 (w ÷ 2) <= m - 1.
Proof.
  intros Hm Hw.
  destruct (Z.le_gt_cases 0 w) as [H0 | H0].
  - rewrite Z.quot_div_nonneg by lia.
    assert (w / 2 <= w) by (apply Z.div_le_upper_bound; lia).
    assert (w / 2 < w \/ w = 0) as [? | ->].
    { destruct (Z.eq_dec w 0); [auto | left; apply Z.div_lt; lia]. }
    + lia.
    + rewrite Z.div_0_l by lia. lia.
  - assert (w ÷ 2 <= 0) by (apply Z.quot_le_upper_bound; lia). lia.
Qed.

Section Automip.
Variable io : External.

Lemma automip_loop_chain fuel autotile s0 :
  forall w h prev,
    full_width prev = w -> full_height prev = h ->
    halving_chain prev (automip_loop fuel autotile s0 w h).
Proof.
  induction fuel as [| fuel IH]; intros w h prev Hw Hh; simpl; [exact I |].
  destruct ((1 <? w) || (1 <? h)); [| exact I].
  split.
  - unfold halved. rewrite Hw, Hh.
    destruct (negb (autotile =? 0)); simpl; auto.
  - apply IH; destruct (negb (autotile =? 0)); reflexivity.
Qed.

Lemma automip_loop_complete fuel autotile s0 :
  forall w h prev,
    Z.max w h <= Z.of_nat fuel ->
    full_width prev = w -> full_height prev = h ->
    exists l, last (prev :: automip_loop fuel autotile s0 w h) = Some l /\
              full_width l <= 1 /\ full_height l <= 1.
Proof.
  induction fuel as [| fuel IH]; intros w h prev Hf Hw Hh.
  - simpl. exists prev. split; [reflexivity | lia].
  - simpl automip_loop.
    destruct ((1 <? w) || (1 <? h)) eqn:Hc.
    + set (w' := Z.max 1 (w ÷ 2)). set (h' := Z.max 1 (h ÷ 2)).
      match goal with |- context [?x :: automip_loop _ _ _ _ _] =>
        destruct (IH w' h' x) as (l & Hl & Hb) end.
      * assert (2 <= Z.max w h).
        { apply orb_true_iff in Hc as [Hc | Hc]; apply Z.ltb_lt in Hc; lia. }
        assert (w' <= Z.max w h - 1) by (apply quot2_bound; lia).
        assert (h' <= Z.max w h - 1) by (apply quot2_bound; lia).
        lia.
      * destruct (negb (autotile =? 0)); reflexivity.
      * destruct (negb (autotile =? 0)); reflexivity.
      * exists l. split; [| exact Hb].
        rewrite last_cons. rewrite Hl. reflexivity.
    + exists prev. split; [reflexivity |].
      apply orb_false_iff in Hc as [H1 H2].
      apply Z.ltb_ge in H1, H2. lia.
Qed.

Lemma open_finish_spec f s :
  find_attribute "textureformat" (Some TypeString) (spec_at f 0) = None ->
  m_spec (open_finish io f s) = m_spec f.
Proof.
  intros H. unfold open_finish.
  cbn [spec_at]. 
  change (spec_at (set_m_texformat TexFormatTexture f) 0) with (spec_at f 0).
  rewrite H.
  repeat match goal with
         | |- context [match ?x with _ => _ end] => destruct x
         end; reflexivity.
Qed.
End Automip.

Lemma read_subimages_scanline autotile first untiled :
  tile_width first = 0 \/ tile_height first = 0 ->
  read_subimages autotile [first] 0 [] untiled
  = (true, 1, [scanline_tiles autotile first], true).
Proof.
  intros Hscan. unfold read_subimages.
  assert (Hc : (tile_width first =? 0) || (tile_height first =? 0) = true).
  { apply orb_true_iff. destruct Hscan as [-> | ->]; auto. }
  rewrite Hc. reflexivity.
Qed.

Lemma open_first_time_automip_spec io f s first :
  m_spec f = [] ->
  tile_width first = 0 \/ tile_height first = 0 ->
  m_automip s = true ->
  find_attribute "textureformat" (Some TypeString) first = None ->
  m_spec (snd (fst (open_first_time io f s first []))) =
  scanline_tiles (m_autotile s) first
    :: automip_specs (m_autotile s) (scanline_tiles (m_autotile s) first).
Proof.
  intros Hnil Hscan Hmip Hattr.
  assert (Ha : find_attribute "textureformat" (Some TypeString)
                 (scanline_tiles (m_autotile s) first) = None).
  { unfold scanline_tiles. destruct (negb (m_autotile s =? 0)); exact Hattr. }
  unfold open_first_time.
  rewrite Hnil, read_subimages_scanline by assumption.
  cbv beta iota zeta.
  change (negb true) with false. cbv iota.
  change (1 =? 1) with true. cbv iota.
  set (f1 := set_m_unmipped true _).
  assert (Hs1 : spec_at f1 0 = scanline_tiles (m_autotile s) first) by reflexivity.
  assert (Hu : m_untiled f1 && m_unmipped f1 && m_automip s = true)
    by (rewrite Hmip; reflexivity).
  rewrite Hu, Hs1, Ha.
  change (bool_decide (is_Some (@None ImageIOParameter))) with false.
  cbv beta iota zeta. change (true && negb false) with true. cbv iota.
  set (f2 := set_m_spec _ f1).
  assert (Hs2 : m_spec f2 = scanline_tiles (m_autotile s) first
                  :: automip_specs (m_autotile s) (scanline_tiles (m_autotile s) first))
    by reflexivity.
  destruct (m_untiled f2 && negb (m_accept_untiled s)).
  - exact Hs2.
  - cbn [fst snd]. rewrite open_finish_spec; [exact Hs2 |].
    unfold spec_at. rewrite Hs2. exact Ha.
Qed.

Lemma new_file_automip_spec io filename s fmt first :
  disk io (resolve_filename io filename s) = Readable fmt first [] ->
  tile_width first = 0 \/ tile_height first = 0 ->
  m_automip s = true ->
  find_attribute "textureformat" (Some TypeString) first = None ->
  m_spec (fst (new_ImageCacheFile io filename s)) =
  scanline_tiles (m_autotile s) first
    :: automip_specs (m_autotile s) (scanline_tiles (m_autotile s) first).
Proof.
  intros Hdisk Hscan Hmip Hattr.
  unfold new_ImageCacheFile, ImageCacheFile_open.
  cbn [opened m_input m_broken m_filename m_spec blank_file].
  change (bool_decide (is_Some (@None Z))) with false. cbv iota.
  rewrite Hdisk.
  cbv beta iota zeta.
  set (f0 := use _). set (s0 := incr_open_files _).
  change (bool_decide (m_spec f0 = [])) with true. cbv iota. 
  change (negb true) with false. cbv iota.
  pose proof (open_first_time_automip_spec io f0 s0 first eq_refl Hscan Hmip Hattr) as H.
  destruct (open_first_time io f0 s0 first []) as [[ok f'] s']. exact H.
Qed.

(** ** The memory sweep *)

Lemma sweep_begin_Some n c i : sweep_begin n c = Some i -> (i < n)%nat.
Proof.
  unfold sweep_begin. destruct c as [j |].
  - destruct (j <? n)%nat eqn:Hj.
    + intros [= <-]. apply Nat.ltb_lt, Hj.
    + destruct (0 <? n)%nat eqn:H0; [| discriminate].
      intros [= <-]. apply Nat.ltb_lt, H0.
  - destruct (0 <? n)%nat eqn:H0; [| discriminate].
    intros [= <-]. apply Nat.ltb_lt, H0.
Qed.

Lemma sweep_begin_None n c : sweep_begin n c = None -> n = 0%nat.
Proof.
  unfold sweep_begin. destruct c as [j |].
  - destruct (j <? n)%nat; [discriminate |].
    destruct (0 <? n)%nat eqn:H0; [discriminate |].
    intros _. apply Nat.ltb_ge in H0. lia.
  - destruct (0 <? n)%nat eqn:H0; [discriminate |].
    intros _. apply Nat.ltb_ge in H0. lia.
Qed.

Lemma used_weight_le_1 st p : (used_weight st p <= 1)%nat.
Proof. unfold used_weight. destruct (st !! p) as [t |]; [destruct (t_used t) |]; lia. Qed.

Lemma table_weight_bound st l : (table_weight st l <= 2 * length l)%nat.
Proof.
  induction l as [| e r IH]; simpl; [lia |].
  pose proof (used_weight_le_1 st (snd e)). lia.
Qed.

Lemma table_weight_mono st st' l :
  (forall q, used_weight st' q <= used_weight st q)%nat ->
  (table_weight st' l <= table_weight st l)%nat.
Proof.
  intros H. induction l as [| e r IH]; simpl; [lia |].
  specialize (H (snd e)). lia.
Qed.

Lemma table_weight_delete st l i e :
  l !! i = Some e ->
  (table_weight st (delete i l) + S (used_weight st (snd e)) = table_weight st l)%nat.
Proof.
  revert i. induction l as [| a r IH]; intros [| i] H; simpl in *; try discriminate.
  - injection H as ->. lia.
  - specialize (IH i H). lia.
Qed.

Lemma table_weight_strict st st' l i e :
  l !! i = Some e ->
  (forall q, used_weight st' q <= used_weight st q)%nat ->
  (used_weight st' (snd e) < used_weight st (snd e))%nat ->
  (table_weight st' l < table_weight st l)%nat.
Proof.
  intros Hi Hle Hlt.
  rewrite <- (table_weight_delete st l i e Hi), <- (table_weight_delete st' l i e Hi).
  pose proof (table_weight_mono st st' (delete i l) Hle). lia.
Qed.

Lemma used_weight_insert st p t t' q :
  st !! p = Some t ->
  used_weight (<[p := t']> st) q =
  if decide (p = q) then (if t_used t' then 1 else 0)%nat else used_weight st q.
Proof.
  intros Hp. unfold used_weight. destruct (decide (p = q)) as [<- | Hne].
  - rewrite list_lookup_insert_eq by (eapply lookup_lt_Some; eauto). reflexivity.
  - rewrite list_lookup_insert_ne by assumption. reflexivity.
Qed.

Lemma tile_decref_used p s q :
  used_weight (tile_store (tile_decref p s)) q = used_weight (tile_store s) q.
Proof.
  unfold tile_decref. destruct (tile_store s !! p) as [t |] eqn:Ht; [| reflexivity].
  destruct (t_refcnt t <=? 1)%nat; cbn; rewrite (used_weight_insert _ _ t) by assumption;
    (destruct (decide (p = q)) as [<- | ?]; [| reflexivity]);
    unfold used_weight; rewrite Ht; reflexivity.
Qed.

Lemma tile_decref_tilecache p s : m_tilecache (tile_decref p s) = m_tilecache s.
Proof.
  unfold tile_decref. destruct (tile_store s !! p) as [t |]; [| reflexivity].
  destruct (t_refcnt t <=? 1)%nat; reflexivity.
Qed.

(** A turn that goes round again has made the table lighter. *)
Lemma check_max_mem_turn_decreases s s' :
  check_max_mem_turn s = Again s' -> (sweep_weight s' < sweep_weight s)%nat.
Proof.
  unfold check_max_mem_turn.
  destruct (m_max_memory_bytes s <=? m_mem_used s); [| discriminate].
  destruct (m_tile_sweep s) as [c |]; [| discriminate].
  destruct (sweep_begin _ _) as [i |]; [| discriminate].
  destruct (m_tilecache s !! i) as [[id p] |] eqn:Hi; [| discriminate].
  unfold tile_release. destruct (tile_store s !! p) as [t |] eqn:Ht.
  - destruct (t_used t) eqn:Hu; cbn [negb]; intros [= <-]; unfold sweep_weight.
    + cbn. apply (table_weight_strict _ _ _ i (id, p) Hi).
      * intros q. rewrite (used_weight_insert _ _ t) by assumption.
        destruct (decide (p = q)) as [<- | ?]; cbn; lia.
      * rewrite (used_weight_insert _ _ t) by assumption.
        rewrite decide_True by reflexivity. cbn.
        unfold used_weight. rewrite Ht, Hu. lia.
    + rewrite tile_decref_tilecache. cbn [m_tilecache set_m_tile_sweep set_m_tilecache put_tile set_tile_store].
      pose proof (table_weight_delete (tile_store s) _ i (id, p) Hi) as Hd.
      match goal with |- (table_weight ?st' _ < _)%nat =>
        pose proof (table_weight_mono (tile_store s) st' (delete i (m_tilecache s))) as Hm end.
      lapply Hm.
      * lia.
      * intros q. rewrite tile_decref_used. cbn.
        rewrite (used_weight_insert _ _ t) by assumption.
        destruct (decide (p = q)) as [<- | ?]; cbn; lia.
  - cbn [negb]. intros [= <-]. unfold sweep_weight.
    rewrite tile_decref_tilecache. cbn [m_tilecache set_m_tile_sweep set_m_tilecache].
    pose proof (table_weight_delete (tile_store s) _ i (id, p) Hi) as Hd.
    match goal with |- (table_weight ?st' _ < _)%nat =>
      pose proof (table_weight_mono (tile_store s) st' (delete i (m_tilecache s))) as Hm end.
    lapply Hm; [lia |].
    intros q. rewrite tile_decref_used. cbn. lia.
Qed.

Lemma check_max_mem_loop_enough fuel :
  forall s, (sweep_weight s <= fuel)%nat -> is_Some (check_max_mem_loop fuel s).
Proof.
  induction fuel as [| fuel IH]; intros s Hw; simpl;
    destruct (check_max_mem_turn s) as [s' | s'] eqn:Ht; try (eexists; reflexivity).
  - apply check_max_mem_turn_decreases in Ht. lia.
  - apply IH. apply check_max_mem_turn_decreases in Ht. lia.
Qed.

Lemma check_max_mem_loop_terminates s :
  is_Some (check_max_mem_loop (2 * length (m_tilecache s)) s).
Proof. apply check_max_mem_loop_enough, table_weight_bound. Qed.

Lemma length_zero_nil {A} (l : list A) : length l = 0%nat -> l = [].
Proof. destruct l; [reflexivity | discriminate]. Qed.

Lemma tile_release_sweep p s : m_tile_sweep (snd (tile_release p s)) = m_tile_sweep s.
Proof. unfold tile_release. destruct (tile_store s !! p); reflexivity. Qed.

Lemma tile_decref_sweep p s : m_tile_sweep (tile_decref p s) = m_tile_sweep s.
Proof.
  unfold tile_decref. destruct (tile_store s !! p) as [t |]; [| reflexivity].
  destruct (t_refcnt t <=? 1)%nat; reflexivity.
Qed.

Lemma tile_incref_sweep p s : m_tile_sweep (tile_incref p s) = m_tile_sweep s.
Proof. unfold tile_incref. destruct (tile_store s !! p); reflexivity. Qed.

Lemma tile_use_sweep p s : m_tile_sweep (tile_use p s) = m_tile_sweep s.
Proof. unfold tile_use. destruct (tile_store s !! p); reflexivity. Qed.

Lemma ref_drop_sweep r s : m_tile_sweep (ref_drop r s) = m_tile_sweep s.
Proof. destruct r; [apply tile_decref_sweep | reflexivity]. Qed.

(** A turn of the memory sweep leaves a valid iterator valid. *)
Lemma check_max_mem_turn_valid s :
  match check_max_mem_turn s with
  | Done s' | Again s' => sweep_valid s -> sweep_valid s'
  end.
Proof.
  unfold check_max_mem_turn, sweep_valid.
  destruct (m_max_memory_bytes s <=? m_mem_used s); [| auto].
  destruct (m_tile_sweep s) as [c |] eqn:Hs; [| rewrite Hs; auto].
  destruct (sweep_begin _ _) as [i |]; [| cbn; discriminate].
  destruct (m_tilecache s !! i) as [[id p] |]; [| rewrite Hs; auto].
  destruct (tile_release p s) as [u s1].
  destruct (negb u).
  - rewrite tile_decref_sweep. cbn. discriminate.
  - cbn. discriminate.
Qed.

Lemma check_max_mem_loop_valid fuel :
  forall s s', check_max_mem_loop fuel s = Some s' -> sweep_valid s -> sweep_valid s'.
Proof.
  induction fuel as [| fuel IH]; intros s s'; simpl;
    pose proof (check_max_mem_turn_valid s) as Hv;
    destruct (check_max_mem_turn s) as [s1 | s1].
  - intros [= <-]. exact Hv.
  - discriminate.
  - intros [= <-]. exact Hv.
  - intros H Hs. apply (IH _ _ H), Hv, Hs.
Qed.

Lemma check_max_mem_valid s : sweep_valid s -> sweep_valid (check_max_mem s).
Proof.
  unfold check_max_mem. case_bool_decide; [auto |].
  destruct (check_max_mem_loop (2 * length (m_tilecache s)) s) as [s' |] eqn:Hl;
    [| auto].
  cbn. eapply check_max_mem_loop_valid; eauto.
Qed.

Lemma check_max_mem_turn_done s s' :
  sweep_valid s -> check_max_mem_turn s = Done s' -> mem_swept s'.
Proof.
  unfold check_max_mem_turn, mem_swept, sweep_valid. intros Hv.
  destruct (m_max_memory_bytes s <=? m_mem_used s) eqn:Hc.
  - destruct (m_tile_sweep s) as [c |]; [| congruence].
    destruct (sweep_begin _ _) as [i |] eqn:Hb.
    + destruct (m_tilecache s !! i) as [[id p] |] eqn:Hi.
      * destruct (tile_release p s) as [u s1]. destruct (negb u); discriminate.
      * apply sweep_begin_Some in Hb. apply lookup_ge_None in Hi. lia.
    + intros [= <-]. right. apply length_zero_nil. cbn.
      apply sweep_begin_None in Hb. exact Hb.
  - intros [= <-]. left. apply Z.leb_gt in Hc. exact Hc.
Qed.

Lemma check_max_mem_loop_swept fuel :
  forall s s', sweep_valid s -> check_max_mem_loop fuel s = Some s' -> mem_swept s'.
Proof.
  induction fuel as [| fuel IH]; intros s s' Hv; simpl;
    pose proof (check_max_mem_turn_valid s) as Hv';
    destruct (check_max_mem_turn s) as [s1 | s1] eqn:Ht.
  - intros [= <-]. eapply check_max_mem_turn_done; eauto.
  - discriminate.
  - intros [= <-]. eapply check_max_mem_turn_done; eauto.
  - apply IH, Hv', Hv.
Qed.

Lemma check_max_mem_swept s : sweep_valid s -> mem_swept (check_max_mem s).
Proof.
  intros Hv. unfold check_max_mem. case_bool_decide as Hnil.
  - right. exact Hnil.
  - destruct (check_max_mem_loop_terminates s) as [s' Hs']. rewrite Hs'. cbn.
    eapply check_max_mem_loop_swept; eauto.
Qed.



(** ** Tiles keep their identity, pixels and validity *)

Lemma cores_insert (st : list ImageCacheTile) p t t' :
  st !! p = Some t -> tile_core t' = tile_core t ->
  map tile_core (<[p := t']> st) = map tile_core st.
Proof.
  intros Hp Hc. rewrite list_fmap_insert, Hc.
  apply list_insert_id. rewrite list_lookup_fmap, Hp. reflexivity.
Qed.

Lemma tile_decref_cores p s : tile_cores (tile_decref p s) = tile_cores s.
Proof.
  unfold tile_decref, tile_cores.
  destruct (tile_store s !! p) as [t |] eqn:Ht; [| reflexivity].
  destruct (t_refcnt t <=? 1)%nat; cbn; apply (cores_insert _ _ t); auto.
Qed.

Lemma tile_incref_cores p s : tile_cores (tile_incref p s) = tile_cores s.
Proof.
  unfold tile_incref, tile_cores.
  destruct (tile_store s !! p) as [t |] eqn:Ht; [| reflexivity].
  cbn; apply (cores_insert _ _ t); auto.
Qed.

Lemma tile_release_cores p s : tile_cores (snd (tile_release p s)) = tile_cores s.
Proof.
  unfold tile_release, tile_cores.
  destruct (tile_store s !! p) as [t |] eqn:Ht; [| reflexivity].
  cbn; apply (cores_insert _ _ t); auto.
Qed.

Lemma tile_use_cores p s : tile_cores (tile_use p s) = tile_cores s.
Proof.
  unfold tile_use, tile_cores.
  destruct (tile_store s !! p) as [t |] eqn:Ht; [| reflexivity].
  cbn; apply (cores_insert _ _ t); auto.
Qed.

Lemma check_max_mem_turn_cores s :
  match check_max_mem_turn s with
  | Done s' | Again s' => tile_cores s' = tile_cores s
  end.
Proof.
  unfold check_max_mem_turn.
  destruct (m_max_memory_bytes s <=? m_mem_used s); [| reflexivity].
  destruct (m_tile_sweep s) as [c |]; [| reflexivity].
  destruct (sweep_begin _ _) as [i |]; [| reflexivity].
  destruct (m_tilecache s !! i) as [[id p] |]; [| reflexivity].
  pose proof (tile_release_cores p s) as Hr.
  destruct (tile_release p s) as [u s1]. cbn in Hr.
  destruct (negb u).
  - rewrite tile_decref_cores. exact Hr.
  - exact Hr.
Qed.

Lemma check_max_mem_loop_cores fuel :
  forall s s', check_max_mem_loop fuel s = Some s' -> tile_cores s' = tile_cores s.
Proof.
  induction fuel as [| fuel IH]; intros s s'; simpl;
    pose proof (check_max_mem_turn_cores s) as Hc;
    destruct (check_max_mem_turn s) as [s1 | s1].
  - intros [= <-]. exact Hc.
  - discriminate.
  - intros [= <-]. exact Hc.
  - intros H. rewrite (IH _ _ H). exact Hc.
Qed.

Lemma check_max_mem_cores s : tile_cores (check_max_mem s) = tile_cores s.
Proof.
  unfold check_max_mem. case_bool_decide; [reflexivity |].
  destruct (check_max_mem_loop (2 * length (m_tilecache s)) s) as [s' |] eqn:Hl;
    [| reflexivity].
  cbn. eapply check_max_mem_loop_cores; eauto.
Qed.

Lemma cores_lookup s s' p t :
  tile_cores s' = tile_cores s -> tile_store s !! p = Some t ->
  exists t', tile_store s' !! p = Some t' /\ tile_core t' = tile_core t.
Proof.
  unfold tile_cores. intros Hc Hp.
  assert (H : map tile_core (tile_store s') !! p = Some (tile_core t)).
  { rewrite Hc, list_lookup_fmap, Hp. reflexivity. }
  rewrite list_lookup_fmap in H.
  destruct (tile_store s' !! p) as [t' |]; [| discriminate].
  exists t'. split; [reflexivity |]. cbn in H. congruence.
Qed.

(** ** Insertion into the tile table *)

Lemma assoc_find_set {K V} `{EqDecision K} (k : K) (v : V) (l : list (K * V)) :
  assoc_find k (assoc_set k v l) = Some v.
Proof.
  unfold assoc_find. induction l as [| e r IH]; cbn.
  - rewrite bool_decide_eq_true_2 by reflexivity. reflexivity.
  - destruct (decide (fst e = k)) as [He | He]; cbn.
    + rewrite bool_decide_eq_true_2 by reflexivity. reflexivity.
    + rewrite bool_decide_eq_false_2 by assumption. exact IH.
Qed.

Lemma tile_decref_mem p s :
  m_mem_used (tile_decref p s) <= m_mem_used s /\
  m_max_memory_bytes (tile_decref p s) = m_max_memory_bytes s.
Proof.
  unfold tile_decref. destruct (tile_store s !! p) as [t |]; [| split; [lia | reflexivity]].
  destruct (t_refcnt t <=? 1)%nat; cbn; split; try reflexivity; unfold memsize; lia.
Qed.

Lemma tile_incref_frame p s :
  m_mem_used (tile_incref p s) = m_mem_used s /\
  m_max_memory_bytes (tile_incref p s) = m_max_memory_bytes s /\
  m_tilecache (tile_incref p s) = m_tilecache s.
Proof.
  unfold tile_incref. destruct (tile_store s !! p) as [t |]; repeat split; reflexivity.
Qed.

Lemma ref_drop_tilecache r s : m_tilecache (ref_drop r s) = m_tilecache s.
Proof. destruct r; [apply tile_decref_tilecache | reflexivity]. Qed.

Lemma ref_drop_mem r s :
  m_mem_used (ref_drop r s) <= m_mem_used s /\
  m_max_memory_bytes (ref_drop r s) = m_max_memory_bytes s.
Proof. destruct r; [apply tile_decref_mem | split; [cbn; lia | reflexivity]]. Qed.

(** [add_tile_to_cache] in terms of the state the sweep leaves: the table
    is what [m_tilecache[id] = tile] makes of it. *)
Lemma add_tile_to_cache_table tile t s :
  tile_store s !! tile = Some t ->
  m_tilecache (add_tile_to_cache tile s)
  = assoc_set (t_id t) tile (m_tilecache (check_max_mem s)).
Proof.
  intros Ht. unfold add_tile_to_cache.
  destruct (cores_lookup s (check_max_mem s) tile t (check_max_mem_cores s) Ht)
    as (t' & Ht' & Hcore).
  rewrite Ht'.
  assert (Hid : t_id t' = t_id t) by (unfold tile_core in Hcore; congruence).
  rewrite Hid, ref_drop_tilecache.
  rewrite (proj2 (proj2 (tile_incref_frame tile _))). reflexivity.
Qed.

Lemma add_tile_to_cache_mem tile s :
  m_mem_used (add_tile_to_cache tile s) <= m_mem_used (check_max_mem s) /\
  m_max_memory_bytes (add_tile_to_cache tile s) = m_max_memory_bytes (check_max_mem s).
Proof.
  unfold add_tile_to_cache.
  destruct (tile_store (check_max_mem s) !! tile) as [t |]; [| split; [lia | reflexivity]].
  set (s1 := check_max_mem s).
  set (s2 := set_m_tilecache _ s1).
  pose proof (tile_incref_frame tile s2) as (Hm & Hx & Hc).
  pose proof (ref_drop_mem (assoc_find (t_id t) (m_tilecache s1)) (tile_incref tile s2))
    as (Hm' & Hx').
  split; [| rewrite Hx', Hx; reflexivity].
  cbn [s2 m_mem_used set_m_tilecache] in Hm. lia.
Qed.

Lemma add_tile_to_cache_sweep tile s :
  m_tile_sweep (add_tile_to_cache tile s) = m_tile_sweep (check_max_mem s).
Proof.
  unfold add_tile_to_cache.
  destruct (tile_store (check_max_mem s) !! tile) as [t |]; [| reflexivity].
  rewrite ref_drop_sweep, tile_incref_sweep. reflexivity.
Qed.

(** After [add_tile_to_cache] the table maps the tile's id to the tile that
    was passed, whatever it held before; and, when the sweep iterator had
    not lost its entry, the byte counter is below the ceiling unless the new
    tile is the only entry left. *)
Lemma add_tile_to_cache_spec tile t s :
  tile_store s !! tile = Some t ->
  let s' := add_tile_to_cache tile s in
  assoc_find (t_id t) (m_tilecache s') = Some tile /\
  (sweep_valid s ->
   m_mem_used s' < m_max_memory_bytes s' \/ m_tilecache s' = [(t_id t, tile)]).
Proof.
  intros Ht. cbv zeta. rewrite (add_tile_to_cache_table tile t s Ht).
  split; [apply assoc_find_set |]. intros Hv.
  pose proof (add_tile_to_cache_mem tile s) as (Hm & Hx).
  destruct (check_max_mem_swept s Hv) as [Hlt | Hnil].
  - left. lia.
  - right. rewrite Hnil. reflexivity.
Qed.

Ltac impl_norm :=
  cbv [set_m_max_open_files set_m_max_memory_MB set_m_max_memory_bytes set_m_searchpath
       set_m_statslevel set_m_autotile set_m_automip set_m_forcefloat
       set_m_accept_untiled set_m_files set_m_file_sweep set_m_fingerprints
       set_file_store set_m_tilecache set_m_tile_sweep set_tile_store set_m_mem_used
       set_m_stat_tiles_current set_m_stat_open_files_current set_m_errormessage
       set_m_perthread_info set_reader_creates
       m_max_open_files m_max_memory_MB m_max_memory_bytes m_searchpath m_statslevel
       m_autotile m_automip m_forcefloat m_accept_untiled m_files m_file_sweep
       m_fingerprints file_store m_tilecache m_tile_sweep tile_store m_mem_used
       m_stat_tiles_current m_stat_open_files_current m_errormessage m_perthread_info
       reader_creates].

(** ** What opening a file changes in the cache *)

Ltac open_effect_solve :=
  match goal with
  | |- open_effect ?s _ => destruct s; eexists _, _, _; impl_norm; reflexivity
  end.

Lemma open_effect_refl s : open_effect s s.
Proof.
  open_effect_solve.
Qed.

Lemma open_effect_trans s1 s2 s3 :
  open_effect s1 s2 -> open_effect s2 s3 -> open_effect s1 s3.
Proof.
  intros (e & c & n & ->) (e' & c' & n' & ->).
  exists e', c', n'. destruct s1; impl_norm; reflexivity.
Qed.

Lemma error_effect msg s : open_effect s (error msg s).
Proof. unfold error. open_effect_solve. Qed.

Lemma incr_open_files_effect s : open_effect s (incr_open_files s).
Proof. unfold incr_open_files. open_effect_solve. Qed.

Lemma decr_open_files_effect s : open_effect s (decr_open_files s).
Proof. unfold decr_open_files. open_effect_solve. Qed.

Lemma close_effect f s : open_effect s (snd (ImageCacheFile_close f s)).
Proof.
  unfold ImageCacheFile_close. destruct (opened f); cbn.
  - apply decr_open_files_effect.
  - apply open_effect_refl.
Qed.

Section Frames.
Variable io : External.

Lemma open_first_time_effect f s first rest :
  open_effect s (snd (open_first_time io f s first rest)).
Proof.
  unfold open_first_time.
  destruct (read_subimages _ _ _ _ _) as [[[ok n] specs] untiled].
  destruct ok; cbn [negb].
  - match goal with |- context [if ?c then _ else _] => destruct c end; cbn.
    + apply error_effect.
    + apply open_effect_refl.
  - pose proof (close_effect (set_m_untiled untiled (set_m_spec specs f)) s) as H.
    destruct (ImageCacheFile_close _ s) as [[u f'] s']. exact H.
Qed.

Lemma ImageCacheFile_open_effect f s :
  open_effect s (snd (ImageCacheFile_open io f s)).
Proof.
  unfold ImageCacheFile_open.
  destruct (opened f); [apply open_effect_refl |].
  destruct (m_broken f); [apply open_effect_refl |].
  assert (H0 : open_effect s (set_reader_creates (S (reader_creates s)) s))
    by open_effect_solve.
  destruct (disk io (m_filename f)) as [err | err | fmt first rest]; cbn [snd].
  - eapply open_effect_trans; [exact H0 | apply error_effect].
  - eapply open_effect_trans; [exact H0 | apply error_effect].
  - match goal with |- context [if ?c then _ else _] => destruct c end; cbn [snd].
    + eapply open_effect_trans; [exact H0 | apply incr_open_files_effect].
    + eapply open_effect_trans; [| apply open_first_time_effect].
      eapply open_effect_trans; [exact H0 | apply incr_open_files_effect].
Qed.

Lemma new_ImageCacheFile_effect filename s :
  open_effect s (snd (new_ImageCacheFile io filename s)).
Proof.
  unfold new_ImageCacheFile.
  match goal with |- context [ImageCacheFile_open io ?f s] =>
    pose proof (ImageCacheFile_open_effect f s) as H;
    destruct (ImageCacheFile_open io f s) as [[ok f'] s'] end.
  exact H.
Qed.
End Frames.

Ltac tile_effect_solve :=
  match goal with
  | |- tile_effect ?s _ => destruct s; eexists _, _, _, _; impl_norm; reflexivity
  end.

Lemma tile_effect_refl s : tile_effect s s.
Proof. tile_effect_solve. Qed.

Lemma tile_effect_trans s1 s2 s3 :
  tile_effect s1 s2 -> tile_effect s2 s3 -> tile_effect s1 s3.
Proof.
  intros (a & b & c & d & ->) (a' & b' & c' & d' & ->).
  exists a', b', c', d'. destruct s1; impl_norm; reflexivity.
Qed.

Lemma tile_decref_effect p s : tile_effect s (tile_decref p s).
Proof.
  unfold tile_decref. destruct (tile_store s !! p) as [t |]; [| apply tile_effect_refl].
  destruct (t_refcnt t <=? 1)%nat; unfold decr_tiles, put_tile; tile_effect_solve.
Qed.

Lemma ref_drop_effect r s : tile_effect s (ref_drop r s).
Proof. destruct r; [apply tile_decref_effect | apply tile_effect_refl]. Qed.

Lemma set_m_perthread_info_effect pt s : tile_effect s (set_m_perthread_info pt s).
Proof. tile_effect_solve. Qed.

Lemma get_perthread_info_effect s : tile_effect s (get_perthread_info s).
Proof.
  unfold get_perthread_info. destruct (pt_purge (m_perthread_info s)).
  - eapply tile_effect_trans; [| apply set_m_perthread_info_effect].
    eapply tile_effect_trans; [| apply ref_drop_effect].
    apply ref_drop_effect.
  - apply tile_effect_refl.
Qed.

Section FindFile.
Variable io : External.

Lemma find_file_hit fuel filename s p :
  assoc_find filename (m_files s) = Some p ->
  find_file io fuel filename s =
  Some (Some (follow_duplicate p s), file_use (follow_duplicate p s) s).
Proof. intros H. unfold find_file. rewrite H. reflexivity. Qed.

Lemma find_file_miss fuel filename s :
  assoc_find filename (m_files s) = None ->
  find_file io fuel filename s =
  match check_max_files fuel (find_file_enter io filename s) with
  | None => None
  | Some s' => Some (find_file_leave filename (length (file_store s)) s')
  end.
Proof.
  intros H. unfold find_file, find_file_enter, find_file_leave. rewrite H.
  pose proof (new_ImageCacheFile_effect io filename s) as (e & c & n & He).
  destruct (new_ImageCacheFile io filename s) as [f s1]. cbn [fst snd] in *.
  subst s1. cbn [m_files set_m_files set_file_store set_m_errormessage
                 set_m_stat_open_files_current set_reader_creates file_store].
  rewrite H.
  destruct (check_max_files fuel _) as [s3 |]; [| reflexivity].
  cbv zeta.
  destruct (file_store _ !! length (file_store s)) as [f3 |]; [| reflexivity].
  destruct (m_duplicate f3); reflexivity.
Qed.
End FindFile.

(** ** The open-file sweep that never stops *)

Lemma sweep_entry_turn :
  check_max_files_turn (find_file_enter demo_io "b.tif" one_open_file) = Again sweep_second.
Proof. vm_compute. reflexivity. Qed.

Lemma sweep_second_turn : check_max_files_turn sweep_second = Again sweep_stuck.
Proof. vm_compute. reflexivity. Qed.

Lemma sweep_stuck_turn : check_max_files_turn sweep_stuck = Again sweep_stuck.
Proof. vm_compute. reflexivity. Qed.

Lemma sweep_stuck_closed :
  m_files sweep_stuck = [("a.tif", 0%nat)] /\
  (fun f => (m_used f, m_input f)) <$> file_store sweep_stuck !! 0%nat = Some (false, None) /\
  m_stat_open_files_current sweep_stuck = 1 /\
  m_max_open_files sweep_stuck = 1.
Proof. vm_compute. repeat split. Qed.

Lemma check_max_files_unfold fuel s :
  check_max_files fuel s =
  match check_max_files_turn s with
  | Done s' => Some s'
  | Again s' =>
      match fuel with
      | O => None
      | S fuel' => check_max_files fuel' s'
      end
  end.
Proof. destruct fuel; reflexivity. Qed.

(** A sweep that reaches a state which one turn maps to itself never
    stops. *)
Lemma check_max_files_cycle s1 s2 s3 :
  check_max_files_turn s1 = Again s2 ->
  check_max_files_turn s2 = Again s3 ->
  check_max_files_turn s3 = Again s3 ->
  forall fuel, check_max_files fuel s1 = None.
Proof.
  intros H1 H2 H3.
  assert (Hs : forall fuel, check_max_files fuel s3 = None).
  { induction fuel as [| fuel IH]; rewrite check_max_files_unfold, H3;
      [reflexivity | exact IH]. }
  intros fuel. rewrite check_max_files_unfold, H1.
  destruct fuel as [| fuel]; [reflexivity |].
  rewrite check_max_files_unfold, H2.
  destruct fuel as [| fuel]; [reflexivity |].
  apply Hs.
Qed.

Lemma find_file_miss_never fuel io filename s :
  assoc_find filename (m_files s) = None ->
  check_max_files fuel (find_file_enter io filename s) = None ->
  find_file io fuel filename s = None.
Proof. intros Hn Hc. rewrite find_file_miss by exact Hn. rewrite Hc. reflexivity. Qed.

Lemma one_open_file_new_name : assoc_find "b.tif" (m_files one_open_file) = None.
Proof. vm_compute. reflexivity. Qed.

(** On an empty table either sweep stops at once. *)
Lemma check_max_files_empty fuel s : m_files s = [] -> is_Some (check_max_files fuel s).
Proof.
  intros He.
  assert (Ht : exists s', check_max_files_turn s = Done s').
  { unfold check_max_files_turn. rewrite He.
    destruct (m_max_open_files s <=? m_stat_open_files_current s); [| eauto].
    destruct (m_file_sweep s); cbn; eauto. }
  destruct Ht as [s' Ht]. rewrite check_max_files_unfold, Ht. eauto.
Qed.

Lemma check_max_mem_empty s : m_tilecache s = [] -> check_max_mem s = s.
Proof. intros He. unfold check_max_mem. rewrite He. reflexivity. Qed.

(** C8: the memory sweep stops in every state, within two visits of each
    entry, and either sweep stops at once on an empty table; but the
    open-file sweep does not stop in every state: in a cache limited to one
    open file that holds ["a.tif"], the sweep that [find_file "b.tif"]
    enters never leaves its loop, and [find_file "b.tif"] never returns,
    whatever the fuel. *)
Theorem file_sweep_spins_on_closed_records :
  (forall s, is_Some (check_max_mem_loop (2 * length (m_tilecache s)) s)) /\
  (forall s, m_tilecache s = [] -> check_max_mem s = s) /\
  (forall s fuel, m_files s = [] -> is_Some (check_max_files fuel s)) /\
  (forall fuel,
     check_max_files fuel (find_file_enter demo_io "b.tif" one_open_file) = None) /\
  (forall fuel, find_file demo_io fuel "b.tif" one_open_file = None).
Proof.
  assert (Hspin : forall fuel,
            check_max_files fuel (find_file_enter demo_io "b.tif" one_open_file) = None).
  { apply (check_max_files_cycle _ sweep_second sweep_stuck).
    - exact sweep_entry_turn.
    - exact sweep_second_turn.
    - exact sweep_stuck_turn. }
  split; [apply check_max_mem_loop_terminates |].
  split; [apply check_max_mem_empty |].
  split; [intros s fuel; apply check_max_files_empty |].
  split; [exact Hspin |].
  intros fuel. apply find_file_miss_never.
  - exact one_open_file_new_name.
  - apply Hspin.
Qed.

Lemma tile_effect_files s s' :
  tile_effect s s' ->
  m_files s' = m_files s /\ file_store s' = file_store s /\
  m_searchpath s' = m_searchpath s /\ reader_creates s' = reader_creates s /\
  m_stat_open_files_current s' = m_stat_open_files_current s /\
  m_max_open_files s' = m_max_open_files s /\
  m_errormessage s' = m_errormessage s.
Proof. intros (a & b & c & d & ->). repeat split; reflexivity. Qed.

Lemma file_use_lookup q f s :
  file_store s !! q = Some f -> file_store (file_use q s) !! q = Some (use f).
Proof.
  intros H. unfold file_use. rewrite H. cbn.
  apply list_lookup_insert_eq. eapply lookup_lt_Some; eauto.
Qed.

Lemma file_use_creates q s : reader_creates (file_use q s) = reader_creates s.
Proof. unfold file_use. destruct (file_store s !! q); reflexivity. Qed.

Lemma error_creates msg s : reader_creates (error msg s) = reader_creates s.
Proof. reflexivity. Qed.

Lemma error_file_store msg s : file_store (error msg s) = file_store s.
Proof. reflexivity. Qed.

Section Broken.
Variable io : External.

(** A record that is broken is not opened again. *)
Lemma ImageCacheFile_open_broken f s :
  m_broken f = true -> ImageCacheFile_open io f s = (false, f, s).
Proof.
  intros Hb. unfold ImageCacheFile_open. rewrite Hb.
  destruct (opened f); reflexivity.
Qed.

(** An [open] that fails leaves the record broken. *)
Lemma open_first_time_fails_broken f s first rest :
  fst (fst (open_first_time io f s first rest)) = false ->
  m_broken (snd (fst (open_first_time io f s first rest))) = true.
Proof.
  unfold open_first_time.
  destruct (read_subimages _ _ _ _ _) as [[[ok n] specs] untiled].
  destruct ok; cbn [negb].
  - match goal with |- context [open_finish io ?x _] => generalize x end.
    intros f2. destruct (m_untiled f2 && negb (m_accept_untiled s)); cbn [fst snd].
    + reflexivity.
    + intros H. apply negb_false_iff in H. exact H.
  - destruct (ImageCacheFile_close _ s) as [[u f'] s']. reflexivity.
Qed.

Lemma ImageCacheFile_open_fails_broken f s :
  fst (fst (ImageCacheFile_open io f s)) = false ->
  m_broken (snd (fst (ImageCacheFile_open io f s))) = true.
Proof.
  unfold ImageCacheFile_open.
  destruct (opened f); [cbn; intros H; apply negb_false_iff in H; exact H |].
  destruct (m_broken f) eqn:Hb; [cbn; intros _; exact Hb |].
  destruct (disk io (m_filename f)) as [err | err | fmt first rest];
    try reflexivity.
  match goal with |- context [if ?c then _ else _] => destruct c end;
    [discriminate |].
  apply open_first_time_fails_broken.
Qed.

Lemma ImageCacheFile_close_broken f s :
  m_broken (snd (fst (ImageCacheFile_close f s))) = m_broken f.
Proof. unfold ImageCacheFile_close. destruct (opened f); reflexivity. Qed.

Lemma ImageCacheFile_release_broken f s :
  m_broken (snd (fst (ImageCacheFile_release f s))) = m_broken f.
Proof.
  unfold ImageCacheFile_release. destruct (m_used f); [reflexivity |].
  apply ImageCacheFile_close_broken.
Qed.

Lemma find_file_known fuel filename s p :
  assoc_find filename (m_files s) = Some p ->
  find_file io fuel filename (get_perthread_info s) =
  Some (Some (follow_duplicate p s), found_state (follow_duplicate p s) s).
Proof.
  intros Hp.
  destruct (tile_effect_files _ _ (get_perthread_info_effect s)) as (Hf & Hs & _).
  rewrite (find_file_hit io fuel filename _ p) by (rewrite Hf; exact Hp).
  unfold found_state, follow_duplicate. rewrite Hs. reflexivity.
Qed.

Lemma found_state_lookup q f s :
  file_store s !! q = Some f -> file_store (found_state q s) !! q = Some (use f).
Proof.
  intros H. unfold found_state. apply file_use_lookup.
  destruct (tile_effect_files _ _ (get_perthread_info_effect s)) as (_ & Hs & _).
  rewrite Hs. exact H.
Qed.

Lemma found_state_creates q s : reader_creates (found_state q s) = reader_creates s.
Proof.
  unfold found_state. rewrite file_use_creates.
  apply (tile_effect_files _ _ (get_perthread_info_effect s)).
Qed.

Section Query.
Variables (filename : ustring) (s : ImageCacheImpl) (p : nat) (f : ImageCacheFile).
Hypothesis Hname : assoc_find filename (m_files s) = Some p.
Hypothesis Hrec : file_store s !! follow_duplicate p s = Some f.
Hypothesis Hbroken : m_broken f = true.

Let broken_result : ImageCacheImpl :=
  error (err_invalid filename) (found_state (follow_duplicate p s) s).

Lemma get_imagespec_broken fuel subimage :
  get_imagespec io fuel filename subimage s = Some (None, broken_result).
Proof.
  unfold get_imagespec. rewrite (find_file_known fuel filename s p Hname).
  unfold deref_file. rewrite (found_state_lookup _ f s Hrec).
  cbn [m_broken use set_m_used]. rewrite Hbroken. reflexivity.
Qed.

Lemma get_pixels_broken fuel subimage xb xe yb ye zb ze fmt :
  get_pixels io fuel filename subimage xb xe yb ye zb ze fmt s
  = Some (false, [], broken_result).
Proof.
  unfold get_pixels. rewrite (find_file_known fuel filename s p Hname).
  unfold deref_file. rewrite (found_state_lookup _ f s Hrec).
  cbn [m_broken use set_m_used]. rewrite Hbroken. reflexivity.
Qed.

Lemma get_image_info_broken fuel dataname datatype data :
  get_image_info io fuel filename dataname datatype data s
  = Some (false, data, broken_result).
Proof.
  unfold get_image_info. rewrite (find_file_known fuel filename s p Hname).
  unfold deref_file. rewrite (found_state_lookup _ f s Hrec).
  cbn [m_broken use set_m_used]. rewrite Hbroken. reflexivity.
Qed.

Lemma broken_result_record :
  file_store broken_result !! follow_duplicate p s = Some (use f) /\
  reader_creates broken_result = reader_creates s.
Proof.
  unfold broken_result. split.
  - rewrite error_file_store. apply found_state_lookup, Hrec.
  - rewrite error_creates. apply found_state_creates.
Qed.
End Query.

(** [invalidate] hands a record that is not broken to [open]. *)
Lemma ImageCacheFile_invalidate_reopens f s :
  exists f0 s0,
    m_broken f0 = false /\ m_input f0 = None /\ m_filename f0 = m_filename f /\
    ImageCacheFile_invalidate io f s =
    (tt, snd (fst (ImageCacheFile_open io f0 s0)), snd (ImageCacheFile_open io f0 s0)).
Proof.
  unfold ImageCacheFile_invalidate.
  assert (Hc : m_input (snd (fst (ImageCacheFile_close f s))) = None /\
               m_filename (snd (fst (ImageCacheFile_close f s))) = m_filename f).
  { unfold ImageCacheFile_close, opened. destruct (m_input f) eqn:Hi; cbn; auto. }
  destruct (ImageCacheFile_close f s) as [[u f1] s1]. cbn [fst snd] in Hc.
  destruct Hc as [Hi Hn].
  exists (set_m_duplicate None
            (set_m_fingerprint "" (set_m_broken false (set_m_spec [] f1)))),
         (get_perthread_info s1).
  repeat split; try assumption.
  destruct (ImageCacheFile_open io _ _) as [[ok f2] s2]. reflexivity.
Qed.
End Broken.

Lemma check_max_files_below fuel s :
  m_stat_open_files_current s < m_max_open_files s -> check_max_files fuel s = Some s.
Proof.
  intros H.
  assert (Ht : check_max_files_turn s = Done s).
  { unfold check_max_files_turn.
    destruct (m_max_open_files s <=? m_stat_open_files_current s) eqn:Hc; [| reflexivity].
    apply Z.leb_le in Hc. lia. }
  destruct fuel; simpl; rewrite Ht; reflexivity.
Qed.

Lemma find_file_not_null io fuel filename s r s' :
  find_file io fuel filename s = Some (r, s') -> exists p, r = Some p.
Proof.
  unfold find_file.
  destruct (assoc_find filename (m_files s)) as [p |].
  - intros [= <- _]. eauto.
  - destruct (new_ImageCacheFile io filename s) as [f s1].
    destruct (assoc_find filename _) as [p |].
    + destruct (on_file _ _ _ _) as [u s2]. intros [= <- _]. eauto.
    + destruct (check_max_files fuel _) as [s3 |]; [| discriminate].
      cbv zeta. destruct (file_store _ !! _) as [f3 |].
      * destruct (m_duplicate f3); intros [= <- _]; eauto.
      * intros [= <- _]. eauto.
Qed.

Section Missing.
Variable io : External.

Lemma new_file_unreadable filename s err :
  unreadable io (resolve_filename io filename s) err ->
  new_ImageCacheFile io filename s =
  (broken_file (resolve_filename io filename s),
   error err (set_reader_creates (S (reader_creates s)) s)).
Proof.
  intros [H | H]; unfold new_ImageCacheFile, ImageCacheFile_open;
    cbn [opened m_input m_broken m_filename blank_file];
    change (bool_decide (is_Some (@None Z))) with false; cbv iota;
    rewrite H; reflexivity.
Qed.

Lemma find_file_unreadable fuel filename s err :
  unreadable io (resolve_filename io filename s) err ->
  assoc_find filename (m_files s) = None ->
  m_stat_open_files_current s < m_max_open_files s ->
  find_file io fuel filename s =
  Some (Some (length (file_store s)), unreadable_state io filename err s).
Proof.
  intros Hu Hn Hc.
  rewrite find_file_miss by exact Hn.
  unfold find_file_enter. rewrite (new_file_unreadable filename s err Hu).
  cbn [fst snd].
  set (fb := broken_file _).
  set (s1 := error err _).
  set (s2 := set_file_store (file_store s1 ++ [fb]) s1).
  assert (Hl : file_store s2 !! length (file_store s) = Some fb).
  { subst s2 s1. cbn. apply list_lookup_middle. reflexivity. }
  assert (Hd : fingerprint_dedup (length (file_store s)) s2 = s2).
  { unfold fingerprint_dedup. rewrite Hl. reflexivity. }
  rewrite Hd, check_max_files_below by exact Hc.
  unfold find_file_leave.
  change (file_store (set_m_files _ s2)) with (file_store s2).
  rewrite Hl. reflexivity.
Qed.

Lemma unreadable_state_record filename err s :
  let s1 := unreadable_state io filename err s in
  let tf := length (file_store s) in
  assoc_find filename (m_files s1) = Some tf /\
  file_store s1 !! tf = Some (use (broken_file (resolve_filename io filename s))) /\
  follow_duplicate tf s1 = tf /\
  reader_creates s1 = S (reader_creates s).
Proof.
  cbv zeta. unfold unreadable_state.
  set (fb := broken_file _).
  set (s1 := error err _).
  set (s2 := set_file_store (file_store s1 ++ [fb]) s1).
  set (s3 := incr_unique_files _).
  assert (Hl : file_store s3 !! length (file_store s) = Some fb).
  { subst s3 s2 s1. cbn. apply list_lookup_middle. reflexivity. }
  assert (Hu : file_store (file_use (length (file_store s)) s3)
               !! length (file_store s) = Some (use fb))
    by (apply file_use_lookup, Hl).
  repeat split.
  - unfold file_use. rewrite Hl. cbn. apply assoc_find_set.
  - exact Hu.
  - unfold follow_duplicate. rewrite Hu. reflexivity.
  - rewrite file_use_creates. reflexivity.
Qed.
End Missing.

Lemma assoc_find_set_ne {K V} `{EqDecision K} (k k' : K) (v : V) (l : list (K * V)) :
  k' <> k -> assoc_find k' (assoc_set k v l) = assoc_find k' l.
Proof.
  intros Hne. unfold assoc_find. induction l as [| e r IH]; cbn.
  - rewrite bool_decide_eq_false_2 by congruence. reflexivity.
  - destruct (decide (fst e = k)) as [He | He]; cbn.
    + rewrite !bool_decide_eq_false_2 by congruence. reflexivity.
    + destruct (bool_decide (fst e = k')); [reflexivity | exact IH].
Qed.

Lemma open_effect_files s s' :
  open_effect s s' ->
  m_files s' = m_files s /\ file_store s' = file_store s /\
  m_fingerprints s' = m_fingerprints s /\ m_max_open_files s' = m_max_open_files s.
Proof. intros (e & c & n & ->). repeat split; reflexivity. Qed.

Lemma same_reader_let f0 (v : ImageCacheFile) (body : ImageCacheFile -> ImageCacheFile) :
  same_reader f0 v -> (forall x, same_reader f0 x -> same_reader f0 (body x)) ->
  same_reader f0 (let x := v in body x).
Proof. intros Hv Hb. apply Hb, Hv. Qed.

Lemma same_reader_let_any {A} f0 (v : A) (body : A -> ImageCacheFile) :
  (forall x, same_reader f0 (body x)) -> same_reader f0 (let x := v in body x).
Proof. intros Hb. apply Hb. Qed.

(** Walks through the bindings of a record, one at a time. *)
Ltac same_reader_walk :=
  lazymatch goal with
  | |- same_reader ?f0 (let x := ?v in @?body x) =>
      first [ refine (same_reader_let f0 v body _ _);
              [same_reader_walk | intros ? ?; cbv beta; same_reader_walk]
            | refine (same_reader_let_any f0 v body _); intros ?; cbv beta;
              same_reader_walk ]
  | |- same_reader _ (match ?c with _ => _ end) => destruct c; same_reader_walk
  | |- _ => match goal with H : same_reader _ _ |- _ => exact H end
  end.

Section Dedup.
Variable io : External.

Lemma open_finish_same_reader f0 f s :
  same_reader f0 f -> same_reader f0 (open_finish io f s).
Proof. intros Hx. cbv beta delta [open_finish]. same_reader_walk. Qed.

Lemma open_finish_keeps f s :
  m_input (open_finish io f s) = m_input f /\
  m_duplicate (open_finish io f s) = m_duplicate f /\
  m_broken (open_finish io f s) = m_broken f.
Proof. apply open_finish_same_reader. repeat split. Qed.

Lemma open_first_time_fingerprinted f s first rest :
  m_fingerprint f = "" -> m_duplicate f = None ->
  let r := open_first_time io f s first rest in
  m_fingerprint (snd (fst r)) <> "" ->
  opened (snd (fst r)) = true /\ m_duplicate (snd (fst r)) = None /\ snd r = s.
Proof.
  intros Hfp Hdup. cbv zeta. unfold open_first_time.
  destruct (read_subimages _ _ _ _ _) as [[[ok n] specs] untiled].
  destruct ok; cbn [negb].
  - match goal with |- context [open_finish io ?x _] => set (f2 := x) end.
    assert (H2 : m_input f2 = Some (n - 1) /\ m_duplicate f2 = None /\
                 m_fingerprint f2 = "").
    { subst f2.
      repeat match goal with |- context [if ?c then _ else _] => destruct c end;
        cbn; auto. }
    clearbody f2. destruct H2 as (Hi & Hd & Hf).
    destruct (m_untiled f2 && negb (m_accept_untiled s)); cbn [fst snd].
    + intros H. exfalso. apply H. exact Hf.
    + intros _. destruct (open_finish_keeps f2 s) as (Hi' & Hd' & _).
      unfold opened. rewrite Hi', Hd', Hi. auto.
  - intros H. exfalso. apply H.
    unfold ImageCacheFile_close. destruct (opened _); cbn; exact Hfp.
Qed.

(** A record that comes out of the constructor with a fingerprint has an
    open reader, which the counter of open files has counted. *)
Lemma new_file_fingerprinted filename s :
  let fs := new_ImageCacheFile io filename s in
  m_fingerprint (fst fs) <> "" ->
  opened (fst fs) = true /\
  m_duplicate (fst fs) = None /\
  m_stat_open_files_current (snd fs) = m_stat_open_files_current s + 1.
Proof.
  cbv zeta. unfold new_ImageCacheFile, ImageCacheFile_open.
  cbn [opened m_input m_broken m_filename m_spec blank_file].
  change (bool_decide (is_Some (@None Z))) with false. cbv iota.
  destruct (disk io _) as [err | err | fmt first rest]; cbn [fst snd];
    try (intros H; exfalso; apply H; reflexivity).
  cbv beta iota zeta.
  set (f0 := use _). set (s0 := incr_open_files _).
  change (bool_decide (m_spec f0 = [])) with true. cbv iota.
  change (negb true) with false. cbv iota.
  pose proof (open_first_time_fingerprinted f0 s0 first rest eq_refl eq_refl) as H.
  cbv zeta in H.
  destruct (open_first_time io f0 s0 first rest) as [[ok f'] s']. cbn [fst snd] in *.
  intros Hfp. destruct (H Hfp) as (Ho & Hd & ->). auto.
Qed.

(** The three cases of the fingerprint block. *)
Lemma fingerprint_dedup_cases tf f s :
  file_store s !! tf = Some f ->
  m_fingerprint f <> "" ->
  fingerprint_dedup tf s =
  match m_fingerprints s !! m_fingerprint f with
  | None => set_m_fingerprints (<[m_fingerprint f := tf]> (m_fingerprints s)) s
  | Some d =>
      match file_store s !! d with
      | Some dup =>
          if same_modes f dup then
            put_file tf (snd (fst (ImageCacheFile_close (set_m_duplicate (Some d) f) s)))
              (snd (ImageCacheFile_close (set_m_duplicate (Some d) f) s))
          else s
      | None => s
      end
  end.
Proof.
  intros Hf Hfp. unfold fingerprint_dedup. rewrite Hf.
  assert (He : String.eqb (m_fingerprint f) "" = false) by (apply String.eqb_neq, Hfp).
  rewrite He. cbn [negb].
  destruct (m_fingerprints s !! m_fingerprint f) as [d |]; [| reflexivity].
  destruct (file_store s !! d) as [dup |]; [| reflexivity].
  fold (same_modes f dup). destruct (same_modes f dup); [| reflexivity].
  destruct (ImageCacheFile_close _ s) as [[u f'] s']. reflexivity.
Qed.
End Dedup.

Lemma file_use_frame q s :
  m_files (file_use q s) = m_files s /\
  m_fingerprints (file_use q s) = m_fingerprints s /\
  m_stat_open_files_current (file_use q s) = m_stat_open_files_current s.
Proof. unfold file_use. destruct (file_store s !! q); repeat split; reflexivity. Qed.

Lemma file_use_lookup_ne q p s :
  q <> p -> file_store (file_use q s) !! p = file_store s !! p.
Proof.
  intros Hne. unfold file_use. destruct (file_store s !! q); [| reflexivity].
  cbn. apply list_lookup_insert_ne. exact Hne.
Qed.

Section DedupFind.
Variable io : External.
Variables (b : ustring) (s : ImageCacheImpl).
Hypothesis Hnew : assoc_find b (m_files s) = None.
Hypothesis Hroom : m_stat_open_files_current s + 1 < m_max_open_files s.

Let f := fst (new_ImageCacheFile io b s).
Let s1 := snd (new_ImageCacheFile io b s).
Let tf := length (file_store s).
Let X := set_file_store (file_store s1 ++ [f]) s1.

Hypothesis Hfp : m_fingerprint f <> "".

Local Lemma s1_frame :
  m_files s1 = m_files s /\ file_store s1 = file_store s /\
  m_fingerprints s1 = m_fingerprints s /\ m_max_open_files s1 = m_max_open_files s.
Proof. apply open_effect_files, new_ImageCacheFile_effect. Qed.

Local Lemma s1_count :
  m_stat_open_files_current s1 = m_stat_open_files_current s + 1.
Proof. apply (new_file_fingerprinted io b s Hfp). Qed.

Local Lemma X_lookup_new : file_store X !! tf = Some f.
Proof.
  unfold X. cbn. destruct s1_frame as (_ & -> & _).
  apply list_lookup_middle. reflexivity.
Qed.

Local Lemma X_lookup_old d dup :
  file_store s !! d = Some dup -> file_store X !! d = Some dup /\ d <> tf.
Proof.
  intros H. pose proof (lookup_lt_Some _ _ _ H) as Hlt.
  unfold X. cbn. destruct s1_frame as (_ & -> & _).
  split; [| unfold tf; lia].
  rewrite lookup_app_l by exact Hlt. exact H.
Qed.

Local Lemma enter_eq :
  find_file_enter io b s =
  match m_fingerprints s !! m_fingerprint f with
  | None => set_m_fingerprints (<[m_fingerprint f := tf]> (m_fingerprints s)) X
  | Some d =>
      match file_store X !! d with
      | Some dup =>
          if same_modes f dup then
            put_file tf (set_m_input None (set_m_duplicate (Some d) f)) (decr_open_files X)
          else X
      | None => X
      end
  end.
Proof.
  change (find_file_enter io b s) with (fingerprint_dedup tf X).
  rewrite (fingerprint_dedup_cases tf f X X_lookup_new Hfp).
  assert (HfX : m_fingerprints X = m_fingerprints s) by apply s1_frame.
  rewrite HfX.
  destruct (m_fingerprints s !! m_fingerprint f) as [d |]; [| reflexivity].
  destruct (file_store X !! d) as [dup |] eqn:Hd; [| reflexivity].
  destruct (same_modes f dup); [| reflexivity].
  unfold ImageCacheFile_close.
  assert (Ho : opened (set_m_duplicate (Some d) f) = true).
  { destruct (new_file_fingerprinted io b s Hfp) as (Ho & _). exact Ho. }
  rewrite Ho. reflexivity.
Qed.

(** The newcomer stays canonical: it is entered under its own address. *)
Local Lemma find_file_canonical E :
  find_file_enter io b s = E ->
  m_stat_open_files_current E = m_stat_open_files_current s + 1 ->
  m_max_open_files E = m_max_open_files s ->
  m_files E = m_files s ->
  file_store E !! tf = Some f ->
  exists s',
    (forall fuel, find_file io fuel b s = Some (Some tf, s')) /\
    assoc_find b (m_files s') = Some tf /\
    m_fingerprints s' = m_fingerprints E /\
    file_store s' !! tf = Some (use f).
Proof.
  intros HE Hc Hm Hfiles Hl.
  set (s4 := set_m_files (assoc_set b tf (m_files E)) E).
  assert (Hd : m_duplicate f = None) by apply (new_file_fingerprinted io b s Hfp).
  exists (file_use tf (incr_unique_files s4)).
  destruct (file_use_frame tf (incr_unique_files s4)) as (Hf1 & Hf2 & _).
  split; [| split; [| split]].
  - intros fuel. rewrite find_file_miss by exact Hnew. rewrite HE.
    rewrite check_max_files_below by lia.
    unfold find_file_leave. fold tf. fold s4.
    change (file_store s4) with (file_store E). rewrite Hl, Hd. reflexivity.
  - rewrite Hf1. cbn. apply assoc_find_set.
  - rewrite Hf2. reflexivity.
  - apply file_use_lookup. exact Hl.
Qed.

Lemma find_file_new_fingerprint :
  m_fingerprints s !! m_fingerprint f = None ->
  exists s',
    (forall fuel, find_file io fuel b s = Some (Some tf, s')) /\
    assoc_find b (m_files s') = Some tf /\
    m_fingerprints s' = <[m_fingerprint f := tf]> (m_fingerprints s) /\
    file_store s' !! tf = Some (use f).
Proof.
  intros Hnone. pose proof enter_eq as HE. rewrite Hnone in HE.
  destruct (find_file_canonical _ HE) as (s' & H1 & H2 & H3 & H4).
  - cbn. apply s1_count.
  - cbn. apply s1_frame.
  - cbn. apply s1_frame.
  - apply X_lookup_new.
  - exists s'. repeat split; assumption.
Qed.

Lemma find_file_other_modes d dup :
  m_fingerprints s !! m_fingerprint f = Some d ->
  file_store s !! d = Some dup ->
  same_modes f dup = false ->
  exists s',
    (forall fuel, find_file io fuel b s = Some (Some tf, s')) /\
    assoc_find b (m_files s') = Some tf /\
    m_fingerprints s' = m_fingerprints s /\
    file_store s' !! tf = Some (use f).
Proof.
  intros Hsome Hdup Hmodes. pose proof enter_eq as HE. rewrite Hsome in HE.
  destruct (X_lookup_old d dup Hdup) as [HX _]. rewrite HX, Hmodes in HE.
  destruct (find_file_canonical _ HE) as (s' & H1 & H2 & H3 & H4).
  - cbn. apply s1_count.
  - cbn. apply s1_frame.
  - cbn. apply s1_frame.
  - apply X_lookup_new.
  - exists s'. repeat split; try assumption.
    rewrite H3. apply s1_frame.
Qed.

Lemma find_file_duplicate d dup :
  m_fingerprints s !! m_fingerprint f = Some d ->
  file_store s !! d = Some dup ->
  same_modes f dup = true ->
  exists s',
    (forall fuel, find_file io fuel b s = Some (Some d, s')) /\
    assoc_find b (m_files s') = Some tf /\
    m_fingerprints s' = m_fingerprints s /\
    file_store s' !! tf = Some (set_m_input None (set_m_duplicate (Some d) f)) /\
    file_store s' !! d = Some (use dup) /\
    m_stat_open_files_current s' = m_stat_open_files_current s /\
    (forall a, a <> b -> assoc_find a (m_files s') = assoc_find a (m_files s)).
Proof.
  intros Hsome Hdup Hmodes. pose proof enter_eq as HE. rewrite Hsome in HE.
  destruct (X_lookup_old d dup Hdup) as [HX Hne]. rewrite HX, Hmodes in HE.
  set (fd := set_m_input None (set_m_duplicate (Some d) f)) in *.
  set (E := put_file tf fd (decr_open_files X)) in *.
  set (s4 := set_m_files (assoc_set b tf (m_files E)) E).
  assert (Hltf : file_store E !! tf = Some fd).
  { unfold E. cbn. apply list_lookup_insert_eq.
    eapply lookup_lt_Some. apply X_lookup_new. }
  assert (Hld : file_store E !! d = Some dup).
  { unfold E. cbn. rewrite list_lookup_insert_ne by congruence. exact HX. }
  assert (HcE : m_stat_open_files_current E = m_stat_open_files_current s).
  { unfold E. cbn. rewrite s1_count. lia. }
  assert (HmE : m_max_open_files E = m_max_open_files s) by apply s1_frame.
  assert (HfE : m_files E = m_files s) by apply s1_frame.
  exists (file_use d s4).
  destruct (file_use_frame d s4) as (Hf1 & Hf2 & Hf3).
  repeat split.
  - intros fuel. rewrite find_file_miss by exact Hnew. rewrite HE.
    rewrite check_max_files_below by lia.
    unfold find_file_leave. fold tf. fold s4.
    change (file_store s4) with (file_store E). rewrite Hltf. reflexivity.
  - rewrite Hf1. cbn. apply assoc_find_set.
  - rewrite Hf2. apply s1_frame.
  - rewrite file_use_lookup_ne by exact Hne. exact Hltf.
  - apply file_use_lookup. exact Hld.
  - rewrite Hf3. exact HcE.
  - intros a Ha. rewrite Hf1. unfold s4.
    change (m_files (set_m_files ?l _)) with l. rewrite HfE.
    apply assoc_find_set_ne. exact Ha.
Qed.
End DedupFind.

(** ** Tiles whose read fails *)

Lemma resize_buffer_length size bytes :
  length (resize_buffer size bytes) = Z.to_nat size.
Proof.
  unfold resize_buffer. rewrite length_take, length_app, length_replicate. lia.
Qed.

Lemma ref_drop_cores r s : tile_cores (ref_drop r s) = tile_cores s.
Proof. destruct r; [apply tile_decref_cores | reflexivity]. Qed.

Lemma add_tile_to_cache_cores tile s :
  tile_cores (add_tile_to_cache tile s) = tile_cores s.
Proof.
  unfold add_tile_to_cache.
  destruct (tile_store (check_max_mem s) !! tile) as [t |]; [| apply check_max_mem_cores].
  rewrite ref_drop_cores, tile_incref_cores. apply check_max_mem_cores.
Qed.

Section FailedTile.
Variable io : External.

Lemma new_ImageCacheTile_shape id s :
  let t := fst (new_ImageCacheTile io id s) in
  t_id t = id /\ t_used t = t_valid t /\ t_refcnt t = 0%nat /\
  memsize t =
    Z.of_nat (Z.to_nat
      match file_store s !! id_file id with
      | Some f => ImageCacheTile_memsize f (id_subimage id)
      | None => 0
      end).
Proof.
  cbv zeta. unfold new_ImageCacheTile.
  destruct (file_store s !! id_file id) as [f |];
    destruct (ImageCacheFile_read_tile _ _ _ _ _ _ _ _) as [[valid bytes] s1];
    cbn [fst]; unfold memsize; cbn [t_id t_used t_valid t_refcnt t_pixels];
    rewrite resize_buffer_length; repeat split; destruct valid; reflexivity.
Qed.

Lemma find_tile_main_cache_miss id tile s :
  assoc_find id (m_tilecache s) = None ->
  let ts := new_ImageCacheTile io id (miss_state s) in
  let p := length (tile_store (snd ts)) in
  let r := find_tile_main_cache io id tile s in
  fst (fst r) = t_valid (fst ts) /\
  snd (fst r) = Some p /\
  assoc_find id (m_tilecache (snd r)) = Some p /\
  exists t', tile_store (snd r) !! p = Some t' /\ tile_core t' = tile_core (fst ts).
Proof.
  intros Hmiss. cbv zeta. unfold find_tile_main_cache.
  change (m_tilecache (on_stats _ s)) with (m_tilecache s). rewrite Hmiss.
  fold (miss_state s).
  pose proof (new_ImageCacheTile_shape id (miss_state s)) as (Hid & _).
  destruct (new_ImageCacheTile io id (miss_state s)) as [t s1]. cbn [fst snd] in *.
  set (p := length (tile_store s1)).
  set (s2 := set_tile_store (tile_store s1 ++ [set_t_refcnt 1 t]) s1).
  set (s3 := incr_tiles (memsize t) (ref_drop tile s2)).
  assert (H2 : tile_store s2 !! p = Some (set_t_refcnt 1 t)).
  { unfold s2. cbn. apply list_lookup_middle. reflexivity. }
  assert (Hc3 : tile_cores s3 = tile_cores s2).
  { unfold s3. change (tile_cores (incr_tiles ?z ?x)) with (tile_cores x).
    apply ref_drop_cores. }
  destruct (cores_lookup s2 s3 p _ Hc3 H2) as (t3 & H3 & Hcore3).
  pose proof (add_tile_to_cache_spec p t3 s3 H3) as [Hfind _].
  assert (Hid3 : t_id t3 = id).
  { unfold tile_core in Hcore3. cbn in Hcore3. congruence. }
  rewrite Hid3 in Hfind.
  destruct (cores_lookup s3 (add_tile_to_cache p s3) p t3
              (add_tile_to_cache_cores p s3) H3) as (t4 & H4 & Hcore4).
  cbn [fst snd]. repeat split.
  - exact Hfind.
  - exists t4. split; [exact H4 |]. rewrite Hcore4, Hcore3. reflexivity.
Qed.



End FailedTile.

(** ** Multiplying a binary32 value by 1024 *)

Lemma pow2mul_Z m k : Z.pos (pow2mul m k) = Z.pos m * 2 ^ Z.of_nat k.
Proof.
  induction k as [| k IH].
  - cbn. lia.
  - change (pow2mul m (S k)) with (xO (pow2mul m k)).
    rewrite Pos2Z.inj_xO, IH, Nat2Z.inj_succ, Z.pow_succ_r by lia. lia.
Qed.

Lemma pow2mul_digits m k :
  Z.pos (digits2_pos (pow2mul m k)) = Z.pos (digits2_pos m) + Z.of_nat k.
Proof.
  induction k as [| k IH].
  - cbn. lia.
  - change (pow2mul m (S k)) with (xO (pow2mul m k)).
    cbn [digits2_pos]. rewrite Pos2Z.inj_succ, IH. lia.
Qed.

Lemma mul_8388608 m : (m * 8388608)%positive = pow2mul m 23.
Proof. rewrite Pos.mul_comm. reflexivity. Qed.

Lemma iter_pos_nat {A} (f : A -> A) n :
  forall x, SpecFloat.iter_pos f n x = Nat.iter (Pos.to_nat n) f x.
Proof.
  induction n as [n IH | n IH |]; intros x; cbn [SpecFloat.iter_pos].
  - rewrite !IH. rewrite Pos2Nat.inj_xI.
    replace (S (2 * Pos.to_nat n))%nat with (Pos.to_nat n + (Pos.to_nat n + 1))%nat by lia.
    rewrite !Nat.iter_add. reflexivity.
  - rewrite !IH. rewrite Pos2Nat.inj_xO.
    replace (2 * Pos.to_nat n)%nat with (Pos.to_nat n + Pos.to_nat n)%nat by lia.
    rewrite Nat.iter_add. reflexivity.
  - reflexivity.
Qed.

Lemma shr_exact m j :
  forall r,
    Nat.iter j shr_1 (Build_shr_record (Z.pos (pow2mul m (j + r))) false false)
    = Build_shr_record (Z.pos (pow2mul m r)) false false.
Proof.
  induction j as [| j IH]; intros r; [reflexivity |].
  rewrite Nat.iter_succ_r.
  change (pow2mul m (S j + r)) with (xO (pow2mul m (j + r))).
  apply IH.
Qed.

Lemma bounded_inv m e :
  bounded prec32 emax32 m e = true ->
  Z.max (Z.pos (digits2_pos m) + e - 24) (-149) = e /\ e <= 104.
Proof.
  unfold bounded, canonical_mantissa, fexp, emin, prec32, emax32.
  intros H. apply andb_true_iff in H as [H1 H2].
  apply Z.eqb_eq in H1. apply Z.leb_le in H2. lia.
Qed.

Lemma shr_pow2mul m k n e :
  1 <= n <= Z.of_nat k ->
  shr (Build_shr_record (Z.pos (pow2mul m k)) false false) e n
  = (Build_shr_record (Z.pos (pow2mul m (Z.to_nat (Z.of_nat k - n)))) false false, e + n).
Proof.
  intros Hn. destruct n as [| p | p]; try lia.
  unfold shr. rewrite iter_pos_nat.
  replace k with (Pos.to_nat p + Z.to_nat (Z.of_nat k - Z.pos p))%nat at 1 by lia.
  rewrite shr_exact. reflexivity.
Qed.

(** The rounding of [m * 2^23 * 2^(e-13)], the exact product of a binary32
    value with 1024, drops zero bits only. *)
Lemma round_times_1024 sg m e :
  bounded prec32 emax32 m e = true ->
  let n := Z.max (Z.pos (digits2_pos m) + e - 14) (-149) - e + 13 in
  let m' := pow2mul m (Z.to_nat (23 - n)) in
  let e' := e - 13 + n in
  1 <= n <= 23 /\
  binary_round_aux prec32 emax32 sg (Z.pos (pow2mul m 23)) (e + -13) loc_Exact
  = (if e' <=? 104 then S754_finite sg m' e' else S754_infinity sg) /\
  (e' <= 104 -> bounded prec32 emax32 m' e' = true).
Proof.
  intros Hb. apply bounded_inv in Hb as [Hcanon He].
  cbv zeta.
  set (d := Z.pos (digits2_pos m)) in *.
  assert (Hd : 0 < d) by (unfold d; lia).
  set (n := Z.max (d + e - 14) (-149) - e + 13).
  assert (Hn : 1 <= n <= 23) by (unfold n; lia).
  split; [exact Hn |].
  assert (Hdig : Z.pos (digits2_pos (pow2mul m (Z.to_nat (23 - n)))) = d + (23 - n)).
  { rewrite pow2mul_digits. fold d. lia. }
  split.
  - unfold binary_round_aux, shr_fexp.
    cbn [shr_record_of_loc Zdigits2].
    rewrite (pow2mul_digits m 23). fold d.
    replace (fexp prec32 emax32 (d + Z.of_nat 23 + (e + -13)) - (e + -13)) with n
      by (unfold fexp, emin, prec32, emax32, n; lia).
    rewrite (shr_pow2mul m 23 n) by lia.
    cbn [shr_m loc_of_shr_record round_nearest_even shr_record_of_loc Zdigits2].
    change (Z.of_nat 23) with 23.
    rewrite Hdig.
    replace (fexp prec32 emax32 (d + (23 - n) + (e + -13 + n)) - (e + -13 + n)) with 0
      by (unfold fexp, emin, prec32, emax32, n; lia).
    cbn [shr shr_m].
    replace (e + -13 + n) with (e - 13 + n) by lia.
    reflexivity.
  - intros He'. unfold bounded, canonical_mantissa.
    rewrite Hdig. apply andb_true_iff. split.
    + apply Z.eqb_eq. unfold fexp, emin, prec32, emax32, n. lia.
    + apply Z.leb_le. unfold prec32, emax32. lia.
Qed.

Lemma fmul_1024 sg m e :
  bounded prec32 emax32 m e = true ->
  exists j : nat,
    fmul (S754_finite sg m e) float_1024
    = (if e + 10 - Z.of_nat j <=? 104
       then S754_finite sg (pow2mul m j) (e + 10 - Z.of_nat j)
       else S754_infinity sg) /\
    (e + 10 - Z.of_nat j <= 104 ->
     bounded prec32 emax32 (pow2mul m j) (e + 10 - Z.of_nat j) = true).
Proof.
  intros Hb. destruct (round_times_1024 sg m e Hb) as (Hn & Heq & Hbd).
  cbv zeta in *.
  set (n := Z.max (Z.pos (digits2_pos m) + e - 14) (-149) - e + 13) in *.
  exists (Z.to_nat (23 - n)).
  replace (e + 10 - Z.of_nat (Z.to_nat (23 - n))) with (e - 13 + n) by lia.
  split; [| exact Hbd].
  change float_1024 with (S754_finite false 8388608 (-13)).
  unfold fmul, SFmul. rewrite mul_8388608, xorb_false_r. exact Heq.
Qed.

Lemma float_trunc_finite sg m e :
  float_trunc (S754_finite sg m e)
  = Some (if sg then - trunc_mag m e else trunc_mag m e).
Proof. reflexivity. Qed.

Lemma trunc_mag_pow2mul m j e :
  trunc_mag (pow2mul m j) (e - Z.of_nat j) = trunc_mag m e.
Proof.
  unfold trunc_mag. rewrite pow2mul_Z.
  set (k := Z.of_nat j). assert (Hk : 0 <= k) by (unfold k; lia).
  destruct (0 <=? e - k) eqn:H1.
  - apply Z.leb_le in H1. rewrite (proj2 (Z.leb_le 0 e)) by lia.
    replace e with (k + (e - k)) at 2 by lia.
    rewrite Z.pow_add_r by lia. lia.
  - apply Z.leb_gt in H1. destruct (0 <=? e) eqn:H2.
    + apply Z.leb_le in H2.
      replace k with (e + (- (e - k))) at 1 by lia.
      rewrite Z.pow_add_r by lia. rewrite Z.mul_assoc.
      apply Z.div_mul. apply Z.pow_nonzero; lia.
    + apply Z.leb_gt in H2.
      replace (- (e - k)) with (- e + k) by lia.
      rewrite Z.pow_add_r by lia.
      apply Z.div_mul_cancel_r; apply Z.pow_nonzero; lia.
Qed.

Lemma float_to_int_huge sg m e :
  32 <= e -> float_to_int (S754_finite sg m e) = None.
Proof.
  intros He. unfold float_to_int. rewrite float_trunc_finite.
  unfold trunc_mag. rewrite (proj2 (Z.leb_le 0 e)) by lia.
  assert (H32 : 2 ^ 32 <= 2 ^ e) by (apply Z.pow_le_mono_r; lia).
  assert (Hm : 2 ^ 32 <= Z.pos m * 2 ^ e) by nia.
  unfold INT_MIN, INT_MAX.
  change (2 ^ 31) with 2147483648. change (2 ^ 32) with 4294967296 in Hm.
  destruct sg.
  - rewrite (proj2 (Z.leb_gt _ _)) by lia. reflexivity.
  - rewrite (proj2 (Z.leb_gt (Z.pos m * 2 ^ e) _)) by lia.
    rewrite andb_false_r. reflexivity.
Qed.

Lemma float_to_int_pow2mul sg m j e :
  float_to_int (S754_finite sg (pow2mul m j) (e - Z.of_nat j))
  = float_to_int (S754_finite sg m e).
Proof.
  unfold float_to_int. rewrite !float_trunc_finite, trunc_mag_pow2mul. reflexivity.
Qed.

(** The byte ceiling of a finite size is the truncation of the exact
    product [size * 2^20], when that is an [int]. *)
Lemma megabytes_to_bytes_finite sg m e :
  bounded prec32 emax32 m e = true ->
  megabytes_to_bytes (S754_finite sg m e) = float_to_int (S754_finite sg m (e + 20)).
Proof.
  intros Hb. unfold megabytes_to_bytes.
  destruct (fmul_1024 sg m e Hb) as (j1 & H1 & Hb1). rewrite H1.
  destruct (e + 10 - Z.of_nat j1 <=? 104) eqn:He1.
  - apply Z.leb_le in He1.
    destruct (fmul_1024 sg (pow2mul m j1) _ (Hb1 He1)) as (j2 & H2 & _). rewrite H2.
    destruct (_ <=? 104) eqn:He2.
    + replace (e + 10 - Z.of_nat j1 + 10 - Z.of_nat j2)
        with ((e + 20 - Z.of_nat j1) - Z.of_nat j2) by lia.
      rewrite !float_to_int_pow2mul. reflexivity.
    + apply Z.leb_gt in He2. rewrite float_to_int_huge by lia.
      destruct sg; reflexivity.
  - apply Z.leb_gt in He1. rewrite float_to_int_huge by lia.
    destruct sg; reflexivity.
Qed.

Lemma megabytes_to_bytes_exact size :
  valid_binary prec32 emax32 size = true ->
  megabytes_to_bytes size = float_to_int (times_2_20 size).
Proof.
  destruct size as [sg | sg | | sg m e]; intros Hv.
  - destruct sg; reflexivity.
  - destruct sg; reflexivity.
  - reflexivity.
  - apply megabytes_to_bytes_finite. exact Hv.
Qed.

Lemma small_sizes_checked :
  forallb (fun n =>
    bool_decide (megabytes_to_bytes (int_to_float n) = Some (n * 2 ^ 20))) small_sizes
  = true.
Proof. vm_compute. reflexivity. Qed.

Lemma megabytes_to_bytes_int n :
  -2048 <= n <= 2047 -> megabytes_to_bytes (int_to_float n) = Some (n * 2 ^ 20).
Proof.
  intros Hn. pose proof small_sizes_checked as H.
  rewrite forallb_forall in H.
  specialize (H n). apply bool_decide_eq_true_1 in H; [exact H |].
  unfold small_sizes. apply in_map_iff. exists (Z.to_nat (n + 2048)).
  split; [lia |]. apply in_seq. lia.
Qed.

(** ** The pointers to file records *)

Lemma same_files_refl s : same_files s s.
Proof. repeat split. Qed.

Lemma same_files_trans s1 s2 s3 :
  same_files s1 s2 -> same_files s2 s3 -> same_files s1 s3.
Proof.
  intros (a1 & b1 & c1) (a2 & b2 & c2).
  repeat split; [rewrite a2 | rewrite b2 | rewrite c2]; assumption.
Qed.

Lemma files_ok_same s s' : same_files s s' -> files_ok s -> files_ok s'.
Proof.
  intros (Hf & Hp & Hd). unfold files_ok. rewrite Hf, Hp, Hd. exact id.
Qed.

Lemma same_files_length s s' :
  same_files s s' -> length (file_store s') = length (file_store s).
Proof.
  intros (_ & _ & Hd). unfold duplicates in Hd.
  rewrite <- (length_fmap m_duplicate (file_store s')), Hd. apply length_fmap.
Qed.

Lemma put_file_same p f f' s :
  file_store s !! p = Some f -> m_duplicate f' = m_duplicate f ->
  same_files s (put_file p f' s).
Proof.
  intros Hl Hd. split; [reflexivity |]. split; [reflexivity |].
  unfold duplicates, put_file.
  change (file_store (set_file_store ?l s)) with l.
  rewrite list_fmap_insert, Hd. apply list_insert_id.
  rewrite list_lookup_fmap, Hl. reflexivity.
Qed.

Lemma open_effect_same s s' : open_effect s s' -> same_files s s'.
Proof. intros (e & c & n & ->). repeat split. Qed.

Lemma tile_effect_same s s' : tile_effect s s' -> same_files s s'.
Proof. intros (a & b & c & d & ->). repeat split. Qed.

Lemma close_dup f s : m_duplicate (snd (fst (ImageCacheFile_close f s))) = m_duplicate f.
Proof. unfold ImageCacheFile_close. destruct (opened f); reflexivity. Qed.

Lemma close_same f s : same_files s (snd (ImageCacheFile_close f s)).
Proof. apply open_effect_same, close_effect. Qed.

Lemma close_store f s :
  file_store (snd (ImageCacheFile_close f s)) = file_store s.
Proof. unfold ImageCacheFile_close. destruct (opened f); reflexivity. Qed.

Lemma release_on_file_same p s :
  same_files s (snd (on_file p ImageCacheFile_release tt s)).
Proof.
  unfold on_file. destruct (file_store s !! p) as [f |] eqn:Hl;
    [| apply same_files_refl].
  unfold ImageCacheFile_release. destruct (m_used f).
  - cbn [snd]. apply (put_file_same p f); [exact Hl | reflexivity].
  - pose proof (close_dup f s) as Hd. pose proof (close_same f s) as Hs.
    pose proof (close_store f s) as Hst.
    destruct (ImageCacheFile_close f s) as [[u f'] s']. cbn [fst snd] in *.
    eapply same_files_trans; [exact Hs |].
    apply (put_file_same p f); [rewrite Hst; exact Hl | exact Hd].
Qed.

Lemma check_max_files_turn_same s :
  match check_max_files_turn s with
  | Done s' => same_files s s'
  | Again s' => same_files s s'
  end.
Proof.
  unfold check_max_files_turn.
  destruct (m_max_open_files s <=? m_stat_open_files_current s);
    [| apply same_files_refl].
  destruct (sweep_begin _ _) as [i |]; [| repeat split].
  destruct (m_files s !! i) as [[name p] |]; [| apply same_files_refl].
  pose proof (release_on_file_same p s) as H.
  destruct (on_file p ImageCacheFile_release tt s) as [u s']. cbn [snd] in H.
  destruct H as (a & b & c). repeat split; assumption.
Qed.

Lemma check_max_files_same fuel :
  forall s s', check_max_files fuel s = Some s' -> same_files s s'.
Proof.
  induction fuel as [| fuel IH]; intros s s' H; cbn [check_max_files] in H;
    pose proof (check_max_files_turn_same s) as Ht;
    destruct (check_max_files_turn s) as [s1 | s1]; try discriminate.
  - injection H as <-. exact Ht.
  - injection H as <-. exact Ht.
  - eapply same_files_trans; [exact Ht | apply IH, H].
Qed.

Lemma file_use_same q s : same_files s (file_use q s).
Proof.
  unfold file_use. destruct (file_store s !! q) as [f |] eqn:Hl;
    [| apply same_files_refl].
  apply (put_file_same q f); [exact Hl | reflexivity].
Qed.

Lemma incr_unique_files_same s : same_files s (incr_unique_files s).
Proof. repeat split. Qed.

Section Pointers.
Variable io : External.

Lemma open_first_time_dup f s first rest :
  m_duplicate (snd (fst (open_first_time io f s first rest))) = m_duplicate f.
Proof.
  unfold open_first_time.
  destruct (read_subimages _ _ _ _ _) as [[[ok n] specs] untiled].
  destruct ok; cbn [negb].
  - match goal with |- context [open_finish io ?x _] => set (f2 := x) end.
    assert (H2 : m_duplicate f2 = m_duplicate f).
    { subst f2.
      repeat match goal with |- context [if ?c then _ else _] => destruct c end;
        reflexivity. }
    clearbody f2.
    destruct (m_untiled f2 && negb (m_accept_untiled s)); cbn [fst snd].
    + exact H2.
    + destruct (open_finish_keeps io f2 s) as (_ & Hd & _). rewrite Hd. exact H2.
  - pose proof (close_dup (set_m_untiled untiled (set_m_spec specs f)) s) as H.
    destruct (ImageCacheFile_close _ s) as [[u f'] s']. exact H.
Qed.

Lemma ImageCacheFile_open_dup f s :
  m_duplicate (snd (fst (ImageCacheFile_open io f s))) = m_duplicate f.
Proof.
  unfold ImageCacheFile_open.
  destruct (opened f); [reflexivity |].
  destruct (m_broken f); [reflexivity |].
  destruct (disk io (m_filename f)) as [err | err | fmt first rest];
    try reflexivity.
  match goal with |- context [if ?c then _ else _] => destruct c end;
    [reflexivity |].
  rewrite open_first_time_dup. reflexivity.
Qed.

Lemma new_file_dup filename s :
  m_duplicate (fst (new_ImageCacheFile io filename s)) = None.
Proof.
  unfold new_ImageCacheFile.
  pose proof (ImageCacheFile_open_dup (blank_file (resolve_filename io filename s)) s) as H.
  destruct (ImageCacheFile_open _ _ s) as [[ok f'] s']. exact H.
Qed.

End Pointers.

Lemma files_ok_append f s :
  files_ok s -> m_duplicate f = None ->
  files_ok (set_file_store (file_store s ++ [f]) s).
Proof.
  intros (H1 & H2 & H3) Hd. unfold files_ok, duplicates in *.
  change (file_store (set_file_store ?l s)) with l.
  change (m_files (set_file_store ?l s)) with (m_files s).
  change (m_fingerprints (set_file_store ?l s)) with (m_fingerprints s).
  rewrite fmap_app, length_app. cbn [fmap list_fmap length].
  split; [| split].
  - eapply Forall_impl; [exact H1 |]. cbn beta. intros e He. lia.
  - eapply map_Forall_impl; [exact H2 |]. cbn beta. intros k d Hk. lia.
  - apply Forall_app. split.
    + eapply Forall_impl; [exact H3 |]. cbn beta. intros o Ho d Hod.
      specialize (Ho d Hod). lia.
    + apply Forall_singleton. rewrite Hd. intros d Hod. discriminate.
Qed.

Lemma files_ok_duplicate tf d f s :
  files_ok s -> file_store s !! tf = Some f -> (d < length (file_store s))%nat ->
  forall f', m_duplicate f' = Some d -> files_ok (put_file tf f' s).
Proof.
  intros (H1 & H2 & H3) Hl Hd f' Hf'. unfold files_ok, duplicates, put_file in *.
  change (file_store (set_file_store ?l s)) with l.
  change (m_files (set_file_store ?l s)) with (m_files s).
  change (m_fingerprints (set_file_store ?l s)) with (m_fingerprints s).
  rewrite list_fmap_insert, length_insert.
  split; [exact H1 |]. split; [exact H2 |].
  apply Forall_insert; [exact H3 |].
  rewrite Hf'. intros d' Hd'. injection Hd' as <-. rewrite length_fmap. exact Hd.
Qed.

Lemma fingerprint_dedup_ok tf s :
  files_ok s -> (tf < length (file_store s))%nat ->
  files_ok (fingerprint_dedup tf s) /\
  length (file_store (fingerprint_dedup tf s)) = length (file_store s).
Proof.
  intros Hok Htf. unfold fingerprint_dedup.
  destruct (file_store s !! tf) as [f |] eqn:Hl; [| auto].
  destruct (negb _); [| auto].
  destruct (m_fingerprints s !! m_fingerprint f) as [d |] eqn:Hfp.
  - destruct (file_store s !! d) as [dup |] eqn:Hdup; [| auto].
    match goal with |- context [if ?c then _ else _] => destruct c end; [| auto].
    pose proof (close_dup (set_m_duplicate (Some d) f) s) as Hd.
    pose proof (close_same (set_m_duplicate (Some d) f) s) as Hs.
    pose proof (close_store (set_m_duplicate (Some d) f) s) as Hst.
    destruct (ImageCacheFile_close _ s) as [[u f'] s']. cbn [fst snd] in *.
    split.
    + apply (files_ok_duplicate tf d f).
      * apply (files_ok_same s); assumption.
      * rewrite Hst. exact Hl.
      * rewrite Hst. eapply lookup_lt_Some. exact Hdup.
      * exact Hd.
    + unfold put_file. change (file_store (set_file_store ?l s')) with l.
      rewrite length_insert, Hst. reflexivity.
  - split; [| reflexivity].
    destruct Hok as (H1 & H2 & H3). unfold files_ok, duplicates in *.
    change (file_store (set_m_fingerprints ?m s)) with (file_store s).
    change (m_files (set_m_fingerprints ?m s)) with (m_files s).
    change (m_fingerprints (set_m_fingerprints ?m s)) with m.
    split; [exact H1 |]. split; [| exact H3].
    apply map_Forall_insert_2; [| exact H2]. rewrite length_fmap. exact Htf.
Qed.

Lemma assoc_set_Forall {K V} `{EqDecision K} (P : K * V -> Prop) k v (l : list (K * V)) :
  Forall P l -> P (k, v) -> Forall P (assoc_set k v l).
Proof.
  intros Hl Hkv. induction Hl as [| e r He Hr IH]; cbn [assoc_set].
  - apply Forall_singleton. exact Hkv.
  - destruct (decide (fst e = k)); constructor; assumption.
Qed.

Lemma assoc_find_Forall {K V} `{EqDecision K} (P : K * V -> Prop) k v (l : list (K * V)) :
  Forall P l -> assoc_find k l = Some v -> exists k', P (k', v).
Proof.
  intros Hl. unfold assoc_find. induction Hl as [| e r He Hr IH]; cbn [List.find].
  - discriminate.
  - destruct (bool_decide (fst e = k)).
    + cbn. intros H. injection H as <-. exists (fst e). destruct e. exact He.
    + exact IH.
Qed.

Lemma follow_duplicate_valid p s :
  files_ok s -> (p < length (file_store s))%nat ->
  (follow_duplicate p s < length (file_store s))%nat.
Proof.
  intros (_ & _ & H3) Hp. unfold follow_duplicate.
  destruct (file_store s !! p) as [f |] eqn:Hl; [| exact Hp].
  destruct (m_duplicate f) as [d |] eqn:Hd; [| exact Hp]. cbn.
  rewrite <- (length_fmap m_duplicate).
  apply (Forall_lookup_1 _ _ p (Some d) H3); [| reflexivity].
  unfold duplicates. rewrite list_lookup_fmap, Hl. cbn. rewrite Hd. reflexivity.
Qed.

(** [files_ok] is an invariant of [find_file], and the pointer it returns
    designates a record. *)
Lemma find_file_files_ok io fuel filename s r s' :
  files_ok s -> find_file io fuel filename s = Some (r, s') ->
  files_ok s' /\ exists p f, r = Some p /\ file_store s' !! p = Some f.
Proof.
  intros Hok.
  destruct (assoc_find filename (m_files s)) as [p |] eqn:Hp.
  - rewrite (find_file_hit io fuel filename s p Hp). intros H. injection H as <- <-.
    pose proof (file_use_same (follow_duplicate p s) s) as Hs.
    split; [apply (files_ok_same s); assumption |].
    destruct (assoc_find_Forall _ _ _ _ (proj1 Hok) Hp) as (k' & Hk). cbn [snd] in Hk.
    unfold duplicates in Hk. rewrite length_fmap in Hk.
    pose proof (follow_duplicate_valid p s Hok Hk) as Hq.
    rewrite <- (same_files_length _ _ Hs) in Hq.
    apply lookup_lt_is_Some_2 in Hq as [f Hf]. eauto.
  - rewrite (find_file_miss io fuel filename s Hp).
    set (tf := length (file_store s)).
    (* the state in which the sweep starts *)
    assert (He : files_ok (find_file_enter io filename s) /\
                 length (file_store (find_file_enter io filename s)) = S tf).
    { unfold find_file_enter.
      pose proof (new_ImageCacheFile_effect io filename s) as Hn.
      pose proof (new_file_dup io filename s) as Hd.
      destruct (new_ImageCacheFile io filename s) as [f s1]. cbn [fst snd] in *.
      pose proof (open_effect_same _ _ Hn) as Hs1.
      pose proof (same_files_length _ _ Hs1) as Hlen.
      pose proof (files_ok_append f s1 (files_ok_same _ _ Hs1 Hok) Hd) as Hok2.
      assert (Hl2 : length (file_store (set_file_store (file_store s1 ++ [f]) s1)) = S tf).
      { change (file_store (set_file_store ?l s1)) with l.
        rewrite length_app, Hlen. cbn. unfold tf. lia. }
      destruct (fingerprint_dedup_ok tf _ Hok2) as [Hok3 Hl3]; [rewrite Hl2; lia |].
      split; [exact Hok3 | etrans; [exact Hl3 | exact Hl2]]. }
    destruct He as [Hoke Hlene].
    destruct (check_max_files fuel (find_file_enter io filename s)) as [s3 |] eqn:Hc;
      [| discriminate].
    pose proof (check_max_files_same fuel _ _ Hc) as Hs3.
    pose proof (files_ok_same _ _ Hs3 Hoke) as Hok3.
    pose proof (same_files_length _ _ Hs3) as Hl3. rewrite Hlene in Hl3.
    unfold find_file_leave.
    set (s4 := set_m_files (assoc_set filename tf (m_files s3)) s3).
    assert (Hok4 : files_ok s4).
    { destruct Hok3 as (H1 & H2 & H3). unfold files_ok, duplicates in *. subst s4.
      change (file_store (set_m_files ?l s3)) with (file_store s3).
      change (m_files (set_m_files ?l s3)) with l.
      change (m_fingerprints (set_m_files ?l s3)) with (m_fingerprints s3).
      split; [| split; assumption].
      apply assoc_set_Forall; [exact H1 |]. cbn [snd]. rewrite length_fmap, Hl3. lia. }
    assert (Hl4 : length (file_store s4) = S tf) by exact Hl3.
    destruct (file_store s4 !! tf) as [f4 |] eqn:Hf4.
    + destruct (m_duplicate f4) as [d |] eqn:Hd4.
      * intros H. injection H as <- <-.
        pose proof (file_use_same d s4) as Hs.
        split; [apply (files_ok_same s4); assumption |].
        assert (Hd : (d < length (file_store s4))%nat).
        { destruct Hok4 as (_ & _ & H3).
          rewrite <- (length_fmap m_duplicate).
          apply (Forall_lookup_1 _ _ tf (Some d) H3); [| reflexivity].
          unfold duplicates. rewrite list_lookup_fmap, Hf4. cbn. rewrite Hd4.
          reflexivity. }
        rewrite <- (same_files_length _ _ Hs) in Hd.
        apply lookup_lt_is_Some_2 in Hd as [f Hf]. eauto.
      * intros H. injection H as <- <-.
        pose proof (incr_unique_files_same s4) as Hs5.
        pose proof (file_use_same tf (incr_unique_files s4)) as Hs6.
        pose proof (same_files_trans _ _ _ Hs5 Hs6) as Hs.
        split; [apply (files_ok_same s4); assumption |].
        assert (Hd : (tf < length (file_store s4))%nat) by (rewrite Hl4; lia).
        rewrite <- (same_files_length _ _ Hs) in Hd.
        apply lookup_lt_is_Some_2 in Hd as [f Hf]. eauto.
    + apply lookup_ge_None_1 in Hf4. rewrite Hl4 in Hf4. lia.
Qed.


(** In a cache whose pointers designate records, the pointer a query gets
    from [find_file] is not null and designates a record. *)
Lemma query_file_found io fuel filename s r s1 :
  files_ok s ->
  find_file io fuel filename (get_perthread_info s) = Some (r, s1) ->
  files_ok s1 /\ is_Some (deref_file r s1).
Proof.
  intros Hok H.
  assert (Hok0 : files_ok (get_perthread_info s)).
  { apply (files_ok_same s); [| exact Hok].
    apply tile_effect_same, get_perthread_info_effect. }
  destruct (find_file_files_ok io fuel filename _ r s1 Hok0 H) as (Hok1 & p & f & -> & Hf).
  split; [exact Hok1 |]. exists f. exact Hf.
Qed.

Lemma error_same msg s : same_files s (error msg s).
Proof. repeat split. Qed.

(** [get_imagespec] and [get_image_info] keep the pointers of the cache
    in order. *)
Lemma get_imagespec_files_ok io fuel filename subimage s r s' :
  files_ok s -> get_imagespec io fuel filename subimage s = Some (r, s') -> files_ok s'.
Proof.
  intros Hok. unfold get_imagespec.
  destruct (find_file io fuel filename (get_perthread_info s)) as [[file s1] |] eqn:Hf;
    [| discriminate].
  destruct (query_file_found io fuel filename s file s1 Hok Hf) as [Hok1 _].
  assert (He : forall msg, files_ok (error msg s1))
    by (intros msg; apply (files_ok_same s1); [apply error_same | exact Hok1]).
  repeat match goal with
         | |- context [match ?c with _ => _ end] => destruct c
         end; intros H; injection H as <- <-; auto.
Qed.

Lemma get_image_info_files_ok io fuel filename dataname datatype data s r s' :
  files_ok s ->
  get_image_info io fuel filename dataname datatype data s = Some (r, s') -> files_ok s'.
Proof.
  intros Hok. unfold get_image_info.
  destruct (find_file io fuel filename (get_perthread_info s)) as [[file s1] |] eqn:Hf;
    [| discriminate].
  destruct (query_file_found io fuel filename s file s1 Hok Hf) as [Hok1 _].
  assert (He : forall msg, files_ok (error msg s1))
    by (intros msg; apply (files_ok_same s1); [apply error_same | exact Hok1]).
  repeat match goal with
         | |- context [match ?c with _ => _ end] => destruct c
         end; intros H; injection H as <- <-; auto.
Qed.

(** * The claims *)

(** ** C2: the synthesized pyramid *)

(** C2, as stated, fails: subimage 3 of the 100x100 scanline file is 12x12,
    not 13x13; and a tiled file with one subimage gets no synthesized level
    at all. *)
Lemma automip_level_3_is_12_not_13 :
  returned_size (get_imagespec demo_io 0 "m.tif" 3 automip_cache) = Some (Some (12, 12)) /\
  returned_size (get_imagespec demo_io 0 "m.tif" 3 automip_cache) <> Some (Some (13, 13)) /\
  returned_size (get_imagespec demo_io 0 "a.tif" 0 automip_cache) = Some (Some (256, 256)) /\
  returned_size (get_imagespec demo_io 0 "a.tif" 1 automip_cache) = Some None.
Proof. vm_compute. repeat split; discriminate. Qed.

(** C2, amended: the record of a scanline file with one subimage, opened
    with automip on and without a "textureformat" attribute, has a spec
    list that starts with the file's own subimage; each further entry has
    the extents of the one before, halved rounding down and never below 1;
    the list ends with an entry of full size at most 1x1. *)
Theorem automip_levels_halve_rounding_down (io : External) (filename : ustring)
    (s : ImageCacheImpl) (fmt : string) (first : ImageSpec) :
  disk io (resolve_filename io filename s) = Readable fmt first [] ->
  tile_width first = 0 \/ tile_height first = 0 ->
  m_automip s = true ->
  find_attribute "textureformat" (Some TypeString) first = None ->
  exists s0 levels,
    m_spec (fst (new_ImageCacheFile io filename s)) = s0 :: levels /\
    full_width s0 = full_width first /\ full_height s0 = full_height first /\
    halving_chain s0 levels /\
    exists l, last (s0 :: levels) = Some l /\ full_width l <= 1 /\ full_height l <= 1.
Proof.
  intros Hdisk Hscan Hmip Hattr.
  exists (scanline_tiles (m_autotile s) first),
         (automip_specs (m_autotile s) (scanline_tiles (m_autotile s) first)).
  assert (Hw : full_width (scanline_tiles (m_autotile s) first) = full_width first)
    by (unfold scanline_tiles; destruct (negb _); reflexivity).
  assert (Hh : full_height (scanline_tiles (m_autotile s) first) = full_height first)
    by (unfold scanline_tiles; destruct (negb _); reflexivity).
  split; [apply (new_file_automip_spec io filename s fmt first); assumption |].
  split; [exact Hw |]. split; [exact Hh |].
  unfold automip_specs. split.
  - apply automip_loop_chain; reflexivity.
  - apply automip_loop_complete; [lia | reflexivity | reflexivity].
Qed.

Lemma automip_levels_halve_rounding_down_witness :
  exists s0 levels,
    m_spec (fst (new_ImageCacheFile demo_io "m.tif" automip_cache)) = s0 :: levels /\
    full_width s0 = full_width (demo_spec 100 100 0 0 3 FLOAT []) /\
    full_height s0 = full_height (demo_spec 100 100 0 0 3 FLOAT []) /\
    halving_chain s0 levels /\
    exists l, last (s0 :: levels) = Some l /\ full_width l <= 1 /\ full_height l <= 1.
Proof.
  apply (automip_levels_halve_rounding_down demo_io "m.tif" automip_cache "tiff"
           (demo_spec 100 100 0 0 3 FLOAT [])).
  - reflexivity.
  - left. reflexivity.
  - reflexivity.
  - reflexivity.
Defined.

(** ** C5: the coercion of an int attribute to float *)

(** C5: the code does not coerce.  For a name that is not one of the
    well-known ones and an attribute of that name whose stored base type is
    int, [get_image_info] asked for a float returns false and leaves the
    output as it was. *)
Theorem int_attribute_as_float_is_refused (io : External) (fuel : nat)
    (filename dataname : ustring) (datatype : TypeDesc) (data : list cell)
    (s s1 : ImageCacheImpl) (file : nat) (f : ImageCacheFile) (p : ImageIOParameter) :
  find_file io fuel filename (get_perthread_info s) = Some (Some file, s1) ->
  file_store s1 !! file = Some f ->
  m_broken f = false ->
  well_known dataname = false ->
  find_attribute dataname None (spec_at f 0) = Some p ->
  basetype (p_type p) = INT ->
  basetype datatype = FLOAT ->
  get_image_info io fuel filename dataname datatype data s = Some (false, data, s1).
Proof.
  intros Hfind Hf Hb Hwk Hattr Hint Hfloat.
  unfold get_image_info. rewrite Hfind. cbn [deref_file]. rewrite Hf, Hb.
  cbn [well_known existsb] in Hwk.
  repeat match type of Hwk with
         | (_ || _) = false =>
             let H := fresh "Hn" in apply orb_false_iff in Hwk as [H Hwk]; rewrite H
         end.
  cbn [andb orb]. rewrite Hattr.
  destruct (arraylen (p_type p) =? arraylen datatype); [| reflexivity].
  assert (Hne : TypeDesc_eqb (p_type p) datatype = false).
  { unfold TypeDesc_eqb. apply bool_decide_eq_false_2. intros E.
    rewrite E, Hfloat in Hint. discriminate. }
  rewrite Hne, Hint. reflexivity.
Qed.

Lemma int_attribute_as_float_is_refused_witness :
  get_image_info demo_io 0 "n.tif" "frames" TypeFloat [FloatCell (S754_zero false)]
    ImageCacheImpl_init
  = Some (false, [FloatCell (S754_zero false)], n_found).
Proof.
  apply (int_attribute_as_float_is_refused demo_io 0 "n.tif" "frames" TypeFloat
           [FloatCell (S754_zero false)] ImageCacheImpl_init n_found 0 n_record
           (mkParam "frames" TypeInt [IntCell 3])).
  - vm_compute. reflexivity.
  - vm_compute. reflexivity.
  - vm_compute. reflexivity.
  - reflexivity.
  - vm_compute. reflexivity.
  - reflexivity.
  - reflexivity.
Defined.

(** The coercion branch is taken in the opposite case: the float attribute
    "gamma" of ["n.tif"], asked for as int, returns true. *)
Lemma float_attribute_as_int_is_accepted :
  returned (get_image_info demo_io 0 "n.tif" "gamma" TypeInt [IntCell 0]
              ImageCacheImpl_init)
  = Some (true, [IntCell 0]).
Proof. vm_compute. reflexivity. Qed.

(** ** Reference counts *)

Lemma refcount_put_eq p t t' s :
  tile_store s !! p = Some t -> refcount (put_tile p t' s) p = t_refcnt t'.
Proof.
  intros H. unfold refcount, put_tile.
  change (tile_store (set_tile_store ?l s)) with l.
  rewrite list_lookup_insert_eq by (eapply lookup_lt_Some, H). reflexivity.
Qed.

Lemma refcount_put_ne p q t' s : q <> p -> refcount (put_tile p t' s) q = refcount s q.
Proof.
  intros H. unfold refcount, put_tile.
  change (tile_store (set_tile_store ?l s)) with l.
  rewrite list_lookup_insert_ne by congruence. reflexivity.
Qed.

Lemma tile_incref_refcount p s q :
  is_Some (tile_store s !! p) ->
  refcount (tile_incref p s) q = if decide (q = p) then S (refcount s q) else refcount s q.
Proof.
  intros [t Ht]. unfold tile_incref. rewrite Ht.
  destruct (decide (q = p)) as [-> | Hne].
  - rewrite (refcount_put_eq p t _ s Ht). unfold refcount. rewrite Ht. reflexivity.
  - apply refcount_put_ne, Hne.
Qed.

Lemma tile_decref_refcount p s q :
  refcount (tile_decref p s) q
  = if decide (q = p) then Nat.pred (refcount s q) else refcount s q.
Proof.
  unfold tile_decref. destruct (tile_store s !! p) as [t |] eqn:Ht.
  - destruct (t_refcnt t <=? 1)%nat eqn:Hc.
    + change (refcount (decr_tiles ?n ?x) q) with (refcount x q).
      destruct (decide (q = p)) as [-> | Hne].
      * rewrite (refcount_put_eq p t _ s Ht). unfold refcount. rewrite Ht.
        apply Nat.leb_le in Hc. cbn. lia.
      * apply refcount_put_ne, Hne.
    + destruct (decide (q = p)) as [-> | Hne].
      * rewrite (refcount_put_eq p t _ s Ht). unfold refcount. rewrite Ht. cbn. lia.
      * apply refcount_put_ne, Hne.
  - destruct (decide (q = p)) as [-> | Hne]; [| reflexivity].
    unfold refcount. rewrite Ht. reflexivity.
Qed.

(** The last reference gives the bytes of the tile back. *)
Lemma tile_decref_bytes p s :
  m_mem_used (tile_decref p s)
  = m_mem_used s - (if (refcount s p <=? 1)%nat then bytes_at s p else 0).
Proof.
  unfold tile_decref, refcount, bytes_at. destruct (tile_store s !! p) as [t |].
  - destruct (t_refcnt t <=? 1)%nat; cbn; lia.
  - cbn. lia.
Qed.

Lemma tile_incref_lookup_ne p q s :
  q <> p -> tile_store (tile_incref p s) !! q = tile_store s !! q.
Proof.
  intros H. unfold tile_incref. destruct (tile_store s !! p) as [t |]; [| reflexivity].
  cbn. apply list_lookup_insert_ne. congruence.
Qed.

(** ** Assignment through [operator[]] *)

(** When the key is present, [m[k] = v] overwrites the value of its entry
    in place. *)
Lemma assoc_set_present {K V} `{EqDecision K} (k : K) (v v0 : V) (l : list (K * V)) :
  assoc_find k l = Some v0 ->
  exists i,
    l !! i = Some (k, v0) /\
    (forall j e, (j < i)%nat -> l !! j = Some e -> fst e <> k) /\
    assoc_set k v l = <[i := (k, v)]> l.
Proof.
  unfold assoc_find. induction l as [| [k' v'] l IH]; cbn; [discriminate |].
  destruct (decide (k' = k)) as [-> | Hne].
  - rewrite bool_decide_eq_true_2 by reflexivity. cbn. intros [= ->].
    exists 0%nat. split; [reflexivity |]. split; [intros j e Hj; lia | reflexivity].
  - rewrite bool_decide_eq_false_2 by exact Hne. intros Hf.
    destruct (IH Hf) as (i & Hi & Hfirst & Hset).
    exists (S i). split; [exact Hi |]. split.
    + intros [| j] e Hj He.
      * injection He as <-. exact Hne.
      * apply (Hfirst j e); [lia | exact He].
    + cbn. rewrite Hset. reflexivity.
Qed.

(** When the key is absent, [m[k] = v] adds an entry; the others stay. *)
Lemma assoc_set_absent {K V} `{EqDecision K} (k : K) (v : V) (l : list (K * V)) :
  assoc_find k l = None -> assoc_set k v l = l ++ [(k, v)].
Proof.
  unfold assoc_find. induction l as [| [k' v'] l IH]; cbn; [reflexivity |].
  destruct (decide (k' = k)) as [-> | Hne].
  - rewrite bool_decide_eq_true_2 by reflexivity. discriminate.
  - rewrite bool_decide_eq_false_2 by exact Hne. intros Hf. rewrite (IH Hf). reflexivity.
Qed.

(** ** C4: a tile inserted under an id that is already present *)

(** C4, as stated, fails: the entry that was resident is replaced by the
    newcomer and loses the reference of the table. *)
Lemma resident_tile_is_replaced :
  assoc_find first_tile_id (m_tilecache raced_cache) = Some 0%nat /\
  option_map t_id (tile_store raced_cache !! 1%nat) = Some first_tile_id /\
  assoc_find first_tile_id (m_tilecache (add_tile_to_cache 1 raced_cache)) = Some 1%nat /\
  assoc_find first_tile_id (m_tilecache (add_tile_to_cache 1 raced_cache)) <> Some 0%nat /\
  option_map t_refcnt (tile_store raced_cache !! 0%nat) = Some 2%nat /\
  option_map t_refcnt (tile_store (add_tile_to_cache 1 raced_cache) !! 0%nat) = Some 1%nat.
Proof. vm_compute. repeat split; discriminate. Qed.

(** C4, amended: [add_tile_to_cache], in a cache whose sweep iterator is on
    an entry or at the end, first runs the memory sweep; where an entry
    with the id of the tile is still present after it, the assignment
    overwrites that entry in place: the table is the swept table with the
    newcomer in the place of the resident tile, and it has no other entry
    for the resident one; the newcomer gains the reference of the table and
    the resident tile loses it, giving back its bytes when that was its
    last reference; nothing else changes in the reference counts or in
    the tiles; the sweep iterator is as the sweep left it; and a lookup of
    the id in the table then returns the newcomer as a hit. *)
Theorem add_tile_newcomer_replaces_resident (io : External) (s : ImageCacheImpl)
    (tile old : nat) (t : ImageCacheTile) (r : option nat) :
  sweep_valid s ->
  tile_store s !! tile = Some t ->
  assoc_find (t_id t) (m_tilecache (check_max_mem s)) = Some old ->
  old <> tile ->
  (exists i,
     m_tilecache (check_max_mem s) !! i = Some (t_id t, old) /\
     (forall j e, (j < i)%nat -> m_tilecache (check_max_mem s) !! j = Some e ->
                  fst e <> t_id t) /\
     m_tilecache (add_tile_to_cache tile s)
     = <[i := (t_id t, tile)]> (m_tilecache (check_max_mem s))) /\
  assoc_find (t_id t) (m_tilecache (add_tile_to_cache tile s)) = Some tile /\
  refcount (add_tile_to_cache tile s) tile = S (refcount (check_max_mem s) tile) /\
  refcount (add_tile_to_cache tile s) old = Nat.pred (refcount (check_max_mem s) old) /\
  (forall q, q <> tile -> q <> old ->
     refcount (add_tile_to_cache tile s) q = refcount (check_max_mem s) q) /\
  m_mem_used (add_tile_to_cache tile s)
  = m_mem_used (check_max_mem s)
    - (if (refcount (check_max_mem s) old <=? 1)%nat then bytes_at (check_max_mem s) old
       else 0) /\
  tile_cores (add_tile_to_cache tile s) = tile_cores s /\
  m_tile_sweep (add_tile_to_cache tile s) = m_tile_sweep (check_max_mem s) /\
  sweep_valid (add_tile_to_cache tile s) /\
  fst (find_tile_main_cache io (t_id t) r (add_tile_to_cache tile s)) = (true, Some tile).
Proof.
  intros Hv Ht Hold Hne.
  pose proof (add_tile_to_cache_table tile t s Ht) as Htab.
  destruct (assoc_set_present (t_id t) tile old _ Hold) as (i & Hi & Hfirst & Hset).
  assert (Hfind : assoc_find (t_id t) (m_tilecache (add_tile_to_cache tile s)) = Some tile)
    by (rewrite Htab; apply assoc_find_set).
  split; [exists i; split; [exact Hi |]; split; [exact Hfirst |];
          rewrite Htab; exact Hset |].
  split; [exact Hfind |].
  destruct (cores_lookup s (check_max_mem s) tile t (check_max_mem_cores s) Ht)
    as (t' & Ht' & Hcore).
  assert (Hid : t_id t' = t_id t) by (unfold tile_core in Hcore; congruence).
  assert (Hs' : add_tile_to_cache tile s
                = tile_decref old
                    (tile_incref tile
                       (set_m_tilecache
                          (assoc_set (t_id t) tile (m_tilecache (check_max_mem s)))
                          (check_max_mem s)))).
  { unfold add_tile_to_cache. rewrite Ht', Hid, Hold. reflexivity. }
  set (s1 := check_max_mem s) in *.
  set (s2 := set_m_tilecache (assoc_set (t_id t) tile (m_tilecache s1)) s1) in *.
  assert (Hinc : forall q, refcount (tile_incref tile s2) q
                           = if decide (q = tile) then S (refcount s1 q) else refcount s1 q).
  { intros q. rewrite tile_incref_refcount by (exists t'; exact Ht'). reflexivity. }
  split; [| split; [| split; [| split; [| split; [| split; [| split]]]]]].
  - rewrite Hs', tile_decref_refcount, Hinc.
    rewrite decide_False by congruence. rewrite decide_True by reflexivity. reflexivity.
  - rewrite Hs', tile_decref_refcount, Hinc.
    rewrite decide_True by reflexivity. rewrite decide_False by exact Hne. reflexivity.
  - intros q Hq1 Hq2. rewrite Hs', tile_decref_refcount, Hinc.
    rewrite decide_False by exact Hq2. rewrite decide_False by exact Hq1. reflexivity.
  - rewrite Hs', tile_decref_bytes.
    rewrite (proj1 (tile_incref_frame tile s2)), Hinc.
    rewrite decide_False by exact Hne.
    unfold bytes_at. rewrite (tile_incref_lookup_ne tile old s2 Hne). reflexivity.
  - apply add_tile_to_cache_cores.
  - apply add_tile_to_cache_sweep.
  - unfold sweep_valid. rewrite add_tile_to_cache_sweep. apply check_max_mem_valid, Hv.
  - unfold find_tile_main_cache.
    change (m_tilecache (on_stats ?g ?x)) with (m_tilecache x).
    rewrite Hfind. reflexivity.
Qed.

Lemma add_tile_newcomer_replaces_resident_witness :
  m_tilecache (check_max_mem raced_cache) = [(first_tile_id, 0%nat)] /\
  m_tilecache (add_tile_to_cache 1 raced_cache) = [(first_tile_id, 1%nat)] /\
  refcount (add_tile_to_cache 1 raced_cache) 1 = 2%nat /\
  refcount (add_tile_to_cache 1 raced_cache) 0 = 1%nat /\
  fst (find_tile_main_cache demo_io first_tile_id None (add_tile_to_cache 1 raced_cache))
  = (true, Some 1%nat).
Proof.
  assert (Ht : exists t, tile_store raced_cache !! 1%nat = Some t /\ t_id t = first_tile_id).
  { eexists. split; [vm_compute; reflexivity | reflexivity]. }
  destruct Ht as (t & Ht & Hid).
  assert (Hv : sweep_valid raced_cache) by (unfold sweep_valid; vm_compute; discriminate).
  destruct (add_tile_newcomer_replaces_resident demo_io raced_cache 1 0 t None Hv Ht)
    as ((i & Hi & _ & Htab) & _ & Hnew & Hres & _ & _ & _ & _ & _ & Hfind).
  - rewrite Hid. vm_compute. reflexivity.
  - discriminate.
  - assert (Hsw : m_tilecache (check_max_mem raced_cache) = [(first_tile_id, 0%nat)])
      by (vm_compute; reflexivity).
    rewrite Hid in *. rewrite Hsw in Hi, Htab.
    pose proof (lookup_lt_Some _ _ _ Hi) as Hlt. cbn [length] in Hlt.
    assert (i = 0%nat) as -> by lia.
    split; [exact Hsw |]. split; [exact Htab |].
    split; [rewrite Hnew; vm_compute; reflexivity |].
    split; [rewrite Hres; vm_compute; reflexivity |].
    exact Hfind.
Defined.

(** ** C3: fingerprints *)

Lemma find_file_again io fuel a s p d :
  assoc_find a (m_files s) = Some p ->
  follow_duplicate p s = d ->
  returned (find_file io fuel a s) = Some (Some d).
Proof.
  intros Ha Hd. rewrite (find_file_hit io fuel a s p Ha), Hd. reflexivity.
Qed.

(** C3, as stated, fails in its third case: ["z.tif"] carries the
    fingerprint of ["x.exr"] and a different data type; it is not marked as
    a duplicate, and it is not entered into the fingerprint map either,
    which still holds the record of ["x.exr"]. *)
Lemma mismatching_newcomer_is_not_registered :
  m_fingerprints x_cache !! "0123456789abcdef0123456789abcdef01234567" = Some 0%nat /\
  returned (find_file demo_io 0 "z.tif" x_cache) = Some (Some 1%nat) /\
  option_map m_fingerprint (file_store after_z !! 1%nat)
  = Some "0123456789abcdef0123456789abcdef01234567" /\
  option_map m_duplicate (file_store after_z !! 1%nat) = Some None /\
  m_fingerprints after_z !! "0123456789abcdef0123456789abcdef01234567" = Some 0%nat /\
  m_fingerprints after_z !! "0123456789abcdef0123456789abcdef01234567" <> Some 1%nat.
Proof. vm_compute. repeat split; discriminate. Qed.

(** C3, amended.  [find_file] on a new name whose record [f] opens with a
    fingerprint, in a cache with room for one more open file:
    - no record with that fingerprint: [f] is entered into the fingerprint
      map and returned;
    - a record [dup] with that fingerprint and the same wrap modes, data
      type, cube layout and y-up flag: [f] is marked as a duplicate of
      [dup], its reader is closed, [dup] is returned, and from then on both
      names lead to [dup];
    - a record with that fingerprint and a differing field: [f] is returned
      and the fingerprint map is left as it was. *)
Theorem find_file_fingerprint_cases (io : External) (b : ustring) (s : ImageCacheImpl) :
  let f := fst (new_ImageCacheFile io b s) in
  let tf := length (file_store s) in
  assoc_find b (m_files s) = None ->
  m_stat_open_files_current s + 1 < m_max_open_files s ->
  m_fingerprint f <> "" ->
  (m_fingerprints s !! m_fingerprint f = None ->
   exists s',
     (forall fuel, find_file io fuel b s = Some (Some tf, s')) /\
     m_fingerprints s' = <[m_fingerprint f := tf]> (m_fingerprints s) /\
     file_store s' !! tf = Some (use f)) /\
  (forall d dup,
     m_fingerprints s !! m_fingerprint f = Some d ->
     file_store s !! d = Some dup ->
     same_modes f dup = true ->
     exists s',
       (forall fuel, find_file io fuel b s = Some (Some d, s')) /\
       m_fingerprints s' = m_fingerprints s /\
       file_store s' !! tf = Some (set_m_input None (set_m_duplicate (Some d) f)) /\
       m_stat_open_files_current s' = m_stat_open_files_current s /\
       (forall fuel, returned (find_file io fuel b s') = Some (Some d)) /\
       (forall a fuel,
          assoc_find a (m_files s) = Some d -> m_duplicate dup = None ->
          returned (find_file io fuel a s') = Some (Some d))) /\
  (forall d dup,
     m_fingerprints s !! m_fingerprint f = Some d ->
     file_store s !! d = Some dup ->
     same_modes f dup = false ->
     exists s',
       (forall fuel, find_file io fuel b s = Some (Some tf, s')) /\
       m_fingerprints s' = m_fingerprints s /\
       file_store s' !! tf = Some (use f)).
Proof.
  intros f tf Hnew Hroom Hfp. split; [| split].
  - intros Hlook.
    destruct (find_file_new_fingerprint io b s Hnew Hroom Hfp Hlook)
      as (s' & H1 & H2 & H3 & H4).
    exists s'. repeat split; assumption.
  - intros d dup Hlook Hdup Hmodes.
    destruct (find_file_duplicate io b s Hnew Hroom Hfp d dup Hlook Hdup Hmodes)
      as (s' & H1 & H2 & H3 & H4 & H5 & H6 & H7).
    exists s'. repeat split; try assumption.
    + intros fuel. apply (find_file_again io fuel b s' (length (file_store s)) d H2).
      unfold follow_duplicate. rewrite H4. reflexivity.
    + intros a fuel Ha Hcanon.
      assert (Hab : a <> b) by (intros ->; rewrite Hnew in Ha; discriminate).
      apply (find_file_again io fuel a s' d d).
      * rewrite (H7 a Hab). exact Ha.
      * unfold follow_duplicate. rewrite H5. cbn. rewrite Hcanon. reflexivity.
  - intros d dup Hlook Hdup Hmodes.
    destruct (find_file_other_modes io b s Hnew Hroom Hfp d dup Hlook Hdup Hmodes)
      as (s' & H1 & H2 & H3 & H4).
    exists s'. repeat split; assumption.
Qed.

(** The instance for ["y.exr"], which has the fingerprint and the modes of
    ["x.exr"]: one record, reachable from both names. *)
Lemma find_file_fingerprint_cases_witness :
  exists s',
    (forall fuel, find_file demo_io fuel "y.exr" x_cache = Some (Some 0%nat, s')) /\
    (forall fuel, returned (find_file demo_io fuel "y.exr" s') = Some (Some 0%nat)) /\
    (forall fuel, returned (find_file demo_io fuel "x.exr" s') = Some (Some 0%nat)).
Proof.
  assert (H1 : assoc_find "y.exr" (m_files x_cache) = None) by (vm_compute; reflexivity).
  assert (H2 : m_stat_open_files_current x_cache + 1 < m_max_open_files x_cache)
    by (vm_compute; reflexivity).
  assert (H3 : m_fingerprint (fst (new_ImageCacheFile demo_io "y.exr" x_cache)) <> "")
    by (vm_compute; discriminate).
  assert (E1 : m_fingerprints x_cache
               !! m_fingerprint (fst (new_ImageCacheFile demo_io "y.exr" x_cache))
               = Some 0%nat) by (vm_compute; reflexivity).
  assert (E2 : file_store x_cache !! 0%nat = Some x_record) by (vm_compute; reflexivity).
  assert (E3 : same_modes (fst (new_ImageCacheFile demo_io "y.exr" x_cache)) x_record
               = true) by (vm_compute; reflexivity).
  assert (E4 : assoc_find "x.exr" (m_files x_cache) = Some 0%nat)
    by (vm_compute; reflexivity).
  assert (E5 : m_duplicate x_record = None) by (vm_compute; reflexivity).
  pose proof (find_file_fingerprint_cases demo_io "y.exr" x_cache H1 H2 H3) as H.
  cbv zeta in H. destruct H as (_ & H & _).
  destruct (H 0%nat x_record E1 E2 E3) as (s' & Ha & _ & _ & _ & Hb & Hc).
  exists s'. split; [exact Ha |]. split; [exact Hb |].
  intros fuel. exact (Hc "x.exr" fuel E4 E5).
Defined.

(** ** C6: a broken record stays broken *)

(** C6.  An [open] that fails leaves its record broken.  For a name of the
    table whose record [f] is broken: [open] on [f] fails and changes
    nothing; the three queries fail with the error "Invalid image file",
    leave the record broken with the same count of opens and create no
    reader; [close] and [release] leave it broken; [invalidate] hands a
    record with [m_broken] cleared to [open]. *)
Theorem broken_record_stays_broken (io : External) (filename : ustring)
    (s : ImageCacheImpl) (p : nat) (f : ImageCacheFile) :
  assoc_find filename (m_files s) = Some p ->
  file_store s !! follow_duplicate p s = Some f ->
  m_broken f = true ->
  let q := follow_duplicate p s in
  let s' := error (err_invalid filename) (found_state q s) in
  (forall g t,
     fst (fst (ImageCacheFile_open io g t)) = false ->
     m_broken (snd (fst (ImageCacheFile_open io g t))) = true) /\
  ImageCacheFile_open io f s = (false, f, s) /\
  (forall fuel subimage,
     get_imagespec io fuel filename subimage s = Some (None, s')) /\
  (forall fuel subimage xb xe yb ye zb ze format,
     get_pixels io fuel filename subimage xb xe yb ye zb ze format s
     = Some (false, [], s')) /\
  (forall fuel dataname datatype data,
     get_image_info io fuel filename dataname datatype data s
     = Some (false, data, s')) /\
  (file_store s' !! q = Some (use f) /\ m_broken (use f) = true /\
   m_timesopened (use f) = m_timesopened f /\ m_input (use f) = m_input f) /\
  reader_creates s' = reader_creates s /\
  m_broken (snd (fst (ImageCacheFile_close f s))) = true /\
  m_broken (snd (fst (ImageCacheFile_release f s))) = true /\
  exists f0 s0,
    m_broken f0 = false /\ m_input f0 = None /\ m_filename f0 = m_filename f /\
    ImageCacheFile_invalidate io f s
    = (tt, snd (fst (ImageCacheFile_open io f0 s0)), snd (ImageCacheFile_open io f0 s0)).
Proof.
  intros Hname Hrec Hbroken q s'.
  split; [intros g t; apply ImageCacheFile_open_fails_broken |].
  split; [apply ImageCacheFile_open_broken, Hbroken |].
  split; [intros; apply (get_imagespec_broken io filename s p f Hname Hrec Hbroken) |].
  split; [intros; apply (get_pixels_broken io filename s p f Hname Hrec Hbroken) |].
  split; [intros; apply (get_image_info_broken io filename s p f Hname Hrec Hbroken) |].
  destruct (broken_result_record filename s p f Hrec) as [Hl Hc].
  split; [repeat split; [exact Hl | exact Hbroken] |].
  split; [exact Hc |].
  split; [rewrite ImageCacheFile_close_broken; exact Hbroken |].
  split; [rewrite ImageCacheFile_release_broken; exact Hbroken |].
  apply ImageCacheFile_invalidate_reopens.
Qed.

Lemma broken_record_stays_broken_witness :
  get_imagespec demo_io 0 "nope.tif" 0 missing_cache
  = Some (None,
          error (err_invalid "nope.tif")
            (found_state (follow_duplicate 0 missing_cache) missing_cache)).
Proof.
  apply (broken_record_stays_broken demo_io "nope.tif" missing_cache 0
           (use (broken_file "nope.tif"))).
  - vm_compute. reflexivity.
  - vm_compute. reflexivity.
  - reflexivity.
Defined.

(** ** C7: tiles whose read fails *)




(** ** What the lookup of a file returns *)










Section MissingFile.
Variable io : External.
Variables (filename : ustring) (err : string) (s : ImageCacheImpl).
Hypothesis Hdisk : unreadable io (resolve_filename io filename s) err.
Hypothesis Hnew : assoc_find filename (m_files s) = None.
Hypothesis Hroom : m_stat_open_files_current s < m_max_open_files s.

Lemma find_file_missing fuel :
  find_file io fuel filename (get_perthread_info s)
  = Some (Some (length (file_store s)), missing_found io filename err s).
Proof.
  destruct (tile_effect_files _ _ (get_perthread_info_effect s))
    as (Hf & Hs & Hp & _ & Hc & Hm & _).
  unfold missing_found. rewrite <- Hs.
  apply find_file_unreadable.
  - unfold resolve_filename. rewrite Hp. exact Hdisk.
  - rewrite Hf. exact Hnew.
  - rewrite Hc, Hm. exact Hroom.
Qed.

Lemma missing_found_record :
  assoc_find filename (m_files (missing_found io filename err s)) = Some (length (file_store s)) /\
  file_store (missing_found io filename err s) !! length (file_store s)
  = Some (use (broken_file (resolve_filename io filename s))) /\
  follow_duplicate (length (file_store s)) (missing_found io filename err s) = length (file_store s) /\
  reader_creates (missing_found io filename err s) = S (reader_creates s).
Proof.
  destruct (tile_effect_files _ _ (get_perthread_info_effect s))
    as (Hf & Hs & Hp & Hr & _).
  pose proof (unreadable_state_record io filename err (get_perthread_info s)) as H.
  cbv zeta in H. rewrite Hs, Hr in H.
  unfold resolve_filename in H. rewrite Hp in H.
  unfold missing_found, resolve_filename. exact H.
Qed.

Lemma get_imagespec_missing fuel subimage :
  get_imagespec io fuel filename subimage s
  = Some (None, error (err_invalid filename) (missing_found io filename err s)).
Proof.
  unfold get_imagespec. rewrite find_file_missing.
  destruct missing_found_record as (_ & Hl & _).
  unfold deref_file. rewrite Hl. reflexivity.
Qed.



End MissingFile.

(** ** C10: the byte ceiling *)

(** C10, as stated, fails.  For a size of 3000 the cast is out of the range
    of [int]: the call has no defined result, so no wrapped value is
    stored; the same holds for a size of -3000, whose product is below
    [2^31]; at the edges 2047 and -2048 the product is stored; and the
    wrapped value the claim describes would be positive for 4097. *)
Lemma max_memory_cast_does_not_wrap :
  attribute "max_memory_MB" TypeInt (IntCell 3000) ImageCacheImpl_init = None /\
  attribute "max_memory_MB" TypeFloat (FloatCell (int_to_float 3000)) ImageCacheImpl_init
  = None /\
  attribute "max_memory_MB" TypeInt (IntCell (-3000)) ImageCacheImpl_init = None /\
  option_map (fun r => m_max_memory_bytes (snd r))
    (attribute "max_memory_MB" TypeInt (IntCell 2047) ImageCacheImpl_init)
  = Some 2146435072 /\
  option_map (fun r => m_max_memory_bytes (snd r))
    (attribute "max_memory_MB" TypeInt (IntCell (-2048)) ImageCacheImpl_init)
  = Some (-2147483648) /\
  wrapped_bytes 3000 = -1149239296 /\
  wrapped_bytes 4097 = 1048576.
Proof. vm_compute. repeat split. Qed.

(** C10, amended.  For a binary32 size whose exact product with [2^20]
    truncates toward zero to [t], setting max_memory_MB stores the size and
    the byte ceiling [t] when [t] is in the range of [int], and has no
    defined result otherwise.  An [int] size [n] between -2048 and 2047
    stores [n * 2^20]. *)
Theorem max_memory_bytes_truncates_exact_product (size : float) (t : Z)
    (s : ImageCacheImpl) :
  valid_binary prec32 emax32 size = true ->
  float_trunc (times_2_20 size) = Some t ->
  attribute "max_memory_MB" TypeFloat (FloatCell size) s
  = (if (INT_MIN <=? t) && (t <=? INT_MAX)
     then Some (true, set_m_max_memory_bytes t (set_m_max_memory_MB size s))
     else None) /\
  (forall n, -2048 <= n <= 2047 ->
     attribute "max_memory_MB" TypeInt (IntCell n) s
     = Some (true, set_m_max_memory_bytes (n * 2 ^ 20)
                     (set_m_max_memory_MB (int_to_float n) s))).
Proof.
  intros Hv Ht. split.
  - change (attribute "max_memory_MB" TypeFloat (FloatCell size) s)
      with (set_max_memory size s).
    unfold set_max_memory. rewrite (megabytes_to_bytes_exact size Hv).
    unfold float_to_int. rewrite Ht.
    destruct ((INT_MIN <=? t) && (t <=? INT_MAX)); reflexivity.
  - intros n Hn.
    change (attribute "max_memory_MB" TypeInt (IntCell n) s)
      with (set_max_memory (int_to_float n) s).
    unfold set_max_memory. rewrite (megabytes_to_bytes_int n Hn). reflexivity.
Qed.

Lemma max_memory_bytes_truncates_exact_product_witness :
  attribute "max_memory_MB" TypeFloat (FloatCell one_and_a_half) ImageCacheImpl_init
  = Some (true, set_m_max_memory_bytes 1572864
                  (set_m_max_memory_MB one_and_a_half ImageCacheImpl_init)).
Proof.
  apply (max_memory_bytes_truncates_exact_product one_and_a_half 1572864
           ImageCacheImpl_init).
  - vm_compute. reflexivity.
  - vm_compute. reflexivity.
Defined.

(** * Further properties *)

(** ** The configuration *)

Ltac name_cases H :=
  repeat (destruct H as [H | H]; [subst |]); [.. | destruct H].

(** X1.  A value set with [attribute] is the value [getattribute] reads
    back: an int for max_open_files and statistics:level, the string for
    searchpath. *)
Theorem attribute_getattribute_round_trip (cam : CameraMatrices) (out : list cell)
    (s : ImageCacheImpl) :
  (forall name v,
     name = "max_open_files" \/ name = "statistics:level" ->
     exists s',
       attribute name TypeInt (IntCell v) s = Some (true, s') /\
       getattribute name TypeInt cam out s' = (true, write_cells [IntCell v] out)) /\
  (forall path,
     exists s',
       attribute "searchpath" TypeString (StrCell path) s = Some (true, s') /\
       getattribute "searchpath" TypeString cam out s'
       = (true, write_cells [StrCell path] out)).
Proof.
  split.
  - intros name v [-> | ->]; eexists; split; reflexivity.
  - intros path. eexists; split; reflexivity.
Qed.

(** X2.  The switches automip, forcefloat and accept_untiled are stored as
    truth values: whatever int was set, [getattribute] reads back 1 when it
    was not zero and 0 when it was. *)
Theorem switch_reads_back_zero_or_one (cam : CameraMatrices) (out : list cell)
    (s : ImageCacheImpl) (name : string) (v : Z) :
  In name switches ->
  exists s',
    attribute name TypeInt (IntCell v) s = Some (true, s') /\
    getattribute name TypeInt cam out s'
    = (true, write_cells [IntCell (if v =? 0 then 0 else 1)] out).
Proof.
  intros H. cbn in H. name_cases H.
  all: eexists; split; [reflexivity |].
  all: cbn; destruct (v =? 0); reflexivity.
Qed.

Lemma switch_reads_back_zero_or_one_witness :
  exists s',
    attribute "automip" TypeInt (IntCell 7) ImageCacheImpl_init = Some (true, s') /\
    getattribute "automip" TypeInt (mkCamera [] []) [IntCell 0] s'
    = (true, write_cells [IntCell (if 7 =? 0 then 0 else 1)] [IntCell 0]).
Proof.
  apply (switch_reads_back_zero_or_one (mkCamera [] []) [IntCell 0] ImageCacheImpl_init
           "automip" 7).
  cbn. auto.
Defined.



(** X4.  An [attribute] call that returns false has changed nothing; it
    does so for every name it does not set; and no [attribute] call, also a
    successful one, touches the tables, the stores, the counters or the
    error string: lowering a ceiling evicts nothing by itself. *)
Theorem attribute_is_soft (name : string) (type : TypeDesc) (val : cell)
    (s : ImageCacheImpl) (r : bool) (s' : ImageCacheImpl) :
  attribute name type val s = Some (r, s') ->
  (r = false -> s' = s) /\
  (~ In name settable -> r = false) /\
  contents s' = contents s.
Proof.
  unfold attribute, set_max_memory. intros H.
  repeat match type of H with
         | (if ?a && ?b then _ else _) = _ =>
             let Ha := fresh "Ha" in
             destruct a eqn:Ha;
               [apply String.eqb_eq in Ha | apply String.eqb_neq in Ha];
               cbn [andb] in H
         | (if ?b then _ else _) = _ => destruct b
         | match ?m with Some _ => _ | None => _ end = _ => destruct m
         end;
    try discriminate; injection H as <- <-;
    (split; [first [discriminate | reflexivity] |]);
    (split; [| reflexivity]);
    intros Hn; first [reflexivity | exfalso; apply Hn; subst; cbn; tauto].
Qed.

Lemma attribute_is_soft_witness :
  (false = false -> ImageCacheImpl_init = ImageCacheImpl_init) /\
  (~ In "max_open_files" settable -> false = false) /\
  contents ImageCacheImpl_init = contents ImageCacheImpl_init.
Proof.
  apply (attribute_is_soft "max_open_files" TypeFloat (FloatCell (S754_zero false))
           ImageCacheImpl_init false ImageCacheImpl_init).
  reflexivity.
Defined.

(** ** The error string *)

Lemma append_assoc (a b c : string) : (a +:+ b) +:+ c = a +:+ b +:+ c.
Proof.
  induction a as [| x a IH]; [reflexivity |].
  change (String x ((a +:+ b) +:+ c) = String x (a +:+ b +:+ c)).
  rewrite IH. reflexivity.
Qed.

Lemma append_not_empty (a b : string) : a <> "" -> a +:+ b <> "".
Proof. destruct a; [congruence | discriminate]. Qed.

Lemma error_message msg s :
  m_errormessage (error msg s)
  = (if String.eqb (m_errormessage s) "" then "" else m_errormessage s +:+ newline) +:+ msg.
Proof. reflexivity. Qed.

Lemma error_message_after a msg s :
  m_errormessage s = a -> a <> "" ->
  m_errormessage (error msg s) = a +:+ newline +:+ msg.
Proof.
  intros Ha Hne. rewrite error_message, Ha.
  apply String.eqb_neq in Hne. rewrite Hne.
  apply append_assoc.
Qed.

Lemma concat_cons2 (sep m r : string) (rest : list string) :
  String.concat sep ((m +:+ sep +:+ r) :: rest)
  = m +:+ sep +:+ String.concat sep (r :: rest).
Proof.
  destruct rest as [| x xs]; [reflexivity |].
  cbn [String.concat]. rewrite !append_assoc. reflexivity.
Qed.

Lemma report_message rest :
  forall m s,
    m_errormessage s = m -> m <> "" ->
    m_errormessage (report rest s) = String.concat newline (m :: rest).
Proof.
  induction rest as [| r rest IH]; intros m s Hm Hne; [exact Hm |].
  change (report (r :: rest) s) with (report rest (error r s)).
  rewrite (IH (m +:+ newline +:+ r) (error r s)).
  - apply concat_cons2.
  - apply error_message_after; assumption.
  - apply append_not_empty, Hne.
Qed.

Lemma report_state msgs :
  forall s, exists e, report msgs s = set_m_errormessage e s.
Proof.
  induction msgs as [| m msgs IH]; intros s.
  - exists (m_errormessage s). destruct s; reflexivity.
  - change (report (m :: msgs) s) with (report msgs (error m s)).
    destruct (IH (error m s)) as [e He]. exists e. rewrite He. reflexivity.
Qed.

(** X5.  [geterror] hands back the messages of the [error] calls since the
    last [geterror], in order and separated by newlines, and clears them: a
    second [geterror] returns the empty string, and the cache is again
    exactly as it was before the first message.  (A first message that is
    empty leaves no line, hence the hypothesis.) *)
Theorem geterror_joins_and_clears (m : string) (rest : list string)
    (s : ImageCacheImpl) :
  m_errormessage s = "" ->
  m <> "" ->
  fst (geterror (report (m :: rest) s)) = String.concat newline (m :: rest) /\
  snd (geterror (report (m :: rest) s)) = s /\
  fst (geterror (snd (geterror (report (m :: rest) s)))) = "".
Proof.
  intros He Hm.
  assert (H1 : m_errormessage (report (m :: rest) s) = String.concat newline (m :: rest)).
  { change (report (m :: rest) s) with (report rest (error m s)).
    apply (report_message rest m (error m s)); [| exact Hm].
    rewrite error_message, He. reflexivity. }
  assert (H2 : snd (geterror (report (m :: rest) s)) = s).
  { destruct (report_state (m :: rest) s) as [e Hs]. rewrite Hs.
    destruct s; cbn in *. subst. reflexivity. }
  split; [exact H1 |]. split; [exact H2 |].
  rewrite H2. exact He.
Qed.

Lemma geterror_joins_and_clears_witness :
  fst (geterror (report ["no reader"; "Invalid image file"] ImageCacheImpl_init))
  = String.concat newline ["no reader"; "Invalid image file"].
Proof.
  apply (geterror_joins_and_clears "no reader" ["Invalid image file"] ImageCacheImpl_init).
  - reflexivity.
  - discriminate.
Defined.

(** ** What a file lookup leaves alone, and looking up twice *)

Lemma open_effect_beside s s' : open_effect s s' -> beside_files s' = beside_files s.
Proof. intros (e & c & n & ->). reflexivity. Qed.

Lemma put_file_beside p f s : beside_files (put_file p f s) = beside_files s.
Proof. reflexivity. Qed.

Lemma file_use_beside q s : beside_files (file_use q s) = beside_files s.
Proof. unfold file_use. destruct (file_store s !! q); reflexivity. Qed.

Lemma release_on_file_beside p s :
  beside_files (snd (on_file p ImageCacheFile_release tt s)) = beside_files s.
Proof.
  unfold on_file. destruct (file_store s !! p) as [f |]; [| reflexivity].
  unfold ImageCacheFile_release. destruct (m_used f); [reflexivity |].
  pose proof (open_effect_beside _ _ (close_effect f s)) as H.
  destruct (ImageCacheFile_close f s) as [[u f'] s']. exact H.
Qed.

Lemma check_max_files_turn_beside s :
  match check_max_files_turn s with
  | Done s' => beside_files s' = beside_files s
  | Again s' => beside_files s' = beside_files s
  end.
Proof.
  unfold check_max_files_turn.
  destruct (m_max_open_files s <=? m_stat_open_files_current s); [| reflexivity].
  destruct (sweep_begin _ _) as [i |]; [| reflexivity].
  destruct (m_files s !! i) as [[name p] |]; [| reflexivity].
  pose proof (release_on_file_beside p s) as H.
  destruct (on_file p ImageCacheFile_release tt s) as [u s']. exact H.
Qed.

Lemma check_max_files_beside fuel :
  forall s s', check_max_files fuel s = Some s' -> beside_files s' = beside_files s.
Proof.
  induction fuel as [| fuel IH]; intros s s' H; cbn [check_max_files] in H;
    pose proof (check_max_files_turn_beside s) as Ht;
    destruct (check_max_files_turn s) as [s1 | s1]; try discriminate.
  - injection H as <-. exact Ht.
  - injection H as <-. exact Ht.
  - rewrite (IH _ _ H). exact Ht.
Qed.

Lemma fingerprint_dedup_beside tf s :
  beside_files (fingerprint_dedup tf s) = beside_files s.
Proof.
  unfold fingerprint_dedup.
  destruct (file_store s !! tf) as [f |]; [| reflexivity].
  destruct (negb _); [| reflexivity].
  destruct (m_fingerprints s !! m_fingerprint f) as [d |]; [| reflexivity].
  destruct (file_store s !! d) as [dup |]; [| reflexivity].
  match goal with |- context [if ?c then _ else _] => destruct c end; [| reflexivity].
  pose proof (open_effect_beside _ _ (close_effect (set_m_duplicate (Some d) f) s)) as H.
  destruct (ImageCacheFile_close _ s) as [[u f'] s']. exact H.
Qed.

Lemma find_file_enter_beside io filename s :
  beside_files (find_file_enter io filename s) = beside_files s.
Proof.
  unfold find_file_enter. rewrite fingerprint_dedup_beside.
  apply (open_effect_beside _ _ (new_ImageCacheFile_effect io filename s)).
Qed.

Lemma find_file_leave_beside filename tf s :
  beside_files (snd (find_file_leave filename tf s)) = beside_files s.
Proof.
  unfold find_file_leave.
  match goal with |- context [match ?c with Some _ => _ | None => _ end] =>
    destruct c end; cbn [snd]; rewrite file_use_beside; reflexivity.
Qed.

Lemma find_file_beside io fuel filename s r s' :
  find_file io fuel filename s = Some (r, s') -> beside_files s' = beside_files s.
Proof.
  intros H.
  destruct (assoc_find filename (m_files s)) as [p |] eqn:Hp.
  - rewrite (find_file_hit io fuel filename s p Hp) in H. injection H as <- <-.
    apply file_use_beside.
  - rewrite (find_file_miss io fuel filename s Hp) in H.
    destruct (check_max_files fuel _) as [s3 |] eqn:Hc; [| discriminate].
    injection H as H. rewrite <- (find_file_enter_beside io filename s).
    rewrite <- (check_max_files_beside fuel _ _ Hc).
    rewrite <- (find_file_leave_beside filename (length (file_store s)) s3).
    rewrite H. reflexivity.
Qed.

(** X6.  A file lookup, whatever it opens, closes or registers, leaves the
    tile table, the tiles, the resident bytes, the two slots and the purge
    flag of the microcache and every setting as they were. *)
Theorem find_file_leaves_tiles_alone (io : External) (fuel : nat) (filename : ustring)
    (s : ImageCacheImpl) (r : option nat) (s' : ImageCacheImpl) :
  find_file io fuel filename s = Some (r, s') ->
  settings s' = settings s /\ tile_side s' = tile_side s /\ microcache s' = microcache s.
Proof.
  intros H. pose proof (find_file_beside io fuel filename s r s' H) as Hb.
  split; [exact (f_equal (fun x => fst (fst x)) Hb) |].
  split; [exact (f_equal (fun x => snd (fst x)) Hb) | exact (f_equal snd Hb)].
Qed.

(** ** Looking a file up twice *)

Lemma follow_duplicate_alt p s :
  follow_duplicate p s =
  match duplicates s !! p with
  | Some o => default p o
  | None => p
  end.
Proof.
  unfold follow_duplicate, duplicates. rewrite list_lookup_fmap.
  destruct (file_store s !! p); reflexivity.
Qed.

Lemma follow_duplicate_same p s s' :
  same_files s s' -> follow_duplicate p s' = follow_duplicate p s.
Proof. intros (_ & _ & Hd). rewrite !follow_duplicate_alt, Hd. reflexivity. Qed.

Lemma file_use_idem p s : file_use p (file_use p s) = file_use p s.
Proof.
  unfold file_use at 2 3. destruct (file_store s !! p) as [f |] eqn:Hl.
  - unfold file_use, put_file.
    change (file_store (set_file_store ?l s)) with l.
    rewrite list_lookup_insert_eq by (eapply lookup_lt_Some; eauto).
    rewrite list_insert_insert_eq. reflexivity.
  - unfold file_use. rewrite Hl. reflexivity.
Qed.

(** After a lookup the name is in the table, and the table leads from it
    to the record that was returned, which is marked as used. *)
Lemma find_file_registered io fuel filename s p s' :
  find_file io fuel filename s = Some (Some p, s') ->
  exists q, assoc_find filename (m_files s') = Some q /\
            follow_duplicate q s' = p /\ file_use p s' = s'.
Proof.
  destruct (assoc_find filename (m_files s)) as [q |] eqn:Hq.
  - rewrite (find_file_hit io fuel filename s q Hq). intros H. injection H as <- <-.
    pose proof (file_use_same (follow_duplicate q s) s) as Hs.
    exists q. split; [rewrite (proj1 Hs); exact Hq |].
    split; [apply follow_duplicate_same, Hs | apply file_use_idem].
  - rewrite (find_file_miss io fuel filename s Hq).
    destruct (check_max_files fuel _) as [s3 |]; [| discriminate].
    unfold find_file_leave.
    set (tf := length (file_store s)).
    set (s4 := set_m_files (assoc_set filename tf (m_files s3)) s3).
    assert (Hn : assoc_find filename (m_files s4) = Some tf) by apply assoc_find_set.
    destruct (file_store s4 !! tf) as [f4 |] eqn:Hf4.
    + destruct (m_duplicate f4) as [d |] eqn:Hd4.
      * intros H. injection H as <- <-.
        pose proof (file_use_same d s4) as Hs.
        exists tf. split; [rewrite (proj1 Hs); exact Hn |].
        split; [| apply file_use_idem].
        rewrite (follow_duplicate_same _ _ _ Hs). unfold follow_duplicate.
        rewrite Hf4, Hd4. reflexivity.
      * intros H. injection H as <- <-.
        pose proof (same_files_trans _ _ _ (incr_unique_files_same s4)
                      (file_use_same tf (incr_unique_files s4))) as Hs.
        exists tf. split; [rewrite (proj1 Hs); exact Hn |].
        split; [| apply file_use_idem].
        rewrite (follow_duplicate_same _ _ _ Hs). unfold follow_duplicate.
        rewrite Hf4, Hd4. reflexivity.
    + intros H. injection H as <- <-.
      pose proof (same_files_trans _ _ _ (incr_unique_files_same s4)
                    (file_use_same tf (incr_unique_files s4))) as Hs.
      exists tf. split; [rewrite (proj1 Hs); exact Hn |].
      split; [| apply file_use_idem].
      rewrite (follow_duplicate_same _ _ _ Hs). unfold follow_duplicate.
      rewrite Hf4. reflexivity.
Qed.

(** A second lookup of the same name changes nothing and returns the same
    record, whatever its fuel. *)
Lemma find_file_settles io fuel filename s p s' :
  find_file io fuel filename s = Some (Some p, s') ->
  forall fuel', find_file io fuel' filename s' = Some (Some p, s').
Proof.
  intros H fuel'.
  destruct (find_file_registered io fuel filename s p s' H) as (q & Hq & Hf & Hu).
  rewrite (find_file_hit io fuel' filename s' q Hq), Hf, Hu. reflexivity.
Qed.

Lemma get_perthread_info_idle s :
  pt_purge (m_perthread_info s) = false -> get_perthread_info s = s.
Proof. intros H. unfold get_perthread_info. rewrite H. reflexivity. Qed.

Lemma get_perthread_info_purged s :
  pt_purge (m_perthread_info (get_perthread_info s)) = false.
Proof.
  unfold get_perthread_info. destruct (pt_purge (m_perthread_info s)) eqn:H.
  - reflexivity.
  - exact H.
Qed.

(** X7.  A [get_imagespec] that succeeds leaves the cache in a state in
    which the same query, asked again, returns the same specification and
    changes nothing at all: no reader is created, nothing is opened, no
    counter moves. *)
Theorem get_imagespec_twice (io : External) (fuel : nat) (filename : ustring)
    (subimage : Z) (s : ImageCacheImpl) (spec : ImageSpec) (s' : ImageCacheImpl) :
  get_imagespec io fuel filename subimage s = Some (Some spec, s') ->
  forall fuel', get_imagespec io fuel' filename subimage s' = Some (Some spec, s').
Proof.
  unfold get_imagespec at 1.
  destruct (find_file io fuel filename (get_perthread_info s)) as [[file s1] |] eqn:Hf;
    [| discriminate].
  destruct (find_file_not_null io fuel filename _ file s1 Hf) as [p ->].
  assert (Hm : microcache s1 = microcache (get_perthread_info s))
    by exact (f_equal snd (find_file_beside io fuel filename _ _ _ Hf)).
  assert (Hp : pt_purge (m_perthread_info s1) = false).
  { etrans; [exact (f_equal snd Hm) |]. apply get_perthread_info_purged. }
  cbn [deref_file].
  destruct (file_store s1 !! p) as [f |] eqn:Hl; [| discriminate].
  destruct (m_broken f) eqn:Hb; [discriminate |].
  destruct ((subimage <? 0) || (subimages f <=? subimage)) eqn:Hsub; [discriminate |].
  intros H fuel'. injection H as <- <-.
  unfold get_imagespec. rewrite (get_perthread_info_idle s1 Hp).
  rewrite (find_file_settles io fuel filename _ p s1 Hf fuel').
  cbn [deref_file]. rewrite Hl, Hb, Hsub. reflexivity.
Qed.

Lemma find_file_leaves_tiles_alone_witness :
  settings a_known = settings ImageCacheImpl_init /\
  tile_side a_known = tile_side ImageCacheImpl_init /\
  microcache a_known = microcache ImageCacheImpl_init.
Proof.
  apply (find_file_leaves_tiles_alone demo_io 0 "a.tif" ImageCacheImpl_init (Some 0%nat)).
  vm_compute. reflexivity.
Defined.

Lemma get_imagespec_twice_witness :
  get_imagespec demo_io 5 "a.tif" 0 a_known
  = Some (Some (demo_spec 256 256 64 64 3 UINT8 []), a_known).
Proof.
  apply (get_imagespec_twice demo_io 0 "a.tif" 0 ImageCacheImpl_init).
  vm_compute. reflexivity.
Defined.

(** ** Duplicates lead to a canonical record in one hop *)

Lemma one_hop_same s s' : same_files s s' -> one_hop s -> one_hop s'.
Proof.
  intros (Hf & Hp & Hd). unfold one_hop, canonical. rewrite Hf, Hp, Hd. exact id.
Qed.

Lemma one_hop_init : one_hop ImageCacheImpl_init.
Proof.
  split; [constructor |]. split; [apply map_Forall_empty |].
  intros p d H. discriminate.
Qed.

Lemma duplicates_lookup s p o :
  duplicates s !! p = Some o ->
  exists f, file_store s !! p = Some f /\ m_duplicate f = o.
Proof.
  unfold duplicates. rewrite list_lookup_fmap.
  destruct (file_store s !! p) as [f |]; [| discriminate].
  intros [= <-]. eauto.
Qed.

Lemma duplicates_put p f s :
  duplicates (put_file p f s) = <[p := m_duplicate f]> (duplicates s).
Proof. unfold duplicates, put_file. apply list_fmap_insert. Qed.

Lemma one_hop_append f s :
  one_hop s -> m_duplicate f = None ->
  one_hop (set_file_store (file_store s ++ [f]) s).
Proof.
  intros (H1 & H2 & H3) Hd. unfold one_hop, canonical, duplicates in *.
  change (file_store (set_file_store ?l s)) with l.
  change (m_files (set_file_store ?l s)) with (m_files s).
  change (m_fingerprints (set_file_store ?l s)) with (m_fingerprints s).
  rewrite fmap_app. cbn [fmap list_fmap]. rewrite Hd.
  split; [| split].
  - eapply Forall_impl; [exact H1 |]. cbn beta. intros e [o Ho].
    exists o. apply lookup_app_l_Some, Ho.
  - eapply map_Forall_impl; [exact H2 |]. cbn beta. intros k d Hk.
    apply lookup_app_l_Some, Hk.
  - intros p d Hp. apply lookup_app_l_Some.
    apply lookup_app_Some in Hp as [Hp | [_ Hp]]; [apply (H3 p d Hp) |].
    apply list_lookup_singleton_Some in Hp as [_ Hp]. discriminate.
Qed.

(** Clearing a duplicate pointer keeps the invariant. *)
Lemma one_hop_clear p f f' s :
  one_hop s -> file_store s !! p = Some f -> m_duplicate f' = None ->
  one_hop (put_file p f' s).
Proof.
  intros (H1 & H2 & H3) Hl Hd.
  assert (Hlen : (p < length (duplicates s))%nat).
  { unfold duplicates. rewrite length_fmap. eapply lookup_lt_Some, Hl. }
  assert (Hc : forall d, canonical s d -> canonical (put_file p f' s) d).
  { intros d Hcd. unfold canonical in *. rewrite duplicates_put, Hd.
    destruct (decide (p = d)) as [<- | Hne].
    - apply list_lookup_insert_eq, Hlen.
    - rewrite list_lookup_insert_ne by exact Hne. exact Hcd. }
  split; [| split].
  - change (m_files (put_file p f' s)) with (m_files s).
    eapply Forall_impl; [exact H1 |]. cbn beta. intros e He.
    apply lookup_lt_is_Some. rewrite duplicates_put, length_insert.
    apply lookup_lt_is_Some, He.
  - change (m_fingerprints (put_file p f' s)) with (m_fingerprints s).
    eapply map_Forall_impl; [exact H2 |]. cbn beta. intros k d. apply Hc.
  - intros q d Hq. rewrite duplicates_put, Hd in Hq.
    destruct (decide (p = q)) as [<- | Hne].
    + rewrite list_lookup_insert_eq in Hq by exact Hlen. discriminate.
    + rewrite list_lookup_insert_ne in Hq by exact Hne. apply Hc, (H3 q d Hq).
Qed.

(** Marking the record [tf], to which nothing points yet, as a duplicate
    of a canonical record keeps the invariant. *)
Lemma one_hop_mark tf d f f' s :
  one_hop s -> file_store s !! tf = Some f -> canonical s d -> d <> tf ->
  (forall k, m_fingerprints s !! k <> Some tf) ->
  (forall p, duplicates s !! p <> Some (Some tf)) ->
  m_duplicate f' = Some d ->
  one_hop (put_file tf f' s).
Proof.
  intros (H1 & H2 & H3) Hl Hcd Hne Hfm Hfd Hd.
  assert (Hlen : (tf < length (duplicates s))%nat).
  { unfold duplicates. rewrite length_fmap. eapply lookup_lt_Some, Hl. }
  assert (Hc : forall x, x <> tf -> canonical s x -> canonical (put_file tf f' s) x).
  { intros x Hx Hcx. unfold canonical in *. rewrite duplicates_put.
    rewrite list_lookup_insert_ne by congruence. exact Hcx. }
  split; [| split].
  - change (m_files (put_file tf f' s)) with (m_files s).
    eapply Forall_impl; [exact H1 |]. cbn beta. intros e He.
    apply lookup_lt_is_Some. rewrite duplicates_put, length_insert.
    apply lookup_lt_is_Some, He.
  - change (m_fingerprints (put_file tf f' s)) with (m_fingerprints s).
    intros k x Hk. apply Hc; [| apply (H2 k x Hk)].
    intros ->. apply (Hfm k Hk).
  - intros q x Hq. rewrite duplicates_put, Hd in Hq.
    destruct (decide (tf = q)) as [<- | Hq'].
    + rewrite list_lookup_insert_eq in Hq by exact Hlen. injection Hq as <-.
      apply Hc; assumption.
    + rewrite list_lookup_insert_ne in Hq by exact Hq'.
      apply Hc; [| apply (H3 q x Hq)]. intros ->. apply (Hfd q Hq).
Qed.

Lemma fingerprint_dedup_one_hop tf s :
  one_hop s -> canonical s tf ->
  (forall k, m_fingerprints s !! k <> Some tf) ->
  (forall p, duplicates s !! p <> Some (Some tf)) ->
  one_hop (fingerprint_dedup tf s).
Proof.
  intros Hok Hctf Hfm Hfd. unfold fingerprint_dedup.
  destruct (file_store s !! tf) as [f |] eqn:Hl; [| exact Hok].
  destruct (negb _); [| exact Hok].
  destruct (m_fingerprints s !! m_fingerprint f) as [d |] eqn:Hfp.
  - destruct (file_store s !! d) as [dup |] eqn:Hdup; [| exact Hok].
    match goal with |- context [if ?c then _ else _] => destruct c end; [| exact Hok].
    pose proof (close_dup (set_m_duplicate (Some d) f) s) as Hd.
    pose proof (close_same (set_m_duplicate (Some d) f) s) as Hs.
    pose proof (close_store (set_m_duplicate (Some d) f) s) as Hst.
    destruct (ImageCacheFile_close _ s) as [[u f'] s']. cbn [fst snd] in *.
    destruct Hs as (Hs1 & Hs2 & Hs3).
    apply (one_hop_mark tf d f).
    + apply (one_hop_same s); [repeat split; assumption | exact Hok].
    + rewrite Hst. exact Hl.
    + unfold canonical. rewrite Hs3. apply (proj1 (proj2 Hok) _ _ Hfp).
    + intros ->. apply (Hfm _ Hfp).
    + intros k. rewrite Hs2. apply Hfm.
    + intros p. rewrite Hs3. apply Hfd.
    + exact Hd.
  - destruct Hok as (H1 & H2 & H3). split; [exact H1 |]. split; [| exact H3].
    change (m_fingerprints (set_m_fingerprints ?m s)) with m.
    apply map_Forall_insert_2; [exact Hctf | exact H2].
Qed.

Lemma canonical_record s p :
  canonical s p -> exists f, file_store s !! p = Some f /\ m_duplicate f = None.
Proof. apply duplicates_lookup. Qed.

Lemma follow_duplicate_canonical s q :
  one_hop s -> is_Some (duplicates s !! q) -> canonical s (follow_duplicate q s).
Proof.
  intros (_ & _ & H3) [o Ho]. rewrite follow_duplicate_alt, Ho.
  destruct o as [d |]; cbn; [apply (H3 q d Ho) | exact Ho].
Qed.

Lemma fingerprint_dedup_length tf s :
  length (duplicates (fingerprint_dedup tf s)) = length (duplicates s).
Proof.
  unfold fingerprint_dedup.
  destruct (file_store s !! tf) as [f |] eqn:Hl; [| reflexivity].
  destruct (negb _); [| reflexivity].
  destruct (m_fingerprints s !! m_fingerprint f) as [d |] eqn:Hfp; [| reflexivity].
  destruct (file_store s !! d) as [dup |] eqn:Hdup; [| reflexivity].
  match goal with |- context [if ?c then _ else _] => destruct c end; [| reflexivity].
  pose proof (close_same (set_m_duplicate (Some d) f) s) as Hs.
  destruct (ImageCacheFile_close _ s) as [[u f'] s']. cbn [fst snd] in *.
  rewrite duplicates_put, length_insert, (proj2 (proj2 Hs)). reflexivity.
Qed.

(** The state in which [find_file] reaches [check_max_files] satisfies the
    invariant, and the new record is in the store. *)
Lemma find_file_enter_one_hop io filename s :
  one_hop s ->
  one_hop (find_file_enter io filename s) /\
  is_Some (duplicates (find_file_enter io filename s) !! length (file_store s)).
Proof.
  intros Hok. set (tf := length (file_store s)).
  unfold find_file_enter.
  pose proof (new_ImageCacheFile_effect io filename s) as Hn.
  pose proof (new_file_dup io filename s) as Hd.
  destruct (new_ImageCacheFile io filename s) as [f s1]. cbn [fst snd] in *.
  pose proof (open_effect_same _ _ Hn) as Hs1.
  pose proof (same_files_length _ _ Hs1) as Hlen.
  pose proof (one_hop_same _ _ Hs1 Hok) as Hok1.
  pose proof (one_hop_append f s1 Hok1 Hd) as Hok2.
  set (s2 := set_file_store (file_store s1 ++ [f]) s1) in *.
  assert (Hd2 : duplicates s2 = duplicates s1 ++ [None]).
  { unfold duplicates, s2. change (file_store (set_file_store ?l s1)) with l.
    rewrite fmap_app. cbn. rewrite Hd. reflexivity. }
  assert (Hl1 : length (duplicates s1) = tf).
  { unfold duplicates. rewrite length_fmap. exact Hlen. }
  assert (Hc2 : canonical s2 tf).
  { unfold canonical. rewrite Hd2. apply list_lookup_middle. auto. }
  assert (Hfm : forall k, m_fingerprints s2 !! k <> Some tf).
  { intros k Hk. pose proof (proj1 (proj2 Hok1) k tf Hk) as Hc.
    apply lookup_lt_Some in Hc. lia. }
  assert (Hfd : forall p, duplicates s2 !! p <> Some (Some tf)).
  { intros p Hp. rewrite Hd2 in Hp.
    apply lookup_app_Some in Hp as [Hp | [_ Hp]].
    - pose proof (proj2 (proj2 Hok1) p tf Hp) as Hc.
      apply lookup_lt_Some in Hc. lia.
    - apply list_lookup_singleton_Some in Hp as [_ Hp]. discriminate. }
  split; [apply fingerprint_dedup_one_hop; assumption |].
  apply lookup_lt_is_Some. rewrite fingerprint_dedup_length.
  eapply lookup_lt_Some. exact Hc2.
Qed.

Lemma find_file_one_hop io fuel filename s r s' :
  one_hop s -> find_file io fuel filename s = Some (r, s') ->
  one_hop s' /\ exists p, r = Some p /\ canonical s' p.
Proof.
  intros Hok.
  destruct (assoc_find filename (m_files s)) as [q |] eqn:Hq.
  - rewrite (find_file_hit io fuel filename s q Hq). intros H. injection H as <- <-.
    pose proof (file_use_same (follow_duplicate q s) s) as Hs.
    split; [apply (one_hop_same s); assumption |].
    exists (follow_duplicate q s). split; [reflexivity |].
    unfold canonical. rewrite (proj2 (proj2 Hs)).
    apply (follow_duplicate_canonical s q Hok).
    destruct (assoc_find_Forall _ _ _ _ (proj1 Hok) Hq) as (k' & Hk). exact Hk.
  - rewrite (find_file_miss io fuel filename s Hq).
    set (tf := length (file_store s)).
    destruct (find_file_enter_one_hop io filename s Hok) as [Hoke Htfe].
    fold tf in Htfe.
    destruct (check_max_files fuel (find_file_enter io filename s)) as [s3 |] eqn:Hc;
      [| discriminate].
    pose proof (check_max_files_same fuel _ _ Hc) as Hs3.
    pose proof (one_hop_same _ _ Hs3 Hoke) as Hok3.
    rewrite <- (proj2 (proj2 Hs3)) in Htfe.
    unfold find_file_leave.
    set (s4 := set_m_files (assoc_set filename tf (m_files s3)) s3).
    assert (Hok4 : one_hop s4).
    { destruct Hok3 as (H1 & H2 & H3). split; [| split; assumption].
      apply assoc_set_Forall; [exact H1 | exact Htfe]. }
    assert (Htf4 : is_Some (duplicates s4 !! tf)) by exact Htfe.
    destruct Htf4 as [o Ho].
    destruct (duplicates_lookup s4 tf o Ho) as (f4 & Hf4 & Hd4).
    rewrite Hf4, Hd4.
    destruct o as [d |]; intros H; injection H as <- <-.
    + pose proof (file_use_same d s4) as Hs.
      split; [apply (one_hop_same s4); assumption |].
      exists d. split; [reflexivity |].
      unfold canonical. rewrite (proj2 (proj2 Hs)).
      apply (proj2 (proj2 Hok4) tf d Ho).
    + pose proof (same_files_trans _ _ _ (incr_unique_files_same s4)
                    (file_use_same tf (incr_unique_files s4))) as Hs.
      split; [apply (one_hop_same s4); assumption |].
      exists tf. split; [reflexivity |].
      unfold canonical. rewrite (proj2 (proj2 Hs)). exact Ho.
Qed.

Lemma erase_tiles_of_effect file l :
  forall s, tile_effect s (snd (erase_tiles_of file l s)).
Proof.
  induction l as [| [id p] rest IH]; intros s; cbn [erase_tiles_of].
  - apply tile_effect_refl.
  - destruct (bool_decide (id_file id = file)).
    + eapply tile_effect_trans; [apply tile_decref_effect | apply IH].
    + specialize (IH s). destruct (erase_tiles_of file rest s) as [rest' s1]. exact IH.
Qed.

(** The erase loop keeps, in their order, the entries of the other files. *)
Lemma erase_tiles_of_filter file l :
  forall s, fst (erase_tiles_of file l s)
            = filter (fun e : TileID * nat => id_file (fst e) <> file) l.
Proof.
  induction l as [| [id p] rest IH]; intros s; cbn [erase_tiles_of]; [reflexivity |].
  destruct (bool_decide_reflect (id_file id = file)) as [He | He].
  - rewrite filter_cons_False by (cbn; auto). apply IH.
  - rewrite filter_cons_True by exact He.
    specialize (IH s). destruct (erase_tiles_of file rest s) as [rest' s1].
    cbn [fst] in *. rewrite IH. reflexivity.
Qed.

Lemma tile_effect_tilecache s s' : tile_effect s s' -> m_tilecache s' = m_tilecache s.
Proof. intros (a & b & c & d & ->). reflexivity. Qed.

Lemma open_effect_tilecache s s' : open_effect s s' -> m_tilecache s' = m_tilecache s.
Proof. intros (a & b & c & ->). reflexivity. Qed.

Lemma open_effect_purge s s' :
  open_effect s s' -> m_perthread_info s' = m_perthread_info s.
Proof. intros (a & b & c & ->). reflexivity. Qed.

Section Invalidate.
Variable io : External.

(** What [ImageCacheFile::invalidate] leaves: a record that is no
    duplicate, in a cache whose tables are as before. *)
Lemma ImageCacheFile_invalidate_files f s :
  m_duplicate (snd (fst (ImageCacheFile_invalidate io f s))) = None /\
  same_files s (snd (ImageCacheFile_invalidate io f s)) /\
  file_store (snd (ImageCacheFile_invalidate io f s)) = file_store s /\
  m_tilecache (snd (ImageCacheFile_invalidate io f s)) = m_tilecache s.
Proof.
  unfold ImageCacheFile_invalidate.
  pose proof (close_effect f s) as Hc.
  destruct (ImageCacheFile_close f s) as [[u f1] s1]. cbn [fst snd] in *.
  pose proof (get_perthread_info_effect s1) as Hp.
  set (f2 := set_m_duplicate None _).
  pose proof (ImageCacheFile_open_effect io f2 (get_perthread_info s1)) as Ho.
  pose proof (ImageCacheFile_open_dup io f2 (get_perthread_info s1)) as Hd.
  destruct (ImageCacheFile_open io f2 _) as [[ok f3] s3]. cbn [fst snd] in *.
  split; [exact Hd |]. split; [| split].
  - eapply same_files_trans; [apply open_effect_same, Hc |].
    eapply same_files_trans; [apply tile_effect_same, Hp | apply open_effect_same, Ho].
  - rewrite (proj1 (proj2 (open_effect_files _ _ Ho))).
    rewrite (proj1 (proj2 (tile_effect_files _ _ Hp))).
    apply (open_effect_files _ _ Hc).
  - rewrite (open_effect_tilecache _ _ Ho), (tile_effect_tilecache _ _ Hp).
    apply (open_effect_tilecache _ _ Hc).
Qed.

End Invalidate.

(** X8. [find_file] never hands out a duplicate: in a cache whose duplicate
    pointers and fingerprint entries lead to records that are not
    duplicates themselves, the lookup returns the address of a record
    without a duplicate pointer, and leaves a cache of the same kind. *)
Theorem find_file_returns_canonical_record (io : External) (fuel : nat)
    (filename : ustring) (s : ImageCacheImpl) (r : option nat) (s' : ImageCacheImpl) :
  one_hop s ->
  find_file io fuel filename s = Some (r, s') ->
  one_hop s' /\
  exists p f, r = Some p /\ file_store s' !! p = Some f /\ m_duplicate f = None.
Proof.
  intros Hok H.
  destruct (find_file_one_hop io fuel filename s r s' Hok H) as (Hok' & p & -> & Hc).
  split; [exact Hok' |].
  destruct (canonical_record s' p Hc) as (f & Hf & Hd). eauto.
Qed.

(** X9. Invalidating a name that is in the file table removes from the
    tile table exactly the entries of its record and keeps the others in
    their order; the file table and the other records stay; the record is
    afterwards no duplicate; the microcache is marked for purging; and the
    one-hop property of the duplicate pointers is kept. *)
Theorem invalidate_drops_the_tiles_of_the_file (io : External) (filename : ustring)
    (s : ImageCacheImpl) (file : nat) :
  assoc_find filename (m_files s) = Some file ->
  m_files (invalidate io filename s) = m_files s /\
  m_tilecache (invalidate io filename s)
    = filter (fun e : TileID * nat => id_file (fst e) <> file) (m_tilecache s) /\
  pt_purge (m_perthread_info (invalidate io filename s)) = true /\
  (forall f, file_store s !! file = Some f ->
     exists f', file_store (invalidate io filename s) !! file = Some f' /\
                m_duplicate f' = None) /\
  (forall p, p <> file ->
     file_store (invalidate io filename s) !! p = file_store s !! p) /\
  (one_hop s -> one_hop (invalidate io filename s)).
Proof.
  intros Hq. unfold invalidate. rewrite Hq.
  pose proof (erase_tiles_of_effect file (m_tilecache s) s) as He.
  pose proof (erase_tiles_of_filter file (m_tilecache s) s) as Hf.
  destruct (erase_tiles_of file (m_tilecache s) s) as [tiles s1]. cbn [fst snd] in *.
  subst tiles.
  set (kept := filter _ (m_tilecache s)).
  set (s2 := set_m_tile_sweep _ (set_m_tilecache kept s1)).
  assert (Hs2 : same_files s s2) by (apply (tile_effect_same _ _ He)).
  assert (Hst2 : file_store s2 = file_store s)
    by (apply (proj1 (proj2 (tile_effect_files _ _ He)))).
  assert (Hm2 : m_files s2 = m_files s) by (apply (proj1 Hs2)).
  unfold on_file. rewrite Hst2.
  destruct (file_store s !! file) as [f |] eqn:Hl.
  - destruct (ImageCacheFile_invalidate_files io f s2) as (Hd & Hs3 & Hst3 & Ht3).
    destruct (ImageCacheFile_invalidate io f s2) as [[u f3] s3]. cbn [fst snd] in *.
    change (m_files (set_m_perthread_info ?p (put_file ?q ?g s3))) with (m_files s3).
    change (m_tilecache (set_m_perthread_info ?p (put_file ?q ?g s3)))
      with (m_tilecache s3).
    change (file_store (set_m_perthread_info ?p (put_file ?q ?g s3)))
      with (<[q := g]> (file_store s3)).
    rewrite (proj1 Hs3), Hm2, Ht3, Hst3, Hst2.
    split; [reflexivity |]. split; [reflexivity |]. split; [reflexivity |].
    split; [| split].
    + intros f0 _. exists f3. split; [| exact Hd].
      apply list_lookup_insert_eq. eapply lookup_lt_Some, Hl.
    + intros p Hp. apply list_lookup_insert_ne. congruence.
    + intros Hok.
      assert (Hok3 : one_hop (put_file file f3 s3)).
      { apply (one_hop_clear file f f3); [| rewrite Hst3, Hst2; exact Hl | exact Hd].
        apply (one_hop_same s2); [exact Hs3 |]. apply (one_hop_same s); assumption. }
      exact Hok3.
  - change (m_files (set_m_perthread_info ?p s2)) with (m_files s2).
    change (m_tilecache (set_m_perthread_info ?p s2)) with kept.
    change (file_store (set_m_perthread_info ?p s2)) with (file_store s2).
    rewrite Hm2, Hst2.
    split; [reflexivity |]. split; [reflexivity |]. split; [reflexivity |].
    split; [intros f0 Hf0; discriminate |]. split; [reflexivity |].
    intros Hok. exact (one_hop_same s s2 Hs2 Hok).
Qed.

Lemma find_file_returns_canonical_record_witness :
  one_hop exr_twice /\
  exists p f, Some 0%nat = Some p /\ file_store exr_twice !! p = Some f /\
              m_duplicate f = None.
Proof.
  apply (find_file_returns_canonical_record demo_io 0 "y.exr" exr_known).
  - apply (find_file_one_hop demo_io 0 "x.exr" ImageCacheImpl_init (Some 0%nat)).
    + exact one_hop_init.
    + vm_compute. reflexivity.
  - vm_compute. reflexivity.
Defined.

Lemma invalidate_drops_the_tiles_of_the_file_witness :
  length (m_tilecache a_tiled) = 1%nat /\
  m_tilecache (invalidate demo_io "a.tif" a_tiled) = [].
Proof.
  split; [vm_compute; reflexivity |].
  destruct (invalidate_drops_the_tiles_of_the_file demo_io "a.tif" a_tiled 0%nat)
    as (_ & H & _); [vm_compute; reflexivity |].
  rewrite H. vm_compute. reflexivity.
Defined.

(** ** The counter of open files *)

Lemma open_readers_cons f l : open_readers (f :: l) = holds_reader f + open_readers l.
Proof. reflexivity. Qed.

Lemma open_readers_app l l' : open_readers (l ++ l') = open_readers l + open_readers l'.
Proof.
  induction l as [| f l IH]; [reflexivity |].
  change ((f :: l) ++ l') with (f :: (l ++ l')).
  rewrite !open_readers_cons, IH. lia.
Qed.

Lemma open_readers_insert l : forall p f f',
  l !! p = Some f ->
  open_readers (<[p := f']> l) = open_readers l - holds_reader f + holds_reader f'.
Proof.
  induction l as [| x l IH]; intros p f f' H; [discriminate |].
  destruct p as [| p]; cbn in H.
  - injection H as ->. change (<[0%nat := f']> (f :: l)) with (f' :: l).
    rewrite !open_readers_cons. lia.
  - change (<[S p := f']> (x :: l)) with (x :: <[p := f']> l).
    rewrite !open_readers_cons, (IH p f f' H). lia.
Qed.

Lemma holds_reader_input f f' : m_input f' = m_input f -> holds_reader f' = holds_reader f.
Proof. unfold holds_reader, opened. intros ->. reflexivity. Qed.

(** A method that answers for the reader it opens or closes keeps the
    surplus when it is run on a record of the store. *)
Lemma on_file_surplus {A} p
    (m : ImageCacheFile -> ImageCacheImpl -> A * ImageCacheFile * ImageCacheImpl)
    (dflt : A) s :
  (forall f, file_store (snd (m f s)) = file_store s /\
             m_stat_open_files_current (snd (m f s)) - holds_reader (snd (fst (m f s)))
             = m_stat_open_files_current s - holds_reader f) ->
  surplus (snd (on_file p m dflt s)) = surplus s.
Proof.
  intros Hm. unfold on_file. destruct (file_store s !! p) as [f |] eqn:Hl; [| reflexivity].
  specialize (Hm f). destruct (m f s) as [[a f'] s']. cbn [fst snd] in *.
  destruct Hm as [Hst Hc]. unfold surplus, put_file.
  change (file_store (set_file_store ?l s')) with l.
  change (m_stat_open_files_current (set_file_store ?l s'))
    with (m_stat_open_files_current s').
  rewrite Hst, (open_readers_insert _ p f f' Hl). lia.
Qed.

Lemma close_ledger f s :
  file_store (snd (ImageCacheFile_close f s)) = file_store s /\
  m_stat_open_files_current (snd (ImageCacheFile_close f s))
    = m_stat_open_files_current s - holds_reader f /\
  holds_reader (snd (fst (ImageCacheFile_close f s))) = 0.
Proof.
  unfold ImageCacheFile_close, holds_reader. destruct (opened f) eqn:Ho; cbn [fst snd].
  - split; [reflexivity |]. split; [reflexivity |]. reflexivity.
  - rewrite Ho. split; [reflexivity |]. split; [lia | reflexivity].
Qed.

Lemma release_ledger f s :
  file_store (snd (ImageCacheFile_release f s)) = file_store s /\
  m_stat_open_files_current (snd (ImageCacheFile_release f s))
    - holds_reader (snd (fst (ImageCacheFile_release f s)))
  = m_stat_open_files_current s - holds_reader f.
Proof.
  unfold ImageCacheFile_release. destruct (m_used f).
  - split; reflexivity.
  - destruct (close_ledger f s) as (H1 & H2 & H3). split; [exact H1 | lia].
Qed.

Lemma file_use_surplus q s : surplus (file_use q s) = surplus s.
Proof.
  unfold file_use. destruct (file_store s !! q) as [f |] eqn:Hl; [| reflexivity].
  unfold surplus, put_file.
  change (file_store (set_file_store ?l s)) with l.
  rewrite (open_readers_insert _ q f (use f) Hl). 
  change (m_stat_open_files_current (set_file_store ?l s))
    with (m_stat_open_files_current s).
  rewrite (holds_reader_input f (use f)) by reflexivity. lia.
Qed.

Lemma check_max_files_turn_surplus s :
  match check_max_files_turn s with
  | Done s' => surplus s' = surplus s
  | Again s' => surplus s' = surplus s
  end.
Proof.
  unfold check_max_files_turn.
  destruct (m_max_open_files s <=? m_stat_open_files_current s); [| reflexivity].
  destruct (sweep_begin _ _) as [i |]; [| reflexivity].
  destruct (m_files s !! i) as [[name p] |]; [| reflexivity].
  pose proof (on_file_surplus p ImageCacheFile_release tt s
                (fun f => release_ledger f s)) as H.
  destruct (on_file p ImageCacheFile_release tt s) as [u s']. exact H.
Qed.

Lemma check_max_files_surplus fuel :
  forall s s', check_max_files fuel s = Some s' -> surplus s' = surplus s.
Proof.
  induction fuel as [| fuel IH]; intros s s' H; cbn [check_max_files] in H;
    pose proof (check_max_files_turn_surplus s) as Ht;
    destruct (check_max_files_turn s) as [s1 | s1]; try discriminate.
  - injection H as <-. exact Ht.
  - injection H as <-. exact Ht.
  - rewrite (IH _ _ H). exact Ht.
Qed.

Lemma fingerprint_dedup_surplus tf s : surplus (fingerprint_dedup tf s) = surplus s.
Proof.
  unfold fingerprint_dedup.
  destruct (file_store s !! tf) as [f |] eqn:Hl; [| reflexivity].
  destruct (negb _); [| reflexivity].
  destruct (m_fingerprints s !! m_fingerprint f) as [d |] eqn:Hfp; [| reflexivity].
  destruct (file_store s !! d) as [dup |] eqn:Hdup; [| reflexivity].
  match goal with |- context [if ?c then _ else _] => destruct c end; [| reflexivity].
  destruct (close_ledger (set_m_duplicate (Some d) f) s) as (H1 & H2 & H3).
  destruct (ImageCacheFile_close _ s) as [[u f'] s']. cbn [fst snd] in *.
  unfold surplus, put_file.
  change (file_store (set_file_store ?l s')) with l.
  change (m_stat_open_files_current (set_file_store ?l s'))
    with (m_stat_open_files_current s').
  rewrite H1, (open_readers_insert _ tf f f' Hl), H2, H3.
  rewrite (holds_reader_input f (set_m_duplicate (Some d) f)) by reflexivity. lia.
Qed.

Lemma find_file_leave_surplus filename tf s :
  surplus (snd (find_file_leave filename tf s)) = surplus s.
Proof.
  unfold find_file_leave.
  set (s4 := set_m_files _ s).
  assert (H4 : surplus s4 = surplus s) by reflexivity.
  destruct (match file_store s4 !! tf with Some f => m_duplicate f | None => None end);
    cbn [snd]; rewrite file_use_surplus; exact H4.
Qed.

Section Ledger.
Variable io : External.

(** What [open] does after the reader has opened the file for the first
    time, with the counter already raised: the record keeps the reader, or
    the counter is lowered again, except when an untiled file is
    rejected. *)
Lemma open_first_time_ledger f s first rest :
  opened f = true ->
  file_store (snd (open_first_time io f s first rest)) = file_store s /\
  m_stat_open_files_current s - 1
    <= m_stat_open_files_current (snd (open_first_time io f s first rest))
       - holds_reader (snd (fst (open_first_time io f s first rest))) /\
  (m_accept_untiled s = true ->
   m_stat_open_files_current (snd (open_first_time io f s first rest))
     - holds_reader (snd (fst (open_first_time io f s first rest)))
   = m_stat_open_files_current s - 1).
Proof.
  intros Ho. unfold open_first_time.
  destruct (read_subimages _ _ _ _ _) as [[[ok n] specs] untiled].
  destruct ok; cbn [negb].
  - match goal with |- context [open_finish io ?x _] => set (f2 := x) end.
    assert (H2 : holds_reader f2 = 1).
    { subst f2.
      repeat match goal with |- context [if ?c then _ else _] => destruct c end;
        reflexivity. }
    clearbody f2.
    destruct (m_untiled f2 && negb (m_accept_untiled s)) eqn:Hrej; cbn [fst snd].
    + split; [reflexivity |]. 
      change (holds_reader (set_m_input None (set_m_broken true f2))) with 0.
      change (m_stat_open_files_current (error ?m s)) with (m_stat_open_files_current s).
      split; [lia |]. intros Ha. rewrite Ha, andb_false_r in Hrej. discriminate.
    + destruct (open_finish_keeps io f2 s) as (Hi & _ & _).
      rewrite (holds_reader_input _ _ Hi), H2.
      split; [reflexivity |]. split; [lia | reflexivity].
  - destruct (close_ledger (set_m_untiled untiled (set_m_spec specs f)) s) as (H1 & H2 & H3).
    assert (Hh : holds_reader (set_m_untiled untiled (set_m_spec specs f)) = 1).
    { unfold holds_reader. change (opened (set_m_untiled _ (set_m_spec _ f))) with (opened f).
      rewrite Ho. reflexivity. }
    destruct (ImageCacheFile_close _ s) as [[u f'] s']. cbn [fst snd] in *.
    change (holds_reader (set_m_broken true f')) with (holds_reader f').
    rewrite H2, H3, Hh. split; [exact H1 |]. split; [lia | intros _; lia].
Qed.

Lemma ImageCacheFile_open_ledger f s :
  file_store (snd (ImageCacheFile_open io f s)) = file_store s /\
  m_stat_open_files_current s - holds_reader f
    <= m_stat_open_files_current (snd (ImageCacheFile_open io f s))
       - holds_reader (snd (fst (ImageCacheFile_open io f s))) /\
  (m_accept_untiled s = true ->
   m_stat_open_files_current (snd (ImageCacheFile_open io f s))
     - holds_reader (snd (fst (ImageCacheFile_open io f s)))
   = m_stat_open_files_current s - holds_reader f).
Proof.
  unfold ImageCacheFile_open.
  destruct (opened f) eqn:Ho;
    [cbn [fst snd]; split; [reflexivity |]; split; [lia | reflexivity] |].
  destruct (m_broken f);
    [cbn [fst snd]; split; [reflexivity |]; split; [lia | reflexivity] |].
  assert (Hf : holds_reader f = 0) by (unfold holds_reader; rewrite Ho; reflexivity).
  assert (Hb : holds_reader (set_m_broken true f) = 0) by exact Hf.
  destruct (disk io (m_filename f)) as [err | err | fmt first rest]; cbn [fst snd].
  - rewrite Hb, Hf. split; [reflexivity |]. split; [reflexivity | reflexivity].
  - rewrite Hb, Hf. split; [reflexivity |]. split; [reflexivity | reflexivity].
  - set (f1 := use _). set (s1 := incr_open_files _).
    assert (Hs1 : m_stat_open_files_current s1 = m_stat_open_files_current s + 1)
      by reflexivity.
    assert (Hst1 : file_store s1 = file_store s) by reflexivity.
    assert (Ha1 : m_accept_untiled s1 = m_accept_untiled s) by reflexivity.
    assert (Ho1 : opened f1 = true) by reflexivity.
    assert (Hh1 : holds_reader f1 = 1) by reflexivity.
    rewrite Hf. clearbody f1 s1.
    destruct (negb (bool_decide (m_spec f1 = []))); cbn [fst snd].
    + rewrite Hh1, Hs1. split; [exact Hst1 |]. split; [lia | intros _; lia].
    + destruct (open_first_time_ledger f1 s1 first rest Ho1) as (H1 & H2 & H3).
      rewrite Ha1 in H3.
      destruct (open_first_time io f1 s1 first rest) as [[ok f'] s']. cbn [fst snd] in *.
      split; [rewrite H1; exact Hst1 |]. split; [lia |].
      intros Ha. rewrite (H3 Ha). lia.
Qed.

Lemma find_file_enter_surplus filename s :
  surplus s <= surplus (find_file_enter io filename s) /\
  (m_accept_untiled s = true -> surplus (find_file_enter io filename s) = surplus s).
Proof.
  unfold find_file_enter, new_ImageCacheFile.
  destruct (ImageCacheFile_open_ledger (blank_file (resolve_filename io filename s)) s)
    as (H1 & H2 & H3).
  destruct (ImageCacheFile_open io _ s) as [[ok f] s1]. cbn [fst snd] in *.
  rewrite fingerprint_dedup_surplus. unfold surplus.
  change (file_store (set_file_store ?l s1)) with l.
  change (m_stat_open_files_current (set_file_store ?l s1))
    with (m_stat_open_files_current s1).
  rewrite open_readers_app, H1, open_readers_cons. change (open_readers []) with 0.
  change (holds_reader (blank_file _)) with 0 in *.
  split; [lia |]. intros Ha. specialize (H3 Ha). lia.
Qed.

Lemma release_dead f s : dead f -> dead (snd (fst (ImageCacheFile_release f s))).
Proof.
  intros [Hb Hi]. unfold ImageCacheFile_release, ImageCacheFile_close, opened.
  rewrite Hi. destruct (m_used f); split; assumption.
Qed.

Lemma release_on_file_dead p q s f :
  file_store s !! q = Some f -> dead f ->
  exists f', file_store (snd (on_file p ImageCacheFile_release tt s)) !! q = Some f' /\
             dead f'.
Proof.
  intros Hq Hd. unfold on_file.
  destruct (file_store s !! p) as [g |] eqn:Hp; [| exists f; auto].
  pose proof (release_dead g s) as Hg.
  destruct (release_ledger g s) as [Hst _].
  destruct (ImageCacheFile_release g s) as [[u g'] s1]. cbn [fst snd] in *.
  unfold put_file. change (file_store (set_file_store ?l s1)) with l. rewrite Hst.
  destruct (decide (p = q)) as [-> | Hne].
  - exists g'. split; [apply list_lookup_insert_eq; eapply lookup_lt_Some, Hq |].
    apply Hg. congruence.
  - exists f. split; [rewrite list_lookup_insert_ne by exact Hne; exact Hq | exact Hd].
Qed.

Lemma check_max_files_turn_dead q s f :
  file_store s !! q = Some f -> dead f ->
  match check_max_files_turn s with
  | Done s' => exists f', file_store s' !! q = Some f' /\ dead f'
  | Again s' => exists f', file_store s' !! q = Some f' /\ dead f'
  end.
Proof.
  intros Hq Hd. unfold check_max_files_turn.
  destruct (m_max_open_files s <=? m_stat_open_files_current s); [| exists f; auto].
  destruct (sweep_begin _ _) as [i |]; [| exists f; auto].
  destruct (m_files s !! i) as [[name p] |]; [| exists f; auto].
  pose proof (release_on_file_dead p q s f Hq Hd) as H.
  destruct (on_file p ImageCacheFile_release tt s) as [u s']. exact H.
Qed.

Lemma check_max_files_dead q fuel :
  forall s s' f, check_max_files fuel s = Some s' ->
    file_store s !! q = Some f -> dead f ->
    exists f', file_store s' !! q = Some f' /\ dead f'.
Proof.
  induction fuel as [| fuel IH]; intros s s' f H Hq Hd; cbn [check_max_files] in H;
    pose proof (check_max_files_turn_dead q s f Hq Hd) as Ht;
    destruct (check_max_files_turn s) as [s1 | s1]; try discriminate.
  - injection H as <-. exact Ht.
  - injection H as <-. exact Ht.
  - destruct Ht as (f1 & Hq1 & Hd1). apply (IH s1 s' f1 H Hq1 Hd1).
Qed.

(** The constructor on a scanline file when untiled files are refused: the
    record is broken and has no reader, its fingerprint is empty, and the
    counter of open files has been raised. *)
Lemma new_file_rejected filename s fmt first :
  m_accept_untiled s = false ->
  disk io (resolve_filename io filename s) = Readable fmt first [] ->
  tile_width first = 0 \/ tile_height first = 0 ->
  dead (fst (new_ImageCacheFile io filename s)) /\
  m_fingerprint (fst (new_ImageCacheFile io filename s)) = "" /\
  m_duplicate (fst (new_ImageCacheFile io filename s)) = None /\
  file_store (snd (new_ImageCacheFile io filename s)) = file_store s /\
  m_files (snd (new_ImageCacheFile io filename s)) = m_files s /\
  m_stat_open_files_current (snd (new_ImageCacheFile io filename s))
    = m_stat_open_files_current s + 1.
Proof.
  intros Hacc Hdisk Hscan.
  unfold new_ImageCacheFile, ImageCacheFile_open.
  cbn [opened m_input m_broken m_filename m_spec blank_file].
  change (bool_decide (is_Some (@None Z))) with false. cbv iota.
  rewrite Hdisk.
  cbv beta iota zeta.
  set (f0 := use _). set (s0 := incr_open_files _).
  change (bool_decide (m_spec f0 = [])) with true. cbv iota.
  change (negb true) with false. cbv iota.
  unfold open_first_time.
  change (m_spec f0) with (@nil ImageSpec).
  rewrite read_subimages_scanline by assumption.
  cbv beta iota zeta.
  change (negb true) with false. cbv iota.
  change (1 =? 1) with true. cbv iota.
  set (f1 := set_m_unmipped true _).
  assert (Hu : m_untiled f1 = true) by reflexivity.
  match goal with |- context [if ?c then ?a else f1] => set (f2 := if c then a else f1) end.
  assert (Hu2 : m_untiled f2 = true) by (subst f2; destruct (_ && _); reflexivity).
  assert (Hfp : m_fingerprint f2 = "") by (subst f2; destruct (_ && _); reflexivity).
  assert (Hdp : m_duplicate f2 = None) by (subst f2; destruct (_ && _); reflexivity).
  clearbody f2.
  change (m_accept_untiled s0) with (m_accept_untiled s).
  rewrite Hu2, Hacc. cbn [andb negb fst snd].
  repeat split; assumption.
Qed.

(** X10. The counter of open files never falls behind the readers that are
    open: a lookup does not lower the amount by which the counter exceeds
    the number of records that hold a reader, and it keeps that amount when
    untiled files are accepted. *)
Theorem open_file_counter_follows_the_readers (fuel : nat) (filename : ustring)
    (s : ImageCacheImpl) (r : option nat) (s' : ImageCacheImpl) :
  find_file io fuel filename s = Some (r, s') ->
  surplus s <= surplus s' /\
  (m_accept_untiled s = true -> surplus s' = surplus s).
Proof.
  destruct (assoc_find filename (m_files s)) as [q |] eqn:Hq.
  - rewrite (find_file_hit io fuel filename s q Hq). intros H. injection H as <- <-.
    rewrite file_use_surplus. split; [lia | reflexivity].
  - rewrite (find_file_miss io fuel filename s Hq).
    destruct (find_file_enter_surplus filename s) as [He1 He2].
    destruct (check_max_files fuel (find_file_enter io filename s)) as [s3 |] eqn:Hc;
      [| discriminate].
    pose proof (check_max_files_surplus fuel _ _ Hc) as H3.
    pose proof (find_file_leave_surplus filename (length (file_store s)) s3) as H4.
    destruct (find_file_leave filename (length (file_store s)) s3) as [r4 s4].
    cbn [snd] in H4. intros H. injection H as <- <-.
    rewrite H4, H3. split; [exact He1 | exact He2].
Qed.

(** With the rejected record in the store, the surplus is one higher. *)
Lemma find_file_enter_rejected filename s fmt first :
  m_accept_untiled s = false ->
  disk io (resolve_filename io filename s) = Readable fmt first [] ->
  tile_width first = 0 \/ tile_height first = 0 ->
  surplus (find_file_enter io filename s) = surplus s + 1 /\
  exists f, file_store (find_file_enter io filename s) !! length (file_store s) = Some f /\
            dead f /\ m_duplicate f = None.
Proof.
  intros Hacc Hdisk Hscan. unfold find_file_enter.
  destruct (new_file_rejected filename s fmt first Hacc Hdisk Hscan)
    as (Hd & Hfp & Hdp & Hst & Hm & Hc).
  destruct (new_ImageCacheFile io filename s) as [f s1]. cbn [fst snd] in *.
  set (s2 := set_file_store (file_store s1 ++ [f]) s1).
  assert (Hl : file_store s2 !! length (file_store s) = Some f).
  { subst s2. change (file_store (set_file_store ?l s1)) with l.
    rewrite Hst. apply list_lookup_middle. reflexivity. }
  assert (Hs2 : surplus s2 = surplus s + 1).
  { unfold surplus. subst s2. change (file_store (set_file_store ?l s1)) with l.
    change (m_stat_open_files_current (set_file_store ?l s1))
      with (m_stat_open_files_current s1).
    rewrite open_readers_app, open_readers_cons, Hst, Hc.
    change (open_readers []) with 0.
    assert (Hh : holds_reader f = 0).
    { unfold holds_reader, opened. rewrite (proj2 Hd). reflexivity. }
    rewrite Hh. lia. }
  assert (Hsame : fingerprint_dedup (length (file_store s)) s2 = s2).
  { unfold fingerprint_dedup. rewrite Hl, Hfp. reflexivity. }
  rewrite Hsame. split; [exact Hs2 |]. exists f. auto.
Qed.

(** X11. A scanline file that is looked up while untiled files are refused
    stays counted as open: the lookup returns a new record that is broken
    and holds no reader, and the counter of open files has grown by one
    more than the number of open readers. *)
Theorem rejected_untiled_file_stays_counted (fuel : nat) (filename : ustring)
    (s : ImageCacheImpl) (fmt : string) (first : ImageSpec)
    (r : option nat) (s' : ImageCacheImpl) :
  m_accept_untiled s = false ->
  assoc_find filename (m_files s) = None ->
  disk io (resolve_filename io filename s) = Readable fmt first [] ->
  tile_width first = 0 \/ tile_height first = 0 ->
  find_file io fuel filename s = Some (r, s') ->
  r = Some (length (file_store s)) /\
  (exists f, file_store s' !! length (file_store s) = Some f /\
             m_broken f = true /\ m_input f = None) /\
  surplus s' = surplus s + 1.
Proof.
  intros Hacc Hq Hdisk Hscan.
  rewrite (find_file_miss io fuel filename s Hq).
  destruct (find_file_enter_rejected filename s fmt first Hacc Hdisk Hscan)
    as (He & f & Hl & Hd & Hdp).
  set (tf := length (file_store s)) in *.
  destruct (check_max_files fuel (find_file_enter io filename s)) as [s3 |] eqn:Hc;
    [| discriminate].
  pose proof (check_max_files_surplus fuel _ _ Hc) as H3.
  pose proof (check_max_files_same fuel _ _ Hc) as Hs3.
  destruct (check_max_files_dead tf fuel _ _ f Hc Hl Hd) as (f3 & Hl3 & Hd3).
  assert (Hdp3 : m_duplicate f3 = None).
  { pose proof (proj2 (proj2 Hs3)) as Hdd. unfold duplicates in Hdd.
    apply (f_equal (fun l => l !! tf)) in Hdd.
    rewrite !list_lookup_fmap, Hl, Hl3 in Hdd. cbn in Hdd. congruence. }
  pose proof (find_file_leave_surplus filename tf s3) as H4.
  unfold find_file_leave in *.
  set (s4 := set_m_files _ s3) in *.
  change (file_store s4) with (file_store s3) in *. rewrite Hl3, Hdp3 in *.
  cbn [snd] in H4. intros H. injection H as <- <-.
  split; [reflexivity |]. split; [| rewrite H4, H3; exact He].
  exists (use f3). split; [| exact Hd3].
  apply file_use_lookup. exact Hl3.
Qed.

End Ledger.

Lemma open_file_counter_follows_the_readers_witness :
  surplus ImageCacheImpl_init <= surplus a_known /\
  (m_accept_untiled ImageCacheImpl_init = true ->
   surplus a_known = surplus ImageCacheImpl_init).
Proof.
  apply (open_file_counter_follows_the_readers demo_io 0 "a.tif" ImageCacheImpl_init
           (Some 0%nat)).
  vm_compute. reflexivity.
Defined.

Lemma rejected_untiled_file_stays_counted_witness :
  Some 0%nat = Some (length (file_store strict_cache)) /\
  (exists f, file_store strict_after !! length (file_store strict_cache) = Some f /\
             m_broken f = true /\ m_input f = None) /\
  surplus strict_after = surplus strict_cache + 1.
Proof.
  apply (rejected_untiled_file_stays_counted demo_io 0 "m.tif" strict_cache "tiff"
           (demo_spec 100 100 0 0 3 FLOAT [])).
  - reflexivity.
  - reflexivity.
  - reflexivity.
  - left. reflexivity.
  - vm_compute. reflexivity.
Defined.

(** ** Pixels of a tile *)

(** The index of a pixel in the row-major order of a tile. *)
Lemma row_major_bound w h d x y z :
  0 <= x < w -> 0 <= y < h -> 0 <= z < d ->
  0 <= (z * h + y) * w + x /\ (z * h + y) * w + x + 1 <= w * h * d.
Proof.
  intros Hx Hy Hz.
  assert (Hr : 0 <= z * h + y /\ z * h + y + 1 <= d * h) by nia.
  split; [nia |]. nia.
Qed.

Lemma row_major_apart w h d x y z x' y' z' :
  0 <= x < w -> 0 <= y < h -> 0 <= z < d ->
  0 <= x' < w -> 0 <= y' < h -> 0 <= z' < d ->
  (x', y', z') <> (x, y, z) ->
  (z * h + y) * w + x + 1 <= (z' * h + y') * w + x' \/
  (z' * h + y') * w + x' + 1 <= (z * h + y) * w + x.
Proof.
  intros Hx Hy Hz Hx' Hy' Hz' Hne.
  destruct (Z.lt_trichotomy (z * h + y) (z' * h + y')) as [Hlt | [Heq | Hgt]].
  - left. nia.
  - assert (Hzz : z = z') by nia. subst z'.
    assert (Hyy : y = y') by lia. subst y'.
    assert (Hxx : x <> x') by congruence. lia.
  - right. nia.
Qed.

(** The step of [get_pixels] looks for the tile [get_pixels_tile]. *)
Lemma get_pixels_step_tile io file subimage format nc x y z ok result s :
  get_pixels_step io file subimage format nc (x, y, z) (ok, result, s)
  = let spec := match file_store s !! file with
                | Some f => spec_at f 0
                | None => empty_spec
                end in
    let '(found, s) := find_tile io (get_pixels_tile file subimage spec x y z) s in
    let zeros := replicate (Z.to_nat (nc * TypeDesc_size format)) 0 in
    (ok && found,
     result ++
     match pt_tile (m_perthread_info s) with
     | Some p =>
         match tile_store s !! p, file_store s !! file with
         | Some t, Some f =>
             match ImageCacheTile_data t x y z s with
             | Some off =>
                 convert_types io (m_datatype f) (drop (Z.to_nat off) (t_pixels t)) format nc
             | None => zeros
             end
         | _, _ => zeros
         end
     | None => zeros
     end, s).
Proof. reflexivity. Qed.

Lemma ImageCacheTile_data_Some t x y z s f :
  file_store s !! id_file (t_id t) = Some f ->
  let spec := spec_at f (id_subimage (t_id t)) in
  (0 <= x - id_x (t_id t) < tile_width spec /\
   0 <= y - id_y (t_id t) < tile_height spec /\
   0 <= z - id_z (t_id t) < Z.max 1 (tile_depth spec) ->
   ImageCacheTile_data t x y z s
   = Some (((((z - id_z (t_id t)) * tile_height spec + (y - id_y (t_id t)))
              * tile_width spec + (x - id_x (t_id t)))
            * (nchannels spec * TypeDesc_size (m_datatype f))))) /\
  (is_Some (ImageCacheTile_data t x y z s) ->
   0 <= x - id_x (t_id t) < tile_width spec /\
   0 <= y - id_y (t_id t) < tile_height spec /\
   0 <= z - id_z (t_id t) < Z.max 1 (tile_depth spec)).
Proof.
  intros Hf spec. unfold ImageCacheTile_data. rewrite Hf. fold spec. cbv zeta.
  set (c := _ || _).
  assert (Hc : c = false <->
               0 <= x - id_x (t_id t) < tile_width spec /\
               0 <= y - id_y (t_id t) < tile_height spec /\
               0 <= z - id_z (t_id t) < Z.max 1 (tile_depth spec)).
  { subst c. rewrite !orb_false_iff, !Z.ltb_ge, !Z.leb_gt. lia. }
  clearbody c. split.
  - intros H. apply Hc in H. rewrite H. reflexivity.
  - intros [off H]. apply Hc. destruct c; [discriminate | reflexivity].
Qed.

(** X12. [ImageCacheTile::data] lays the pixels of a tile out without
    overlap: an address it returns is the start of a pixel inside a buffer
    of width x height x depth pixels, and the pixels of two different
    coordinates lie at least one pixel size apart. *)
Theorem tile_data_lays_pixels_apart (t : ImageCacheTile) (s : ImageCacheImpl)
    (f : ImageCacheFile) (x y z off : Z) :
  file_store s !! id_file (t_id t) = Some f ->
  0 <= nchannels (spec_at f (id_subimage (t_id t))) * TypeDesc_size (m_datatype f) ->
  ImageCacheTile_data t x y z s = Some off ->
  0 <= off /\
  off + nchannels (spec_at f (id_subimage (t_id t))) * TypeDesc_size (m_datatype f)
    <= tile_width (spec_at f (id_subimage (t_id t)))
       * tile_height (spec_at f (id_subimage (t_id t)))
       * Z.max 1 (tile_depth (spec_at f (id_subimage (t_id t))))
       * (nchannels (spec_at f (id_subimage (t_id t))) * TypeDesc_size (m_datatype f)) /\
  forall x' y' z' off',
    ImageCacheTile_data t x' y' z' s = Some off' ->
    (x', y', z') <> (x, y, z) ->
    off + nchannels (spec_at f (id_subimage (t_id t))) * TypeDesc_size (m_datatype f)
      <= off' \/
    off' + nchannels (spec_at f (id_subimage (t_id t))) * TypeDesc_size (m_datatype f)
      <= off.
Proof.
  intros Hf Hps Hd.
  destruct (ImageCacheTile_data_Some t x y z s f Hf) as [Hin Hout].
  assert (Hr : is_Some (ImageCacheTile_data t x y z s)) by (rewrite Hd; eauto).
  apply Hout in Hr. destruct Hr as (Hx & Hy & Hz).
  rewrite (Hin (conj Hx (conj Hy Hz))) in Hd. injection Hd as <-.
  set (spec := spec_at f (id_subimage (t_id t))) in *.
  set (ps := nchannels spec * TypeDesc_size (m_datatype f)) in *.
  destruct (row_major_bound _ _ _ _ _ _ Hx Hy Hz) as [Hb1 Hb2].
  split; [nia |]. split; [nia |].
  intros x' y' z' off' Hd' Hne.
  destruct (ImageCacheTile_data_Some t x' y' z' s f Hf) as [Hin' Hout'].
  assert (Hr' : is_Some (ImageCacheTile_data t x' y' z' s)) by (rewrite Hd'; eauto).
  apply Hout' in Hr'. destruct Hr' as (Hx' & Hy' & Hz').
  rewrite (Hin' (conj Hx' (conj Hy' Hz'))) in Hd'. injection Hd' as <-.
  fold spec. fold ps.
  assert (Hne' : (x' - id_x (t_id t), y' - id_y (t_id t), z' - id_z (t_id t))
                 <> (x - id_x (t_id t), y - id_y (t_id t), z - id_z (t_id t))).
  { intros H. apply Hne. injection H as H1 H2 H3. f_equal; [f_equal |]; lia. }
  destruct (row_major_apart _ _ _ _ _ _ _ _ _ Hx Hy Hz Hx' Hy' Hz' Hne') as [H | H].
  - left. nia.
  - right. nia.
Qed.

(** X13. [get_pixels] finds the corner of a tile with the tile extents of
    subimage 0, and [data] checks the sample against the extents of the
    subimage of the tile.  So the tile that [get_pixels] asks for holds the
    sample exactly when the remainders of its coordinates by the extents of
    subimage 0 are non-negative and below the extents of the subimage: it
    does for non-negative coordinates when the extents agree, and it does
    not for a negative coordinate that is no multiple of the tile extent,
    nor where the tiles of the subimage are smaller than the remainder. *)
Theorem get_pixels_tile_holds_the_sample (t : ImageCacheTile) (s : ImageCacheImpl)
    (f : ImageCacheFile) (subimage x y z : Z) :
  file_store s !! id_file (t_id t) = Some f ->
  t_id t = get_pixels_tile (id_file (t_id t)) subimage (spec_at f 0) x y z ->
  0 < tile_width (spec_at f 0) -> 0 < tile_height (spec_at f 0) ->
  (is_Some (ImageCacheTile_data t x y z s) <->
   0 <= Z.rem x (tile_width (spec_at f 0)) < tile_width (spec_at f subimage) /\
   0 <= Z.rem y (tile_height (spec_at f 0)) < tile_height (spec_at f subimage) /\
   0 <= Z.rem z (Z.max 1 (tile_depth (spec_at f 0)))
     < Z.max 1 (tile_depth (spec_at f subimage))) /\
  (tile_width (spec_at f subimage) = tile_width (spec_at f 0) ->
   tile_height (spec_at f subimage) = tile_height (spec_at f 0) ->
   tile_depth (spec_at f subimage) = tile_depth (spec_at f 0) ->
   0 <= x -> 0 <= y -> 0 <= z ->
   is_Some (ImageCacheTile_data t x y z s)) /\
  (x < 0 -> Z.rem x (tile_width (spec_at f 0)) <> 0 ->
   ImageCacheTile_data t x y z s = None) /\
  (tile_width (spec_at f subimage) <= Z.rem x (tile_width (spec_at f 0)) ->
   ImageCacheTile_data t x y z s = None).
Proof.
  intros Hf Hid Hw Hh.
  destruct (ImageCacheTile_data_Some t x y z s f Hf) as [Hin Hout].
  assert (Hsub : id_subimage (t_id t) = subimage) by (rewrite Hid; reflexivity).
  assert (Hx : x - id_x (t_id t) = Z.rem x (tile_width (spec_at f 0))).
  { rewrite Hid. cbn. lia. }
  assert (Hy : y - id_y (t_id t) = Z.rem y (tile_height (spec_at f 0))).
  { rewrite Hid. cbn. lia. }
  assert (Hz : z - id_z (t_id t) = Z.rem z (Z.max 1 (tile_depth (spec_at f 0)))).
  { rewrite Hid. cbn. lia. }
  rewrite Hsub, Hx, Hy, Hz in Hin, Hout.
  assert (Hiff : is_Some (ImageCacheTile_data t x y z s) <->
     0 <= Z.rem x (tile_width (spec_at f 0)) < tile_width (spec_at f subimage) /\
     0 <= Z.rem y (tile_height (spec_at f 0)) < tile_height (spec_at f subimage) /\
     0 <= Z.rem z (Z.max 1 (tile_depth (spec_at f 0)))
       < Z.max 1 (tile_depth (spec_at f subimage))).
  { split; [exact Hout |]. intros H. rewrite (Hin H). eauto. }
  assert (Hnone : forall o : option Z, ~ is_Some o -> o = None).
  { intros [v |] H; [exfalso; apply H; eauto | reflexivity]. }
  split; [exact Hiff |]. split; [| split].
  - intros Ew Eh Ed Px Py Pz. apply Hiff. rewrite Ew, Eh, Ed.
    pose proof (Z.rem_bound_pos x (tile_width (spec_at f 0)) Px Hw).
    pose proof (Z.rem_bound_pos y (tile_height (spec_at f 0)) Py Hh).
    pose proof (Z.rem_bound_pos z (Z.max 1 (tile_depth (spec_at f 0))) Pz ltac:(lia)).
    lia.
  - intros Nx Hrem. apply Hnone. intros H. apply Hiff in H.
    pose proof (Z.rem_nonpos x (tile_width (spec_at f 0)) ltac:(lia) ltac:(lia)). lia.
  - intros Hsmall. apply Hnone. intros H. apply Hiff in H. lia.
Qed.

Lemma tile_data_lays_pixels_apart_witness :
  ImageCacheTile_data a_tile 1 2 0 a_tiled = Some 387 /\
  ImageCacheTile_data a_tile 2 2 0 a_tiled = Some 390 /\
  (387 + 3 <= 390 \/ 390 + 3 <= 387).
Proof.
  split; [vm_compute; reflexivity |]. split; [vm_compute; reflexivity |].
  destruct (tile_data_lays_pixels_apart a_tile a_tiled a_record 1 2 0 387)
    as (_ & _ & H).
  - vm_compute. reflexivity.
  - vm_compute. discriminate.
  - vm_compute. reflexivity.
  - apply (H 2 2 0 390); [vm_compute; reflexivity | discriminate].
Defined.

Lemma get_pixels_tile_holds_the_sample_witness :
  is_Some (ImageCacheTile_data a_tile 5 6 0 a_tiled).
Proof.
  destruct (get_pixels_tile_holds_the_sample a_tile a_tiled a_record 0 5 6 0)
    as (_ & H & _).
  - vm_compute. reflexivity.
  - vm_compute. reflexivity.
  - vm_compute. reflexivity.
  - vm_compute. reflexivity.
  - apply H; try reflexivity; lia.
Defined.

(** ** Tiles that are read from the file itself *)

Lemma shapes_lookup s s' p f :
  shapes s' = shapes s -> file_store s !! p = Some f ->
  exists f', file_store s' !! p = Some f' /\ shape f' = shape f.
Proof.
  unfold shapes. intros Hs Hp.
  assert (H : (shape <$> file_store s') !! p = Some (shape f))
    by (rewrite Hs, list_lookup_fmap, Hp; reflexivity).
  rewrite list_lookup_fmap in H.
  destruct (file_store s' !! p) as [f' |]; [| discriminate].
  exists f'. split; [reflexivity |]. cbn in H. congruence.
Qed.

Lemma shapes_length s s' : shapes s' = shapes s -> length (file_store s') = length (file_store s).
Proof.
  unfold shapes. intros H. apply (f_equal length) in H.
  rewrite !length_fmap in H. exact H.
Qed.

Lemma reads_directly_shapes s s' p subimage :
  shapes s' = shapes s -> reads_directly s p subimage -> reads_directly s' p subimage.
Proof.
  intros Hs Hd f' Hf'.
  destruct (file_store s !! p) as [f |] eqn:Hf.
  - destruct (shapes_lookup s s' p f Hs Hf) as (f'' & Hf'' & Hsh).
    rewrite Hf' in Hf''. injection Hf'' as <-.
    specialize (Hd f Hf). unfold read_directly in *. unfold shape in Hsh.
    injection Hsh as -> -> ->. exact Hd.
  - exfalso. apply lookup_ge_None in Hf. apply lookup_lt_Some in Hf'.
    rewrite (shapes_length _ _ Hs) in Hf'. lia.
Qed.

Lemma shapes_put p f f' s :
  file_store s !! p = Some f -> shape f' = shape f -> shapes (put_file p f' s) = shapes s.
Proof.
  intros Hp Hsh. unfold shapes, put_file.
  change (file_store (set_file_store ?l s)) with l.
  rewrite list_fmap_insert, Hsh. apply list_insert_id.
  rewrite list_lookup_fmap, Hp. reflexivity.
Qed.

Lemma open_effect_shapes s s' : open_effect s s' -> shapes s' = shapes s.
Proof. intros (e & c & n & ->). reflexivity. Qed.

Lemma open_effect_store s s' : open_effect s s' -> file_store s' = file_store s.
Proof. intros (e & c & n & ->). reflexivity. Qed.

Section Direct.
Variable io : External.

(** Opening a record again leaves its specifications and marks alone. *)
Lemma ImageCacheFile_open_shape f s :
  m_spec f <> [] -> shape (snd (fst (ImageCacheFile_open io f s))) = shape f.
Proof.
  intros Hsp. unfold ImageCacheFile_open.
  destruct (opened f); [reflexivity |].
  destruct (m_broken f); [reflexivity |].
  destruct (disk io (m_filename f)) as [err | err | fmt first rest];
    [reflexivity | reflexivity |].
  match goal with |- context [bool_decide (?a = [])] =>
    change a with (m_spec f) end.
  rewrite bool_decide_eq_false_2 by exact Hsp. reflexivity.
Qed.

Lemma open_on_file_direct p s :
  (forall f, file_store s !! p = Some f -> m_spec f <> []) ->
  beside_files (snd (on_file p (ImageCacheFile_open io) false s)) = beside_files s /\
  shapes (snd (on_file p (ImageCacheFile_open io) false s)) = shapes s /\
  m_files (snd (on_file p (ImageCacheFile_open io) false s)) = m_files s.
Proof.
  intros Hsp. unfold on_file.
  destruct (file_store s !! p) as [f |] eqn:Hp; [| auto].
  pose proof (ImageCacheFile_open_effect io f s) as He.
  pose proof (ImageCacheFile_open_shape f s (Hsp f eq_refl)) as Hsh.
  destruct (ImageCacheFile_open io f s) as [[ok f1] s1]. cbn [fst snd] in *.
  split; [| split].
  - rewrite put_file_beside. apply open_effect_beside, He.
  - rewrite (shapes_put p f f1 s1); [apply open_effect_shapes, He | | exact Hsh].
    rewrite (open_effect_store _ _ He). exact Hp.
  - change (m_files (put_file p f1 s1)) with (m_files s1).
    apply (proj1 (open_effect_files _ _ He)).
Qed.

(** A direct read touches the file side only, and leaves the records
    their specifications and marks. *)
Lemma read_tile_direct p subimage x y z format s :
  reads_directly s p subimage ->
  beside_files (snd (ImageCacheFile_read_tile io p subimage x y z format s))
  = beside_files s /\
  shapes (snd (ImageCacheFile_read_tile io p subimage x y z format s)) = shapes s /\
  m_files (snd (ImageCacheFile_read_tile io p subimage x y z format s)) = m_files s.
Proof.
  intros Hd. unfold ImageCacheFile_read_tile.
  destruct (open_on_file_direct p s) as (Hb & Hs & Hm);
    [intros f Hf; apply (Hd f Hf) |].
  pose proof (reads_directly_shapes _ _ p subimage Hs Hd) as Hd1.
  destruct (on_file p (ImageCacheFile_open io) false s) as [ok s1].
  cbn [fst snd] in *.
  destruct ok; cbn [negb]; [| auto].
  destruct (file_store s1 !! p) as [f |] eqn:Hf; [| auto].
  destruct (Hd1 f Hf) as (Hsp & Hunt & Hmip).
  set (f2 := if 0 <? subimage then set_m_mipused true f else f).
  assert (Hsh2 : shape f2 = shape f) by (unfold f2; destruct (0 <? subimage); reflexivity).
  assert (Hunt2 : m_untiled f2 = false)
    by (unfold f2; destruct (0 <? subimage); exact Hunt).
  assert (Hmip2 : m_unmipped f2 && negb (subimage =? 0) = false).
  { destruct Hmip as [Hmip | ->]; [| rewrite andb_false_r; reflexivity].
    replace (m_unmipped f2) with false; [reflexivity |].
    unfold f2; destruct (0 <? subimage); symmetry; exact Hmip. }
  rewrite Hmip2, Hunt2.
  assert (Hput : forall g, shape g = shape f2 ->
            beside_files (put_file p g (put_file p f2 s1)) = beside_files s /\
            shapes (put_file p g (put_file p f2 s1)) = shapes s /\
            m_files (put_file p g (put_file p f2 s1)) = m_files s).
  { intros g Hg. split; [| split].
    - rewrite !put_file_beside. exact Hb.
    - rewrite (shapes_put p f2 g).
      + rewrite (shapes_put p f f2 s1 Hf Hsh2). exact Hs.
      + unfold put_file. change (file_store (set_file_store ?l s1)) with l.
        apply list_lookup_insert_eq. eapply lookup_lt_Some, Hf.
      + exact Hg.
    - exact Hm. }
  match goal with |- context [if negb (bool_decide ?c) then _ else _] =>
    destruct (negb (bool_decide c)) end.
  - destruct (reader_seek_subimage io f2 subimage).
    + destruct (reader_read_tile io (m_filename (set_m_input (Some subimage) f2))
                  subimage x y z format) as [okr bytes].
      destruct okr; cbn [snd].
      * apply Hput. reflexivity.
      * destruct (Hput (set_m_input (Some subimage) f2) eq_refl) as (H1 & H2 & H3).
        split; [| split].
        -- rewrite (open_effect_beside _ _ (error_effect _ _)). exact H1.
        -- rewrite (open_effect_shapes _ _ (error_effect _ _)). exact H2.
        -- rewrite (proj1 (open_effect_files _ _ (error_effect _ _))). exact H3.
    + cbn [snd]. apply Hput. reflexivity.
  - destruct (reader_read_tile io (m_filename f2) subimage x y z format) as [okr bytes].
    destruct okr; cbn [snd].
    + apply Hput. reflexivity.
    + destruct (Hput f2 eq_refl) as (H1 & H2 & H3).
      split; [| split].
      * rewrite (open_effect_beside _ _ (error_effect _ _)). exact H1.
      * rewrite (open_effect_shapes _ _ (error_effect _ _)). exact H2.
      * rewrite (proj1 (open_effect_files _ _ (error_effect _ _))). exact H3.
Qed.

(** The reading constructor of a tile, for a direct read. *)
Lemma new_ImageCacheTile_direct id s :
  reads_directly s (id_file id) (id_subimage id) ->
  beside_files (snd (new_ImageCacheTile io id s)) = beside_files s /\
  shapes (snd (new_ImageCacheTile io id s)) = shapes s /\
  m_files (snd (new_ImageCacheTile io id s)) = m_files s.
Proof.
  intros Hd. unfold new_ImageCacheTile.
  destruct (match file_store s !! id_file id with
            | Some f => (ImageCacheTile_memsize f (id_subimage id), m_datatype f)
            | None => (0, scalar UNKNOWN)
            end) as [size datatype].
  pose proof (read_tile_direct (id_file id) (id_subimage id) (id_x id) (id_y id) (id_z id)
                datatype s Hd) as H.
  destruct (ImageCacheFile_read_tile io _ _ _ _ _ _ s) as [[valid bytes] s1]. exact H.
Qed.

End Direct.

(** ** What the tile side changes in the cache *)








Lemma beside_tiles_count s s' :
  beside_tiles s' = beside_tiles s ->
  m_stat_open_files_current s' = m_stat_open_files_current s.
Proof. intros H. exact (f_equal (fun x => fst (fst (snd x))) H). Qed.






















(** ** The bytes between two calls *)

















(** ** What a failed query reports *)

Lemma file_use_message q s : m_errormessage (file_use q s) = m_errormessage s.
Proof. unfold file_use. destruct (file_store s !! q); reflexivity. Qed.

Lemma get_perthread_info_message s :
  m_errormessage (get_perthread_info s) = m_errormessage s.
Proof. apply (tile_effect_files _ _ (get_perthread_info_effect s)). Qed.

Lemma missing_found_message io filename err s :
  m_errormessage s = "" ->
  m_errormessage (missing_found io filename err s) = err.
Proof.
  intros He. unfold missing_found, unreadable_state. rewrite file_use_message.
  change (m_errormessage (incr_unique_files (set_m_files ?l (set_file_store ?st ?x))))
    with (m_errormessage x).
  rewrite error_message.
  change (m_errormessage (set_reader_creates ?n ?x)) with (m_errormessage x).
  rewrite get_perthread_info_message, He. reflexivity.
Qed.

Lemma found_state_message q s : m_errormessage (found_state q s) = m_errormessage s.
Proof. unfold found_state. rewrite file_use_message. apply get_perthread_info_message. Qed.

Lemma geterror_files s : m_files (snd (geterror s)) = m_files s.
Proof. reflexivity. Qed.

Lemma geterror_file_store s : file_store (snd (geterror s)) = file_store s.
Proof. reflexivity. Qed.

Lemma geterror_cleared s : m_errormessage (snd (geterror s)) = "".
Proof. reflexivity. Qed.

Lemma geterror_message s : fst (geterror s) = m_errormessage s.
Proof. reflexivity. Qed.

(** A query on a name whose record is broken, in a cache that holds the
    message [err]: the line "Invalid image file" is added; and once the
    lines have been fetched, the query leaves that line alone. *)
Lemma broken_query_lines io filename err m tf fb fuel' subimage :
  assoc_find filename (m_files m) = Some tf ->
  file_store m !! tf = Some fb ->
  follow_duplicate tf m = tf ->
  m_broken fb = true ->
  m_errormessage m = err -> err <> "" ->
  fst (geterror (error (err_invalid filename) m))
    = err +:+ newline +:+ err_invalid filename /\
  exists s2,
    get_imagespec io fuel' filename subimage
      (snd (geterror (error (err_invalid filename) m))) = Some (None, s2) /\
    fst (geterror s2) = err_invalid filename.
Proof.
  intros Htab Hrec Hfollow Hfb Hmsg Herr.
  split.
  { rewrite geterror_message. apply (error_message_after err); assumption. }
  set (s1 := error (err_invalid filename) m).
  assert (Hm1 : m_files s1 = m_files m) by reflexivity.
  assert (Hst1 : file_store s1 = file_store m) by reflexivity.
  clearbody s1.
  set (s2 := snd (geterror s1)).
  pose proof (geterror_files s1) as Hm2. pose proof (geterror_file_store s1) as Hst2.
  pose proof (geterror_cleared s1) as Hmsg2. fold s2 in Hm2, Hst2, Hmsg2.
  clearbody s2.
  assert (Hfollow2 : follow_duplicate tf s2 = tf).
  { unfold follow_duplicate in *. rewrite Hst2, Hst1. exact Hfollow. }
  assert (Htab2 : assoc_find filename (m_files s2) = Some tf)
    by (rewrite Hm2, Hm1; exact Htab).
  assert (Hrec2 : file_store s2 !! follow_duplicate tf s2 = Some fb)
    by (rewrite Hfollow2, Hst2, Hst1; exact Hrec).
  pose proof (get_imagespec_broken io filename s2 tf fb Htab2 Hrec2 Hfb fuel' subimage)
    as H2.
  eexists. split; [exact H2 |].
  rewrite geterror_message, error_message, found_state_message, Hmsg2. reflexivity.
Qed.

(** X17. The first query on a file that cannot be opened leaves two lines
    for [geterror]: the message of the reader, then "Invalid image file"
    with the name.  Once they have been fetched, the same query fails again
    and leaves the second line only. *)
Theorem failed_query_reports_the_reader_once (io : External) (filename : ustring)
    (err : string) (s : ImageCacheImpl) (fuel fuel' : nat) (subimage : Z) :
  unreadable io (resolve_filename io filename s) err ->
  assoc_find filename (m_files s) = None ->
  m_stat_open_files_current s < m_max_open_files s ->
  m_errormessage s = "" ->
  err <> "" ->
  exists s1,
    get_imagespec io fuel filename subimage s = Some (None, s1) /\
    fst (geterror s1) = err +:+ newline +:+ err_invalid filename /\
    exists s2,
      get_imagespec io fuel' filename subimage (snd (geterror s1)) = Some (None, s2) /\
      fst (geterror s2) = err_invalid filename.
Proof.
  intros Hdisk Hnew Hroom Hempty Herr.
  pose proof (get_imagespec_missing io filename err s Hdisk Hnew Hroom fuel subimage) as H1.
  destruct (missing_found_record io filename err s)
    as (Htab & Hrec & Hfollow & _).
  pose proof (missing_found_message io filename err s Hempty) as Hmsg.
  eexists. split; [exact H1 |].
  apply (broken_query_lines io filename err _ _ _ fuel' subimage Htab Hrec Hfollow);
    [reflexivity | exact Hmsg | exact Herr].
Qed.

(** ** [get_image_info] *)

(** X18. A [get_image_info] that returns false has not written to the
    output; and on a record that is not broken it reports no error
    whatever it returns: the cache is left as the file lookup left it. *)
Theorem get_image_info_fails_silently (io : External) (fuel : nat)
    (filename dataname : ustring) (datatype : TypeDesc) (data : list cell)
    (s : ImageCacheImpl) (r : bool) (data' : list cell) (s' : ImageCacheImpl) :
  get_image_info io fuel filename dataname datatype data s = Some (r, data', s') ->
  (r = false -> data' = data) /\
  (forall p s1 f,
     find_file io fuel filename (get_perthread_info s) = Some (Some p, s1) ->
     file_store s1 !! p = Some f -> m_broken f = false -> s' = s1).
Proof.
  unfold get_image_info.
  destruct (find_file io fuel filename (get_perthread_info s)) as [[file s1] |];
    [| discriminate].
  destruct (deref_file file s1) as [f |] eqn:Hd.
  - destruct (m_broken f) eqn:Hb.
    + intros [= <- <- <-]. split; [reflexivity |].
      intros p s1' f' [= -> <-] Hf Hb'. cbn in Hd. congruence.
    + intros H.
      assert (Hres : (r = false -> data' = data) /\ s' = s1).
      { repeat match type of H with
               | (if ?c then _ else _) = _ => destruct c
               | match ?m with Some _ => _ | None => _ end = _ => destruct m
               end;
          injection H as <- <- <-; split; first [reflexivity | discriminate]. }
      destruct Hres as [H1 H2]. split; [exact H1 |].
      intros p s1' f' [= _ <-] _ _. exact H2.
  - intros [= <- <- <-]. split; [reflexivity |].
    intros p s1' f' [= -> <-] Hf Hb'. cbn in Hd. congruence.
Qed.

Lemma failed_query_reports_the_reader_once_witness :
  exists s1,
    get_imagespec demo_io 0 "none.tif" 0 ImageCacheImpl_init = Some (None, s1) /\
    fst (geterror s1) = "no reader" +:+ newline +:+ err_invalid "none.tif" /\
    exists s2,
      get_imagespec demo_io 0 "none.tif" 0 (snd (geterror s1)) = Some (None, s2) /\
      fst (geterror s2) = err_invalid "none.tif".
Proof.
  apply (failed_query_reports_the_reader_once demo_io "none.tif" "no reader"
           ImageCacheImpl_init 0 0 0).
  - left. reflexivity.
  - reflexivity.
  - reflexivity.
  - reflexivity.
  - discriminate.
Defined.

Lemma get_image_info_fails_silently_witness :
  (false = false -> [IntCell 9] = [IntCell 9]) /\
  (forall p s1 f,
     find_file demo_io 0 "a.tif" (get_perthread_info ImageCacheImpl_init)
       = Some (Some p, s1) ->
     file_store s1 !! p = Some f -> m_broken f = false -> a_known = s1).
Proof.
  apply (get_image_info_fails_silently demo_io 0 "a.tif" "nothing" TypeInt [IntCell 9]
           ImageCacheImpl_init false [IntCell 9] a_known).
  vm_compute. reflexivity.
Defined.

(** ** When the sweep of the open files ends *)

Lemma readers_from_nonneg P l : forall k, 0 <= readers_from P k l.
Proof.
  induction l as [| f l IH]; intros k; cbn [readers_from]; [lia |].
  specialize (IH (S k)). destruct (opened f && P k); lia.
Qed.

Lemma readers_from_insert P l : forall k p f f',
  l !! p = Some f ->
  readers_from P k (<[p := f']> l)
  = readers_from P k l - (if opened f && P (k + p)%nat then 1 else 0)
    + (if opened f' && P (k + p)%nat then 1 else 0).
Proof.
  induction l as [| x l IH]; intros k p f f' H; [discriminate |].
  destruct p as [| p]; cbn in H.
  - injection H as ->. change (<[0%nat := f']> (f :: l)) with (f' :: l).
    cbn [readers_from]. rewrite Nat.add_0_r. lia.
  - change (<[S p := f']> (x :: l)) with (x :: <[p := f']> l).
    cbn [readers_from]. rewrite (IH (S k) p f f' H).
    replace (S k + p)%nat with (k + S p)%nat by lia. lia.
Qed.

Lemma readers_from_none P l : forall k,
  (forall p f, l !! p = Some f -> P (k + p)%nat = true -> opened f = false) ->
  readers_from P k l = 0.
Proof.
  induction l as [| x l IH]; intros k H; cbn [readers_from]; [reflexivity |].
  rewrite (IH (S k)).
  - destruct (P k) eqn:Hk; [| rewrite andb_false_r; reflexivity].
    rewrite (H 0%nat x eq_refl); [reflexivity |]. rewrite Nat.add_0_r. exact Hk.
  - intros p f Hp HP. apply (H (S p) f Hp).
    replace (k + S p)%nat with (S k + p)%nat by lia. exact HP.
Qed.

Lemma release_rank f s :
  rank (snd (fst (ImageCacheFile_release f s))) = Nat.pred (rank f).
Proof.
  unfold ImageCacheFile_release, ImageCacheFile_close, rank.
  destruct (m_used f) eqn:Hu; cbn [fst snd].
  - change (opened (set_m_used false f)) with (opened f).
    destruct (opened f); reflexivity.
  - destruct (opened f) eqn:Ho; cbn [fst snd].
    + reflexivity.
    + rewrite Ho. reflexivity.
Qed.

Lemma release_opened f s :
  opened (snd (fst (ImageCacheFile_release f s))) = true -> opened f = true.
Proof.
  unfold ImageCacheFile_release, ImageCacheFile_close.
  destruct (m_used f); cbn [fst snd]; [exact id |].
  destruct (opened f) eqn:Ho; cbn [fst snd]; [reflexivity | congruence].
Qed.

(** *** One visit *)

Lemma visit_table i p s : m_files (visit i p s) = m_files s.
Proof.
  unfold visit. change (m_files (set_m_file_sweep ?c ?x)) with (m_files x).
  apply (release_on_file_same p s).
Qed.

Lemma visit_max i p s : m_max_open_files (visit i p s) = m_max_open_files s.
Proof.
  unfold visit. change (m_max_open_files (set_m_file_sweep ?c ?x)) with (m_max_open_files x).
  pose proof (release_on_file_beside p s) as H.
  exact (f_equal (fun x => fst (fst (fst (fst (fst (fst x)))))) H).
Qed.

Lemma visit_rank i p s q :
  rank_at (visit i p s) q = if Nat.eq_dec p q then Nat.pred (rank_at s p) else rank_at s q.
Proof.
  unfold visit, rank_at, on_file.
  change (file_store (set_m_file_sweep ?c ?x)) with (file_store x).
  destruct (file_store s !! p) as [f |] eqn:Hp.
  - pose proof (release_rank f s) as Hr.
    destruct (release_ledger f s) as [Hst _].
    destruct (ImageCacheFile_release f s) as [[u f'] s1]. cbn [fst snd] in *.
    unfold put_file. change (file_store (set_file_store ?l s1)) with l. rewrite Hst.
    destruct (Nat.eq_dec p q) as [<- | Hne].
    + rewrite list_lookup_insert_eq by (eapply lookup_lt_Some, Hp). exact Hr.
    + rewrite list_lookup_insert_ne by exact Hne. reflexivity.
  - cbn [snd]. destruct (Nat.eq_dec p q) as [<- | Hne]; [rewrite Hp |]; reflexivity.
Qed.

Lemma visit_cursor i p s :
  (i < length (m_files s))%nat ->
  cursor (visit i p s) = if (S i <? length (m_files s))%nat then S i else 0%nat.
Proof.
  intros Hi. unfold cursor. rewrite visit_table.
  unfold visit. change (m_file_sweep (set_m_file_sweep ?c ?x)) with c.
  unfold sweep_next, sweep_begin.
  destruct (S i <? length (m_files s))%nat eqn:Hlt.
  - rewrite Hlt. reflexivity.
  - destruct (0 <? length (m_files s))%nat; reflexivity.
Qed.

Lemma in_table_In s j name p : m_files s !! j = Some (name, p) -> in_table s p = true.
Proof.
  intros H. apply bool_decide_eq_true_2.
  apply list_elem_of_fmap. exists (name, p). split; [reflexivity |].
  eapply list_elem_of_lookup_2, H.
Qed.

(** The counter of open files less the readers within reach of the sweep
    is not changed by a visit. *)
Lemma visit_out_of_reach i name p s :
  m_files s !! i = Some (name, p) ->
  m_stat_open_files_current (visit i p s) - reachable_readers (visit i p s)
  = m_stat_open_files_current s - reachable_readers s.
Proof.
  intros Hi. unfold reachable_readers.
  assert (Ht : in_table (visit i p s) = in_table s).
  { unfold in_table. rewrite visit_table. reflexivity. }
  rewrite Ht. unfold visit, on_file.
  change (file_store (set_m_file_sweep ?c ?x)) with (file_store x).
  change (m_stat_open_files_current (set_m_file_sweep ?c ?x))
    with (m_stat_open_files_current x).
  destruct (file_store s !! p) as [f |] eqn:Hp; [| reflexivity].
  destruct (release_ledger f s) as [Hst Hc].
  unfold holds_reader in Hc.
  destruct (ImageCacheFile_release f s) as [[u f'] s1]. cbn [fst snd] in *.
  unfold put_file. change (file_store (set_file_store ?l s1)) with l.
  change (m_stat_open_files_current (set_file_store ?l s1))
    with (m_stat_open_files_current s1).
  rewrite Hst, (readers_from_insert _ _ 0 p f f' Hp). cbn [Nat.add].
  rewrite (in_table_In s i name p Hi), !andb_true_r.
  destruct (opened f), (opened f'); lia.
Qed.

Lemma dist_next len cur j :
  (cur < len)%nat -> (j < len)%nat ->
  dist len (if (S cur <? len)%nat then S cur else 0%nat) j
  = if Nat.eq_dec j cur then (len - 1)%nat else (dist len cur j - 1)%nat.
Proof.
  intros Hc Hj. unfold dist.
  destruct (S cur <? len)%nat eqn:Hlt;
    [apply Nat.ltb_lt in Hlt | apply Nat.ltb_ge in Hlt];
    destruct (Nat.eq_dec j cur) as [-> | Hne];
    repeat match goal with
           | |- context [(?a <=? ?b)%nat] =>
               let H := fresh in
               destruct (a <=? b)%nat eqn:H;
                 [apply Nat.leb_le in H | apply Nat.leb_gt in H]
           end; lia.
Qed.

Lemma dist_bound len cur j : (cur < len)%nat -> (j < len)%nat -> (dist len cur j < len)%nat.
Proof.
  intros Hc Hj. unfold dist.
  destruct (cur <=? j)%nat eqn:H; [apply Nat.leb_le in H | apply Nat.leb_gt in H]; lia.
Qed.

Lemma dist_self len cur : dist len cur cur = 0%nat.
Proof. unfold dist. rewrite Nat.leb_refl. lia. Qed.

Lemma dist_other len cur j : (cur < len)%nat -> j <> cur -> (1 <= dist len cur j)%nat.
Proof.
  intros Hc Hne. unfold dist.
  destruct (cur <=? j)%nat eqn:H; [apply Nat.leb_le in H | apply Nat.leb_gt in H]; lia.
Qed.

Lemma rank_le_2 f : (rank f <= 2)%nat.
Proof. unfold rank. destruct (opened f), (m_used f); lia. Qed.

Lemma rank_at_le_2 s p : (rank_at s p <= 2)%nat.
Proof. unfold rank_at. destruct (file_store s !! p); [apply rank_le_2 | lia]. Qed.

(** Every visit brings every record of the table a turn nearer to the
    loss of its reader. *)
Lemma visit_cost i p s j q :
  (i < length (m_files s))%nat -> (j < length (m_files s))%nat ->
  cursor s = i ->
  (j = i -> q = p) ->
  cost (visit i p s) j q = 0%nat \/ (cost (visit i p s) j q + 1 <= cost s j q)%nat.
Proof.
  intros Hi Hj Hcur Hsame. unfold cost.
  rewrite visit_rank, visit_table, (visit_cursor i p s Hi), Hcur.
  rewrite (dist_next _ i j Hi Hj).
  pose proof (rank_at_le_2 s p) as Hp2. pose proof (rank_at_le_2 s q) as Hq2.
  set (len := length (m_files s)) in *.
  destruct (Nat.eq_dec j i) as [-> | Hne].
  - rewrite (Hsame eq_refl). destruct (Nat.eq_dec p p) as [_ | ?]; [| congruence].
    rewrite dist_self.
    destruct (rank_at s p) as [| [| [| r]]]; cbn [Nat.pred]; lia.
  - pose proof (dist_other len i j Hi Hne) as Hd.
    destruct (Nat.eq_dec p q) as [<- | Hpq].
    + destruct (rank_at s p) as [| [| [| r]]]; cbn [Nat.pred]; lia.
    + destruct (rank_at s q) as [| [| [| r]]]; lia.
Qed.

Lemma cost_bound s j q :
  (j < length (m_files s))%nat -> (cost s j q <= 2 * length (m_files s))%nat.
Proof.
  intros Hj. unfold cost. pose proof (rank_at_le_2 s q) as Hq2.
  assert (Hc : (cursor s < length (m_files s))%nat).
  { unfold cursor. destruct (sweep_begin _ _) as [i |] eqn:Hb.
    - apply sweep_begin_Some in Hb. exact Hb.
    - cbn. lia. }
  pose proof (dist_bound _ _ j Hc Hj) as Hd.
  destruct (rank_at s q) as [| [| [| r]]]; lia.
Qed.

(** *** A turn *)

Lemma check_max_files_turn_cases s :
  (check_max_files_turn s = Done s /\
   m_stat_open_files_current s < m_max_open_files s) \/
  (check_max_files_turn s = Done (set_m_file_sweep None s) /\ m_files s = []) \/
  (exists name p,
     m_files s !! cursor s = Some (name, p) /\
     m_max_open_files s <= m_stat_open_files_current s /\
     check_max_files_turn s = Again (visit (cursor s) p s)).
Proof.
  unfold check_max_files_turn, cursor.
  destruct (m_max_open_files s <=? m_stat_open_files_current s) eqn:Hle;
    [apply Z.leb_le in Hle | apply Z.leb_gt in Hle; left; split; [reflexivity | lia]].
  right.
  destruct (sweep_begin (length (m_files s)) (m_file_sweep s)) as [i |] eqn:Hb.
  - right. pose proof (sweep_begin_Some _ _ _ Hb) as Hi.
    change (default 0%nat (Some i)) with i.
    destruct (lookup_lt_is_Some_2 (m_files s) i Hi) as [[name p] He].
    rewrite He. exists name, p. split; [reflexivity |]. split; [exact Hle |].
    unfold visit. destruct (on_file p ImageCacheFile_release tt s) as [u s1] eqn:Ho.
    cbn [snd].
    assert (Hm : m_files s1 = m_files s).
    { pose proof (release_on_file_same p s) as H. rewrite Ho in H. apply H. }
    rewrite Hm. reflexivity.
  - left. split; [reflexivity |]. apply sweep_begin_None in Hb.
    apply length_zero_nil, Hb.
Qed.

(** With every reader of the table at most [n] turns from its loss, and
    the counter below the ceiling once they are lost, [n] turns suffice. *)
Lemma check_max_files_enough n :
  forall s,
    m_stat_open_files_current s - reachable_readers s < m_max_open_files s ->
    (forall j name p, m_files s !! j = Some (name, p) -> (cost s j p <= n)%nat) ->
    exists s',
      check_max_files n s = Some s' /\
      (m_files s <> [] -> m_stat_open_files_current s' < m_max_open_files s').
Proof.
  induction n as [| n IH]; intros s Hfloor Hcost.
  - assert (Hr : reachable_readers s = 0).
    { apply readers_from_none. intros p f Hp Hin. cbn [Nat.add] in Hin.
      apply bool_decide_eq_true_1 in Hin.
      apply list_elem_of_fmap in Hin as ([name p'] & Hs & Hin).
      cbn [snd] in Hs. subst p'.
      apply list_elem_of_lookup_1 in Hin as [j Hj].
      specialize (Hcost j name p Hj). unfold cost, rank_at in Hcost. rewrite Hp in Hcost.
      unfold rank in Hcost. destruct (opened f); [| reflexivity].
      destruct (m_used f); lia. }
    destruct (check_max_files_turn_cases s) as [[Ht Hlt] | [[Ht He] | (name & p & _ & Hle & _)]].
    + exists s. cbn [check_max_files]. rewrite Ht. auto.
    + exists (set_m_file_sweep None s). cbn [check_max_files]. rewrite Ht.
      split; [reflexivity | congruence].
    + lia.
  - destruct (check_max_files_turn_cases s)
      as [[Ht Hlt] | [[Ht He] | (name & p & Hcur & Hle & Ht)]].
    + exists s. cbn [check_max_files]. rewrite Ht. auto.
    + exists (set_m_file_sweep None s). cbn [check_max_files]. rewrite Ht.
      split; [reflexivity | congruence].
    + pose proof (lookup_lt_Some _ _ _ Hcur) as Hi.
      destruct (IH (visit (cursor s) p s)) as (s' & Hs' & Hlt').
      * rewrite (visit_out_of_reach _ name p s Hcur), visit_max. exact Hfloor.
      * intros j name' q Hj. rewrite visit_table in Hj.
        pose proof (lookup_lt_Some _ _ _ Hj) as Hjl.
        specialize (Hcost j name' q Hj).
        destruct (visit_cost (cursor s) p s j q Hi Hjl eq_refl) as [H0 | Hdec].
        { intros ->. rewrite Hcur in Hj. congruence. }
        { lia. }
        { lia. }
      * exists s'. cbn [check_max_files]. rewrite Ht. split; [exact Hs' |].
        intros Hne. apply Hlt'. rewrite visit_table. exact Hne.
Qed.

(** With too many readers out of the reach of the sweep, it never ends. *)
Lemma check_max_files_never fuel :
  forall s,
    m_files s <> [] ->
    m_max_open_files s <= m_stat_open_files_current s - reachable_readers s ->
    check_max_files fuel s = None.
Proof.
  induction fuel as [| fuel IH]; intros s Hne Hfloor;
    pose proof (readers_from_nonneg (in_table s) (file_store s) 0) as Hr;
    fold (reachable_readers s) in Hr;
    destruct (check_max_files_turn_cases s)
      as [[Ht Hlt] | [[Ht He] | (name & p & Hcur & Hle & Ht)]];
    try lia; try congruence; cbn [check_max_files]; rewrite Ht; [reflexivity |].
  apply IH.
  - rewrite visit_table. exact Hne.
  - rewrite (visit_out_of_reach _ name p s Hcur), visit_max. exact Hfloor.
Qed.

(** X19. The sweep of the open files ends exactly when its table is empty
    or the counter of open files, less the readers held by records of the
    table, is below the ceiling.  It then ends within two turns per entry
    of the table, with the counter below the ceiling unless the table is
    empty; otherwise it never ends, whatever the fuel. *)
Theorem file_sweep_ends_iff_enough_readers_in_reach (s : ImageCacheImpl) :
  (m_files s = [] \/
   m_stat_open_files_current s - reachable_readers s < m_max_open_files s ->
   exists s',
     check_max_files (2 * length (m_files s)) s = Some s' /\
     (m_files s <> [] -> m_stat_open_files_current s' < m_max_open_files s')) /\
  (m_files s <> [] ->
   m_max_open_files s <= m_stat_open_files_current s - reachable_readers s ->
   forall fuel, check_max_files fuel s = None).
Proof.
  split.
  - intros [He | Hfloor].
    + destruct (check_max_files_empty (2 * length (m_files s)) s He) as [s' Hs'].
      exists s'. split; [exact Hs' | congruence].
    + apply check_max_files_enough; [exact Hfloor |].
      intros j name p Hj. apply cost_bound. eapply lookup_lt_Some, Hj.
  - intros Hne Hfloor fuel. apply check_max_files_never; assumption.
Qed.

(** ** The two ways to the corner of a tile *)

(** [get_tile] looks for the tile [get_tile_id], unless the division by a
    tile extent traps. *)
Lemma get_tile_asks io fuel filename subimage x y z s :
  get_tile io fuel filename subimage x y z s
  = match find_file io fuel filename (get_perthread_info s) with
    | None => None
    | Some (file, s) =>
        match file, deref_file file s with
        | Some p, Some f =>
            if m_broken f then Some (None, s)
            else if (tile_width (spec_at f 0) =? 0) || (tile_height (spec_at f 0) =? 0)
                    || (tile_depth (spec_at f 0) =? 0) then None
            else
              let '(ok, tile, s) :=
                find_tile_main_cache io (get_tile_id p subimage (spec_at f 0) x y z)
                  None s in
              if ok then Some (tile, ref_drop tile (ref_use tile (ref_take tile s)))
              else Some (None, ref_drop tile s)
        | _, _ => Some (None, s)
        end
    end.
Proof. reflexivity. Qed.

Lemma corner_agrees w a x :
  0 < w -> 0 <= x -> a <= x ->
  (a + (x - a) ÷ w * w = x - Z.rem x w <-> Z.rem a w = 0).
Proof.
  intros Hw Hx Hax.
  pose proof (Z.quot_rem' x w) as Hqx.
  pose proof (Z.quot_rem' a w) as Hqa.
  split.
  - intros H.
    assert (Ha : a = w * (x ÷ w - (x - a) ÷ w)) by lia.
    rewrite Ha, Z.mul_comm. apply Z.rem_mul. lia.
  - intros H. rewrite H in Hqa.
    assert (Ha : a = (a ÷ w) * w) by lia.
    assert (Hq : (x - a) ÷ w = x ÷ w - a ÷ w).
    { rewrite (Z.quot_div_nonneg (x - a) w) by lia.
      rewrite (Z.quot_div_nonneg x w) by lia.
      rewrite Ha at 1.
      replace (x - a ÷ w * w) with (x + (- (a ÷ w)) * w) by lia.
      rewrite Z.div_add by lia. lia. }
    rewrite Hq. lia.
Qed.

(** X20. [get_tile] counts tiles from the origin of the image and
    [get_pixels] from zero.  For a sample at or beyond the origin and with
    non-negative coordinates, the two ask for the same tile exactly when
    the origin of the image is a multiple of the tile extent along every
    axis. *)
Theorem get_tile_and_get_pixels_agree_iff_origin_on_tile_grid (file : nat)
    (subimage : Z) (spec : ImageSpec) (x y z : Z) :
  0 < tile_width spec -> 0 < tile_height spec -> 0 < tile_depth spec ->
  0 <= x -> 0 <= y -> 0 <= z ->
  spec_x spec <= x -> spec_y spec <= y -> spec_z spec <= z ->
  (get_tile_id file subimage spec x y z = get_pixels_tile file subimage spec x y z <->
   Z.rem (spec_x spec) (tile_width spec) = 0 /\
   Z.rem (spec_y spec) (tile_height spec) = 0 /\
   Z.rem (spec_z spec) (tile_depth spec) = 0).
Proof.
  intros Hw Hh Hd Hx Hy Hz Hax Hay Haz.
  pose proof (corner_agrees _ _ _ Hw Hx Hax) as Cx.
  pose proof (corner_agrees _ _ _ Hh Hy Hay) as Cy.
  pose proof (corner_agrees _ _ _ Hd Hz Haz) as Cz.
  unfold get_tile_id, get_pixels_tile.
  replace (Z.max 1 (tile_depth spec)) with (tile_depth spec) by lia.
  split.
  - intros H. injection H as H1 H2 H3.
    split; [apply Cx, H1 |]. split; [apply Cy, H2 | apply Cz, H3].
  - intros (H1 & H2 & H3).
    rewrite (proj2 Cx H1), (proj2 Cy H2), (proj2 Cz H3). reflexivity.
Qed.

Lemma get_tile_and_get_pixels_agree_iff_origin_on_tile_grid_witness :
  get_tile_id 0 0 (demo_spec 256 256 64 64 3 UINT8 []) 70 5 0
  = get_pixels_tile 0 0 (demo_spec 256 256 64 64 3 UINT8 []) 70 5 0 <->
  Z.rem 0 64 = 0 /\ Z.rem 0 64 = 0 /\ Z.rem 0 1 = 0.
Proof.
  apply (get_tile_and_get_pixels_agree_iff_origin_on_tile_grid 0 0
           (demo_spec 256 256 64 64 3 UINT8 []) 70 5 0); cbn; lia.
Defined.

(** ** The bytes [get_pixels] writes *)

Lemma Zrange_length b e : length (Zrange b e) = Z.to_nat (e - b).
Proof. unfold Zrange. rewrite length_map, length_seq. reflexivity. Qed.

Lemma bind_length_const {A B} (f : A -> list B) (l : list A) n :
  (forall a, length (f a) = n) -> length (mbind f l) = (length l * n)%nat.
Proof.
  intros Hf. induction l as [| a l IH]; [reflexivity |].
  cbn. rewrite length_app, IH, Hf. lia.
Qed.

Lemma region_length xb xe yb ye zb ze :
  length (region xb xe yb ye zb ze)
  = (Z.to_nat (ze - zb) * (Z.to_nat (ye - yb) * Z.to_nat (xe - xb)))%nat.
Proof.
  unfold region.
  rewrite (bind_length_const _ _ (Z.to_nat (ye - yb) * Z.to_nat (xe - xb))%nat).
  - rewrite Zrange_length. reflexivity.
  - intros z. rewrite (bind_length_const _ _ (Z.to_nat (xe - xb))).
    + rewrite Zrange_length. reflexivity.
    + intros y. rewrite (bind_length_const _ _ 1%nat).
      * rewrite Zrange_length. lia.
      * intros x. reflexivity.
Qed.

Section PixelBytes.
Variable io : External.
Variables (format : TypeDesc) (nc : Z).

(** The converter writes one pixel of the requested format. *)
Hypothesis Hconvert : forall from src,
  length (convert_types io from src format nc) = Z.to_nat (nc * TypeDesc_size format).

Lemma get_pixels_step_length file subimage xyz ok result s :
  length (snd (fst (get_pixels_step io file subimage format nc xyz (ok, result, s))))
  = (length result + Z.to_nat (nc * TypeDesc_size format))%nat.
Proof.
  destruct xyz as [[x y] z]. rewrite get_pixels_step_tile. cbv zeta.
  destruct (find_tile io _ s) as [found s1]. cbn [fst snd].
  rewrite length_app. f_equal.
  destruct (pt_tile (m_perthread_info s1)) as [p |]; [| apply length_replicate].
  destruct (tile_store s1 !! p) as [t |]; [| apply length_replicate].
  destruct (file_store s1 !! file) as [f |]; [| apply length_replicate].
  destruct (ImageCacheTile_data t x y z s1); [apply Hconvert | apply length_replicate].
Qed.

Lemma get_pixels_fold_length file subimage l :
  forall ok result s,
    length (snd (fst (fold_left
      (fun acc xyz => get_pixels_step io file subimage format nc xyz acc) l
      (ok, result, s))))
    = (length result + length l * Z.to_nat (nc * TypeDesc_size format))%nat.
Proof.
  induction l as [| xyz l IH]; intros ok result s; cbn [fold_left]; [cbn; lia |].
  pose proof (get_pixels_step_length file subimage xyz ok result s) as Hs.
  destruct (get_pixels_step io file subimage format nc xyz (ok, result, s))
    as [[ok1 result1] s1]. cbn [fst snd] in Hs.
  rewrite IH, Hs. cbn [length]. lia.
Qed.

End PixelBytes.

(** X21. [get_pixels] on a file record writes one pixel of the requested
    format for every sample of the region, found or not: with a converter
    that writes one such pixel, the result holds as many bytes as the
    region has samples times the channels of the file times the size of
    the format. *)
Theorem get_pixels_writes_every_sample (io : External) (file : nat) (subimage : Z)
    (xbegin xend ybegin yend zbegin zend : Z) (format : TypeDesc)
    (s : ImageCacheImpl) (f : ImageCacheFile) :
  file_store s !! file = Some f ->
  (forall from src,
     length (convert_types io from src format (nchannels (spec_at f 0)))
     = Z.to_nat (nchannels (spec_at f 0) * TypeDesc_size format)) ->
  length (snd (fst (get_pixels_file io file subimage xbegin xend ybegin yend zbegin zend
                      format s)))
  = (Z.to_nat (zend - zbegin) * (Z.to_nat (yend - ybegin) * Z.to_nat (xend - xbegin))
     * Z.to_nat (nchannels (spec_at f 0) * TypeDesc_size format))%nat.
Proof.
  intros Hf Hconvert. unfold get_pixels_file. rewrite Hf.
  rewrite (get_pixels_fold_length io format _ Hconvert), region_length. cbn [length]. lia.
Qed.

Lemma get_pixels_writes_every_sample_witness :
  length (snd (fst (get_pixels_file exact_io 0 0 0 2 0 2 0 1 (scalar UINT8) a_known)))
  = (Z.to_nat (1 - 0) * (Z.to_nat (2 - 0) * Z.to_nat (2 - 0))
     * Z.to_nat (nchannels (spec_at a_known_record 0) * TypeDesc_size (scalar UINT8)))%nat.
Proof.
  apply (get_pixels_writes_every_sample exact_io 0 0 0 2 0 2 0 1 (scalar UINT8) a_known
           a_known_record).
  - vm_compute. reflexivity.
  - intros from src. cbn [convert_types exact_io].
    rewrite length_take, length_app, length_replicate. lia.
Defined.

(** ** What invalidation brings back *)

Lemma read_subimages_tiled autotile first untiled :
  tile_width first <> 0 -> tile_height first <> 0 ->
  read_subimages autotile [first] 0 [] untiled = (true, 1, [first], untiled).
Proof.
  intros Hw Hh. unfold read_subimages.
  assert (Hc : (tile_width first =? 0) || (tile_height first =? 0) = false).
  { apply orb_false_iff. split; apply Z.eqb_neq; assumption. }
  rewrite Hc. reflexivity.
Qed.

Section Reread.
Variable io : External.

(** Opening, for the first time, a tiled file of one subimage that does
    not declare a texture format. *)
Lemma open_first_time_tiled f s first :
  m_spec f = [] -> m_untiled f = false -> m_broken f = false ->
  tile_width first <> 0 -> tile_height first <> 0 ->
  find_attribute "textureformat" (Some TypeString) first = None ->
  m_spec (snd (fst (open_first_time io f s first []))) = [first] /\
  m_broken (snd (fst (open_first_time io f s first []))) = false.
Proof.
  intros Hnil Hunt Hbr Hw Hh Hattr.
  unfold open_first_time.
  rewrite Hnil, Hunt, read_subimages_tiled by assumption.
  cbv beta iota zeta.
  change (negb true) with false. cbv iota.
  change (1 =? 1) with true. cbv iota.
  set (f1 := set_m_unmipped true _).
  assert (Hu1 : m_untiled f1 = false) by reflexivity.
  assert (Hs1 : m_spec f1 = [first]) by reflexivity.
  assert (Hb1 : m_broken f1 = false) by exact Hbr.
  clearbody f1.
  repeat (rewrite Hu1; cbn [andb]; cbv iota). cbn [fst snd].
  destruct (open_finish_keeps io f1 s) as (_ & _ & Hb).
  rewrite Hb, Hb1. split; [| reflexivity].
  rewrite open_finish_spec; [exact Hs1 |].
  unfold spec_at. rewrite Hs1. exact Hattr.
Qed.

Lemma ImageCacheFile_invalidate_rereads f s fmt first :
  m_untiled f = false ->
  disk io (m_filename f) = Readable fmt first [] ->
  tile_width first <> 0 -> tile_height first <> 0 ->
  find_attribute "textureformat" (Some TypeString) first = None ->
  m_spec (snd (fst (ImageCacheFile_invalidate io f s))) = [first] /\
  m_broken (snd (fst (ImageCacheFile_invalidate io f s))) = false.
Proof.
  intros Hunt Hdisk Hw Hh Hattr.
  destruct (ImageCacheFile_invalidate_reopens io f s)
    as (f0 & s0 & Hb0 & Hi0 & Hn0 & Heq).
  unfold ImageCacheFile_invalidate in *.
  assert (Hc : m_untiled (snd (fst (ImageCacheFile_close f s))) = m_untiled f /\
               m_filename (snd (fst (ImageCacheFile_close f s))) = m_filename f /\
               m_input (snd (fst (ImageCacheFile_close f s))) = None).
  { unfold ImageCacheFile_close, opened. destruct (m_input f) eqn:Hi; cbn; auto. }
  destruct (ImageCacheFile_close f s) as [[u f1] s1]. cbn [fst snd] in Hc.
  destruct Hc as (Hu1 & Hn1 & Hi1).
  set (f2 := set_m_duplicate None _).
  assert (H2 : m_untiled f2 = false /\ m_filename f2 = m_filename f /\
               m_input f2 = None /\ m_broken f2 = false /\ m_spec f2 = []).
  { subst f2. cbn. rewrite Hu1, Hn1, Hi1, Hunt. auto. }
  clearbody f2. destruct H2 as (Hu2 & Hn2 & Hi2 & Hb2 & Hs2).
  clear Heq.
  unfold ImageCacheFile_open, opened. rewrite Hi2, Hb2, Hn2, Hdisk.
  change (bool_decide (is_Some (@None Z))) with false. cbv iota beta zeta.
  set (f3 := use _). set (s3 := incr_open_files _).
  assert (Hs3 : m_spec f3 = []) by exact Hs2.
  assert (Hu3 : m_untiled f3 = false) by exact Hu2.
  assert (Hb3 : m_broken f3 = false) by exact Hb2.
  clearbody f3 s3.
  rewrite Hs3. change (negb (bool_decide (@nil ImageSpec = []))) with false. cbv iota.
  pose proof (open_first_time_tiled f3 s3 first Hs3 Hu3 Hb3 Hw Hh Hattr) as H.
  destruct (open_first_time io f3 s3 first []) as [[ok f4] s4]. exact H.
Qed.

(** The table and the record of the name after an invalidation. *)
Lemma invalidate_record filename s p f :
  assoc_find filename (m_files s) = Some p ->
  file_store s !! p = Some f ->
  m_files (invalidate io filename s) = m_files s /\
  exists s0,
    file_store (invalidate io filename s) !! p
    = Some (snd (fst (ImageCacheFile_invalidate io f s0))).
Proof.
  intros Hq Hl. unfold invalidate. rewrite Hq.
  pose proof (erase_tiles_of_effect p (m_tilecache s) s) as He.
  destruct (erase_tiles_of p (m_tilecache s) s) as [tiles s1]. cbn [snd] in He.
  set (s2 := set_m_tile_sweep _ (set_m_tilecache tiles s1)).
  assert (Hst2 : file_store s2 = file_store s)
    by (apply (proj1 (proj2 (tile_effect_files _ _ He)))).
  assert (Hm2 : m_files s2 = m_files s) by (apply (proj1 (tile_effect_files _ _ He))).
  unfold on_file. rewrite Hst2, Hl.
  destruct (ImageCacheFile_invalidate_files io f s2) as (_ & Hs3 & Hst3 & _).
  destruct (ImageCacheFile_invalidate io f s2) as [[u f3] s3] eqn:Hinv. cbn [fst snd] in *.
  change (m_files (set_m_perthread_info ?pt (put_file ?q ?g s3))) with (m_files s3).
  change (file_store (set_m_perthread_info ?pt (put_file ?q ?g s3)))
    with (<[q := g]> (file_store s3)).
  split; [rewrite (proj1 Hs3); exact Hm2 |].
  exists s2. rewrite Hinv. cbn [fst snd].
  apply list_lookup_insert_eq. rewrite Hst3, Hst2. eapply lookup_lt_Some, Hl.
Qed.

(** X22. Invalidation makes the file on disk visible again.  Whatever the
    record of a name held before (the specification of an older file, or
    the mark of a file that could not be opened), once the name has been
    invalidated a query for subimage 0 returns the first specification of
    the file as it is now; shown for a tiled file of one subimage without a
    texture format, and a record that was not marked untiled. *)
Theorem invalidate_rereads_the_file (filename : ustring) (s : ImageCacheImpl)
    (p : nat) (f : ImageCacheFile) (fmt : string) (first : ImageSpec) (fuel : nat) :
  assoc_find filename (m_files s) = Some p ->
  file_store s !! p = Some f ->
  m_untiled f = false ->
  disk io (m_filename f) = Readable fmt first [] ->
  tile_width first <> 0 -> tile_height first <> 0 ->
  find_attribute "textureformat" (Some TypeString) first = None ->
  exists s',
    get_imagespec io fuel filename 0 (invalidate io filename s) = Some (Some first, s').
Proof.
  intros Hq Hl Hunt Hdisk Hw Hh Hattr.
  destruct (invalidate_record filename s p f Hq Hl) as (Hm & s0 & Hrec).
  destruct (ImageCacheFile_invalidate_rereads f s0 fmt first Hunt Hdisk Hw Hh Hattr)
    as (Hspec & Hbroken).
  destruct (ImageCacheFile_invalidate_files io f s0) as (Hdup & _).
  set (f3 := snd (fst (ImageCacheFile_invalidate io f s0))) in *.
  set (s3 := invalidate io filename s) in *.
  assert (Hq3 : assoc_find filename (m_files s3) = Some p) by (rewrite Hm; exact Hq).
  assert (Hfd : follow_duplicate p s3 = p).
  { unfold follow_duplicate. rewrite Hrec, Hdup. reflexivity. }
  unfold get_imagespec.
  rewrite (find_file_known io fuel filename s3 p Hq3), Hfd.
  unfold deref_file. rewrite (found_state_lookup p f3 s3 Hrec).
  change (m_broken (use f3)) with (m_broken f3). rewrite Hbroken.
  unfold subimages. change (m_spec (use f3)) with (m_spec f3). rewrite Hspec.
  cbn [length orb]. change ((0 <? 0) || (Z.of_nat 1 <=? 0)) with false. cbv iota.
  eexists. f_equal. f_equal. f_equal.
  unfold spec_at. change (m_spec (use f3)) with (m_spec f3). rewrite Hspec. reflexivity.
Qed.

Lemma read_subimages_marked autotile first :
  exists sp, read_subimages autotile [first] 0 [] true = (true, 1, [sp], true).
Proof.
  unfold read_subimages. cbn [andb Z.ltb Z.compare].
  destruct ((tile_width first =? 0) || (tile_height first =? 0)); eexists; reflexivity.
Qed.

(** A record that carries the untiled mark is rejected by [open] when
    untiled files are refused, whatever the file is. *)
Lemma open_first_time_marked f s first :
  m_spec f = [] -> m_untiled f = true -> m_accept_untiled s = false ->
  m_broken (snd (fst (open_first_time io f s first []))) = true /\
  m_input (snd (fst (open_first_time io f s first []))) = None /\
  m_untiled (snd (fst (open_first_time io f s first []))) = true.
Proof.
  intros Hnil Hunt Hacc. unfold open_first_time.
  rewrite Hnil, Hunt. destruct (read_subimages_marked (m_autotile s) first) as [sp ->].
  cbv beta iota zeta.
  change (negb true) with false. cbv iota.
  change (1 =? 1) with true. cbv iota.
  set (f1 := set_m_unmipped true _).
  match goal with |- context [if ?c then ?a else f1] => set (f2 := if c then a else f1) end.
  assert (Hu2 : m_untiled f2 = true) by (subst f2; destruct (_ && _); reflexivity).
  clearbody f2.
  rewrite Hu2, Hacc. cbn [andb negb fst snd]. auto.
Qed.

Lemma tile_effect_settings s s' : tile_effect s s' -> settings s' = settings s.
Proof. intros (a & b & c & d & ->). reflexivity. Qed.

Lemma ImageCacheFile_invalidate_marked f s fmt first :
  m_untiled f = true -> m_accept_untiled s = false ->
  disk io (m_filename f) = Readable fmt first [] ->
  m_broken (snd (fst (ImageCacheFile_invalidate io f s))) = true /\
  m_input (snd (fst (ImageCacheFile_invalidate io f s))) = None /\
  m_untiled (snd (fst (ImageCacheFile_invalidate io f s))) = true.
Proof.
  intros Hunt Hacc Hdisk.
  unfold ImageCacheFile_invalidate.
  assert (Hc : m_untiled (snd (fst (ImageCacheFile_close f s))) = m_untiled f /\
               m_filename (snd (fst (ImageCacheFile_close f s))) = m_filename f /\
               m_input (snd (fst (ImageCacheFile_close f s))) = None).
  { unfold ImageCacheFile_close, opened. destruct (m_input f) eqn:Hi; cbn; auto. }
  pose proof (open_effect_beside _ _ (close_effect f s)) as Hb.
  destruct (ImageCacheFile_close f s) as [[u f1] s1]. cbn [fst snd] in Hc, Hb.
  destruct Hc as (Hu1 & Hn1 & Hi1).
  assert (Hacc1 : m_accept_untiled (get_perthread_info s1) = false).
  { pose proof (tile_effect_settings _ _ (get_perthread_info_effect s1)) as Ht.
    etrans; [exact (f_equal (fun x => snd (snd x)) Ht) |].
    etrans; [exact (f_equal (fun x => snd (snd (fst (fst x)))) Hb) | exact Hacc]. }
  set (s2 := get_perthread_info s1) in *. clearbody s2.
  set (f2 := set_m_duplicate None _).
  assert (H2 : m_untiled f2 = true /\ m_filename f2 = m_filename f /\
               m_input f2 = None /\ m_broken f2 = false /\ m_spec f2 = []).
  { subst f2. cbn. rewrite Hu1, Hn1, Hi1, Hunt. auto. }
  clearbody f2. destruct H2 as (Hu2 & Hn2 & Hi2 & Hb2 & Hs2).
  unfold ImageCacheFile_open, opened. rewrite Hi2, Hb2, Hn2, Hdisk.
  change (bool_decide (is_Some (@None Z))) with false. cbv iota beta zeta.
  set (f3 := use _). set (s3 := incr_open_files _).
  assert (Hs3 : m_spec f3 = []) by exact Hs2.
  assert (Hu3 : m_untiled f3 = true) by exact Hu2.
  assert (Hacc3 : m_accept_untiled s3 = false) by exact Hacc1.
  clearbody f3 s3.
  rewrite Hs3. change (negb (bool_decide (@nil ImageSpec = []))) with false. cbv iota.
  pose proof (open_first_time_marked f3 s3 first Hs3 Hu3 Hacc3) as H.
  destruct (open_first_time io f3 s3 first []) as [[ok f4] s4]. exact H.
Qed.

(** The state in which [invalidate] reopens the record has the settings of
    the cache. *)
Lemma invalidate_record_settings filename s p f :
  assoc_find filename (m_files s) = Some p ->
  file_store s !! p = Some f ->
  exists s0,
    settings s0 = settings s /\
    file_store (invalidate io filename s) !! p
    = Some (snd (fst (ImageCacheFile_invalidate io f s0))).
Proof.
  intros Hq Hl. unfold invalidate. rewrite Hq.
  pose proof (erase_tiles_of_effect p (m_tilecache s) s) as He.
  destruct (erase_tiles_of p (m_tilecache s) s) as [tiles s1]. cbn [snd] in He.
  set (s2 := set_m_tile_sweep _ (set_m_tilecache tiles s1)).
  assert (Hst2 : file_store s2 = file_store s)
    by (apply (proj1 (proj2 (tile_effect_files _ _ He)))).
  assert (Hset2 : settings s2 = settings s) by apply (tile_effect_settings _ _ He).
  unfold on_file. rewrite Hst2, Hl.
  destruct (ImageCacheFile_invalidate_files io f s2) as (_ & Hs3 & Hst3 & _).
  destruct (ImageCacheFile_invalidate io f s2) as [[u f3] s3] eqn:Hinv. cbn [fst snd] in *.
  change (file_store (set_m_perthread_info ?pt (put_file ?q ?g s3)))
    with (<[q := g]> (file_store s3)).
  exists s2. split; [exact Hset2 |]. rewrite Hinv. cbn [fst snd].
  apply list_lookup_insert_eq. rewrite Hst3, Hst2. eapply lookup_lt_Some, Hl.
Qed.

(** X23. The untiled mark of a record outlives an invalidation.  When
    untiled files are refused, a record that was once marked untiled is
    rejected again when it is invalidated and the file can be read,
    whatever tiles the file has now: the record is left broken, without a
    reader and still marked, and a query on the name fails. *)
Theorem invalidate_keeps_the_untiled_mark (filename : ustring) (s : ImageCacheImpl)
    (p : nat) (f : ImageCacheFile) (fmt : string) (first : ImageSpec)
    (fuel : nat) (subimage : Z) :
  assoc_find filename (m_files s) = Some p ->
  file_store s !! p = Some f ->
  m_untiled f = true ->
  m_accept_untiled s = false ->
  disk io (m_filename f) = Readable fmt first [] ->
  (exists f',
     file_store (invalidate io filename s) !! p = Some f' /\
     m_broken f' = true /\ m_input f' = None /\ m_untiled f' = true) /\
  exists s',
    get_imagespec io fuel filename subimage (invalidate io filename s) = Some (None, s').
Proof.
  intros Hq Hl Hunt Hacc Hdisk.
  destruct (invalidate_record filename s p f Hq Hl) as (Hm & _).
  destruct (invalidate_record_settings filename s p f Hq Hl) as (s0 & Hset & Hrec).
  assert (Hacc0 : m_accept_untiled s0 = false).
  { rewrite <- Hacc. exact (f_equal (fun x => snd (snd x)) Hset). }
  destruct (ImageCacheFile_invalidate_marked f s0 fmt first Hunt Hacc0 Hdisk)
    as (Hb & Hi & Hu).
  destruct (ImageCacheFile_invalidate_files io f s0) as (Hdup & _).
  set (f3 := snd (fst (ImageCacheFile_invalidate io f s0))) in *.
  set (s3 := invalidate io filename s) in *.
  split; [exists f3; auto |].
  assert (Hq3 : assoc_find filename (m_files s3) = Some p) by (rewrite Hm; exact Hq).
  assert (Hfd : follow_duplicate p s3 = p).
  { unfold follow_duplicate. rewrite Hrec, Hdup. reflexivity. }
  assert (Hrec3 : file_store s3 !! follow_duplicate p s3 = Some f3)
    by (rewrite Hfd; exact Hrec).
  eexists. apply (get_imagespec_broken io filename s3 p f3 Hq3 Hrec3 Hb).
Qed.

End Reread.

Lemma invalidate_rereads_the_file_witness :
  m_broken none_record = true /\
  exists s',
    get_imagespec later_io 0 "none.tif" 0 (invalidate later_io "none.tif" none_queried)
    = Some (Some (demo_spec 256 256 64 64 3 UINT8 []), s').
Proof.
  split; [vm_compute; reflexivity |].
  apply (invalidate_rereads_the_file later_io "none.tif" none_queried 0 none_record "tiff"
           (demo_spec 256 256 64 64 3 UINT8 []) 0).
  - vm_compute. reflexivity.
  - vm_compute. reflexivity.
  - vm_compute. reflexivity.
  - vm_compute. reflexivity.
  - cbn. lia.
  - cbn. lia.
  - vm_compute. reflexivity.
Defined.

Lemma invalidate_keeps_the_untiled_mark_witness :
  (exists f',
     file_store (invalidate tiled_io "m.tif" m_rejected) !! 0%nat = Some f' /\
     m_broken f' = true /\ m_input f' = None /\ m_untiled f' = true) /\
  exists s',
    get_imagespec tiled_io 0 "m.tif" 0 (invalidate tiled_io "m.tif" m_rejected)
    = Some (None, s').
Proof.
  apply (invalidate_keeps_the_untiled_mark tiled_io "m.tif" m_rejected 0 m_record "tiff"
           (demo_spec 256 256 64 64 3 UINT8 []) 0 0).
  - vm_compute. reflexivity.
  - vm_compute. reflexivity.
  - vm_compute. reflexivity.
  - vm_compute. reflexivity.
  - vm_compute. reflexivity.
Defined.

(** ** The regime in which lookups always return *)

Lemma readers_from_app P l l' : forall k,
  readers_from P k (l ++ l') = readers_from P k l + readers_from P (k + length l) l'.
Proof.
  induction l as [| f l IH]; intros k.
  - cbn [app readers_from length]. rewrite Nat.add_0_r. lia.
  - change ((f :: l) ++ l') with (f :: (l ++ l')). cbn [readers_from length].
    rewrite (IH (S k)). replace (S k + length l)%nat with (k + S (length l))%nat by lia.
    lia.
Qed.

Lemma readers_from_all P l : forall k,
  (forall p, (p < length l)%nat -> P (k + p)%nat = true) ->
  readers_from P k l = open_readers l.
Proof.
  induction l as [| f l IH]; intros k H; [reflexivity |].
  cbn [readers_from]. rewrite open_readers_cons, (IH (S k)).
  - specialize (H 0%nat ltac:(cbn; lia)). rewrite Nat.add_0_r in H.
    rewrite H, andb_true_r. reflexivity.
  - intros p Hp. replace (S k + p)%nat with (k + S p)%nat by lia.
    apply H. cbn. lia.
Qed.

(** With every record but the last in the table, the readers in reach are
    all but that of the last. *)
Lemma reachable_but_last s tf :
  length (file_store s) = S tf ->
  (forall p, in_table s p = true <-> (p < tf)%nat) ->
  open_readers (file_store s) - reachable_readers s <= 1.
Proof.
  intros Hlen Hin. unfold reachable_readers.
  pose proof (take_drop tf (file_store s)) as Htd.
  assert (Ht : length (take tf (file_store s)) = tf) by (rewrite length_take; lia).
  assert (Hdl : length (drop tf (file_store s)) = 1%nat) by (rewrite length_drop; lia).
  set (a := take tf (file_store s)) in *. set (b := drop tf (file_store s)) in *.
  clearbody a b. rewrite <- Htd.
  rewrite open_readers_app, readers_from_app.
  rewrite (readers_from_all _ a 0).
  2:{ intros p Hp. apply Hin. cbn. lia. }
  destruct b as [| f [| g r]]; cbn in Hdl; try lia.
  rewrite open_readers_cons. cbn [readers_from].
  change (open_readers []) with 0.
  unfold holds_reader.
  destruct (opened f); cbn [andb]; [| lia].
  destruct (in_table s (0 + length a)); lia.
Qed.

Lemma reachable_registered s :
  registered s -> reachable_readers s = open_readers (file_store s).
Proof.
  intros H. unfold reachable_readers. apply readers_from_all.
  intros p Hp. apply H. exact Hp.
Qed.

Lemma in_table_same s s' : m_files s' = m_files s -> in_table s' = in_table s.
Proof. unfold in_table. intros ->. reflexivity. Qed.

Lemma assoc_set_new {K V} `{EqDecision K} (k : K) (v : V) (l : list (K * V)) :
  assoc_find k l = None -> assoc_set k v l = l ++ [(k, v)].
Proof.
  unfold assoc_find. induction l as [| e l IH]; cbn [List.find assoc_set]; [reflexivity |].
  destruct (decide (fst e = k)) as [He | He].
  - rewrite bool_decide_eq_true_2 by exact He. discriminate.
  - rewrite bool_decide_eq_false_2 by exact He. intros H. rewrite (IH H). reflexivity.
Qed.

(** The whole sweep leaves the counter less the readers in reach as it
    is. *)
Lemma check_max_files_out_of_reach fuel :
  forall s s', check_max_files fuel s = Some s' ->
    m_stat_open_files_current s' - reachable_readers s'
    = m_stat_open_files_current s - reachable_readers s.
Proof.
  induction fuel as [| fuel IH]; intros s s' H; cbn [check_max_files] in H;
    destruct (check_max_files_turn_cases s)
      as [[Ht Hlt] | [[Ht He] | (name & p & Hcur & Hle & Ht)]];
    rewrite Ht in H; try discriminate; try (injection H as <-; reflexivity).
  rewrite (IH _ _ H). apply (visit_out_of_reach _ name p s Hcur).
Qed.

Section Rest.
Variable io : External.

Lemma find_file_enter_frame filename s :
  m_files (find_file_enter io filename s) = m_files s /\
  length (file_store (find_file_enter io filename s)) = S (length (file_store s)) /\
  m_max_open_files (find_file_enter io filename s) = m_max_open_files s.
Proof.
  pose proof (find_file_enter_beside io filename s) as Hb.
  unfold find_file_enter in *.
  pose proof (new_ImageCacheFile_effect io filename s) as Hn.
  destruct (new_ImageCacheFile io filename s) as [f s1]. cbn [fst snd] in *.
  pose proof (open_effect_same _ _ Hn) as Hs1.
  pose proof (same_files_length _ _ Hs1) as Hlen.
  set (s2 := set_file_store (file_store s1 ++ [f]) s1) in *.
  assert (Hl2 : length (file_store s2) = S (length (file_store s))).
  { unfold s2. change (file_store (set_file_store ?l s1)) with l.
    rewrite length_app, Hlen. cbn. lia. }
  assert (Hm2 : m_files s2 = m_files s) by (apply (proj1 Hs1)).
  split; [| split].
  - unfold fingerprint_dedup.
    destruct (file_store s2 !! length (file_store s)) as [g |]; [| exact Hm2].
    destruct (negb _); [| exact Hm2].
    destruct (m_fingerprints s2 !! m_fingerprint g) as [d |]; [| exact Hm2].
    destruct (file_store s2 !! d) as [dup |]; [| exact Hm2].
    match goal with |- context [if ?c then _ else _] => destruct c end; [| exact Hm2].
    pose proof (close_same (set_m_duplicate (Some d) g) s2) as Hc.
    destruct (ImageCacheFile_close _ s2) as [[u g'] s3]. cbn [snd] in Hc.
    change (m_files (put_file ?q ?x s3)) with (m_files s3). rewrite (proj1 Hc). exact Hm2.
  - rewrite <- Hl2, <- !(length_fmap m_duplicate). fold (duplicates s2).
    fold (duplicates (fingerprint_dedup (length (file_store s)) s2)).
    apply fingerprint_dedup_length.
  - exact (f_equal (fun x => fst (fst (fst (fst (fst (fst x)))))) Hb).
Qed.

(** X24. With room for two open files and untiled files accepted,
    lookups always return and keep the file side at rest: in a cache where
    every record is registered, the counter of open files is the number of
    open readers and is below the ceiling, [find_file] returns for every
    name within two turns of its sweep per entry of the table, and leaves a
    cache of the same kind. *)
Theorem find_file_returns_and_stays_at_rest (filename : ustring) (s : ImageCacheImpl) :
  files_at_rest s ->
  m_accept_untiled s = true ->
  2 <= m_max_open_files s ->
  exists r s',
    find_file io (2 * length (m_files s)) filename s = Some (r, s') /\
    files_at_rest s' /\
    m_accept_untiled s' = true /\ m_max_open_files s' = m_max_open_files s.
Proof.
  intros (Hreg & Hsur & Hlt) Hacc Hmax.
  assert (Hsettings : forall r s',
            find_file io (2 * length (m_files s)) filename s = Some (r, s') ->
            m_accept_untiled s' = true /\ m_max_open_files s' = m_max_open_files s).
  { intros r s' H. pose proof (find_file_beside io _ _ _ _ _ H) as Hb.
    split.
    - rewrite <- Hacc. exact (f_equal (fun x => snd (snd (fst (fst x)))) Hb).
    - exact (f_equal (fun x => fst (fst (fst (fst (fst (fst x)))))) Hb). }
  destruct (assoc_find filename (m_files s)) as [q |] eqn:Hq.
  - pose proof (find_file_hit io (2 * length (m_files s)) filename s q Hq) as Hhit.
    eexists _, _. split; [exact Hhit |].
    destruct (Hsettings _ _ Hhit) as [Ha Hm]. split; [| split; assumption].
    set (s' := file_use (follow_duplicate q s) s) in *.
    pose proof (file_use_same (follow_duplicate q s) s) as Hs. fold s' in Hs.
    pose proof (file_use_beside (follow_duplicate q s) s) as Hb. fold s' in Hb.
    split; [| split].
    + intros p. rewrite (in_table_same s s' (proj1 Hs)), (same_files_length _ _ Hs).
      apply Hreg.
    + unfold s'. rewrite file_use_surplus. exact Hsur.
    + rewrite Hm.
      assert (Hc : surplus s' = surplus s) by (unfold s'; apply file_use_surplus).
      unfold surplus in Hc, Hsur.
      assert (Ho : open_readers (file_store s') = open_readers (file_store s)).
      { rewrite <- (reachable_registered s Hreg).
        rewrite <- (reachable_registered s').
        - unfold reachable_readers. rewrite (in_table_same s s' (proj1 Hs)).
          unfold s', file_use.
          destruct (file_store s !! follow_duplicate q s) as [f |] eqn:Hf; [| reflexivity].
          unfold put_file. change (file_store (set_file_store ?l s)) with l.
          rewrite (readers_from_insert _ _ 0 _ f (use f) Hf). 
          change (opened (use f)) with (opened f). lia.
        - intros p. rewrite (in_table_same s s' (proj1 Hs)), (same_files_length _ _ Hs).
          apply Hreg. }
      lia.
  - set (tf := length (file_store s)).
    set (se := find_file_enter io filename s).
    destruct (find_file_enter_frame filename s) as (Hme & Hle & Hmaxe).
    destruct (find_file_enter_surplus io filename s) as [_ Hse].
    specialize (Hse Hacc). fold se in Hme, Hle, Hmaxe, Hse.
    assert (Hine : forall p, in_table se p = true <-> (p < tf)%nat).
    { intros p. rewrite (in_table_same s se Hme). apply Hreg. }
    pose proof (reachable_but_last se tf Hle Hine) as Hbl.
    assert (Hce : m_stat_open_files_current se = open_readers (file_store se))
      by (rewrite Hsur in Hse; unfold surplus in Hse; lia).
    destruct (check_max_files_enough (2 * length (m_files se)) se) as (s3 & Hs3 & Hlt3).
    { rewrite Hmaxe. lia. }
    { intros j name p Hj. apply cost_bound. eapply lookup_lt_Some, Hj. }
    rewrite Hme in Hs3.
    pose proof (check_max_files_same _ _ _ Hs3) as Hsame3.
    pose proof (check_max_files_surplus _ _ _ Hs3) as Hsur3.
    pose proof (check_max_files_out_of_reach _ _ _ Hs3) as Hout3.
    pose proof (check_max_files_beside _ _ _ Hs3) as Hb3.
    assert (Hmax3 : m_max_open_files s3 = m_max_open_files s).
    { rewrite <- Hmaxe. exact (f_equal (fun x => fst (fst (fst (fst (fst (fst x)))))) Hb3). }
    assert (Hlen3 : length (file_store s3) = S tf)
      by (rewrite (same_files_length _ _ Hsame3); exact Hle).
    assert (Hm3 : m_files s3 = m_files s) by (rewrite (proj1 Hsame3); exact Hme).
    assert (Hc3 : m_stat_open_files_current s3 < m_max_open_files s).
    { destruct (m_files s) as [| e l] eqn:Htab.
      - (* the first name: nothing to sweep *)
        assert (Hr : reachable_readers s3 = 0).
        { apply readers_from_none. intros p f Hp Hin. exfalso.
          unfold in_table in Hin. rewrite Hm3 in Hin.
          apply bool_decide_eq_true_1 in Hin. cbn in Hin.
          apply elem_of_nil in Hin. exact Hin. }
        assert (Hre : reachable_readers se = 0).
        { apply readers_from_none. intros p f Hp Hin. exfalso.
          unfold in_table in Hin. rewrite Hme in Hin.
          apply bool_decide_eq_true_1 in Hin. cbn in Hin.
          apply elem_of_nil in Hin. exact Hin. }
        lia.
      - rewrite <- Hmax3. apply Hlt3. rewrite Hme. discriminate. }
    pose proof (find_file_miss io (2 * length (m_files s)) filename s Hq) as Hmiss.
    fold se in Hmiss. rewrite Hs3 in Hmiss. fold tf in Hmiss.
    pose proof (find_file_leave_surplus filename tf s3) as Hsur4.
    pose proof (find_file_leave_beside filename tf s3) as Hb4.
    destruct (find_file_leave filename tf s3) as [r4 s4] eqn:Hleave.
    cbn [snd] in Hsur4, Hb4.
    exists r4, s4. split; [exact Hmiss |].
    destruct (Hsettings _ _ Hmiss) as [Ha Hm]. split; [| split; assumption].
    assert (Hfinal : m_files s4 = m_files s ++ [(filename, tf)] /\
                     length (file_store s4) = S tf /\
                     m_stat_open_files_current s4 = m_stat_open_files_current s3).
    { unfold find_file_leave in Hleave.
      set (s5 := set_m_files (assoc_set filename tf (m_files s3)) s3) in Hleave.
      assert (H5 : m_files s5 = m_files s ++ [(filename, tf)]).
      { unfold s5. change (m_files (set_m_files ?l s3)) with l.
        rewrite Hm3. apply assoc_set_new, Hq. }
      assert (Hu : forall d s6, same_files s5 s6 ->
                   m_stat_open_files_current s6 = m_stat_open_files_current s5 ->
                   m_files (file_use d s6) = m_files s ++ [(filename, tf)] /\
                   length (file_store (file_use d s6)) = S tf /\
                   m_stat_open_files_current (file_use d s6)
                   = m_stat_open_files_current s3).
      { intros d s6 H6 Hc6.
        pose proof (same_files_trans _ _ _ H6 (file_use_same d s6)) as H7.
        split; [rewrite (proj1 H7); exact H5 |].
        split; [rewrite (same_files_length _ _ H7); exact Hlen3 |].
        pose proof (file_use_beside d s6) as Hb7.
        assert (Hs7 : surplus (file_use d s6) = surplus s6) by apply file_use_surplus.
        unfold file_use in *. destruct (file_store s6 !! d); exact Hc6. }
      destruct (match file_store s5 !! tf with
                | Some f => m_duplicate f
                | None => None
                end) as [d |]; injection Hleave as <- <-.
      - apply Hu; [apply same_files_refl | reflexivity].
      - apply Hu; [apply incr_unique_files_same | reflexivity]. }
    destruct Hfinal as (Hm4 & Hlen4 & Hc4).
    split; [| split].
    + intros p. unfold in_table. rewrite Hm4, Hlen4, fmap_app. cbn.
      rewrite bool_decide_eq_true, elem_of_app, list_elem_of_singleton.
      specialize (Hreg p). unfold in_table in Hreg.
      rewrite bool_decide_eq_true in Hreg. fold tf in Hreg. rewrite Hreg. lia.
    + rewrite Hsur4, Hsur3, Hse. exact Hsur.
    + rewrite Hm, Hc4. exact Hc3.
Qed.

End Rest.

Lemma files_at_rest_init : files_at_rest ImageCacheImpl_init.
Proof.
  split; [| split; [reflexivity | reflexivity]].
  intros p. split.
  - intros H. apply bool_decide_eq_true_1 in H. cbn in H. apply elem_of_nil in H.
    destruct H.
  - cbn. lia.
Qed.

Lemma find_file_returns_and_stays_at_rest_witness :
  exists r s',
    find_file demo_io (2 * length (m_files ImageCacheImpl_init)) "a.tif" ImageCacheImpl_init
    = Some (r, s') /\
    files_at_rest s' /\
    m_accept_untiled s' = true /\
    m_max_open_files s' = m_max_open_files ImageCacheImpl_init.
Proof.
  apply (find_file_returns_and_stays_at_rest demo_io "a.tif" ImageCacheImpl_init).
  - exact files_at_rest_init.
  - reflexivity.
  - vm_compute. discriminate.
Defined.

(** ** C9: what the lookup of a file returns, and when *)










(** ** C1: the two ceilings between calls *)

Section Quiet.
Variable io : External.











End Quiet.

Lemma read_directly_b_true f subimage :
  read_directly_b f subimage = true -> read_directly f subimage.
Proof.
  unfold read_directly_b, read_directly. intros H.
  apply andb_true_iff in H as [H H3]. apply andb_true_iff in H as [H1 H2].
  split; [destruct (m_spec f); [discriminate | discriminate] |].
  split; [destruct (m_untiled f); [discriminate | reflexivity] |].
  apply orb_true_iff in H3 as [H3 | H3].
  - left. destruct (m_unmipped f); [discriminate | reflexivity].
  - right. apply Z.eqb_eq, H3.
Qed.

Lemma call_reads_directly_b_true io fuel c s :
  call_reads_directly_b io fuel c s = true -> call_reads_directly io fuel c s.
Proof.
  assert (Hl : forall filename subimage,
            lookup_reads_directly_b io fuel filename subimage s = true ->
            forall p s1,
              find_file io fuel filename (get_perthread_info s) = Some (Some p, s1) ->
              reads_directly s1 p subimage).
  { intros filename subimage H p s1 Hf f Hp.
    unfold lookup_reads_directly_b in H. rewrite Hf, Hp in H.
    apply read_directly_b_true, H. }
  destruct c; cbn [call_reads_directly_b call_reads_directly]; intros H;
    [exact I | apply (Hl _ _ H) | apply (Hl _ _ H) | exact I].
Qed.





(** ** References to tiles and the bytes they keep resident *)

Lemma occurrences_app p l l' :
  occurrences p (l ++ l') = (occurrences p l + occurrences p l')%nat.
Proof. apply count_occ_app. Qed.

Lemma occurrences_cons p q l :
  occurrences p (q :: l) = ((if Nat.eq_dec q p then 1 else 0) + occurrences p l)%nat.
Proof. unfold occurrences. cbn. destruct (Nat.eq_dec q p); reflexivity. Qed.

Lemma occurrences_nil p : occurrences p [] = 0%nat.
Proof. reflexivity. Qed.

Lemma occurrences_option p (r : option nat) :
  occurrences p (option_list r)
  = match r with Some q => if Nat.eq_dec q p then 1%nat else 0%nat | None => 0%nat end.
Proof.
  destruct r as [q |]; [| reflexivity]. change (option_list (Some q)) with [q].
  rewrite occurrences_cons, occurrences_nil. lia.
Qed.

Lemma occurrences_In p l : In p l -> (1 <= occurrences p l)%nat.
Proof. intros H. apply (count_occ_In Nat.eq_dec) in H. unfold occurrences. lia. Qed.

(** Normalises the occurrence counts of a goal and decides it. *)
Ltac count_refs :=
  repeat rewrite ?occurrences_app, ?occurrences_cons, ?occurrences_option,
                 ?occurrences_nil in *;
  repeat match goal with
         | |- context [Nat.eq_dec ?a ?b] => destruct (Nat.eq_dec a b)
         | H : context [Nat.eq_dec ?a ?b] |- _ => destruct (Nat.eq_dec a b)
         | |- context [match ?r with Some _ => _ | None => _ end] => destruct r
         end;
  try subst; try lia; try congruence.

(** *** The invariant reads the ledger only *)

Lemma refcount_view s p :
  refcount s p = from_option (fun v => snd v) 0%nat (map tile_view (tile_store s) !! p).
Proof.
  unfold refcount. change map with (@fmap list _). rewrite list_lookup_fmap.
  destruct (tile_store s !! p); reflexivity.
Qed.

Lemma live_bytes_view l :
  live_bytes l
  = foldr (fun v n => (if (snd v =? 0)%nat then 0 else snd (fst v)) + n) 0
      (map tile_view l).
Proof. induction l as [| t l IH]; [reflexivity |]. cbn. rewrite <- IH. reflexivity. Qed.

Lemma live_tiles_view l :
  live_tiles l
  = foldr (fun v n => (if (snd v =? 0)%nat then 0 else 1) + n) 0 (map tile_view l).
Proof. induction l as [| t l IH]; [reflexivity |]. cbn. rewrite <- IH. reflexivity. Qed.

Lemma id_view s p :
  t_id <$> tile_store s !! p = (fun v => fst (fst v)) <$> (map tile_view (tile_store s) !! p).
Proof.
  change map with (@fmap list _). rewrite list_lookup_fmap.
  destruct (tile_store s !! p); reflexivity.
Qed.

Lemma tiles_pending_ledger b n refs s s' :
  ledger s' = ledger s -> tiles_pending b n refs s -> tiles_pending b n refs s'.
Proof.
  intros Hl (Hc & Hi & Ha1 & Ha2).
  assert (Ht : m_tilecache s' = m_tilecache s) by exact (f_equal (fun x => fst (fst (fst x))) Hl).
  assert (Hv : map tile_view (tile_store s') = map tile_view (tile_store s))
    by exact (f_equal (fun x => snd (fst (fst x))) Hl).
  assert (Hm : m_mem_used s' = m_mem_used s) by exact (f_equal (fun x => snd (fst x)) Hl).
  assert (Hn : m_stat_tiles_current s' = m_stat_tiles_current s) by exact (f_equal snd Hl).
  split; [| split; [| split]].
  - intros p. unfold table_refs. rewrite Ht, refcount_view, Hv, <- refcount_view. apply Hc.
  - intros id p Hin. rewrite Ht in Hin. destruct (Hi id p Hin) as (t & Hp & Hid).
    pose proof (id_view s' p) as H1. pose proof (id_view s p) as H2.
    rewrite Hv, <- H2, Hp in H1. cbn in H1.
    destruct (tile_store s' !! p) as [t' |]; [| discriminate].
    exists t'. split; [reflexivity |]. cbn in H1. congruence.
  - rewrite Hm, live_bytes_view, Hv, <- live_bytes_view. exact Ha1.
  - rewrite Hn, live_tiles_view, Hv, <- live_tiles_view. exact Ha2.
Qed.

Lemma tiles_ok_ledger refs s s' :
  ledger s' = ledger s -> tiles_ok refs s -> tiles_ok refs s'.
Proof. apply tiles_pending_ledger. Qed.

(** The order of the references does not matter. *)
Lemma tiles_pending_fewer b n refs refs' s :
  (forall p, occurrences p refs' = occurrences p refs) ->
  tiles_pending b n refs s -> tiles_pending b n refs' s.
Proof.
  intros Hle (Hc & Hi & Ha). split; [| split; assumption].
  intros p. specialize (Hc p). specialize (Hle p). lia.
Qed.

Lemma tile_side_ledger s s' : tile_side s' = tile_side s -> ledger s' = ledger s.
Proof.
  intros H. unfold ledger.
  assert (Ht : m_tilecache s' = m_tilecache s)
    by exact (f_equal (fun x => fst (fst (fst (fst x)))) H).
  assert (Hs : tile_store s' = tile_store s)
    by exact (f_equal (fun x => snd (fst (fst x))) H).
  assert (Hm : m_mem_used s' = m_mem_used s) by exact (f_equal (fun x => snd (fst x)) H).
  assert (Hn : m_stat_tiles_current s' = m_stat_tiles_current s) by exact (f_equal snd H).
  rewrite Ht, Hs, Hm, Hn. reflexivity.
Qed.

Lemma beside_ledger s s' : beside_files s' = beside_files s -> ledger s' = ledger s.
Proof. intros H. apply tile_side_ledger. exact (f_equal (fun x => snd (fst x)) H). Qed.

Lemma beside_micro s s' : beside_files s' = beside_files s -> micro_refs s' = micro_refs s.
Proof.
  intros H. pose proof (f_equal snd H) as Hm. cbn [snd] in Hm. unfold microcache in Hm.
  unfold micro_refs.
  rewrite (f_equal (fun x => fst (fst x)) Hm : pt_tile _ = pt_tile _).
  rewrite (f_equal (fun x => snd (fst x)) Hm : pt_lasttile _ = pt_lasttile _).
  reflexivity.
Qed.

(** *** Tiles that change in the store *)

Lemma live_bytes_cons t l :
  live_bytes (t :: l) = (if (t_refcnt t =? 0)%nat then 0 else memsize t) + live_bytes l.
Proof. reflexivity. Qed.

Lemma live_tiles_cons t l :
  live_tiles (t :: l) = (if (t_refcnt t =? 0)%nat then 0 else 1) + live_tiles l.
Proof. reflexivity. Qed.

Lemma live_bytes_app l l' : live_bytes (l ++ l') = live_bytes l + live_bytes l'.
Proof.
  induction l as [| t l IH]; [reflexivity |].
  change ((t :: l) ++ l') with (t :: (l ++ l')). rewrite !live_bytes_cons, IH. lia.
Qed.

Lemma live_tiles_app l l' : live_tiles (l ++ l') = live_tiles l + live_tiles l'.
Proof.
  induction l as [| t l IH]; [reflexivity |].
  change ((t :: l) ++ l') with (t :: (l ++ l')). rewrite !live_tiles_cons, IH. lia.
Qed.

Lemma live_bytes_insert l : forall p t t',
  l !! p = Some t ->
  live_bytes (<[p := t']> l)
  = live_bytes l - (if (t_refcnt t =? 0)%nat then 0 else memsize t)
    + (if (t_refcnt t' =? 0)%nat then 0 else memsize t').
Proof.
  induction l as [| x l IH]; intros p t t' H; [discriminate |].
  destruct p as [| p]; cbn in H.
  - injection H as ->. change (<[0%nat := t']> (t :: l)) with (t' :: l).
    rewrite !live_bytes_cons. lia.
  - change (<[S p := t']> (x :: l)) with (x :: <[p := t']> l).
    rewrite !live_bytes_cons, (IH p t t' H). lia.
Qed.

Lemma live_tiles_insert l : forall p t t',
  l !! p = Some t ->
  live_tiles (<[p := t']> l)
  = live_tiles l - (if (t_refcnt t =? 0)%nat then 0 else 1)
    + (if (t_refcnt t' =? 0)%nat then 0 else 1).
Proof.
  induction l as [| x l IH]; intros p t t' H; [discriminate |].
  destruct p as [| p]; cbn in H.
  - injection H as ->. change (<[0%nat := t']> (t :: l)) with (t' :: l).
    rewrite !live_tiles_cons. lia.
  - change (<[S p := t']> (x :: l)) with (x :: <[p := t']> l).
    rewrite !live_tiles_cons, (IH p t t' H). lia.
Qed.

Lemma memsize_nonneg t : 0 <= memsize t.
Proof. unfold memsize. lia. Qed.

Lemma live_bytes_nonneg l : 0 <= live_bytes l.
Proof.
  induction l as [| t l IH]; [reflexivity |]. rewrite live_bytes_cons.
  pose proof (memsize_nonneg t). destruct (t_refcnt t =? 0)%nat; lia.
Qed.

Lemma refcount_put p q t t' s :
  tile_store s !! p = Some t ->
  refcount (put_tile p t' s) q = if Nat.eq_dec p q then t_refcnt t' else refcount s q.
Proof.
  intros Hp. unfold refcount, put_tile.
  change (tile_store (set_tile_store ?l s)) with l.
  destruct (Nat.eq_dec p q) as [<- | Hne].
  - rewrite list_lookup_insert_eq by (eapply lookup_lt_Some, Hp). reflexivity.
  - rewrite list_lookup_insert_ne by exact Hne. reflexivity.
Qed.

Lemma ids_ok_put p t t' s :
  tile_store s !! p = Some t -> t_id t' = t_id t -> ids_ok s -> ids_ok (put_tile p t' s).
Proof.
  intros Hp Hid Hi id q Hin. destruct (Hi id q Hin) as (tq & Hq & Hidq).
  unfold put_tile. change (tile_store (set_tile_store ?l s)) with l.
  destruct (Nat.eq_dec p q) as [<- | Hne].
  - exists t'. split; [apply list_lookup_insert_eq; eapply lookup_lt_Some, Hp |].
    congruence.
  - exists tq. split; [rewrite list_lookup_insert_ne by exact Hne; exact Hq | exact Hidq].
Qed.

(** A tile whose flags change only. *)
Lemma put_tile_ledger p t t' s :
  tile_store s !! p = Some t -> tile_view t' = tile_view t ->
  ledger (put_tile p t' s) = ledger s.
Proof.
  intros Hp Hv. unfold ledger, put_tile.
  change (tile_store (set_tile_store ?l s)) with l.
  change (m_tilecache (set_tile_store ?l s)) with (m_tilecache s).
  change (m_mem_used (set_tile_store ?l s)) with (m_mem_used s).
  change (m_stat_tiles_current (set_tile_store ?l s)) with (m_stat_tiles_current s).
  change map with (@fmap list _). rewrite list_fmap_insert, Hv.
  rewrite list_insert_id; [reflexivity |].
  rewrite list_lookup_fmap, Hp. reflexivity.
Qed.

Lemma tile_use_ledger p s : ledger (tile_use p s) = ledger s.
Proof.
  unfold tile_use. destruct (tile_store s !! p) as [t |] eqn:Hp; [| reflexivity].
  apply (put_tile_ledger p t); [exact Hp | reflexivity].
Qed.

Lemma tile_release_ledger p s : ledger (snd (tile_release p s)) = ledger s.
Proof.
  unfold tile_release. destruct (tile_store s !! p) as [t |] eqn:Hp; [| reflexivity].
  apply (put_tile_ledger p t); [exact Hp | reflexivity].
Qed.

Lemma ref_use_ledger r s : ledger (ref_use r s) = ledger s.
Proof. destruct r; [apply tile_use_ledger | reflexivity]. Qed.

Lemma counted_alive refs s p :
  counted refs s -> In p (table_refs s ++ refs) ->
  exists t, tile_store s !! p = Some t /\ (1 <= t_refcnt t)%nat.
Proof.
  intros Hc Hin. specialize (Hc p). apply occurrences_In in Hin.
  rewrite occurrences_app in Hin. unfold refcount in Hc.
  destruct (tile_store s !! p) as [t |]; [| lia]. exists t. split; [reflexivity | lia].
Qed.

(** A new reference to a tile that is referred to already. *)
Lemma tile_incref_pending b n refs p s :
  tiles_pending b n refs s -> In p (table_refs s ++ refs) ->
  tiles_pending b n (p :: refs) (tile_incref p s).
Proof.
  intros (Hc & Hi & Ha1 & Ha2) Hin.
  destruct (counted_alive refs s p Hc Hin) as (t & Hp & Hlive).
  unfold tile_incref. rewrite Hp.
  split; [| split; [| split]].
  - intros q. rewrite (refcount_put p q t _ s Hp).
    change (table_refs (put_tile p ?t' s)) with (table_refs s).
    specialize (Hc q). unfold refcount in Hc.
    rewrite occurrences_cons. destruct (Nat.eq_dec p q) as [<- | Hne].
    + rewrite Hp in Hc. cbn. lia.
    + fold (refcount s q) in Hc. lia.
  - apply (ids_ok_put p t); [exact Hp | reflexivity | exact Hi].
  - unfold put_tile. change (tile_store (set_tile_store ?l s)) with l.
    change (m_mem_used (set_tile_store ?l s)) with (m_mem_used s).
    rewrite (live_bytes_insert _ p t _ Hp), Ha1. cbn [t_refcnt set_t_refcnt].
    change (memsize (set_t_refcnt ?v t)) with (memsize t).
    destruct (t_refcnt t) as [| k] eqn:Hk; [lia |]. cbn. lia.
  - unfold put_tile. change (tile_store (set_tile_store ?l s)) with l.
    change (m_stat_tiles_current (set_tile_store ?l s)) with (m_stat_tiles_current s).
    rewrite (live_tiles_insert _ p t _ Hp), Ha2. cbn [t_refcnt set_t_refcnt].
    destruct (t_refcnt t) as [| k] eqn:Hk; [lia |]. cbn. lia.
Qed.

(** A reference that goes away; the last one takes the tile with it. *)
Lemma tile_decref_pending b n refs p s :
  tiles_pending b n (p :: refs) s -> tiles_pending b n refs (tile_decref p s).
Proof.
  intros (Hc & Hi & Ha1 & Ha2).
  destruct (counted_alive (p :: refs) s p Hc) as (t & Hp & Hlive).
  { apply in_or_app. right. left. reflexivity. }
  pose proof (Hc p) as Hcp. unfold refcount in Hcp. rewrite Hp, occurrences_cons in Hcp.
  destruct (Nat.eq_dec p p) as [_ | Hne]; [| congruence].
  unfold tile_decref. rewrite Hp.
  destruct (t_refcnt t <=? 1)%nat eqn:Hle.
  - apply Nat.leb_le in Hle.
    split; [| split; [| split]].
    + intros q.
      change (refcount (decr_tiles ?m ?s0) q) with (refcount s0 q).
      change (table_refs (decr_tiles ?m (put_tile p ?t' s))) with (table_refs s).
      rewrite (refcount_put p q t _ s Hp).
      specialize (Hc q). rewrite occurrences_cons in Hc.
      destruct (Nat.eq_dec p q) as [<- | Hne]; [cbn; lia | lia].
    + intros id q Hin.
      apply (ids_ok_put p t (set_t_refcnt 0 t) s Hp eq_refl Hi id q Hin).
    + change (tile_store (decr_tiles ?m (put_tile p ?t' s))) with (<[p := t']> (tile_store s)).
      change (m_mem_used (decr_tiles ?m (put_tile p ?t' s))) with (m_mem_used s - m).
      rewrite (live_bytes_insert _ p t _ Hp). cbn [t_refcnt set_t_refcnt].
      destruct (t_refcnt t) as [| k] eqn:Hk; [lia |]. cbn. lia.
    + change (tile_store (decr_tiles ?m (put_tile p ?t' s))) with (<[p := t']> (tile_store s)).
      change (m_stat_tiles_current (decr_tiles ?m (put_tile p ?t' s)))
        with (m_stat_tiles_current s - 1).
      rewrite (live_tiles_insert _ p t _ Hp). cbn [t_refcnt set_t_refcnt].
      destruct (t_refcnt t) as [| k] eqn:Hk; [lia |]. cbn. lia.
  - apply Nat.leb_gt in Hle.
    split; [| split; [| split]].
    + intros q. rewrite (refcount_put p q t _ s Hp).
      change (table_refs (put_tile p ?t' s)) with (table_refs s).
      specialize (Hc q). rewrite occurrences_cons in Hc.
      destruct (Nat.eq_dec p q) as [<- | Hne]; [cbn; lia | lia].
    + apply (ids_ok_put p t); [exact Hp | reflexivity | exact Hi].
    + unfold put_tile. change (tile_store (set_tile_store ?l s)) with l.
      change (m_mem_used (set_tile_store ?l s)) with (m_mem_used s).
      rewrite (live_bytes_insert _ p t _ Hp), Ha1. cbn [t_refcnt set_t_refcnt].
      change (memsize (set_t_refcnt ?v t)) with (memsize t).
      destruct (t_refcnt t) as [| [| k]] eqn:Hk; [lia | lia |]. cbn. lia.
    + unfold put_tile. change (tile_store (set_tile_store ?l s)) with l.
      change (m_stat_tiles_current (set_tile_store ?l s)) with (m_stat_tiles_current s).
      rewrite (live_tiles_insert _ p t _ Hp), Ha2. cbn [t_refcnt set_t_refcnt].
      destruct (t_refcnt t) as [| [| k]] eqn:Hk; [lia | lia |]. cbn. lia.
Qed.

Lemma ref_drop_pending b n refs r s :
  tiles_pending b n (option_list r ++ refs) s -> tiles_pending b n refs (ref_drop r s).
Proof.
  destruct r as [p |]; [apply tile_decref_pending | exact id].
Qed.

Lemma ref_take_pending b n refs r s :
  tiles_pending b n refs s ->
  (forall p, r = Some p -> In p (table_refs s ++ refs)) ->
  tiles_pending b n (option_list r ++ refs) (ref_take r s).
Proof.
  destruct r as [p |]; [| intros H _; exact H].
  intros H Hin. apply tile_incref_pending; [exact H | apply Hin; reflexivity].
Qed.

(** *** Entries that leave and enter the table *)

Lemma occurrences_delete {A} p (l : list (A * nat)) : forall i a q,
  l !! i = Some (a, q) ->
  occurrences p (map snd l)
  = (occurrences p (map snd (delete i l)) + (if Nat.eq_dec q p then 1 else 0))%nat.
Proof.
  induction l as [| e l IH]; intros i a q H; [discriminate |].
  destruct i as [| i]; cbn in H.
  - injection H as ->. change (delete 0%nat ((a, q) :: l)) with l.
    change (map snd ((a, q) :: l)) with (q :: map snd l).
    rewrite occurrences_cons. lia.
  - change (delete (S i) (e :: l)) with (e :: delete i l).
    change (map snd (e :: ?r)) with (snd e :: map snd r).
    rewrite !occurrences_cons, (IH i a q H). lia.
Qed.

Lemma In_delete {A} (x : A) (l : list A) : forall i, In x (delete i l) -> In x l.
Proof.
  induction l as [| e l IH]; intros i H; [destruct i; exact H |].
  destruct i as [| i].
  - right. exact H.
  - change (delete (S i) (e :: l)) with (e :: delete i l) in H.
    destruct H as [H | H]; [left; exact H | right; apply (IH i H)].
Qed.

Lemma In_assoc_set {K V} `{EqDecision K} (k : K) (v : V) (l : list (K * V)) x :
  In x (assoc_set k v l) -> x = (k, v) \/ In x l.
Proof.
  induction l as [| e l IH]; cbn [assoc_set].
  - intros [H | []]. left. congruence.
  - destruct (decide (fst e = k)).
    + intros [H | H]; [left; congruence | right; right; exact H].
    + intros [H | H]; [right; left; exact H |].
      destruct (IH H) as [H' | H']; [left; exact H' | right; right; exact H'].
Qed.

Lemma occurrences_assoc_set {K} `{EqDecision K} p (k : K) (v : nat) (l : list (K * nat)) :
  (occurrences p (map snd (assoc_set k v l)) + occurrences p (option_list (assoc_find k l))
   = occurrences p (map snd l) + (if Nat.eq_dec v p then 1 else 0))%nat.
Proof.
  unfold assoc_find. induction l as [| e l IH]; cbn [assoc_set List.find map].
  - cbn [fmap option_fmap option_map]. change (option_list None) with (@nil nat).
    rewrite occurrences_cons, !occurrences_nil. cbn [snd]. lia.
  - destruct (decide (fst e = k)) as [He | He].
    + rewrite bool_decide_eq_true_2 by exact He. cbn [fmap option_fmap option_map map].
      change (option_list (Some (snd e))) with [snd e].
      rewrite !occurrences_cons, occurrences_nil. cbn [snd]. lia.
    + rewrite bool_decide_eq_false_2 by exact He. cbn [map].
      rewrite !occurrences_cons. lia.
Qed.

Lemma assoc_find_In {K V} `{EqDecision K} (k : K) (v : V) (l : list (K * V)) :
  assoc_find k l = Some v -> In (k, v) l.
Proof.
  unfold assoc_find. induction l as [| e l IH]; cbn [List.find]; [discriminate |].
  destruct (bool_decide_reflect (fst e = k)) as [He | He].
  - cbn. intros [= <-]. left. destruct e; cbn in *; congruence.
  - intros H. right. apply IH, H.
Qed.

Lemma In_table_refs id p s : In (id, p) (m_tilecache s) -> In p (table_refs s).
Proof. intros H. unfold table_refs. apply (in_map snd _ _ H). Qed.

(** *** The memory sweep *)

Lemma check_max_mem_turn_ok refs s :
  tiles_ok refs s ->
  match check_max_mem_turn s with
  | Done s' => tiles_ok refs s'
  | Again s' => tiles_ok refs s'
  end.
Proof.
  intros Hok. unfold check_max_mem_turn.
  destruct (m_max_memory_bytes s <=? m_mem_used s); [| exact Hok].
  destruct (m_tile_sweep s) as [c |]; [| exact Hok].
  destruct (sweep_begin _ _) as [i |];
    [| apply (tiles_ok_ledger refs s); [reflexivity | exact Hok]].
  destruct (m_tilecache s !! i) as [[id p] |] eqn:Hi; [| exact Hok].
  pose proof (tile_release_ledger p s) as Hl.
  destruct (tile_release p s) as [was_used s1]. cbn [snd] in Hl.
  pose proof (tiles_ok_ledger refs s s1 Hl Hok) as Hok1.
  assert (Ht1 : m_tilecache s1 = m_tilecache s)
    by exact (f_equal (fun x => fst (fst (fst x))) Hl).
  destruct (negb was_used).
  - apply tile_decref_pending.
    set (s2 := set_m_tilecache (delete i (m_tilecache s1)) s1).
    match goal with |- tiles_pending _ _ _ (set_m_tile_sweep ?c s2) =>
      apply (tiles_pending_ledger _ _ _ s2 (set_m_tile_sweep c s2) eq_refl) end.
    destruct Hok1 as (Hc & Hids & Ha).
    split; [| split].
    + intros q. specialize (Hc q).
      change (refcount s2 q) with (refcount s1 q).
      change (table_refs s2) with (map snd (delete i (m_tilecache s1))).
      unfold table_refs in Hc.
      rewrite Ht1 in *. rewrite (occurrences_delete q _ i id p Hi) in Hc.
      rewrite occurrences_cons. lia.
    + intros id' q Hin. change (m_tilecache s2) with (delete i (m_tilecache s1)) in Hin.
      apply In_delete in Hin. apply (Hids id' q Hin).
    + exact Ha.
  - match goal with |- tiles_ok _ (set_m_tile_sweep ?c s1) =>
      apply (tiles_ok_ledger refs s1 (set_m_tile_sweep c s1) eq_refl Hok1) end.
Qed.

Lemma check_max_mem_loop_ok refs fuel :
  forall s s', tiles_ok refs s -> check_max_mem_loop fuel s = Some s' -> tiles_ok refs s'.
Proof.
  induction fuel as [| fuel IH]; intros s s' Hok; simpl;
    pose proof (check_max_mem_turn_ok refs s Hok) as Hc;
    destruct (check_max_mem_turn s) as [s1 | s1].
  - intros [= <-]. exact Hc.
  - discriminate.
  - intros [= <-]. exact Hc.
  - intros H. apply (IH s1 s' Hc H).
Qed.

Lemma check_max_mem_ok refs s : tiles_ok refs s -> tiles_ok refs (check_max_mem s).
Proof.
  intros Hok. unfold check_max_mem. case_bool_decide; [exact Hok |].
  destruct (check_max_mem_loop (2 * length (m_tilecache s)) s) as [s' |] eqn:Hl;
    [| exact Hok].
  cbn. apply (check_max_mem_loop_ok refs _ s s' Hok Hl).
Qed.

(** [add_tile_to_cache] turns the reference that is passed into the
    reference of the table, and takes a new one for the caller. *)
Lemma add_tile_to_cache_ok refs tile s :
  tiles_ok (tile :: refs) s -> tiles_ok (tile :: refs) (add_tile_to_cache tile s).
Proof.
  intros Hok. unfold add_tile_to_cache.
  pose proof (check_max_mem_ok _ s Hok) as Hok1.
  set (s1 := check_max_mem s) in *. clearbody s1.
  destruct (counted_alive _ s1 tile (proj1 Hok1)) as (t & Ht & Hlive).
  { apply in_or_app. right. left. reflexivity. }
  rewrite Ht.
  set (old := assoc_find (t_id t) (m_tilecache s1)).
  set (s2 := set_m_tilecache (assoc_set (t_id t) tile (m_tilecache s1)) s1).
  assert (Hok2 : tiles_ok (option_list old ++ refs) s2).
  { destruct Hok1 as (Hc & Hids & Ha). split; [| split].
    - intros q. specialize (Hc q).
      change (refcount s2 q) with (refcount s1 q).
      change (table_refs s2) with (map snd (assoc_set (t_id t) tile (m_tilecache s1))).
      pose proof (occurrences_assoc_set q (t_id t) tile (m_tilecache s1)) as Ho.
      fold old in Ho. unfold table_refs in Hc.
      rewrite occurrences_cons in Hc. rewrite occurrences_app. lia.
    - intros id q Hin.
      change (m_tilecache s2) with (assoc_set (t_id t) tile (m_tilecache s1)) in Hin.
      change (tile_store s2) with (tile_store s1).
      apply In_assoc_set in Hin as [Hin | Hin]; [| apply (Hids id q Hin)].
      injection Hin as -> ->. exists t. split; [exact Ht | reflexivity].
    - exact Ha. }
  apply ref_drop_pending.
  apply (tiles_pending_fewer _ _ (tile :: option_list old ++ refs)).
  { intros q. count_refs. }
  apply tile_incref_pending; [exact Hok2 |].
  apply in_or_app. left.
  apply (In_table_refs (t_id t)).
  change (m_tilecache s2) with (assoc_set (t_id t) tile (m_tilecache s1)).
  apply assoc_find_In, assoc_find_set.
Qed.

Lemma add_tile_to_cache_finds tile t s :
  tile_store s !! tile = Some t ->
  assoc_find (t_id t) (m_tilecache (add_tile_to_cache tile s)) = Some tile.
Proof. intros Ht. apply (add_tile_to_cache_spec tile t s Ht). Qed.

Lemma incr_tiles_pending b n refs size s :
  tiles_pending b n refs s -> tiles_pending (b - size) (n - 1) refs (incr_tiles size s).
Proof.
  intros (Hc & Hi & Ha1 & Ha2). split; [exact Hc |]. split; [exact Hi |].
  split.
  - change (m_mem_used (incr_tiles size s)) with (m_mem_used s + size).
    change (tile_store (incr_tiles size s)) with (tile_store s). lia.
  - change (m_stat_tiles_current (incr_tiles size s)) with (m_stat_tiles_current s + 1).
    change (tile_store (incr_tiles size s)) with (tile_store s). lia.
Qed.

Lemma incr_tiles_ok refs size s :
  tiles_pending size 1 refs s -> tiles_ok refs (incr_tiles size s).
Proof.
  intros H. apply (incr_tiles_pending _ _ _ size) in H.
  replace (size - size) with 0 in H by lia. exact H.
Qed.

(** A tile that has just been constructed enters the store with the
    reference of its creator; its bytes are still to be added. *)
Lemma new_tile_pending refs t s :
  tiles_ok refs s ->
  tiles_pending (memsize t) 1 (length (tile_store s) :: refs)
    (set_tile_store (tile_store s ++ [set_t_refcnt 1 t]) s).
Proof.
  intros (Hc & Hi & Ha1 & Ha2).
  set (p := length (tile_store s)).
  set (s2 := set_tile_store (tile_store s ++ [set_t_refcnt 1 t]) s).
  assert (Hfresh : refcount s p = 0%nat).
  { unfold refcount. rewrite (lookup_ge_None_2 (tile_store s) p); [reflexivity |].
    unfold p. lia. }
  assert (Hnew : tile_store s2 !! p = Some (set_t_refcnt 1 t)).
  { apply list_lookup_middle. reflexivity. }
  assert (Hold : forall q tq, tile_store s !! q = Some tq -> tile_store s2 !! q = Some tq).
  { intros q tq Hq. apply lookup_app_l_Some, Hq. }
  split; [| split; [| split]].
  - intros q. change (table_refs s2) with (table_refs s). specialize (Hc q).
    rewrite occurrences_cons. destruct (Nat.eq_dec p q) as [<- | Hne].
    + unfold refcount at 1. rewrite Hnew. cbn [t_refcnt set_t_refcnt]. lia.
    + assert (Hr : refcount s2 q = refcount s q).
      { unfold refcount. destruct (tile_store s !! q) as [tq |] eqn:Hq.
        - rewrite (Hold q tq Hq). reflexivity.
        - apply lookup_ge_None_1 in Hq.
          rewrite (lookup_ge_None_2 (tile_store s2) q); [reflexivity |].
          unfold s2. change (tile_store (set_tile_store ?l s)) with l.
          rewrite length_app. cbn. fold p in Hq. fold p. lia. }
      rewrite Hr. lia.
  - intros id q Hin. change (m_tilecache s2) with (m_tilecache s) in Hin.
    destruct (Hi id q Hin) as (tq & Hq & Hid). exists tq. split; [apply Hold, Hq | exact Hid].
  - change (m_mem_used s2) with (m_mem_used s).
    change (tile_store s2) with (tile_store s ++ [set_t_refcnt 1 t]).
    rewrite live_bytes_app, live_bytes_cons. cbn. unfold memsize in *. cbn. lia.
  - change (m_stat_tiles_current s2) with (m_stat_tiles_current s).
    change (tile_store s2) with (tile_store s ++ [set_t_refcnt 1 t]).
    rewrite live_tiles_app, live_tiles_cons. cbn. lia.
Qed.

(** *** The per-thread record is not touched *)

Lemma tile_incref_perthread p s : m_perthread_info (tile_incref p s) = m_perthread_info s.
Proof. unfold tile_incref. destruct (tile_store s !! p); reflexivity. Qed.

Lemma tile_decref_perthread p s : m_perthread_info (tile_decref p s) = m_perthread_info s.
Proof.
  unfold tile_decref. destruct (tile_store s !! p) as [t |]; [| reflexivity].
  destruct (t_refcnt t <=? 1)%nat; reflexivity.
Qed.

Lemma ref_drop_perthread r s : m_perthread_info (ref_drop r s) = m_perthread_info s.
Proof. destruct r; [apply tile_decref_perthread | reflexivity]. Qed.

Lemma tile_use_perthread p s : m_perthread_info (tile_use p s) = m_perthread_info s.
Proof. unfold tile_use. destruct (tile_store s !! p); reflexivity. Qed.

Lemma tile_release_perthread p s :
  m_perthread_info (snd (tile_release p s)) = m_perthread_info s.
Proof. unfold tile_release. destruct (tile_store s !! p); reflexivity. Qed.

Lemma check_max_mem_turn_perthread s :
  match check_max_mem_turn s with
  | Done s' => m_perthread_info s' = m_perthread_info s
  | Again s' => m_perthread_info s' = m_perthread_info s
  end.
Proof.
  unfold check_max_mem_turn.
  destruct (m_max_memory_bytes s <=? m_mem_used s); [| reflexivity].
  destruct (m_tile_sweep s) as [c |]; [| reflexivity].
  destruct (sweep_begin _ _) as [i |]; [| reflexivity].
  destruct (m_tilecache s !! i) as [[id p] |]; [| reflexivity].
  pose proof (tile_release_perthread p s) as Hr.
  destruct (tile_release p s) as [u s1]. cbn [snd] in Hr.
  destruct (negb u).
  - rewrite tile_decref_perthread. exact Hr.
  - exact Hr.
Qed.

Lemma check_max_mem_loop_perthread fuel :
  forall s s', check_max_mem_loop fuel s = Some s' ->
    m_perthread_info s' = m_perthread_info s.
Proof.
  induction fuel as [| fuel IH]; intros s s'; simpl;
    pose proof (check_max_mem_turn_perthread s) as Hc;
    destruct (check_max_mem_turn s) as [s1 | s1].
  - intros [= <-]. exact Hc.
  - discriminate.
  - intros [= <-]. exact Hc.
  - intros H. rewrite (IH _ _ H). exact Hc.
Qed.

Lemma check_max_mem_perthread s : m_perthread_info (check_max_mem s) = m_perthread_info s.
Proof.
  unfold check_max_mem. case_bool_decide; [reflexivity |].
  destruct (check_max_mem_loop (2 * length (m_tilecache s)) s) as [s' |] eqn:Hl;
    [| reflexivity].
  cbn. eapply check_max_mem_loop_perthread; eauto.
Qed.

Lemma add_tile_to_cache_perthread tile s :
  m_perthread_info (add_tile_to_cache tile s) = m_perthread_info s.
Proof.
  unfold add_tile_to_cache.
  destruct (tile_store (check_max_mem s) !! tile) as [t |];
    [| apply check_max_mem_perthread].
  rewrite ref_drop_perthread, tile_incref_perthread. apply check_max_mem_perthread.
Qed.

Lemma micro_refs_perthread s s' :
  m_perthread_info s' = m_perthread_info s -> micro_refs s' = micro_refs s.
Proof. unfold micro_refs. intros ->. reflexivity. Qed.

(** *** Looking a tile up in the table *)

(** A lookup that hits: the table's tile gets a reference more, the
    reference that was passed goes. *)
Lemma table_hit_ok refs tile p s :
  In p (table_refs s) ->
  tiles_ok (option_list tile ++ refs) s ->
  tiles_ok (p :: refs) (tile_use p (ref_drop tile (tile_incref p s))).
Proof.
  intros Hin Hok.
  apply (tiles_ok_ledger _ (ref_drop tile (tile_incref p s))); [apply tile_use_ledger |].
  apply ref_drop_pending.
  apply (tiles_pending_fewer _ _ (p :: option_list tile ++ refs)).
  { intros q. count_refs. }
  apply tile_incref_pending; [exact Hok |]. apply in_or_app. left. exact Hin.
Qed.

(** A lookup that misses, from the point where the tile [t] has been
    constructed. *)
Lemma table_miss_ok refs tile t s :
  tiles_ok (option_list tile ++ refs) s ->
  tiles_ok (length (tile_store s) :: refs)
    (add_tile_to_cache (length (tile_store s))
       (incr_tiles (memsize t)
          (ref_drop tile (set_tile_store (tile_store s ++ [set_t_refcnt 1 t]) s)))).
Proof.
  intros Hok.
  apply add_tile_to_cache_ok. apply incr_tiles_ok. apply ref_drop_pending.
  apply (tiles_pending_fewer _ _ (length (tile_store s) :: option_list tile ++ refs)).
  { intros q. count_refs. }
  apply new_tile_pending, Hok.
Qed.

Lemma cache_ok_beside handles s s' :
  beside_files s' = beside_files s -> cache_ok handles s -> cache_ok handles s'.
Proof.
  intros Hb Hok. unfold cache_ok. rewrite (beside_micro _ _ Hb).
  apply (tiles_ok_ledger _ s); [apply beside_ledger, Hb | exact Hok].
Qed.

Section TileLookup.
Variable io : External.

(** A tile that is read from its file is constructed without a change on
    the tile side. *)
Lemma new_ImageCacheTile_ok handles id s :
  reads_directly s (id_file id) (id_subimage id) ->
  cache_ok handles s -> cache_ok handles (snd (new_ImageCacheTile io id s)).
Proof.
  intros Hd Hok.
  apply (cache_ok_beside handles s); [| exact Hok].
  apply (new_ImageCacheTile_direct io id s Hd).
Qed.

(** The lookup leaves a valid sweep iterator valid. *)
Lemma find_tile_main_cache_valid id tile s :
  reads_directly s (id_file id) (id_subimage id) ->
  sweep_valid s -> sweep_valid (snd (find_tile_main_cache io id tile s)).
Proof.
  intros Hd Hv. unfold find_tile_main_cache, sweep_valid in *.
  change (m_tilecache (on_stats ?g s)) with (m_tilecache s).
  destruct (assoc_find id (m_tilecache s)) as [p |].
  - cbn [snd]. rewrite tile_use_sweep, ref_drop_sweep, tile_incref_sweep. exact Hv.
  - fold (miss_state s).
    destruct (new_ImageCacheTile_direct io id (miss_state s) Hd) as (Hb & _).
    destruct (new_ImageCacheTile io id (miss_state s)) as [t s1]. cbn [fst snd] in *.
    rewrite add_tile_to_cache_sweep. apply check_max_mem_valid.
    unfold sweep_valid.
    change (m_tile_sweep (incr_tiles ?n ?x)) with (m_tile_sweep x).
    rewrite ref_drop_sweep.
    change (m_tile_sweep (set_tile_store ?l s1)) with (m_tile_sweep s1).
    pose proof (f_equal (fun x => snd (fst (fst (fst (snd (fst x)))))) Hb) as Hsw.
    cbn in Hsw. rewrite Hsw. exact Hv.
Qed.

(** The contract of [find_tile_main_cache]: the reference that is passed
    is given up, and the reference that comes back is to a tile of the
    requested id, which the table holds under that id. *)
Lemma find_tile_main_cache_ok handles id tile s :
  reads_directly s (id_file id) (id_subimage id) ->
  cache_ok (option_list tile ++ handles) s ->
  exists p t,
    snd (fst (find_tile_main_cache io id tile s)) = Some p /\
    tile_store (snd (find_tile_main_cache io id tile s)) !! p = Some t /\
    t_id t = id /\
    assoc_find id (m_tilecache (snd (find_tile_main_cache io id tile s))) = Some p /\
    cache_ok (p :: handles) (snd (find_tile_main_cache io id tile s)).
Proof.
  intros Hd Hok.
  destruct (assoc_find id (m_tilecache s)) as [p |] eqn:Hfind.
  - unfold find_tile_main_cache.
    set (s0 := on_stats _ s).
    change (m_tilecache s0) with (m_tilecache s). rewrite Hfind. cbn [fst snd].
    assert (Hok0 : tiles_ok (option_list tile ++ micro_refs s0 ++ handles) s0).
    { apply (tiles_ok_ledger _ s); [reflexivity |].
      apply (tiles_pending_fewer _ _ (micro_refs s ++ option_list tile ++ handles));
        [| exact Hok].
      intros q. change (micro_refs s0) with (micro_refs s). count_refs. }
    assert (Hin : In (id, p) (m_tilecache s0)) by (apply assoc_find_In, Hfind).
    pose proof (table_hit_ok _ tile p s0 (In_table_refs id p s0 Hin) Hok0) as Hok3.
    set (s3 := tile_use p (ref_drop tile (tile_incref p s0))) in *.
    assert (Hpt : m_perthread_info s3 = m_perthread_info s0).
    { unfold s3. rewrite tile_use_perthread, ref_drop_perthread.
      apply tile_incref_perthread. }
    assert (Ht3 : m_tilecache s3 = m_tilecache s).
    { pose proof (tile_use_ledger p (ref_drop tile (tile_incref p s0))) as Hl.
      unfold s3.
      rewrite (f_equal (fun x => fst (fst (fst x))) Hl : m_tilecache _ = m_tilecache _).
      rewrite ref_drop_tilecache.
      rewrite (proj2 (proj2 (tile_incref_frame p s0))). reflexivity. }
    assert (Hin3 : In (id, p) (m_tilecache s3)) by (rewrite Ht3; exact Hin).
    destruct (proj1 (proj2 Hok3) id p Hin3) as (t & Hp & Hid).
    exists p, t. split; [reflexivity |]. split; [exact Hp |]. split; [exact Hid |].
    split; [rewrite Ht3; exact Hfind |].
    unfold cache_ok. rewrite (micro_refs_perthread _ _ Hpt).
    apply (tiles_pending_fewer _ _ (p :: micro_refs s0 ++ handles)); [| exact Hok3].
    intros q. count_refs.
  - destruct (find_tile_main_cache_miss io id tile s Hfind) as (_ & Hr & Htab & t' & Hp & Hcore).
    exists (length (tile_store (snd (new_ImageCacheTile io id (miss_state s))))), t'.
    split; [exact Hr |]. split; [exact Hp |].
    split.
    { pose proof (new_ImageCacheTile_shape io id (miss_state s)) as (Hid & _).
      unfold tile_core in Hcore. congruence. }
    split; [exact Htab |].
    unfold find_tile_main_cache.
    change (m_tilecache (on_stats _ s)) with (m_tilecache s). rewrite Hfind.
    fold (miss_state s).
    assert (Hok0 : cache_ok (option_list tile ++ handles) (miss_state s)).
    { unfold cache_ok. change (micro_refs (miss_state s)) with (micro_refs s).
      apply (tiles_ok_ledger _ s); [reflexivity | exact Hok]. }
    pose proof (new_ImageCacheTile_ok _ id (miss_state s) Hd Hok0) as Hok1.
    destruct (new_ImageCacheTile io id (miss_state s)) as [t s1]. cbn [fst snd] in *.
    assert (Hok1' : tiles_ok (option_list tile ++ micro_refs s1 ++ handles) s1).
    { apply (tiles_pending_fewer _ _ (micro_refs s1 ++ option_list tile ++ handles));
        [| exact Hok1].
      intros q. count_refs. }
    pose proof (table_miss_ok _ tile t s1 Hok1') as Hok5.
    set (s5 := add_tile_to_cache _ _) in *.
    assert (Hpt : m_perthread_info s5 = m_perthread_info s1).
    { unfold s5. rewrite add_tile_to_cache_perthread.
      change (m_perthread_info (incr_tiles ?z ?x)) with (m_perthread_info x).
      rewrite ref_drop_perthread. reflexivity. }
    unfold cache_ok. rewrite (micro_refs_perthread _ _ Hpt).
    apply (tiles_pending_fewer _ _ (length (tile_store s1) :: micro_refs s1 ++ handles));
      [| exact Hok5].
    intros q. count_refs.
Qed.

End TileLookup.

(** *** The purge of the microcache *)

Lemma get_perthread_info_ok handles s :
  cache_ok handles s -> cache_ok handles (get_perthread_info s).
Proof.
  intros Hok. unfold get_perthread_info.
  destruct (pt_purge (m_perthread_info s)); [| exact Hok].
  set (s1 := ref_drop (pt_tile (m_perthread_info s)) s).
  assert (Hpt1 : m_perthread_info s1 = m_perthread_info s) by apply ref_drop_perthread.
  rewrite Hpt1.
  assert (Hok1 : tiles_ok (option_list (pt_lasttile (m_perthread_info s)) ++ handles) s1).
  { apply ref_drop_pending. unfold cache_ok, micro_refs in Hok.
    rewrite <- app_assoc in Hok. exact Hok. }
  apply ref_drop_pending in Hok1.
  match goal with |- cache_ok _ (set_m_perthread_info ?pt ?s2) =>
    apply (tiles_ok_ledger _ s2 (set_m_perthread_info pt s2) eq_refl) end.
  exact Hok1.
Qed.

Lemma cache_ok_init : cache_ok [] ImageCacheImpl_init.
Proof.
  split; [| split; [| split]].
  - intros p. unfold refcount.
    change (tile_store ImageCacheImpl_init) with (@nil ImageCacheTile).
    rewrite lookup_nil. reflexivity.
  - intros id p [].
  - reflexivity.
  - reflexivity.
Qed.

Lemma cache_ok_alive handles s p :
  cache_ok handles s -> In p (table_refs s ++ handles) ->
  exists t, tile_store s !! p = Some t /\ (1 <= t_refcnt t)%nat.
Proof.
  intros Hok Hin. apply (counted_alive _ s p (proj1 Hok)).
  apply in_app_or in Hin as [Hin | Hin]; apply in_or_app; [left; exact Hin |].
  right. apply in_or_app. right. exact Hin.
Qed.

(** *** Handles *)

Lemma release_tile_ok handles p s :
  cache_ok (p :: handles) s -> cache_ok handles (release_tile (Some p) s).
Proof.
  intros Hok. unfold release_tile.
  assert (Hpt : m_perthread_info
                  (tile_decref p (tile_decref p (tile_use p (tile_incref p s))))
                = m_perthread_info s).
  { rewrite !tile_decref_perthread, tile_use_perthread. apply tile_incref_perthread. }
  unfold cache_ok. rewrite (micro_refs_perthread _ _ Hpt).
  apply tile_decref_pending, tile_decref_pending.
  apply (tiles_ok_ledger _ (tile_incref p s)); [apply tile_use_ledger |].
  apply (tiles_pending_fewer _ _ (p :: micro_refs s ++ p :: handles)).
  { intros q. count_refs. }
  apply tile_incref_pending; [exact Hok |].
  apply in_or_app. right. apply in_or_app. right. left. reflexivity.
Qed.

Section Handles.
Variable io : External.

Lemma get_tile_ok handles fuel filename subimage x y z s r s' :
  (forall p s1,
     find_file io fuel filename (get_perthread_info s) = Some (Some p, s1) ->
     reads_directly s1 p subimage) ->
  cache_ok handles s ->
  get_tile io fuel filename subimage x y z s = Some (r, s') ->
  cache_ok (option_list r ++ handles) s'.
Proof.
  intros Hd Hok. unfold get_tile.
  pose proof (get_perthread_info_ok handles s Hok) as Hok0.
  destruct (find_file io fuel filename (get_perthread_info s)) as [[file s1] |] eqn:Hf;
    [| discriminate].
  pose proof (cache_ok_beside handles _ s1 (find_file_beside _ _ _ _ _ _ Hf) Hok0) as Hok1.
  destruct file as [p |]; [| intros [= <- <-]; exact Hok1].
  specialize (Hd p s1 eq_refl).
  destruct (deref_file (Some p) s1) as [f |]; [| intros [= <- <-]; exact Hok1].
  destruct (m_broken f); [intros [= <- <-]; exact Hok1 |].
  destruct ((tile_width (spec_at f 0) =? 0) || (tile_height (spec_at f 0) =? 0)
            || (tile_depth (spec_at f 0) =? 0)); [discriminate |].
  cbv zeta.
  match goal with |- context [find_tile_main_cache io ?i None s1] => set (id := i) end.
  destruct (find_tile_main_cache_ok io handles id None s1 Hd Hok1)
    as (q & t & Hr & Hq & Hid & Htab & Hok2).
  destruct (find_tile_main_cache io id None s1) as [[ok tile] s2]. cbn [fst snd] in *.
  subst tile.
  destruct ok; intros [= <- <-].
  - cbn [ref_drop ref_use ref_take option_list].
    assert (Hpt : m_perthread_info (tile_decref q (tile_use q (tile_incref q s2)))
                  = m_perthread_info s2).
    { rewrite tile_decref_perthread, tile_use_perthread. apply tile_incref_perthread. }
    unfold cache_ok. rewrite (micro_refs_perthread _ _ Hpt).
    apply tile_decref_pending.
    apply (tiles_ok_ledger _ (tile_incref q s2)); [apply tile_use_ledger |].
    apply (tiles_pending_fewer _ _ (q :: micro_refs s2 ++ q :: handles)).
    { intros p'. change (option_list (Some q)) with [q]. count_refs. }
    apply tile_incref_pending; [exact Hok2 |].
    apply in_or_app. right. apply in_or_app. right. left. reflexivity.
  - cbn [ref_drop option_list].
    unfold cache_ok. rewrite (micro_refs_perthread _ _ (tile_decref_perthread q s2)).
    apply tile_decref_pending.
    apply (tiles_pending_fewer _ _ (micro_refs s2 ++ q :: handles)); [| exact Hok2].
    intros p'. change (@app nat [] handles) with handles. count_refs.
Qed.

End Handles.

(** *** Invalidation *)

Lemma tile_decref_tilecache_comm c p s :
  tile_decref p (set_m_tilecache c s) = set_m_tilecache c (tile_decref p s).
Proof.
  unfold tile_decref. change (tile_store (set_m_tilecache c s)) with (tile_store s).
  destruct (tile_store s !! p) as [t |]; [| reflexivity].
  destruct (t_refcnt t <=? 1)%nat; reflexivity.
Qed.

(** The erase loop, with the references of the table held apart. *)
Lemma erase_tiles_of_loose file l :
  forall s refs,
    tiles_ok (map snd l ++ refs) (set_m_tilecache [] s) ->
    tiles_ok (map snd (fst (erase_tiles_of file l s)) ++ refs)
      (set_m_tilecache [] (snd (erase_tiles_of file l s))).
Proof.
  induction l as [| [id p] rest IH]; intros s refs Hok; cbn [erase_tiles_of].
  - exact Hok.
  - destruct (bool_decide (id_file id = file)).
    + apply IH. rewrite <- tile_decref_tilecache_comm.
      apply tile_decref_pending. exact Hok.
    + assert (Hok' : tiles_ok (map snd rest ++ p :: refs) (set_m_tilecache [] s)).
      { apply (tiles_pending_fewer _ _ (map snd ((id, p) :: rest) ++ refs)); [| exact Hok].
        intros q. change (map snd ((id, p) :: rest)) with (p :: map snd rest). count_refs. }
      specialize (IH s (p :: refs) Hok').
      destruct (erase_tiles_of file rest s) as [rest' s1]. cbn [fst snd] in *.
      apply (tiles_pending_fewer _ _ (map snd rest' ++ p :: refs)); [| exact IH].
      intros q. change (map snd ((id, p) :: rest')) with (p :: map snd rest'). count_refs.
Qed.

Lemma erase_tiles_of_cores file l :
  forall s, tile_cores (snd (erase_tiles_of file l s)) = tile_cores s.
Proof.
  induction l as [| [id p] rest IH]; intros s; cbn [erase_tiles_of]; [reflexivity |].
  destruct (bool_decide (id_file id = file)).
  - rewrite IH. apply tile_decref_cores.
  - specialize (IH s). destruct (erase_tiles_of file rest s) as [rest' s1]. exact IH.
Qed.

Lemma erase_tiles_of_perthread file l :
  forall s, m_perthread_info (snd (erase_tiles_of file l s)) = m_perthread_info s.
Proof.
  induction l as [| [id p] rest IH]; intros s; cbn [erase_tiles_of]; [reflexivity |].
  destruct (bool_decide (id_file id = file)).
  - rewrite IH. apply tile_decref_perthread.
  - specialize (IH s). destruct (erase_tiles_of file rest s) as [rest' s1]. exact IH.
Qed.

Lemma erase_tiles_of_sublist file l :
  forall s x, In x (fst (erase_tiles_of file l s)) -> In x l.
Proof.
  induction l as [| [id p] rest IH]; intros s x; cbn [erase_tiles_of]; [exact id |].
  destruct (bool_decide (id_file id = file)).
  - intros H. right. apply (IH _ _ H).
  - specialize (IH s x). destruct (erase_tiles_of file rest s) as [rest' s1].
    cbn [fst] in *. intros [H | H]; [left; exact H | right; apply IH, H].
Qed.

(** The erase loop of [invalidate], with the table it leaves. *)
Lemma erase_tiles_ok refs file s :
  tiles_ok refs s ->
  tiles_ok refs
    (set_m_tilecache (fst (erase_tiles_of file (m_tilecache s) s))
       (snd (erase_tiles_of file (m_tilecache s) s))).
Proof.
  intros Hok.
  assert (Hout : tiles_ok (map snd (m_tilecache s) ++ refs) (set_m_tilecache [] s)).
  { destruct Hok as (Hc & Hi & Ha). split; [| split].
    - intros q. specialize (Hc q).
      change (refcount (set_m_tilecache [] s) q) with (refcount s q).
      change (table_refs (set_m_tilecache [] s)) with (@nil nat).
      unfold table_refs in Hc. rewrite occurrences_app, occurrences_nil. lia.
    - intros id p [].
    - exact Ha. }
  pose proof (erase_tiles_of_loose file _ s refs Hout) as Hl.
  pose proof (erase_tiles_of_cores file (m_tilecache s) s) as Hcores.
  pose proof (erase_tiles_of_sublist file (m_tilecache s) s) as Hsub.
  destruct (erase_tiles_of file (m_tilecache s) s) as [tiles s1]. cbn [fst snd] in *.
  destruct Hl as (Hc & _ & Ha). split; [| split].
  - intros q. specialize (Hc q).
    change (refcount (set_m_tilecache tiles s1) q) with (refcount s1 q).
    change (refcount (set_m_tilecache [] s1) q) with (refcount s1 q) in Hc.
    change (table_refs (set_m_tilecache tiles s1)) with (map snd tiles).
    change (table_refs (set_m_tilecache [] s1)) with (@nil nat) in Hc.
    rewrite occurrences_app, occurrences_nil in Hc. lia.
  - intros id p Hin. change (m_tilecache (set_m_tilecache tiles s1)) with tiles in Hin.
    change (tile_store (set_m_tilecache tiles s1)) with (tile_store s1).
    destruct (proj1 (proj2 Hok) id p (Hsub _ Hin)) as (t & Hp & Hid).
    destruct (cores_lookup s s1 p t Hcores Hp) as (t' & Hp' & Hcore).
    exists t'. split; [exact Hp' |]. unfold tile_core in Hcore. congruence.
  - exact Ha.
Qed.

Section InvalidateTiles.
Variable io : External.

Lemma invalidate_on_file_ok handles file s :
  cache_ok handles s ->
  cache_ok handles (snd (on_file file (ImageCacheFile_invalidate io) tt s)).
Proof.
  intros Hok. unfold on_file. destruct (file_store s !! file) as [f |]; [| exact Hok].
  unfold ImageCacheFile_invalidate.
  pose proof (open_effect_beside _ _ (close_effect f s)) as Hc.
  destruct (ImageCacheFile_close f s) as [[u f1] s1]. cbn [snd] in Hc.
  pose proof (get_perthread_info_ok handles s1 (cache_ok_beside _ _ _ Hc Hok)) as Hok2.
  set (f2 := set_m_duplicate None _).
  pose proof (open_effect_beside _ _
                (ImageCacheFile_open_effect io f2 (get_perthread_info s1))) as Ho.
  destruct (ImageCacheFile_open io f2 (get_perthread_info s1)) as [[ok f3] s3].
  cbn [fst snd] in *.
  apply (cache_ok_beside handles s3); [reflexivity |].
  apply (cache_ok_beside handles _ s3 Ho Hok2).
Qed.

Lemma invalidate_ok handles filename s :
  cache_ok handles s -> cache_ok handles (invalidate io filename s).
Proof.
  intros Hok. unfold invalidate.
  destruct (assoc_find filename (m_files s)) as [file |]; [| exact Hok].
  pose proof (erase_tiles_ok _ file s Hok) as He.
  pose proof (erase_tiles_of_perthread file (m_tilecache s) s) as Hpt.
  destruct (erase_tiles_of file (m_tilecache s) s) as [tiles s1]. cbn [fst snd] in *.
  set (s2 := set_m_tile_sweep _ (set_m_tilecache tiles s1)).
  assert (Hok2 : cache_ok handles s2).
  { unfold cache_ok. change (micro_refs s2) with (micro_refs s1).
    rewrite (micro_refs_perthread _ _ Hpt).
    apply (tiles_ok_ledger _ (set_m_tilecache tiles s1)); [reflexivity | exact He]. }
  pose proof (invalidate_on_file_ok handles file s2 Hok2) as Hok3.
  destruct (on_file file (ImageCacheFile_invalidate io) tt s2) as [u s3].
  cbn [snd] in Hok3.
  unfold cache_ok.
  match goal with |- tiles_ok _ (set_m_perthread_info ?pt s3) =>
    change (micro_refs (set_m_perthread_info pt s3)) with (micro_refs s3);
    apply (tiles_ok_ledger _ s3 (set_m_perthread_info pt s3) eq_refl) end.
  exact Hok3.
Qed.

End InvalidateTiles.

Lemma check_max_mem_cache_ok handles s :
  cache_ok handles s -> cache_ok handles (check_max_mem s).
Proof.
  intros Hok. unfold cache_ok.
  rewrite (micro_refs_perthread _ _ (check_max_mem_perthread s)).
  apply check_max_mem_ok, Hok.
Qed.

(** *** Pixels stay *)

Lemma beside_cores s s' : beside_files s' = beside_files s -> tile_cores s' = tile_cores s.
Proof.
  intros H. unfold tile_cores.
  rewrite (f_equal (fun x => snd (fst (fst (snd (fst x))))) H : tile_store s' = tile_store s).
  reflexivity.
Qed.

Lemma get_perthread_info_cores s : tile_cores (get_perthread_info s) = tile_cores s.
Proof.
  unfold get_perthread_info. destruct (pt_purge (m_perthread_info s)); [| reflexivity].
  change (tile_cores (set_m_perthread_info ?pt ?x)) with (tile_cores x).
  rewrite !ref_drop_cores. reflexivity.
Qed.

Lemma invalidate_cores io filename s : tile_cores (invalidate io filename s) = tile_cores s.
Proof.
  unfold invalidate.
  destruct (assoc_find filename (m_files s)) as [file |]; [| reflexivity].
  pose proof (erase_tiles_of_cores file (m_tilecache s) s) as He.
  destruct (erase_tiles_of file (m_tilecache s) s) as [tiles s1]. cbn [snd] in He.
  set (s2 := set_m_tile_sweep _ (set_m_tilecache tiles s1)).
  assert (H2 : tile_cores s2 = tile_cores s) by exact He.
  assert (H3 : tile_cores (snd (on_file file (ImageCacheFile_invalidate io) tt s2))
               = tile_cores s2).
  { unfold on_file. destruct (file_store s2 !! file) as [f |]; [| reflexivity].
    unfold ImageCacheFile_invalidate.
    pose proof (beside_cores _ _ (open_effect_beside _ _ (close_effect f s2))) as Hc.
    destruct (ImageCacheFile_close f s2) as [[u f1] s3]. cbn [snd] in Hc.
    set (f2 := set_m_duplicate None _).
    pose proof (beside_cores _ _ (open_effect_beside _ _
                  (ImageCacheFile_open_effect io f2 (get_perthread_info s3)))) as Ho.
    destruct (ImageCacheFile_open io f2 (get_perthread_info s3)) as [[ok f3] s4].
    cbn [fst snd] in *.
    change (tile_cores (put_file file f3 s4)) with (tile_cores s4).
    rewrite Ho, get_perthread_info_cores. exact Hc. }
  destruct (on_file file (ImageCacheFile_invalidate io) tt s2) as [u s3].
  cbn [snd] in H3.
  change (tile_cores (set_m_perthread_info ?pt s3)) with (tile_cores s3).
  rewrite H3. exact H2.
Qed.

(** *** The sweep iterator and the microcache *)

Lemma beside_files_sweep s s' :
  beside_files s' = beside_files s -> m_tile_sweep s' = m_tile_sweep s.
Proof. intros H. exact (f_equal (fun x => snd (fst (fst (fst (snd (fst x)))))) H). Qed.

Lemma get_perthread_info_sweep s : m_tile_sweep (get_perthread_info s) = m_tile_sweep s.
Proof.
  unfold get_perthread_info. destruct (pt_purge (m_perthread_info s)); [| reflexivity].
  change (m_tile_sweep (set_m_perthread_info ?pt ?x)) with (m_tile_sweep x).
  rewrite !ref_drop_sweep. reflexivity.
Qed.

Lemma find_tile_main_cache_micro io id tile s :
  reads_directly s (id_file id) (id_subimage id) ->
  micro_refs (snd (find_tile_main_cache io id tile s)) = micro_refs s.
Proof.
  intros Hd. unfold find_tile_main_cache.
  set (s0 := on_stats _ s).
  change (m_tilecache s0) with (m_tilecache s).
  change (micro_refs s) with (micro_refs s0).
  destruct (assoc_find id (m_tilecache s)) as [p |].
  - cbn [snd]. apply micro_refs_perthread.
    rewrite tile_use_perthread, ref_drop_perthread. apply tile_incref_perthread.
  - set (s0' := on_stats _ s0).
    change (micro_refs s0) with (micro_refs s0').
    destruct (new_ImageCacheTile_direct io id s0' Hd) as (Hb & _).
    destruct (new_ImageCacheTile io id s0') as [t s1]. cbn [fst snd] in *.
    rewrite <- (beside_micro _ _ Hb).
    apply micro_refs_perthread. rewrite add_tile_to_cache_perthread.
    change (m_perthread_info (incr_tiles ?z ?x)) with (m_perthread_info x).
    rewrite ref_drop_perthread. reflexivity.
Qed.

Lemma get_tile_valid io fuel filename subimage x y z s r s' :
  (forall p s1,
     find_file io fuel filename (get_perthread_info s) = Some (Some p, s1) ->
     reads_directly s1 p subimage) ->
  sweep_valid s ->
  get_tile io fuel filename subimage x y z s = Some (r, s') ->
  sweep_valid s'.
Proof.
  intros Hd Hv. unfold get_tile.
  destruct (find_file io fuel filename (get_perthread_info s)) as [[file s1] |] eqn:Hf;
    [| discriminate].
  assert (Hv1 : sweep_valid s1).
  { unfold sweep_valid.
    rewrite (beside_files_sweep _ _ (find_file_beside _ _ _ _ _ _ Hf)).
    rewrite get_perthread_info_sweep. exact Hv. }
  destruct file as [p |]; [| intros [= <- <-]; exact Hv1].
  specialize (Hd p s1 eq_refl).
  destruct (deref_file (Some p) s1) as [f |]; [| intros [= <- <-]; exact Hv1].
  destruct (m_broken f); [intros [= <- <-]; exact Hv1 |].
  destruct ((tile_width (spec_at f 0) =? 0) || (tile_height (spec_at f 0) =? 0)
            || (tile_depth (spec_at f 0) =? 0)); [discriminate |].
  cbv zeta.
  match goal with |- context [find_tile_main_cache io ?id None s1] =>
    pose proof (find_tile_main_cache_valid io id None s1 Hd Hv1) as Hv2;
    destruct (find_tile_main_cache io id None s1) as [[ok tile] s2] end.
  cbn [snd] in Hv2. unfold sweep_valid in *.
  destruct ok; intros [= <- <-].
  - destruct tile as [q |]; cbn [ref_drop ref_use ref_take];
      rewrite ?tile_decref_sweep, ?tile_use_sweep, ?tile_incref_sweep; exact Hv2.
  - rewrite ref_drop_sweep. exact Hv2.
Qed.

Lemma release_tile_counts r s :
  m_tilecache (release_tile r s) = m_tilecache s /\
  micro_refs (release_tile r s) = micro_refs s.
Proof.
  destruct r as [p |]; [| split; reflexivity]. unfold release_tile. split.
  - rewrite !tile_decref_tilecache.
    rewrite (f_equal (fun x => fst (fst (fst x))) (tile_use_ledger p (tile_incref p s))
             : m_tilecache _ = m_tilecache _).
    apply (proj2 (proj2 (tile_incref_frame p s))).
  - apply micro_refs_perthread.
    rewrite !tile_decref_perthread, tile_use_perthread. apply tile_incref_perthread.
Qed.

(** The reference count of a tile that a handle refers to. *)
Lemma cache_ok_handle handles s p :
  cache_ok (p :: handles) s ->
  exists t, tile_store s !! p = Some t /\
    t_refcnt t = (occurrences p (table_refs s) + occurrences p (micro_refs s)
                  + S (occurrences p handles))%nat.
Proof.
  intros Hok. pose proof (proj1 Hok p) as Hc. unfold refcount in Hc.
  rewrite occurrences_app, occurrences_cons in Hc.
  destruct (Nat.eq_dec p p) as [_ | Hne]; [| congruence].
  destruct (tile_store s !! p) as [t |]; [| lia]. exists t. split; [reflexivity | lia].
Qed.

(** [reads_directly] as a test. *)
Lemma reads_directly_test s p subimage :
  match file_store s !! p with
  | Some f => read_directly_b f subimage
  | None => true
  end = true ->
  reads_directly s p subimage.
Proof. intros H f Hf. rewrite Hf in H. apply read_directly_b_true, H. Qed.

(** *** The three properties *)

(** X14. The contract of [find_tile_main_cache], for a tile that is read
    from its file, in a cache whose references are counted and whose sweep
    iterator is on an entry or at the end: it gives up the reference it was
    passed and comes back with a reference to a tile that carries the
    requested id and that the table holds under that id.  The reference
    count of every tile is again the number of the references to it, with
    the returned reference counted and the passed one not, so the returned
    tile has one for the table and one for the caller; the byte counter
    stays the size of the live tiles, the microcache keeps its references
    and the sweep iterator stays valid. *)
Theorem find_tile_main_cache_returns_the_requested_tile (io : External)
    (handles : list nat) (id : TileID) (tile : option nat) (s : ImageCacheImpl) :
  reads_directly s (id_file id) (id_subimage id) ->
  sweep_valid s ->
  cache_ok (option_list tile ++ handles) s ->
  exists p t,
    snd (fst (find_tile_main_cache io id tile s)) = Some p /\
    tile_store (snd (find_tile_main_cache io id tile s)) !! p = Some t /\
    t_id t = id /\
    assoc_find id (m_tilecache (snd (find_tile_main_cache io id tile s))) = Some p /\
    cache_ok (p :: handles) (snd (find_tile_main_cache io id tile s)) /\
    sweep_valid (snd (find_tile_main_cache io id tile s)) /\
    micro_refs (snd (find_tile_main_cache io id tile s)) = micro_refs s /\
    t_refcnt t
    = (occurrences p (table_refs (snd (find_tile_main_cache io id tile s)))
       + occurrences p (micro_refs s) + S (occurrences p handles))%nat /\
    (2 <= t_refcnt t)%nat /\
    (forall q,
       (refcount (snd (find_tile_main_cache io id tile s)) q
        + occurrences q (table_refs s) + occurrences q (option_list tile)
        = refcount s q
          + occurrences q (table_refs (snd (find_tile_main_cache io id tile s)))
          + occurrences q [p])%nat).
Proof.
  intros Hd Hv Hok.
  destruct (find_tile_main_cache_ok io handles id tile s Hd Hok)
    as (p & t & Hr & Hp & Hid & Htab & Hok').
  pose proof (find_tile_main_cache_micro io id tile s Hd) as Hm.
  pose proof (find_tile_main_cache_valid io id tile s Hd Hv) as Hv'.
  exists p, t. split; [exact Hr |]. split; [exact Hp |]. split; [exact Hid |].
  split; [exact Htab |]. split; [exact Hok' |]. split; [exact Hv' |].
  split; [exact Hm |].
  destruct (cache_ok_handle _ _ _ Hok') as (t0 & Hp0 & Hcount).
  rewrite Hp in Hp0. injection Hp0 as <-. rewrite Hm in Hcount.
  split; [exact Hcount |].
  split.
  - pose proof (occurrences_In p _ (In_table_refs id p _ (assoc_find_In _ _ _ Htab))) as Ht.
    lia.
  - intros q. pose proof (proj1 Hok q) as Hc. pose proof (proj1 Hok' q) as Hc'.
    rewrite Hm in Hc'.
    rewrite !occurrences_app in Hc. rewrite occurrences_app in Hc'.
    rewrite (occurrences_cons q p handles) in Hc'.
    rewrite (occurrences_cons q p []), occurrences_nil. lia.
Qed.

(** X15. A handle that [get_tile] gives out is a counted reference.  For a
    [get_tile] that returns, on a tile that is read from its file, from a
    cache whose references are counted and whose sweep iterator is valid:
    the references are counted again, with the handle among them, and the
    sweep iterator is valid; the tile of the handle is alive, with a
    reference count that is the number of its references in the table and
    the microcache and of the handles to it; and [release_tile] on the
    handle leads to a cache with the same table and microcache whose
    references are counted without it. *)
Theorem tile_handles_are_counted (io : External) (handles : list nat) (fuel : nat)
    (filename : ustring) (subimage x y z : Z) (s : ImageCacheImpl)
    (r : option nat) (s' : ImageCacheImpl) :
  (forall p s1,
     find_file io fuel filename (get_perthread_info s) = Some (Some p, s1) ->
     reads_directly s1 p subimage) ->
  sweep_valid s ->
  cache_ok handles s ->
  get_tile io fuel filename subimage x y z s = Some (r, s') ->
  cache_ok (option_list r ++ handles) s' /\
  sweep_valid s' /\
  (forall p, r = Some p ->
     exists t, tile_store s' !! p = Some t /\
       t_refcnt t = (occurrences p (table_refs s') + occurrences p (micro_refs s')
                     + S (occurrences p handles))%nat) /\
  cache_ok handles (release_tile r s') /\
  m_tilecache (release_tile r s') = m_tilecache s' /\
  micro_refs (release_tile r s') = micro_refs s' /\
  (forall q, refcount s' q
             = (refcount (release_tile r s') q + occurrences q (option_list r))%nat).
Proof.
  intros Hd Hv Hok Hget.
  pose proof (get_tile_ok io handles fuel filename subimage x y z s r s' Hd Hok Hget)
    as Hok'.
  pose proof (get_tile_valid io fuel filename subimage x y z s r s' Hd Hv Hget) as Hv'.
  assert (Hrel : cache_ok handles (release_tile r s'))
    by (destruct r as [p |]; [apply release_tile_ok | ]; exact Hok').
  destruct (release_tile_counts r s') as (Htab & Hmic).
  split; [exact Hok' |]. split; [exact Hv' |]. split.
  { intros p ->. apply cache_ok_handle, Hok'. }
  split; [exact Hrel |]. split; [exact Htab |]. split; [exact Hmic |].
  intros q. pose proof (proj1 Hok' q) as Hc. pose proof (proj1 Hrel q) as Hc'.
  unfold table_refs in Hc'. rewrite Htab, Hmic in Hc'. fold (table_refs s') in Hc'.
  rewrite !occurrences_app in Hc. rewrite occurrences_app in Hc'. lia.
Qed.

(** X16. A tile that is held from outside the table outlives the memory
    sweep, when its iterator is valid, the purge of the microcache and an
    invalidation: after each of them the references are still counted, and
    the tile is alive with the id, the pixels and the validity it had, and
    with a reference count that is the number of its references in the
    table and the microcache and of the handles to it. *)
Theorem held_tile_survives (io : External) (handles : list nat) (p : nat)
    (s : ImageCacheImpl) (t : ImageCacheTile) (s' : ImageCacheImpl) :
  cache_ok (p :: handles) s ->
  tile_store s !! p = Some t ->
  (sweep_valid s /\ s' = check_max_mem s) \/ s' = get_perthread_info s \/
  (exists filename, s' = invalidate io filename s) ->
  cache_ok (p :: handles) s' /\
  exists t', tile_store s' !! p = Some t' /\
             t_refcnt t' = (occurrences p (table_refs s') + occurrences p (micro_refs s')
                            + S (occurrences p handles))%nat /\
             t_id t' = t_id t /\ t_pixels t' = t_pixels t /\ t_valid t' = t_valid t.
Proof.
  intros Hok Hp Hs'.
  assert (H : cache_ok (p :: handles) s' /\ tile_cores s' = tile_cores s).
  { destruct Hs' as [[_ ->] | [-> | [filename ->]]].
    - split; [apply check_max_mem_cache_ok, Hok | apply check_max_mem_cores].
    - split; [apply get_perthread_info_ok, Hok | apply get_perthread_info_cores].
    - split; [apply invalidate_ok, Hok | apply invalidate_cores]. }
  destruct H as [Hok' Hcores]. split; [exact Hok' |].
  destruct (cores_lookup s s' p t Hcores Hp) as (t' & Hp' & Hcore).
  destruct (cache_ok_handle _ s' p Hok') as (t'' & Hp'' & Hcount).
  rewrite Hp' in Hp''. injection Hp'' as <-.
  exists t'. split; [exact Hp' |]. split; [exact Hcount |].
  unfold tile_core in Hcore. injection Hcore as H1 H2 H3. auto.
Qed.

Lemma a_tiled_ok : cache_ok [0%nat] a_tiled.
Proof.
  apply (get_tile_ok demo_io [] 0 "a.tif" 0 0 0 0 ImageCacheImpl_init
           (Some 0%nat) a_tiled); [| exact cache_ok_init | vm_compute; reflexivity].
  apply (call_reads_directly_b_true demo_io 0 (Get_tile "a.tif" 0 0 0 0) ImageCacheImpl_init).
  vm_compute. reflexivity.
Qed.

Lemma one_kilobyte_cache_ok : cache_ok [] one_kilobyte_cache.
Proof.
  unfold cache_ok.
  assert (Hm : micro_refs one_kilobyte_cache = micro_refs ImageCacheImpl_init)
    by (vm_compute; reflexivity).
  rewrite Hm.
  apply (tiles_ok_ledger _ ImageCacheImpl_init); [vm_compute; reflexivity |].
  exact cache_ok_init.
Qed.

Lemma after_first_tile_ok : cache_ok [0%nat] after_first_tile.
Proof.
  apply (get_tile_ok demo_io [] 0 "a.tif" 0 0 0 0 one_kilobyte_cache
           (Some 0%nat) after_first_tile);
    [| exact one_kilobyte_cache_ok | vm_compute; reflexivity].
  apply (call_reads_directly_b_true demo_io 0 (Get_tile "a.tif" 0 0 0 0) one_kilobyte_cache).
  vm_compute. reflexivity.
Qed.

(** On a miss over the memory ceiling: the handle to the first tile is
    given up, the sweep releases that tile, and the second tile comes back
    with the references of the table and of the caller. *)
Lemma find_tile_main_cache_returns_the_requested_tile_witness :
  (exists p t,
     snd (fst (find_tile_main_cache demo_io (mkTileID 0 0 64 0 0) (Some 0%nat)
                 after_first_tile)) = Some p /\
     tile_store (snd (find_tile_main_cache demo_io (mkTileID 0 0 64 0 0) (Some 0%nat)
                        after_first_tile)) !! p = Some t /\
     t_id t = mkTileID 0 0 64 0 0 /\
     assoc_find (mkTileID 0 0 64 0 0)
       (m_tilecache (snd (find_tile_main_cache demo_io (mkTileID 0 0 64 0 0) (Some 0%nat)
                            after_first_tile))) = Some p /\
     cache_ok [p] (snd (find_tile_main_cache demo_io (mkTileID 0 0 64 0 0) (Some 0%nat)
                          after_first_tile)) /\
     sweep_valid (snd (find_tile_main_cache demo_io (mkTileID 0 0 64 0 0) (Some 0%nat)
                         after_first_tile)) /\
     micro_refs (snd (find_tile_main_cache demo_io (mkTileID 0 0 64 0 0) (Some 0%nat)
                        after_first_tile)) = micro_refs after_first_tile /\
     t_refcnt t
     = (occurrences p
          (table_refs (snd (find_tile_main_cache demo_io (mkTileID 0 0 64 0 0) (Some 0%nat)
                              after_first_tile)))
        + occurrences p (micro_refs after_first_tile) + S (occurrences p []))%nat /\
     (2 <= t_refcnt t)%nat /\
     (forall q,
        (refcount (snd (find_tile_main_cache demo_io (mkTileID 0 0 64 0 0) (Some 0%nat)
                          after_first_tile)) q
         + occurrences q (table_refs after_first_tile)
         + occurrences q (option_list (Some 0%nat))
         = refcount after_first_tile q
           + occurrences q
               (table_refs (snd (find_tile_main_cache demo_io (mkTileID 0 0 64 0 0)
                                   (Some 0%nat) after_first_tile)))
           + occurrences q [p])%nat)) /\
  fst (find_tile_main_cache demo_io (mkTileID 0 0 64 0 0) (Some 0%nat) after_first_tile)
  = (true, Some 1%nat) /\
  refcount after_first_tile 0 = 2%nat /\
  refcount after_second_lookup 0 = 0%nat /\
  refcount after_second_lookup 1 = 2%nat /\
  m_mem_used after_first_tile = 12288 /\
  m_mem_used after_second_lookup = 12288.
Proof.
  split; [| repeat split; vm_compute; reflexivity].
  apply (find_tile_main_cache_returns_the_requested_tile demo_io [] (mkTileID 0 0 64 0 0)
           (Some 0%nat) after_first_tile).
  - apply reads_directly_test. vm_compute. reflexivity.
  - unfold sweep_valid. vm_compute. discriminate.
  - exact after_first_tile_ok.
Defined.

Lemma tile_handles_are_counted_witness :
  cache_ok (option_list (Some 0%nat) ++ []) after_first_tile /\
  sweep_valid after_first_tile /\
  (forall p, Some 0%nat = Some p ->
     exists t, tile_store after_first_tile !! p = Some t /\
       t_refcnt t = (occurrences p (table_refs after_first_tile)
                     + occurrences p (micro_refs after_first_tile)
                     + S (occurrences p []))%nat) /\
  cache_ok [] (release_tile (Some 0%nat) after_first_tile) /\
  m_tilecache (release_tile (Some 0%nat) after_first_tile) = m_tilecache after_first_tile /\
  micro_refs (release_tile (Some 0%nat) after_first_tile) = micro_refs after_first_tile /\
  (forall q, refcount after_first_tile q
             = (refcount (release_tile (Some 0%nat) after_first_tile) q
                + occurrences q (option_list (Some 0%nat)))%nat).
Proof.
  apply (tile_handles_are_counted demo_io [] 0 "a.tif" 0 0 0 0 one_kilobyte_cache
           (Some 0%nat) after_first_tile).
  - apply (call_reads_directly_b_true demo_io 0 (Get_tile "a.tif" 0 0 0 0)
             one_kilobyte_cache).
    vm_compute. reflexivity.
  - unfold sweep_valid. vm_compute. discriminate.
  - exact one_kilobyte_cache_ok.
  - vm_compute. reflexivity.
Defined.

(** The memory sweep over the ceiling of 1024 bytes takes the first tile
    out of the table; the tile stays alive on the handle to it. *)
Lemma held_tile_survives_witness :
  (cache_ok [0%nat] (check_max_mem after_first_tile) /\
   exists t', tile_store (check_max_mem after_first_tile) !! 0%nat = Some t' /\
              t_refcnt t'
              = (occurrences 0 (table_refs (check_max_mem after_first_tile))
                 + occurrences 0 (micro_refs (check_max_mem after_first_tile))
                 + S (occurrences 0 []))%nat /\
              t_id t' = t_id a_tile /\ t_pixels t' = t_pixels a_tile /\
              t_valid t' = t_valid a_tile) /\
  m_tilecache (check_max_mem after_first_tile) = [] /\
  refcount after_first_tile 0 = 2%nat /\
  refcount (check_max_mem after_first_tile) 0 = 1%nat.
Proof.
  split; [| repeat split; vm_compute; reflexivity].
  apply (held_tile_survives demo_io [] 0 after_first_tile a_tile
           (check_max_mem after_first_tile)).
  - exact after_first_tile_ok.
  - vm_compute. reflexivity.
  - left. split; [unfold sweep_valid; vm_compute; discriminate | reflexivity].
Defined.

(** ** Invalidation and the sweep iterator of the tile table *)







(** ** The shared cache *)

Lemma run_call_shared ic s c pr : shared_is ic s pr -> shared_is ic s (run_call c pr).
Proof.
  intros [Hs Hc]. destruct c as [[|] | x]; cbn [run_call].
  - unfold ImageCache_create. rewrite Hs. split; assumption.
  - unfold ImageCache_create, new_ImageCacheImpl. cbn [snd shared_image_cache caches].
    split; [exact Hs |]. apply lookup_app_l_Some, Hc.
  - unfold ImageCache_destroy. case_bool_decide as Hx; [| split; assumption].
    destruct x as [q |]; [| split; assumption].
    split; [exact Hs |].
    change (<[q := None]> (caches pr) !! ic = Some (Some s)).
    rewrite list_lookup_insert_ne; [exact Hc |]. congruence.
Qed.

Lemma run_calls_shared ic s cs :
  forall pr, shared_is ic s pr -> shared_is ic s (run_calls cs pr).
Proof.
  induction cs as [| c cs IH]; intros pr H; [exact H |].
  apply (IH (run_call c pr)), run_call_shared, H.
Qed.

(** X25. The shared cache is created once and never deleted.  The first
    [create (true)] makes a fresh cache in its initial state and records it;
    after any calls of [create] and [destroy], also [destroy] of the shared
    cache itself, it is still the shared cache, alive and in the state it
    was in, and [create (true)] returns it again without touching
    anything. *)
Theorem shared_cache_survives (pr : Process) (cs : list cache_call) :
  shared_image_cache pr = None ->
  shared_is (fst (ImageCache_create true pr)) ImageCacheImpl_init
    (snd (ImageCache_create true pr)) /\
  forall s pr1,
    shared_is (fst (ImageCache_create true pr)) s pr1 ->
    shared_is (fst (ImageCache_create true pr)) s (run_calls cs pr1) /\
    ImageCache_create true (run_calls cs pr1)
    = (fst (ImageCache_create true pr), run_calls cs pr1) /\
    ImageCache_destroy (Some (fst (ImageCache_create true pr))) (run_calls cs pr1)
    = run_calls cs pr1.
Proof.
  intros Hnone. split.
  - unfold ImageCache_create, new_ImageCacheImpl. rewrite Hnone.
    cbn [fst snd]. split; [reflexivity |].
    cbn [caches]. apply list_lookup_middle. reflexivity.
  - intros s pr1 H1.
    pose proof (run_calls_shared _ s cs pr1 H1) as [Hs Hc].
    split; [split; assumption |]. split.
    + unfold ImageCache_create at 1. rewrite Hs. reflexivity.
    + unfold ImageCache_destroy. rewrite Hs.
      rewrite bool_decide_eq_false_2; [reflexivity |]. intros H. apply H. reflexivity.
Qed.

(** X26. A cache that is not shared is the caller's own: [create (false)]
    returns a fresh cache in its initial state, which is not the shared
    cache and leaves the caches that exist as they are; [destroy] deletes
    that cache and no other. *)
Theorem private_cache_is_fresh (pr : Process) :
  (forall ic, shared_image_cache pr = Some ic -> is_Some (caches pr !! ic)) ->
  caches (snd (ImageCache_create false pr)) !! fst (ImageCache_create false pr)
    = Some (Some ImageCacheImpl_init) /\
  caches pr !! fst (ImageCache_create false pr) = None /\
  Some (fst (ImageCache_create false pr)) <> shared_image_cache pr /\
  shared_image_cache (snd (ImageCache_create false pr)) = shared_image_cache pr /\
  (forall q c, caches pr !! q = Some c ->
               caches (snd (ImageCache_create false pr)) !! q = Some c) /\
  caches (ImageCache_destroy (Some (fst (ImageCache_create false pr)))
            (snd (ImageCache_create false pr))) !! fst (ImageCache_create false pr)
    = Some None /\
  (forall q c, caches pr !! q = Some c ->
               caches (ImageCache_destroy (Some (fst (ImageCache_create false pr)))
                         (snd (ImageCache_create false pr))) !! q = Some c).
Proof.
  intros Hvalid. unfold ImageCache_create, new_ImageCacheImpl. cbn [fst snd caches].
  set (n := length (caches pr)).
  assert (Hfresh : caches pr !! n = None) by (apply lookup_ge_None_2; unfold n; lia).
  assert (Hns : Some n <> shared_image_cache pr).
  { intros H. destruct (Hvalid n (eq_sym H)) as [c Hc]. congruence. }
  assert (Hnew : (caches pr ++ [Some ImageCacheImpl_init]) !! n
                 = Some (Some ImageCacheImpl_init))
    by (apply list_lookup_middle; reflexivity).
  split; [exact Hnew |]. split; [exact Hfresh |]. split; [exact Hns |].
  split; [reflexivity |]. split; [intros q c Hq; apply lookup_app_l_Some, Hq |].
  unfold ImageCache_destroy. cbn [shared_image_cache caches].
  rewrite bool_decide_eq_true_2 by exact Hns. cbn [caches].
  split.
  - apply list_lookup_insert_eq. eapply lookup_lt_Some, Hnew.
  - intros q c Hq. rewrite list_lookup_insert_ne.
    + apply lookup_app_l_Some, Hq.
    + intros <-. congruence.
Qed.

Lemma shared_cache_survives_witness :
  shared_is 0%nat ImageCacheImpl_init (snd (ImageCache_create true no_caches)) /\
  forall s pr1,
    shared_is 0%nat s pr1 ->
    shared_is 0%nat s (run_calls some_calls pr1) /\
    ImageCache_create true (run_calls some_calls pr1) = (0%nat, run_calls some_calls pr1) /\
    ImageCache_destroy (Some 0%nat) (run_calls some_calls pr1) = run_calls some_calls pr1.
Proof.
  apply (shared_cache_survives no_caches some_calls). reflexivity.
Defined.

Lemma private_cache_is_fresh_witness :
  caches (snd (ImageCache_create false no_caches)) !! 0%nat = Some (Some ImageCacheImpl_init) /\
  caches (ImageCache_destroy (Some 0%nat) (snd (ImageCache_create false no_caches))) !! 0%nat
  = Some None.
Proof.
  destruct (private_cache_is_fresh no_caches) as (H1 & _ & _ & _ & _ & H2 & _).
  - intros ic H. discriminate.
  - split; [exact H1 | exact H2].
Defined.
